(** * Delica Space Gear parts scraper: a shallow embedding

    The development follows the scraper's TypeScript sources:
    - [Js]        : JavaScript strings (UTF-16 code units), the string
                    methods and the regular expressions the parser uses;
    - [Utils]     : utils.ts ([slugify], [cleanDescription]);
    - [Parser]    : scraper/parser.ts ([parsePartsPage],
                    [parseDetailListSections]);
    - [Scheduler] : scraper/index.ts ([Scraper.run], [scrapeIndex],
                    [processQueue], [processPage]);
    - [Schema]    : the tables of db/schema.ts ([createSchema]);
    - [Repair]    : the script that repairs parts shared between the
                    diagrams of one listing page ([main]);
    - [Migration] : db/schema.ts
                    ([migrateReplacesIdToReplacementPartNumber]);
    - [Fetcher]   : the rate-limited fetcher, configured by DEFAULT_CONFIG
                    of types.ts.

    The definitions come first; the theorems follow, one module of facts
    per module of definitions. *)

From Stdlib Require Import Strings.String Strings.Ascii.
From Stdlib Require Import List NArith ZArith QArith Qminmax Bool Lia.
Import ListNotations.

Set Implicit Arguments.
Close Scope Q_scope.

(* ===================================================================== *)
(** ** JavaScript strings and regular expressions                         *)
(* ===================================================================== *)

Module Js.

Local Open Scope N_scope.

(** A JavaScript string is a sequence of UTF-16 code units. *)
Definition jsstring := list N.

(** An ASCII literal as a JavaScript string. *)
Definition lit (s : string) : jsstring :=
  map N_of_ascii (list_ascii_of_string s).

Fixpoint eqb (a b : jsstring) : bool :=
  match a, b with
  | [], [] => true
  | x :: a', y :: b' => (x =? y) && eqb a' b'
  | _, _ => false
  end.

(** Truthiness of a string value: [""] is falsy. *)
Definition truthy (s : jsstring) : bool :=
  match s with [] => false | _ => true end.

(** [v || null] for [v : string | undefined | null]. *)
Definition orNull (v : option jsstring) : option jsstring :=
  match v with
  | Some s => if truthy s then Some s else None
  | None => None
  end.

(** *** Character classes *)

Definition between (lo hi c : N) : bool := (lo <=? c) && (c <=? hi).

Definition isDigit (c : N) : bool := between 48 57 c.        (* \d, [0-9] *)
Definition isUpper (c : N) : bool := between 65 90 c.        (* [A-Z] *)
Definition isLower (c : N) : bool := between 97 122 c.       (* [a-z] *)
Definition isUpperDigit (c : N) : bool := isUpper c || isDigit c.  (* [A-Z0-9] *)
Definition isLowerDigit (c : N) : bool := isLower c || isDigit c.  (* [a-z0-9] *)
(** [[A-Z0-9]] under the [i] flag: canonicalisation never identifies a code
    unit above 127 with an ASCII one, so only ASCII letters are added. *)
Definition isAlnum (c : N) : bool := isUpper c || isLower c || isDigit c.
Definition isHexDigit (c : N) : bool :=
  isDigit c || between 65 70 c || between 97 102 c.

(** [\s], and the characters removed by [trim] and skipped by [parseInt]:
    WhiteSpace and LineTerminator of ECMAScript. *)
Definition isSpace (c : N) : bool :=
  between 9 13 c || (c =? 32) || (c =? 160) || (c =? 5760) ||
  between 8192 8202 c || (c =? 8232) || (c =? 8233) || (c =? 8239) ||
  (c =? 8287) || (c =? 12288) || (c =? 65279).

(** *** String methods *)

Fixpoint trimStart (s : jsstring) : jsstring :=
  match s with
  | c :: s' => if isSpace c then trimStart s' else s
  | [] => []
  end.

Definition trimEnd (s : jsstring) : jsstring := rev (trimStart (rev s)).

Definition trim (s : jsstring) : jsstring := trimEnd (trimStart s).

(** [toLowerCase].  The ASCII letters are mapped as usual.  Two code units
    above 127 have a lower case inside ASCII: KELVIN SIGN (U+212A) gives
    [k], and LATIN CAPITAL LETTER I WITH DOT ABOVE (U+0130) gives [i]
    followed by U+0307.  Every other code unit above 127 has a lower case
    above 127, which no caller distinguishes from the code unit itself
    (the callers only compare with ASCII text): it is left as it is. *)
Definition lowerUnit (c : N) : jsstring :=
  if isUpper c then [c + 32]
  else if c =? 8490 then [107]
  else if c =? 304 then [105; 775]
  else [c].

Definition toLowerCase (s : jsstring) : jsstring := flat_map lowerUnit s.

Fixpoint startsWith (s p : jsstring) : bool :=
  match p, s with
  | [], _ => true
  | a :: p', b :: s' => (a =? b) && startsWith s' p'
  | _ :: _, [] => false
  end.

Fixpoint includes (s needle : jsstring) : bool :=
  startsWith s needle ||
  match s with
  | [] => false
  | _ :: s' => includes s' needle
  end.

(** ASCII case folding, as the [i] flag of a regular expression compares
    code units (a code unit above 127 only equals itself). *)
Definition foldUnit (c : N) : N := if isUpper c then c + 32 else c.

Fixpoint eqbIgnoreCase (a b : jsstring) : bool :=
  match a, b with
  | [], [] => true
  | x :: a', y :: b' => (foldUnit x =? foldUnit y) && eqbIgnoreCase a' b'
  | _, _ => false
  end.

(** [s.split(sep)[0]] for a non-empty separator: the text before the first
    occurrence of [sep], or all of [s]. *)
Fixpoint splitHead (s sep : jsstring) : jsstring :=
  match s with
  | [] => []
  | c :: s' => if startsWith s sep then [] else c :: splitHead s' sep
  end.

(** *** Regular expressions

    Every pattern of the parser is a sequence of quantified character
    classes, possibly anchored.  [match_items] is the backtracking matcher
    of such a sequence: each class is matched greedily and gives characters
    back one at a time, as the ECMAScript matcher does; it returns the
    length of the match that is found first. *)

Record item := Item { cls : N -> bool; lo : nat; hi : option nat }.

Fixpoint run_len (c : N -> bool) (bound : option nat) (s : jsstring) : nat :=
  match s with
  | [] => O
  | x :: s' =>
      if c x then
        match bound with
        | None => S (run_len c None s')
        | Some O => O
        | Some (S b) => S (run_len c (Some b) s')
        end
      else O
  end.

Fixpoint try_down (k lo : nat) (f : nat -> option nat) : option nat :=
  if Nat.ltb k lo then None
  else match f k with
       | Some n => Some (k + n)%nat
       | None => match k with
                 | O => None
                 | S k' => try_down k' lo f
                 end
       end.

Fixpoint match_items (toEnd : bool) (its : list item) (s : jsstring)
  : option nat :=
  match its with
  | [] => if toEnd then (match s with [] => Some O | _ => None end)
          else Some O
  | it :: rest =>
      try_down (run_len (cls it) (hi it) s) (lo it)
               (fun k => match_items toEnd rest (skipn k s))
  end.

(** [/^...$/.test(s)] *)
Definition test_anchored (its : list item) (s : jsstring) : bool :=
  match match_items true its s with Some _ => true | None => false end.

(** [s.match(/.../)] without [^], [$] or the [g] flag: the leftmost match;
    the result is [match[0]]. *)
Fixpoint search (its : list item) (s : jsstring) : option jsstring :=
  match match_items false its s with
  | Some n => Some (firstn n s)
  | None => match s with
            | [] => None
            | _ :: s' => search its s'
            end
  end.

Definition one (c : N -> bool) : item := Item c 1 (Some 1%nat).
Definition opt (c : N -> bool) : item := Item c 0 (Some 1%nat).
Definition star (c : N -> bool) : item := Item c 0 None.
Definition rep (c : N -> bool) (n : nat) : item := Item c n (Some n).
Definition atLeast (c : N -> bool) (n : nat) : item := Item c n None.
Definition range (c : N -> bool) (n m : nat) : item := Item c n (Some m).

(** What a match of a sequence of items looks like: [segs its s] when [s]
    splits into one segment per item, each made of characters of the
    item's class and at least as long as its minimum. *)
Inductive segs : list item -> jsstring -> Prop :=
| segs_nil : segs [] []
| segs_cons : forall it its a b,
    (lo it <= length a)%nat ->
    forallb (cls it) a = true ->
    segs its b ->
    segs (it :: its) (a ++ b).

Definition minLen (its : list item) : nat :=
  fold_right (fun it n => (lo it + n)%nat) O its.

(** *** Numbers

    The Numbers that [parseInt] returns: the doubles of integral value,
    the two infinities and [NaN].  [Finite 0] stands for both zeros, which
    [||] and [===] do not tell apart. *)
Inductive Number :=
| Finite (z : Z)
| Infinity
| NegInfinity
| NaN.

(** The Number of a mathematical integer [m >= 0]: [m] itself below
    2^53; beyond, [m] rounded to 53 significant bits, ties to the even
    mantissa; [Infinity] when the rounded value reaches 2^1024.  (For
    more than 20 decimal digits the language lets an engine round an
    approximation of [m]; the facts proved of [parseInt] are about
    zero, NaN and the infinities only, and hold either way.) *)
Definition toNumber (m : Z) : Number :=
  if (m <? 2 ^ 53)%Z then Finite m
  else
    let shift := (Z.log2 m - 52)%Z in
    let q := Z.shiftr m shift in
    let r := (m - Z.shiftl q shift)%Z in
    let half := Z.shiftl 1 (shift - 1) in
    let q' := if (half <? r)%Z || ((r =? half)%Z && Z.odd q)
              then (q + 1)%Z else q in
    let v := Z.shiftl q' shift in
    if (2 ^ 1024 <=? v)%Z then Infinity else Finite v.

(** Unary minus. *)
Definition negate (x : Number) : Number :=
  match x with
  | Finite z => Finite (- z)
  | Infinity => NegInfinity
  | NegInfinity => Infinity
  | NaN => NaN
  end.

(** ToBoolean of a Number: [0] and [NaN] are falsy. *)
Definition truthyNumber (x : Number) : bool :=
  match x with
  | Finite z => negb (z =? 0)%Z
  | Infinity | NegInfinity => true
  | NaN => false
  end.

(** *** parseInt

    [parseInt(s)] with no radix: leading white space is skipped, a sign is
    read, a [0x] / [0X] prefix selects radix 16, and the longest prefix of
    digits is evaluated to a mathematical integer ([None] when there is no
    digit).  The result is the Number of that integer, with the sign, or
    [NaN]. *)

Definition digitVal (c : N) : Z :=
  if isDigit c then Z.of_N (c - 48)
  else if between 65 70 c then Z.of_N (c - 55)
  else Z.of_N (c - 87).

Fixpoint digitsVal (radix : Z) (isD : N -> bool) (acc : Z) (s : jsstring)
  : Z :=
  match s with
  | c :: s' => if isD c then digitsVal radix isD (radix * acc + digitVal c) s'
               else acc
  | [] => acc
  end.

Definition parseDigits (radix : Z) (isD : N -> bool) (s : jsstring)
  : option Z :=
  match s with
  | c :: _ => if isD c then Some (digitsVal radix isD 0%Z s) else None
  | [] => None
  end.

Definition parseUnsigned (s : jsstring) : option Z :=
  match s with
  | 48 :: x :: s' =>
      if (x =? 120) || (x =? 88) then parseDigits 16 isHexDigit s'
      else parseDigits 10 isDigit s
  | _ => parseDigits 10 isDigit s
  end.

Definition numberOf (mathInt : option Z) : Number :=
  match mathInt with
  | Some m => toNumber m
  | None => NaN
  end.

Definition parseInt (input : jsstring) : Number :=
  match trimStart input with
  | 45 :: s' => negate (numberOf (parseUnsigned s'))
  | 43 :: s' => numberOf (parseUnsigned s')
  | s => numberOf (parseUnsigned s)
  end.

End Js.

(* ===================================================================== *)
(** ** utils.ts                                                           *)
(* ===================================================================== *)

Module Utils.
Import Js.
Local Open Scope N_scope.

(** [cleaned.replace(/,(?!\s)/g, ", ")] *)
Fixpoint commaSpace (s : jsstring) : jsstring :=
  match s with
  | [] => []
  | c :: s' =>
      if c =? 44 then
        match s' with
        | x :: _ => if isSpace x then c :: commaSpace s'
                    else c :: 32 :: commaSpace s'
        | [] => [c; 32]
        end
      else c :: commaSpace s'
  end.

(** [cleaned.replace(/\s{2,}/g, " ")]: [run] is the white space run being
    read, with its first code unit and whether it has two or more. *)
Definition flushRun (run : option (N * bool)) : jsstring :=
  match run with
  | None => []
  | Some (c, false) => [c]
  | Some (_, true) => [32]
  end.

Fixpoint collapseSpaces (run : option (N * bool)) (s : jsstring) : jsstring :=
  match s with
  | [] => flushRun run
  | c :: s' =>
      if isSpace c then
        collapseSpaces (match run with
                        | None => Some (c, false)
                        | Some (c0, _) => Some (c0, true)
                        end) s'
      else flushRun run ++ c :: collapseSpaces None s'
  end.

Definition cleanDescription (description : option jsstring)
  : option jsstring :=
  match description with
  | None => None
  | Some d =>
      if negb (truthy d) then None
      else
        let cleaned := commaSpace d in
        let cleaned := collapseSpaces None cleaned in
        let cleaned := trim cleaned in
        orNull (Some cleaned)
  end.

(** The transliteration table of [slugify], by code unit: the lower case
    letters U+0430..U+044F in order, then their upper case forms, then the
    two forms of IO. *)
Definition cyrillicLower : list string :=
  ["a"; "b"; "v"; "g"; "d"; "e"; "zh"; "z"; "i"; "y"; "k"; "l"; "m"; "n";
   "o"; "p"; "r"; "s"; "t"; "u"; "f"; "kh"; "ts"; "ch"; "sh"; "shch";
   ""; "y"; ""; "e"; "yu"; "ya"]%string.

Definition cyrillicMap (c : N) : option jsstring :=
  if between 1072 1103 c then
    option_map lit (nth_error cyrillicLower (N.to_nat (c - 1072)))
  else if between 1040 1071 c then
    option_map lit (nth_error cyrillicLower (N.to_nat (c - 1040)))
  else if (c =? 1105) || (c =? 1025) then Some (lit "e")
  else None.

(** [cyrillicMap[char] ?? char], accumulated over the text. *)
Definition transliterate (text : jsstring) : jsstring :=
  flat_map (fun c => match cyrillicMap c with
                     | Some r => r
                     | None => [c]
                     end) text.

(** [.replace(/[^a-z0-9]+/g, "-")] *)
Fixpoint dashRuns (inRun : bool) (s : jsstring) : jsstring :=
  match s with
  | [] => []
  | c :: s' =>
      if isLowerDigit c then c :: dashRuns false s'
      else if inRun then dashRuns true s'
      else 45 :: dashRuns true s'
  end.

(** [.replace(/-+/g, "-")] *)
Fixpoint collapseDashes (inRun : bool) (s : jsstring) : jsstring :=
  match s with
  | [] => []
  | c :: s' =>
      if c =? 45 then
        if inRun then collapseDashes true s' else 45 :: collapseDashes true s'
      else c :: collapseDashes false s'
  end.

(** [.replace(/^-|-$/g, "")] *)
Definition dropLeadingDash (s : jsstring) : jsstring :=
  match s with
  | 45 :: s' => s'
  | _ => s
  end.

Definition stripDashes (s : jsstring) : jsstring :=
  rev (dropLeadingDash (rev (dropLeadingDash s))).

Definition slugify (text : jsstring) : jsstring :=
  let result := transliterate text in
  stripDashes (collapseDashes false (dashRuns false (toLowerCase result))).

End Utils.

(* ===================================================================== *)
(** ** scraper/parser.ts                                                  *)
(* ===================================================================== *)

Module Parser.
Import Js Utils.
Local Open Scope N_scope.

Record ParsedPart := {
  partNumber : jsstring;
  pnc : option jsstring;
  description : option jsstring;
  refNumber : option jsstring;
  quantity : option Number;
  spec : option jsstring;
  notes : option jsstring;
  color : option jsstring;
  modelDateRange : option jsstring
}.

Record ParsedDiagram := {
  id : jsstring;
  name : jsstring;
  imageUrl : option jsstring
}.

Record ParsedDiagramPage := {
  diagram : ParsedDiagram;
  parts : list ParsedPart
}.

(** What [parsePartsPage] reads of the document that cheerio loads:
    the text of the first [h1] and of [title] ([""] when there is none),
    the [src] attribute of every [img.parts_picture] in document order,
    and the text of every [td] of the first [table.top_cars], if any. *)
Record PartsPageDom := {
  h1Text : jsstring;
  titleText : jsstring;
  partsPictureSrcs : list (option jsstring);
  topCarsCells : option (list jsstring)
}.

(** [/^[A-Z]{1,3}\d{5,}[A-Z0-9]*$|^[A-Z]{2}[A-Z0-9]{4,}$/] *)
Definition oemPattern1 : list item :=
  [range isUpper 1 3; atLeast isDigit 5; star isUpperDigit].
Definition oemPattern2 : list item :=
  [rep isUpper 2; atLeast isUpperDigit 4].
Definition oemPattern_test (cell : jsstring) : bool :=
  test_anchored oemPattern1 cell || test_anchored oemPattern2 cell.

(** [/\d{4}[\.\/-]\d{1,2}[\.\/-]?\d{0,2}\s*[-~]\s*\d{4}[\.\/-]\d{1,2}/] *)
Definition isDateSep (c : N) : bool := (c =? 46) || (c =? 47) || (c =? 45).
Definition isRangeSep (c : N) : bool := (c =? 45) || (c =? 126).
Definition dateRangePattern : list item :=
  [rep isDigit 4; one isDateSep; range isDigit 1 2; opt isDateSep;
   range isDigit 0 2; star isSpace; one isRangeSep; star isSpace;
   rep isDigit 4; one isDateSep; range isDigit 1 2].

(** The header test of the main loop:
    [cell.toLowerCase().includes("oem") ||
     cell.toLowerCase().includes("part number")] *)
Definition isHeaderCell (cell : jsstring) : bool :=
  includes (toLowerCase cell) (lit "oem") ||
  includes (toLowerCase cell) (lit "part number").

(** The test that ends the date scan at cell [j]:
    [j > i + 6 && oemPattern.test(scanCell) &&
     !scanCell.toLowerCase().includes("oem")] *)
Definition isNextEntry (i j : nat) (scanCell : jsstring) : bool :=
  Nat.ltb (i + 6) j && oemPattern_test scanCell &&
  negb (includes (toLowerCase scanCell) (lit "oem")).

(** The body of the scan [for (let j = ...)], over the indices left. *)
Fixpoint scanLoop (allCells : list jsstring) (i : nat) (js : list nat)
  : option jsstring :=
  match js with
  | [] => None
  | j :: js' =>
      match nth_error allCells j with
      | None => scanLoop allCells i js'
      | Some scanCell =>
          if negb (truthy scanCell) then scanLoop allCells i js'
          else
            match search dateRangePattern scanCell with
            | Some dateMatch => Some dateMatch
            | None =>
                if isNextEntry i j scanCell then None
                else scanLoop allCells i js'
            end
      end
  end.

(** [for (let j = i + 1; j < Math.min(i + 16, allCells.length); j++)] *)
Definition scanDateRange (allCells : list jsstring) (i : nat)
  : option jsstring :=
  scanLoop allCells i
    (seq (i + 1) (Nat.min (i + 16) (length allCells) - (i + 1))).

Definition headerWords : list jsstring :=
  map lit ["no"; "pnc"; "oem"; "required"; "name"; "spec"; "notes";
           "color"]%string.

Definition cleanField (val : option jsstring) : option jsstring :=
  match val with
  | None => None
  | Some v =>
      if negb (truthy v) then None
      else if existsb (eqbIgnoreCase v) headerWords then None
      else if includes (toLowerCase v) (lit "per car") then None
      else orNull (Some v)
  end.

Definition cleanPnc (val : option jsstring) : option jsstring :=
  match val with
  | None => None
  | Some v =>
      if negb (truthy v) then None
      else if test_anchored [rep isDigit 5; range isAlnum 0 2] v then Some v
      else if test_anchored [rep isDigit 4; opt isAlnum] v then Some v
      else None
  end.

(** [allCells[i + 1] ? parseInt(allCells[i + 1]) || null : null] *)
Definition readQuantity (cell : option jsstring) : option Number :=
  match orNull cell with
  | None => None
  | Some c => let n := parseInt c in
              if truthyNumber n then Some n else None
  end.

(** One iteration of the main loop at index [i]: the part pushed, or
    [None] when the iteration ends in [continue]. *)
Definition partAt (allCells : list jsstring) (i : nat) : option ParsedPart :=
  match nth_error allCells i with
  | None => None
  | Some cell =>
      if negb (oemPattern_test cell) then None
      else if isHeaderCell cell then None
      else
        let partNumber := cell in
        let refNumber :=
          if Nat.leb 2 i then orNull (nth_error allCells (i - 2)) else None in
        let pnc :=
          if Nat.leb 1 i then orNull (nth_error allCells (i - 1)) else None in
        let quantity := readQuantity (nth_error allCells (i + 1)) in
        let description := orNull (nth_error allCells (i + 2)) in
        let spec := orNull (nth_error allCells (i + 3)) in
        let notes := orNull (nth_error allCells (i + 4)) in
        let color := orNull (nth_error allCells (i + 5)) in
        let modelDateRange := scanDateRange allCells i in
        if Nat.ltb (length partNumber) 5 then None
        else Some {| partNumber := partNumber;
                     pnc := cleanPnc pnc;
                     description := cleanDescription (cleanField description);
                     refNumber := cleanField refNumber;
                     quantity := quantity;
                     spec := cleanField spec;
                     notes := cleanField notes;
                     color := cleanField color;
                     modelDateRange := modelDateRange |}
  end.

(** [for (let i = 0; i < allCells.length; i++)], with [parts.push]. *)
Fixpoint mainLoop (allCells : list jsstring) (idxs : list nat)
  (parts : list ParsedPart) : list ParsedPart :=
  match idxs with
  | [] => parts
  | i :: idxs' =>
      mainLoop allCells idxs'
        (match partAt allCells i with
         | Some part => parts ++ [part]
         | None => parts
         end)
  end.

Definition extractParts (allCells : list jsstring) : list ParsedPart :=
  mainLoop allCells (seq 0 (length allCells)) [].

(** The column headers of the table, as the comment of [parsePartsPage]
    lists them. *)
Definition columnHeaders : list jsstring :=
  map lit ["No"; "PNC#"; "OEM part number"; "Required per car"; "Name";
           "Spec"; "Notes"; "Color"; "model_date_range"; "Price"]%string.

(** The row of cells of the worked example, and the part read from it. *)
Definition exampleRow : list jsstring :=
  map lit ["04403"; "02878C"; "MD123456"; "2"; "Bolt, Flange"; "M8"; "";
           "Black"]%string.

Definition isExamplePart (part : ParsedPart) : Prop :=
  partNumber part = lit "MD123456" /\
  pnc part = Some (lit "02878C") /\
  refNumber part = Some (lit "04403") /\
  quantity part = Some (Finite 2) /\
  description part = Some (lit "Bolt, Flange") /\
  spec part = Some (lit "M8") /\
  notes part = None /\
  color part = Some (lit "Black").

(** A table with two stacked entries, each followed by its date range. *)
Definition dateExample : list jsstring :=
  exampleRow ++
  map lit ["1999.05.1 - 2001.03"; "$5"; "04403"; "02878C"; "MD654321";
           "1"; "Bolt"; "M10"; ""; ""; "2001.04.1 - 2005.09"]%string.

(** Two stacked entries where only the second has a date range, seven
    cells after the first anchor's window starts. *)
Definition stackedExample : list jsstring :=
  exampleRow ++
  map lit ["$5"; "04404"; "02878D"; "MD654321"; "1"; "Bolt";
           "2001.04.1 - 2005.09"]%string.

(** The part read from the cells "MD123456", "0". *)
Definition zeroQuantityPart : ParsedPart :=
  {| partNumber := lit "MD123456";
     pnc := None; description := None; refNumber := None;
     quantity := None; spec := None; notes := None;
     color := None; modelDateRange := None |}.

(** A quantity cell of 400 digits [9], and the part read from the cells
    "MD123456", "99...9". *)
Definition longCell : jsstring := repeat 57 400.

Definition longQuantityPart : ParsedPart :=
  {| partNumber := lit "MD123456";
     pnc := None; description := None; refNumber := None;
     quantity := Some Infinity; spec := None; notes := None;
     color := None; modelDateRange := None |}.

(** A cell the main loop takes as an anchor: it has the OEM shape and is
    not header text. *)
Definition isAnchorCell (cell : jsstring) : bool :=
  oemPattern_test cell && negb (isHeaderCell cell).

Record DetailListSection := {
  heading : jsstring;
  slug : jsstring;
  sectionImageUrl : option jsstring;
  detailPageIds : list jsstring
}.

(** What [parseDetailListSections] reads of one [td.detail-list]: the text
    of its first [h4] ([""] when there is none); the [src] attribute of
    its first [img.parts_picture, img[src*='diagram'], img[src*='scheme']]
    (outer [None]: no such image); the [href] attribute of each of its
    [a, area] elements in document order. *)
Record DetailListTd := {
  h4Text : jsstring;
  diagramImg : option (option jsstring);
  hrefs : list (option jsstring)
}.

(** The pattern of a detail page link: a slash, a group of digit runs
    separated by commas, an optional slash, then a question mark or the
    end of the text.  [idTail] reads the group after its first digit; the
    result is the rest of the group and what follows it. *)
Fixpoint idTail (s : jsstring) : jsstring * jsstring :=
  match s with
  | c :: s' =>
      if isDigit c then let (a, b) := idTail s' in (c :: a, b)
      else if c =? 44 then
        match s' with
        | d :: _ => if isDigit d then let (a, b) := idTail s' in (c :: a, b)
                    else ([], s)
        | [] => ([], s)
        end
      else ([], s)
  | [] => ([], [])
  end.

(** A question mark or the end of the text. *)
Definition atQueryOrEnd (s : jsstring) : bool :=
  match s with
  | [] => true
  | c :: _ => c =? 63
  end.

(** A match that starts at the slash before [s].  Giving back a digit or
    a group never helps, since neither a digit nor a comma can start the
    end of the pattern; so the greedy reading decides. *)
Definition detailIdAt (s : jsstring) : option jsstring :=
  match s with
  | d :: s' =>
      if isDigit d then
        let (a, rest) := idTail s' in
        let ok := match rest with
                  | 47 :: rest' => atQueryOrEnd rest'
                  | _ => atQueryOrEnd rest
                  end in
        if ok then Some (d :: a) else None
      else None
  | [] => None
  end.

(** [href.match(pattern)]: the group of the leftmost match. *)
Fixpoint detailIdOf (href : jsstring) : option jsstring :=
  match href with
  | [] => None
  | c :: s' =>
      match (if c =? 47 then detailIdAt s' else None) with
      | Some m => Some m
      | None => detailIdOf s'
      end
  end.

(** [Set.prototype.add] on a set kept in insertion order. *)
Definition setAdd (x : jsstring) (set : list jsstring) : list jsstring :=
  if existsb (eqb x) set then set else set ++ [x].

(** The [each] over [a, area] that fills [detailPageIdSet]. *)
Definition collectDetailIds (hrefs : list (option jsstring))
  : list jsstring :=
  fold_left (fun set href =>
               match detailIdOf (match orNull href with
                                 | Some h => h
                                 | None => []
                                 end) with
               | Some m => setAdd m set
               | None => set
               end) hrefs [].

Section WithUrl.

(** [new URL(src, baseUrl).toString()] of the platform: [None] when the
    constructor throws. *)
Variable resolveUrl : jsstring -> jsstring -> option jsstring.

(** [src.startsWith("http") ? src : new URL(src, baseUrl).toString()] *)
Definition absoluteSrc (src baseUrl : jsstring) : option jsstring :=
  if startsWith src (lit "http") then Some src else resolveUrl src baseUrl.

(** The [each] over [img.parts_picture]: the first truthy [src] decides
    [imageUrl]; the outer [option] is [None] when [new URL] throws. *)
Fixpoint firstPicture (srcs : list (option jsstring)) (baseUrl : jsstring)
  : option (option jsstring) :=
  match srcs with
  | [] => Some None
  | src :: srcs' =>
      match orNull src with
      | None => firstPicture srcs' baseUrl
      | Some s => option_map Some (absoluteSrc s baseUrl)
      end
  end.

(** [parsePartsPage(html, baseUrl, diagramId)]; [None] when it throws. *)
Definition parsePartsPage (dom : PartsPageDom) (baseUrl diagramId : jsstring)
  : option ParsedDiagramPage :=
  let name :=
    let h1 := trim (h1Text dom) in
    if truthy h1 then h1
    else let t := splitHead (trim (titleText dom)) (lit " for ") in
         if truthy t then t else diagramId in
  match firstPicture (partsPictureSrcs dom) baseUrl with
  | None => None
  | Some imageUrl =>
      let parts :=
        match topCarsCells dom with
        | Some tds => extractParts (map trim tds)
        | None => []
        end in
      Some {| diagram := {| id := diagramId; name := name;
                            imageUrl := imageUrl |};
              parts := parts |}
  end.

(** One callback of [$("td.detail-list").each]: [Some None] when it
    returns early, [Some (Some section)] when it pushes, [None] when
    [new URL] throws. *)
Definition sectionOf (td : DetailListTd) (baseUrl : jsstring)
  : option (option DetailListSection) :=
  let heading := trim (h4Text td) in
  if negb (truthy heading) then Some None
  else
    let slug := slugify heading in
    if negb (truthy slug) then Some None
    else
      let imageUrl :=
        match diagramImg td with
        | Some src =>
            match orNull src with
            | Some src' => option_map Some (absoluteSrc src' baseUrl)
            | None => Some None
            end
        | None => Some None
        end in
      match imageUrl with
      | None => None
      | Some imageUrl =>
          Some (Some {| heading := heading;
                        slug := slug;
                        sectionImageUrl := imageUrl;
                        detailPageIds := collectDetailIds (hrefs td) |})
      end.

Fixpoint sectionsLoop (tds : list DetailListTd) (baseUrl : jsstring)
  (sections : list DetailListSection) : option (list DetailListSection) :=
  match tds with
  | [] => Some sections
  | td :: tds' =>
      match sectionOf td baseUrl with
      | None => None
      | Some None => sectionsLoop tds' baseUrl sections
      | Some (Some section) =>
          sectionsLoop tds' baseUrl (sections ++ [section])
      end
  end.

(** [parseDetailListSections(html, baseUrl)] over the [td.detail-list]
    elements of the page; [None] when it throws. *)
Definition parseDetailListSections (tds : list DetailListTd)
  (baseUrl : jsstring) : option (list DetailListSection) :=
  sectionsLoop tds baseUrl [].

(** Two sections with distinct headings, the sections read from them,
    and a section whose heading has no letter or digit. *)
Definition twoSectionTds : list DetailListTd :=
  [ {| h4Text := lit "ALL (LEFT SIDE)"; diagramImg := None;
       hrefs := [Some (lit "/engine/oil-pump/11778/")] |};
    {| h4Text := lit "ALL - LEFT SIDE"; diagramImg := None;
       hrefs := [Some (lit "/engine/oil-pump/11779/")] |} ].

Definition twoSections : list DetailListSection :=
  [ {| heading := lit "ALL (LEFT SIDE)"; slug := lit "all-left-side";
       sectionImageUrl := None; detailPageIds := [lit "11778"] |};
    {| heading := lit "ALL - LEFT SIDE"; slug := lit "all-left-side";
       sectionImageUrl := None; detailPageIds := [lit "11779"] |} ].

Definition starTd : DetailListTd :=
  {| h4Text := lit "***"; diagramImg := None; hrefs := [] |}.

(** The sections the page is said to have: a [td.detail-list] is headed
    when the trimmed text of its [h4] is not empty. *)
Definition headed (td : DetailListTd) : bool := truthy (trim (h4Text td)).

(** The headings that get a section: non-empty, with a non-empty slug. *)
Definition keptHeading (h : jsstring) : bool :=
  truthy h && truthy (slugify h).

End WithUrl.

End Parser.

(* ===================================================================== *)
(** ** scraper/index.ts: the crawl scheduler                              *)
(* ===================================================================== *)

Module Scheduler.
Import Js.

(** A row of [scrape_progress] (ScrapeProgress in types.ts). *)
Inductive Status := pending | completed | failed.

Record ScrapeProgress := {
  url : jsstring;
  status : Status;
  error : option jsstring
}.

Definition isPending (st : Status) : bool :=
  match st with pending => true | _ => false end.

Definition isCompleted (st : Status) : bool :=
  match st with completed => true | _ => false end.

(** The table, rows in insertion order. *)
Definition ProgressTable := list ScrapeProgress.

(** Modelled from the spec: db/queries.ts is missing; [getUrlStatus]
    reads the CrawlState of a URL, if it has one. *)
Definition getUrlStatus (db : ProgressTable) (u : jsstring)
  : option ScrapeProgress :=
  find (fun row => eqb (url row) u) db.

(** Modelled from the spec: db/queries.ts is missing; enqueueing
    is idempotent: "if url already has a CrawlState, it is a no-op;
    otherwise it is inserted as pending". *)
Definition markUrlPending (db : ProgressTable) (u : jsstring)
  : ProgressTable :=
  match getUrlStatus db u with
  | Some _ => db
  | None => db ++ [{| url := u; status := pending; error := None |}]
  end.

(** Modelled from the spec: db/queries.ts is missing; a state transition
    of a URL rewrites its row, or adds the row when the URL has none. *)
Definition setStatus (db : ProgressTable) (u : jsstring) (st : Status)
  (err : option jsstring) : ProgressTable :=
  match getUrlStatus db u with
  | Some _ =>
      map (fun row => if eqb (url row) u
                      then {| url := u; status := st; error := err |}
                      else row) db
  | None => db ++ [{| url := u; status := st; error := err |}]
  end.

(** Modelled from the spec: db/queries.ts is missing;
    "markCompleted(url) / markFailed(url, reason) transition state". *)
Definition markUrlCompleted (db : ProgressTable) (u : jsstring)
  : ProgressTable :=
  setStatus db u completed None.

(** Modelled from the spec: db/queries.ts is missing; "markFailed(url,
    reason)" records the failure and its reason. *)
Definition markUrlFailed (db : ProgressTable) (u reason : jsstring)
  : ProgressTable :=
  setStatus db u failed (Some reason).

(** Modelled from the spec: db/queries.ts is missing; the pending
    URLs, first discovered first. *)
Definition getPendingUrls (db : ProgressTable) : list jsstring :=
  map url (filter (fun row => isPending (status row)) db).

Definition statusOf (db : ProgressTable) (u : jsstring) : option Status :=
  option_map status (getUrlStatus db u).

(** What the scheduler does, newest first. *)
Inductive Event :=
| EvFetch (u : jsstring)       (* this.fetcher.fetch(u) was called *)
| EvProcessed (u : jsstring)   (* processPage(u, html) has returned *)
| EvIndexed (u : jsstring)     (* the groups of the index page are saved *)
| EvPending (u : jsstring)     (* markUrlPending(u) *)
| EvCompleted (u : jsstring)   (* markUrlCompleted(u) *)
| EvFailed (u : jsstring).     (* markUrlFailed(u, reason) *)

Inductive Outcome := Finished | Thrown | OutOfFuel.

Record ParsedGroup := {
  id : jsstring;
  name : jsstring;
  groupUrl : jsstring
}.

Section Crawl.

(** The page type and the catalogue tables (groups, subgroups, diagrams,
    parts), which the scheduler only passes on. *)
Variable Html : Type.
Variable Catalog : Type.

(** [this.fetcher.fetch(url)] for the [n]-th request of the run: the page,
    or the error of a result that is not [ok]. *)
Variable fetch : nat -> jsstring -> Html + jsstring.

(** [getUrlWithFrame], [parseIndexPage] and [parseCategoryPage], which
    depend on the URL parser of the platform and on the document.
    [getUrlWithFrame] is called on URLs only (the base URL of the
    configuration, [https://mitsubishi.epc-data.com/...], and the absolute
    URLs the two parsers return), so its [new URL(url)] does not throw.
    [parseCategoryPage] resolves every [href] inside a [try] and skips
    the ones that are no URL; [parseIndexPage] calls
    [new URL(href, baseUrl)] outside any [try]: it is [None] when it
    throws. *)
Variable getUrlWithFrame : jsstring -> jsstring.
Variable parseIndexPage : Html -> jsstring -> option (list ParsedGroup).
Variable parseCategoryPage : Html -> jsstring -> list jsstring.

(** [insertGroup], and the part of [processPage] that writes the records
    of a page ([processSubgroupPage], [processPartsPage]); [false] when a
    write throws. *)
Variable insertGroup : Catalog -> ParsedGroup -> Catalog.
Variable persistRecords : jsstring -> Html -> Catalog -> Catalog * bool.

Variable baseUrl : jsstring.

Record Scraper := {
  db : ProgressTable;
  catalog : Catalog;
  urlQueue : list jsstring;
  processedCount : nat;
  requests : nat;
  trace : list Event
}.

Definition newScraper (db0 : ProgressTable) (catalog0 : Catalog) : Scraper :=
  {| db := db0; catalog := catalog0; urlQueue := []; processedCount := 0;
     requests := 0; trace := [] |}.

Definition withDb (s : Scraper) (d : ProgressTable) (e : Event) : Scraper :=
  {| db := d; catalog := catalog s; urlQueue := urlQueue s;
     processedCount := processedCount s; requests := requests s;
     trace := e :: trace s |}.

Definition withCatalog (s : Scraper) (c : Catalog) : Scraper :=
  {| db := db s; catalog := c; urlQueue := urlQueue s;
     processedCount := processedCount s; requests := requests s;
     trace := trace s |}.

Definition withQueue (s : Scraper) (q : list jsstring) : Scraper :=
  {| db := db s; catalog := catalog s; urlQueue := q;
     processedCount := processedCount s; requests := requests s;
     trace := trace s |}.

Definition logged (s : Scraper) (e : Event) : Scraper :=
  withDb s (db s) e.

(** [await this.fetcher.fetch(url)] *)
Definition doFetch (s : Scraper) (u : jsstring)
  : (Html + jsstring) * Scraper :=
  (fetch (requests s) u,
   {| db := db s; catalog := catalog s; urlQueue := urlQueue s;
      processedCount := processedCount s; requests := S (requests s);
      trace := EvFetch u :: trace s |}).

(** The loop of [processPage] over the links of the page. *)
Definition queueLink (s : Scraper) (link : jsstring) : Scraper :=
  let linkWithFrame := getUrlWithFrame link in
  match getUrlStatus (db s) linkWithFrame with
  | None =>
      let s := withDb s (markUrlPending (db s) linkWithFrame)
                      (EvPending linkWithFrame) in
      withQueue s (urlQueue s ++ [linkWithFrame])
  | Some _ => s
  end.

(** [processPage(url, html)]; [false] when it throws. *)
Definition processPage (s : Scraper) (u : jsstring) (html : Html)
  : Scraper * bool :=
  let (c, ok) := persistRecords u html (catalog s) in
  let s := withCatalog s c in
  if ok then (fold_left queueLink (parseCategoryPage html u) s, true)
  else (s, false).

(** [processQueue()]: one iteration of the [while] per unit of fuel. *)
Fixpoint processQueue (fuel : nat) (s : Scraper) : Scraper * Outcome :=
  match fuel with
  | O => (s, OutOfFuel)
  | S fuel' =>
      match urlQueue s with
      | [] => (s, Finished)
      | u :: rest =>
          let s := withQueue s rest in
          if match statusOf (db s) u with
             | Some st => isCompleted st
             | None => false
             end
          then processQueue fuel' s
          else
            let s := {| db := db s; catalog := catalog s;
                        urlQueue := urlQueue s;
                        processedCount := S (processedCount s);
                        requests := requests s; trace := trace s |} in
            let (result, s) := doFetch s u in
            match result with
            | inr err =>
                processQueue fuel' (withDb s (markUrlFailed (db s) u err)
                                           (EvFailed u))
            | inl html =>
                let (s, ok) := processPage s u html in
                if ok then
                  let s := logged s (EvProcessed u) in
                  processQueue fuel' (withDb s (markUrlCompleted (db s) u)
                                             (EvCompleted u))
                else (s, Thrown)
            end
      end
  end.

(** The loop of [scrapeIndex] over the categories. *)
Definition queueCategory (s : Scraper) (cat : ParsedGroup) : Scraper :=
  let s := withCatalog s (insertGroup (catalog s) cat) in
  let catUrl := getUrlWithFrame (groupUrl cat) in
  let s := withDb s (markUrlPending (db s) catUrl) (EvPending catUrl) in
  withQueue s (urlQueue s ++ [catUrl]).

Definition indexUrl : jsstring := getUrlWithFrame baseUrl.

(** [scrapeIndex()]; [false] when it throws, which it does when
    [parseIndexPage] throws: the index page is then left pending. *)
Definition scrapeIndex (s : Scraper) : Scraper * bool :=
  if match statusOf (db s) indexUrl with
     | Some st => isCompleted st
     | None => false
     end
  then (withQueue s (getPendingUrls (db s)), true)
  else
    let s := withDb s (markUrlPending (db s) indexUrl) (EvPending indexUrl) in
    let (result, s) := doFetch s indexUrl in
    match result with
    | inr err => (withDb s (markUrlFailed (db s) indexUrl err)
                         (EvFailed indexUrl), true)
    | inl html =>
        match parseIndexPage html indexUrl with
        | None => (s, false)
        | Some categories =>
            let s := fold_left queueCategory categories s in
            let s := logged s (EvIndexed indexUrl) in
            (withDb s (markUrlCompleted (db s) indexUrl)
                    (EvCompleted indexUrl), true)
        end
    end.

(** The start of [run()]: resume from the pending URLs, or start from the
    index page; [false] when [scrapeIndex] throws. *)
Definition startRun (s : Scraper) : Scraper * bool :=
  let pendingUrls := getPendingUrls (db s) in
  match pendingUrls with
  | _ :: _ => (withQueue s pendingUrls, true)
  | [] => scrapeIndex s
  end.

(** [run()] up to the end of [processQueue]; merging replacement parts and
    downloading images, which follow, do not touch [scrape_progress].  A
    throw of [scrapeIndex] ends the run before [processQueue]. *)
Definition run (fuel : nat) (s : Scraper) : Scraper * Outcome :=
  let (s, ok) := startRun s in
  if ok then processQueue fuel s else (s, Thrown).

(** *** Properties of a trace (newest event first) *)

(** [u] is completed after the events [t], from the table [db0]. *)
Definition completedAfter (db0 : ProgressTable) (t : list Event)
  (u : jsstring) : Prop :=
  statusOf db0 u = Some completed \/ In (EvCompleted u) t.

(** Every [EvCompleted u] comes right after [EvProcessed u], or right
    after [EvIndexed u] for the index page. *)
Fixpoint completedAfterWrite (t : list Event) : Prop :=
  match t with
  | [] => True
  | EvCompleted u :: older =>
      (match older with
       | EvProcessed v :: _ => v = u
       | EvIndexed v :: _ => v = u /\ u = indexUrl
       | _ => False
       end) /\ completedAfterWrite older
  | _ :: older => completedAfterWrite older
  end.

(** No URL is fetched once it is completed. *)
Fixpoint noFetchOfCompleted (db0 : ProgressTable) (t : list Event) : Prop :=
  match t with
  | [] => True
  | EvFetch u :: older =>
      ~ completedAfter db0 older u /\ noFetchOfCompleted db0 older
  | _ :: older => noFetchOfCompleted db0 older
  end.

(** The invariant of a run that started from the table [db0], when the
    table is [d] and the events so far are [t]: what is completed is so in
    the table, and the trace is in order. *)
Definition Inv (db0 d : ProgressTable) (t : list Event) : Prop :=
  (forall u, completedAfter db0 t u -> statusOf d u = Some completed) /\
  completedAfterWrite t /\
  noFetchOfCompleted db0 t.

End Crawl.

(** A table left by an interrupted run, and a site with two linked pages:
    every page links to the engine category and to one detail page. *)
Definition exampleIndex : jsstring := lit "https://epc/pd6w/?frame_no=1".
Definition exampleEngine : jsstring := lit "https://epc/pd6w/engine/".
Definition examplePump : jsstring := lit "https://epc/pd6w/engine/pump/".
Definition exampleDetail : jsstring := lit "https://epc/pd6w/engine/pump/1/".

Definition exampleDb : ProgressTable :=
  [ {| url := exampleIndex; status := completed; error := None |};
    {| url := exampleEngine; status := completed; error := None |};
    {| url := examplePump; status := pending; error := None |} ].

Definition exampleRun (fuel : nat) : Scraper nat * Outcome :=
  run (fun _ _ => inl tt) (fun u => u) (fun _ _ => Some [])
      (fun _ _ => [exampleEngine; exampleDetail])
      (fun c _ => c) (fun _ _ c => (S c, true))
      exampleIndex fuel (newScraper exampleDb 0).

End Scheduler.

(* ===================================================================== *)
(** ** db/schema.ts: the tables                                           *)
(* ===================================================================== *)

Module Schema.
Import Js.

(** [subgroups], [diagrams] and [parts] of [createSchema] (Subgroup,
    Diagram and Part of types.ts). *)
Record Subgroup := {
  sg_id : jsstring;
  sg_name : jsstring;
  sg_group_id : jsstring;
  sg_path : jsstring
}.

Record Diagram := {
  d_id : jsstring;
  d_group_id : jsstring;
  d_subgroup_id : option jsstring;
  d_name : jsstring;
  d_image_url : option jsstring;
  d_image_path : option jsstring;
  d_source_url : jsstring
}.

Record Part := {
  id : Z;
  detail_page_id : option jsstring;
  part_number : jsstring;
  pnc : option jsstring;
  description : option jsstring;
  ref_number : option jsstring;
  quantity : option Z;
  spec : option jsstring;
  notes : option jsstring;
  color : option jsstring;
  model_date_range : option jsstring;
  diagram_id : jsstring;
  group_id : jsstring;
  subgroup_id : option jsstring;
  replacement_part_number : option jsstring
}.

(** The [parts] table: its rows in the order of a scan (by row id; a new
    row gets the largest id and comes last), and the counter that
    [id INTEGER PRIMARY KEY AUTOINCREMENT] keeps in [sqlite_sequence]. *)
Record PartsTable := {
  rows : list Part;
  sequence : Z
}.

Definition maxId (l : list Part) : Z :=
  fold_right (fun r m => Z.max (id r) m) 0%Z l.

(** [UNIQUE(part_number, diagram_id)] *)
Definition hasKey (l : list Part) (partNumber diagramId : jsstring) : bool :=
  existsb (fun r => eqb (part_number r) partNumber &&
                    eqb (diagram_id r) diagramId) l.

Definition keys (l : list Part) : list (jsstring * jsstring) :=
  map (fun r => (part_number r, diagram_id r)) l.

(** The characters of a text of the database, which stores it as UTF-8:
    a surrogate pair is one character, of a code point above 65535. *)
Fixpoint codePoints (s : jsstring) : list N :=
  match s with
  | [] => []
  | hi :: s' =>
      match s' with
      | lo :: s'' =>
          if between 55296 56319 hi && between 56320 57343 lo
          then (65536 + (hi - 55296) * 1024 + (lo - 56320))%N :: codePoints s''
          else hi :: codePoints s'
      | [] => [hi]
      end
  end.

Fixpoint ltbPoints (a b : list N) : bool :=
  match a, b with
  | _, [] => false
  | [], _ :: _ => true
  | x :: a', y :: b' => N.ltb x y || (N.eqb x y && ltbPoints a' b')
  end.

(** [a < b] for [ORDER BY] and [GROUP BY] on a text column: the order of
    the UTF-8 bytes, which is the order of the code points. *)
Definition ltb (a b : jsstring) : bool :=
  ltbPoints (codePoints a) (codePoints b).

Fixpoint likePoints (pat str : list N) : bool :=
  match pat with
  | [] => match str with [] => true | _ => false end
  | c :: pat' =>
      if N.eqb c 37 then
        (fix skip (s : list N) : bool :=
           likePoints pat' s || match s with
                                | [] => false
                                | _ :: s' => skip s'
                                end) str
      else
        match str with
        | [] => false
        | x :: str' =>
            (N.eqb c 95 || N.eqb (foldUnit c) (foldUnit x))
            && likePoints pat' str'
        end
  end.

(** [str LIKE pat] of SQLite: [%] is any text, [_] any one character, and
    ASCII letters match in either case. *)
Definition like (pat str : jsstring) : bool :=
  likePoints (codePoints pat) (codePoints str).

(** The integers that the client returns as a Number: it reads an
    INTEGER of a row as a BigInt and throws a RangeError when that is
    not within [Number.MIN_SAFE_INTEGER .. Number.MAX_SAFE_INTEGER]. *)
Definition maxSafe : Z := 2 ^ 53 - 1.

Definition safeInteger (z : Z) : bool :=
  (- maxSafe <=? z)%Z && (z <=? maxSafe)%Z.

(** The largest row id: at it, an AUTOINCREMENT table is full. *)
Definition maxRowid : Z := 2 ^ 63 - 1.

End Schema.

(* ===================================================================== *)
(** ** The script that repairs parts shared between diagrams              *)
(* ===================================================================== *)

Module Repair.
Import Js Schema.

(** The tables the script reads and writes; of [groups], the ids. *)
Record Store := {
  groups : list jsstring;
  subgroups : list Subgroup;
  diagrams : list Diagram;
  parts : PartsTable
}.

Record DiagramMapping := {
  diagramId : jsstring;
  subgroupId : jsstring;
  detailPageIds : list jsstring
}.

(** The script's own [parseDetailListSections(html)], over the
    [td.detail-list] elements of the page: a section per element with a
    heading; its slug is computed and not used. *)
Definition parseDetailListSections (tds : list Parser.DetailListTd)
  : list DiagramMapping :=
  flat_map (fun td =>
              let heading := trim (Parser.h4Text td) in
              if negb (truthy heading) then []
              else [{| diagramId := []; subgroupId := [];
                       detailPageIds :=
                         Parser.collectDetailIds (Parser.hrefs td) |}])
           tds.

Definition dedup (l : list jsstring) : list jsstring :=
  fold_left (fun seen x => Parser.setAdd x seen) l [].

(** [SELECT s.path, s.group_id, COUNT(DISTINCT d.id) as diagram_count
     FROM subgroups s JOIN diagrams d ON d.subgroup_id = s.id
     GROUP BY s.path HAVING diagram_count > 1]: the paths of the rows. *)
Definition joinedDiagramIds (st : Store) (path : jsstring) : list jsstring :=
  flat_map (fun s =>
              if eqb (sg_path s) path then
                map d_id (filter (fun d => match d_subgroup_id d with
                                           | Some sid => eqb sid (sg_id s)
                                           | None => false
                                           end) (diagrams st))
              else []) (subgroups st).

Fixpoint insertPath (path : jsstring) (l : list jsstring) : list jsstring :=
  match l with
  | [] => [path]
  | x :: l' => if ltb path x then path :: l else x :: insertPath path l'
  end.

(** The groups come out in the order of [s.path]. *)
Definition multiDiagramPaths (st : Store) : list jsstring :=
  fold_right insertPath []
    (filter (fun path => Nat.ltb 1 (length (dedup (joinedDiagramIds st path))))
            (dedup (map sg_path (subgroups st)))).

Fixpoint insertSorted (d : Diagram) (l : list Diagram) : list Diagram :=
  match l with
  | [] => [d]
  | x :: l' => if ltb (d_id d) (d_id x) then d :: l
               else x :: insertSorted d l'
  end.

(** [SELECT id, name FROM diagrams WHERE subgroup_id LIKE ? || '%'
     ORDER BY id] with [subgroup.path] for [?]. *)
Definition diagramsForPath (st : Store) (path : jsstring) : list Diagram :=
  fold_right insertSorted []
    (filter (fun d => match d_subgroup_id d with
                      | Some sid => like (path ++ [37%N]) sid
                      | None => false
                      end) (diagrams st)).

(** [sections[i].diagramId = diagrams[i].id] and the same for
    [subgroupId], for sections and diagrams of the same number. *)
Definition assignDiagrams (sections : list DiagramMapping)
  (ds : list Diagram) : list DiagramMapping :=
  map (fun sd => {| diagramId := d_id (snd sd);
                    subgroupId := d_id (snd sd);
                    detailPageIds := detailPageIds (fst sd) |})
      (combine sections ds).

(** The [Map] from detail id to diagram ids, in insertion order. *)
Definition IdMap := list (jsstring * list jsstring).

Fixpoint mapGet (m : IdMap) (k : jsstring) : option (list jsstring) :=
  match m with
  | [] => None
  | (k', v) :: m' => if eqb k' k then Some v else mapGet m' k
  end.

Fixpoint mapSet (m : IdMap) (k : jsstring) (v : list jsstring) : IdMap :=
  match m with
  | [] => [(k, v)]
  | (k', v') :: m' => if eqb k' k then (k', v) :: m'
                      else (k', v') :: mapSet m' k v
  end.

Definition addDetail (m : IdMap) (detailId diagramId : jsstring) : IdMap :=
  let existing := match mapGet m detailId with
                  | Some l => l
                  | None => []
                  end in
  mapSet m detailId (existing ++ [diagramId]).

Definition detailIdToDiagrams (sections : list DiagramMapping) : IdMap :=
  fold_left (fun m section =>
               fold_left (fun m detailId =>
                            addDetail m detailId (diagramId section))
                         (detailPageIds section) m)
            sections [].

Definition sharedDetailIds (m : IdMap) : IdMap :=
  filter (fun entry => Nat.ltb 1 (length (snd entry))) m.

(** The values of the [INSERT]: the row read, under another diagram. *)
Definition retarget (partRow : Part) (diagramId : jsstring) (newId : Z)
  : Part :=
  {| id := newId;
     detail_page_id := detail_page_id partRow;
     part_number := part_number partRow;
     pnc := pnc partRow;
     description := description partRow;
     ref_number := ref_number partRow;
     quantity := quantity partRow;
     spec := spec partRow;
     notes := notes partRow;
     color := color partRow;
     model_date_range := model_date_range partRow;
     diagram_id := diagramId;
     group_id := group_id partRow;
     subgroup_id := Some diagramId;
     replacement_part_number := replacement_part_number partRow |}.

Definition isDiagram (store : Store) (i : jsstring) : bool :=
  existsb (eqb i) (map d_id (diagrams store)).

Definition isGroup (store : Store) (i : jsstring) : bool :=
  existsb (eqb i) (groups store).

Definition isSubgroup (store : Store) (i : jsstring) : bool :=
  existsb (eqb i) (map sg_id (subgroups store)).

(** The foreign keys of the row to insert: [diagram_id REFERENCES
    diagrams(id)], [group_id REFERENCES groups(id)] and [subgroup_id
    REFERENCES subgroups(id)], with the diagram id in [subgroup_id]. *)
Definition foreignKeysHold (store : Store) (diagramId : jsstring)
  (partRow : Part) : bool :=
  isDiagram store diagramId && isGroup store (group_id partRow)
  && isSubgroup store diagramId.

(** The largest row id the table has had. *)
Definition lastId (t : PartsTable) : Z := Z.max (sequence t) (maxId (rows t)).

(** [INSERT OR IGNORE INTO parts (...) VALUES (...)]; [None] when the
    statement raises an error and changes nothing.  A row id is taken
    first, one more than the largest so far, which fails when that was
    the largest row id there is.  A row whose key (part_number,
    diagram_id) is in the table is then ignored; any other row is checked
    against the foreign keys, whose violation [OR IGNORE] does not cover,
    and inserted.  The counter keeps the row id taken, also when the row
    is ignored. *)
Definition insertOrIgnore (store : Store) (t : PartsTable)
  (diagramId : jsstring) (partRow : Part) : option PartsTable :=
  if (maxRowid <=? lastId t)%Z then None
  else
    let newId := (lastId t + 1)%Z in
    if hasKey (rows t) (part_number partRow) diagramId
    then Some {| rows := rows t; sequence := newId |}
    else if foreignKeysHold store diagramId partRow
    then Some {| rows := rows t ++ [retarget partRow diagramId newId];
                 sequence := newId |}
    else None.

Record RunState := {
  table : PartsTable;
  totalFixed : nat
}.

Definition hasDetail (detailId : jsstring) (r : Part) : bool :=
  match detail_page_id r with
  | Some x => eqb x detailId
  | None => false
  end.

(** A row the client can return: its INTEGER columns, [id] and
    [quantity], are safe integers. *)
Definition readable (r : Part) : bool :=
  safeInteger (id r) &&
  match quantity r with
  | Some q => safeInteger q
  | None => true
  end.

(** [SELECT * FROM parts WHERE detail_page_id = ?]; [None] when the
    client throws on a row it cannot return. *)
Definition selectParts (l : list Part) (detailId : jsstring)
  : option (list Part) :=
  let found := filter (hasDetail detailId) l in
  if forallb readable found then Some found else None.

(** A [for] loop whose body may throw: the state reached, and [false]
    when the body threw, which ends the loop. *)
Fixpoint forEach (A S : Type) (body : S -> A -> S * bool) (l : list A)
  (s : S) : S * bool :=
  match l with
  | [] => (s, true)
  | a :: l' =>
      let (s', ok) := body s a in
      if ok then forEach body l' s' else (s', false)
  end.

(** [await client.execute(INSERT OR IGNORE ...); totalFixed++] *)
Definition insertStep (store : Store) (diagramId : jsstring) (st : RunState)
  (partRow : Part) : RunState * bool :=
  match insertOrIgnore store (table st) diagramId partRow with
  | Some t => ({| table := t; totalFixed := S (totalFixed st) |}, true)
  | None => (st, false)
  end.

(** The body of [for (const [detailId, diagramIds] of sharedDetailIds)];
    [false] when a statement throws. *)
Definition repairShared (store : Store) (st : RunState)
  (entry : jsstring * list jsstring) : RunState * bool :=
  let (detailId, diagramIds) := entry in
  match selectParts (rows (table st)) detailId with
  | None => (st, false)
  | Some [] => (st, true)
  | Some partsResult =>
      let existingDiagrams := map diagram_id partsResult in
      let missingDiagrams :=
        filter (fun d => negb (existsb (eqb d) existingDiagrams))
               diagramIds in
      match missingDiagrams with
      | [] => (st, true)
      | _ :: _ =>
          forEach (fun st diagramId =>
                     forEach (insertStep store diagramId) partsResult st)
                  missingDiagrams st
      end
  end.

Section Main.

(** [FRAME_NAME], [TRIM_CODE] and [FRAME_NO] of the environment (with the
    script's defaults), and what [fetchPage(url)] gives of the page: its
    [td.detail-list] elements, or [None] when it throws. *)
Variable frameName trimCode frameNo : jsstring.
Variable fetchPage : jsstring -> option (list Parser.DetailListTd).

Definition subgroupUrl (path : jsstring) : jsstring :=
  lit "https://mitsubishi.epc-data.com/delica_space_gear/" ++ frameName ++
  lit "/" ++ trimCode ++ lit "/" ++ path ++ lit "/?frame_no=" ++ frameNo.

(** The shared detail ids of one path; none when the [try] block is left
    by [continue] or by an error. *)
Definition sharedOfPath (store : Store) (path : jsstring) : IdMap :=
  let ds := diagramsForPath store path in
  match fetchPage (subgroupUrl path) with
  | None => []
  | Some tds =>
      let sections := parseDetailListSections tds in
      if negb (Nat.eqb (length sections) (length ds)) then []
      else sharedDetailIds
             (detailIdToDiagrams (assignDiagrams sections ds))
  end.

(** The body of [for (const subgroup of subgroupsWithMultipleDiagrams)];
    the script writes nothing but rows of [parts] and its counter.  An
    error thrown in the [try] block is caught and logged: the rest of the
    path is left out, what was written stays. *)
Definition repairSubgroup (store : Store) (st : RunState) (path : jsstring)
  : RunState :=
  match sharedOfPath store path with
  | [] => st
  | shared => fst (forEach (repairShared store) shared st)
  end.

(** [main()]: the store it leaves and the count it prints. *)
Definition main (store : Store) : Store * nat :=
  let st := fold_left (repairSubgroup store) (multiDiagramPaths store)
                      {| table := parts store; totalFixed := 0 |} in
  ({| groups := groups store; subgroups := subgroups store;
      diagrams := diagrams store; parts := table st |}, totalFixed st).

End Main.

(** Two rows say the same thing of a part when they agree on every column
    but the row id, the diagram and the subgroup. *)
Definition sameData (r r0 : Part) : Prop :=
  r = retarget r0 (diagram_id r) (id r).

(** A diagram has the detail page [detailId] when one of its rows comes
    from that page. *)
Definition underDiagram (l : list Part) (detailId d : jsstring) : Prop :=
  exists x, In x l /\ hasDetail detailId x = true /\ diagram_id x = d.

Definition underDiagramb (l : list Part) (detailId d : jsstring) : bool :=
  existsb (eqb d) (map diagram_id (filter (hasDetail detailId) l)).

(** The foreign key of [group_id] holds in the rows. *)
Definition groupsHold (store : Store) (l : list Part) : Prop :=
  forall r, In r l -> isGroup store (group_id r) = true.

(** A store with one listing page of two diagram sections, and a part
    stored under the left one only; both sections link detail page
    723107. *)
Definition doorsLeft : jsstring := lit "body/doors/left-side".
Definition doorsRight : jsstring := lit "body/doors/right-side".

Definition doorPart : Part :=
  {| id := 10; detail_page_id := Some (lit "723107");
     part_number := lit "MB123456"; pnc := Some (lit "02878C");
     description := Some (lit "Bolt, Flange"); ref_number := None;
     quantity := Some 2%Z; spec := None; notes := None; color := None;
     model_date_range := None; diagram_id := doorsLeft;
     group_id := lit "body"; subgroup_id := Some doorsLeft;
     replacement_part_number := None |}.

Definition doorsDiagram (i : jsstring) : Diagram :=
  {| d_id := i; d_group_id := lit "body"; d_subgroup_id := Some i;
     d_name := i; d_image_url := None; d_image_path := None;
     d_source_url := lit "https://epc/body/doors/" |}.

Definition doorsStore : Store :=
  {| groups := [lit "body"];
     subgroups :=
       [ {| sg_id := doorsLeft; sg_name := lit "Doors - LEFT SIDE";
            sg_group_id := lit "body"; sg_path := lit "body/doors" |};
         {| sg_id := doorsRight; sg_name := lit "Doors - RIGHT SIDE";
            sg_group_id := lit "body"; sg_path := lit "body/doors" |} ];
     diagrams := [doorsDiagram doorsRight; doorsDiagram doorsLeft];
     parts := {| rows := [doorPart]; sequence := 10 |} |}.



Definition doorsPage : list Parser.DetailListTd :=
  [ {| Parser.h4Text := lit "ALL (LEFT SIDE)"; Parser.diagramImg := None;
       Parser.hrefs := [Some (lit "/body/doors/723107/")] |};
    {| Parser.h4Text := lit "ALL (RIGHT SIDE)"; Parser.diagramImg := None;
       Parser.hrefs := [Some (lit "/body/doors/723107/?frame_no=1");
                        Some (lit "/body/doors/723115/")] |} ].

Definition doorsMain (store : Store) : Store * nat :=
  main (lit "pd6w") (lit "hseue9") (lit "PD6W-0500904")
       (fun _ => Some doorsPage) store.

Definition doorsRepaired : Store := fst (doorsMain doorsStore).
















(** What the script has made of the rows [l0] when the table holds [l]:
    the rows of [l0], then copies of rows of [l0], each with a new row id
    and under a diagram that is a subgroup id and had no row of the
    copied row's detail page. *)
Definition grown (store : Store) (l0 l : list Part) : Prop :=
  exists new,
    l = l0 ++ new /\
    forall r, In r new ->
      exists r0 D,
        In r0 l0 /\ hasDetail D r0 = true /\ sameData r r0 /\
        ~ underDiagram l0 D (diagram_id r) /\
        isSubgroup store (diagram_id r) = true /\
        (0 < id r)%Z.

(** What the inserts of one shared detail id make of a state: rows are
    only added, each a copy of a row of [R] under a diagram of [M] that
    is a subgroup id. *)
Definition stepped (store : Store) (R : list Part) (M : list jsstring)
  (st st' : RunState) : Prop :=
  (lastId (table st) <= lastId (table st'))%Z /\
  length (rows (table st')) + totalFixed st
  <= length (rows (table st)) + totalFixed st' /\
  (exists new,
      rows (table st') = rows (table st) ++ new /\
      forall r, In r new ->
        exists r0, In r0 R /\ In (diagram_id r) M /\
                   r = retarget r0 (diagram_id r) (id r) /\
                   isSubgroup store (diagram_id r) = true /\
                   (0 < id r)%Z) /\
  (NoDup (keys (rows (table st))) -> NoDup (keys (rows (table st')))).

(** One state of the run comes after another. *)
Definition follows (store : Store) (st st' : RunState) : Prop :=
  (lastId (table st) <= lastId (table st'))%Z /\
  length (rows (table st')) + totalFixed st
  <= length (rows (table st)) + totalFixed st' /\
  grown store (rows (table st)) (rows (table st')) /\
  (NoDup (keys (rows (table st))) -> NoDup (keys (rows (table st')))).

End Repair.

(* ===================================================================== *)
(** ** db/schema.ts: merging replacement rows                             *)
(* ===================================================================== *)

Module Migration.
Import Js Schema.

(** A row of [parts] while the table still has the column [replaces_id],
    and the table with what [PRAGMA table_info(parts)] says of that
    column.  [tagged] lists the [part_id] values of [tags_to_parts],
    the rows of the one table whose reference to [parts(id)] stops a
    [DELETE]: [part_id INTEGER NOT NULL REFERENCES parts(id)] has no
    [ON DELETE] action, the reference of [bookmarks] is
    [ON DELETE CASCADE], and [notes] declares none.  [legacyRows] has
    the rows in the order of a scan, by row id. *)
Record LegacyPart := {
  row : Part;
  replaces_id : option Z
}.

Record LegacyTable := {
  hasReplacesId : bool;
  legacyRows : list LegacyPart;
  tagged : list Z
}.

Definition isReplacement (r : LegacyPart) : bool :=
  match replaces_id r with Some _ => true | None => false end.

Definition replaces (i : Z) (r : LegacyPart) : bool :=
  match replaces_id r with Some j => Z.eqb j i | None => false end.

Definition setReplacement (r : Part) (v : option jsstring) : Part :=
  {| id := id r;
     detail_page_id := detail_page_id r;
     part_number := part_number r;
     pnc := pnc r;
     description := description r;
     ref_number := ref_number r;
     quantity := quantity r;
     spec := spec r;
     notes := notes r;
     color := color r;
     model_date_range := model_date_range r;
     diagram_id := diagram_id r;
     group_id := group_id r;
     subgroup_id := subgroup_id r;
     replacement_part_number := v |}.

(** [UPDATE parts SET replacement_part_number =
       (SELECT replacement.part_number FROM parts replacement
        WHERE replacement.replaces_id = parts.id)
     WHERE id IN (SELECT replaces_id FROM parts
                  WHERE replaces_id IS NOT NULL)];
    the scalar subquery gives the first row of the scan that matches. *)
Definition updateReplaced (l : list LegacyPart) : list LegacyPart :=
  map (fun r =>
         if existsb (replaces (id (row r))) l then
           {| row := setReplacement (row r)
                       (option_map (fun x => part_number (row x))
                                   (find (replaces (id (row r))) l));
              replaces_id := replaces_id r |}
         else r) l.

(** A row that the [DELETE] would remove is referenced from
    [tags_to_parts]. *)
Definition blocked (tags : list Z) (l : list LegacyPart) : bool :=
  existsb (fun r => isReplacement r && existsb (Z.eqb (id (row r))) tags) l.

(** [DELETE FROM parts WHERE replaces_id IS NOT NULL]; [None] when the
    statement raises the foreign-key error and deletes nothing. *)
Definition deleteReplacements (tags : list Z) (l : list LegacyPart)
  : option (list LegacyPart) :=
  if blocked tags l then None
  else Some (filter (fun r => negb (isReplacement r)) l).

(** [ALTER TABLE parts DROP COLUMN replaces_id] *)
Definition dropReplacesId (tags : list Z) (l : list LegacyPart)
  : LegacyTable :=
  {| hasReplacesId := false;
     legacyRows := map (fun r => {| row := row r; replaces_id := None |}) l;
     tagged := tags |}.

(** [migrateReplacesIdToReplacementPartNumber(client, partsColumns)];
    [false] when it throws: the error of the [DELETE] is not caught, the
    [UPDATE] before it stays and the column is not dropped. *)
Definition migrateReplacesIdToReplacementPartNumber (t : LegacyTable)
  : LegacyTable * bool :=
  if negb (hasReplacesId t) then (t, true)
  else
    let hasReplacementRows := existsb isReplacement (legacyRows t) in
    if hasReplacementRows then
      let updated := updateReplaced (legacyRows t) in
      match deleteReplacements (tagged t) updated with
      | Some kept => (dropReplacesId (tagged t) kept, true)
      | None => ({| hasReplacesId := true; legacyRows := updated;
                    tagged := tagged t |}, false)
      end
    else (dropReplacesId (tagged t) (legacyRows t), true).

(** A part, its replacement "MD999999", and the part it replaces. *)
Definition legacy (i : Z) (pn : string) (repl : option Z) : LegacyPart :=
  {| row := {| id := i; detail_page_id := Some (lit "11778");
               part_number := lit pn; pnc := Some (lit "02878C");
               description := Some (lit "Bolt"); ref_number := None;
               quantity := Some 1%Z; spec := None; notes := None;
               color := None; model_date_range := None;
               diagram_id := lit "engine/oil-pump";
               group_id := lit "engine";
               subgroup_id := Some (lit "engine/oil-pump");
               replacement_part_number := None |};
     replaces_id := repl |}.

Definition chainTable : LegacyTable :=
  {| hasReplacesId := true;
     legacyRows := [legacy 1 "MD000001" None;
                    legacy 10 "MD123456" (Some 1%Z);
                    legacy 11 "MD999999" (Some 10%Z)];
     tagged := [] |}.

Definition twiceReplacedTable : LegacyTable :=
  {| hasReplacesId := true;
     legacyRows := [legacy 10 "MD123456" None;
                    legacy 11 "MD888888" (Some 10%Z);
                    legacy 12 "MD999999" (Some 10%Z)];
     tagged := [] |}.

(** The replaced part carries a tag. *)
Definition pairTable : LegacyTable :=
  {| hasReplacesId := true;
     legacyRows := [legacy 10 "MD123456" None;
                    legacy 11 "MD999999" (Some 10%Z)];
     tagged := [10%Z] |}.

Definition pairMerged : LegacyTable :=
  fst (migrateReplacesIdToReplacementPartNumber pairTable).

(** The replacement row carries a tag. *)
Definition taggedPairTable : LegacyTable :=
  {| hasReplacesId := true;
     legacyRows := [legacy 10 "MD123456" None;
                    legacy 11 "MD999999" (Some 10%Z)];
     tagged := [11%Z] |}.

End Migration.

(* ===================================================================== *)
(** ** The rate-limited fetcher                                           *)
(* ===================================================================== *)

Module Fetcher.

Local Open Scope Q_scope.

(** The fetcher's part of ScraperConfig, and DEFAULT_CONFIG, of
    types.ts; delays are in milliseconds. *)
Record ScraperConfig := {
  initialDelay : Q;
  minDelay : Q;
  maxDelay : Q;
  backoffMultiplier : Q
}.

Definition DEFAULT_CONFIG : ScraperConfig :=
  {| initialDelay := 3000;
     minDelay := 1000;
     maxDelay := 120000;
     backoffMultiplier := 3 # 2 |}.

(** What the site answers to a request. *)
Inductive Response :=
| Page            (* the page is served *)
| RateLimited     (* HTTP 429 *)
| TransportError. (* timeout or connection failure *)

Definition isFailure (r : Response) : bool :=
  match r with Page => false | _ => true end.

(** One call of [fetch]: the delay slept before the request, whether the
    result is [ok], and the delay kept for the next call. *)
Record Fetched := {
  slept : Q;
  ok : bool;
  nextDelay : Q
}.

Section Fetch.

Variable config : ScraperConfig.

(** How a success relaxes the delay towards [minDelay]; the spec gives no
    formula for it. *)
Variable relax : Q -> Q.

(** Modelled from the spec: scraper/fetcher.ts is missing.  "Before
    every fetch, suspend for currentDelay.  On success, relax currentDelay
    toward minDelay.  On HTTP 429 or transport error, multiply
    currentDelay by backoffMultiplier, clamped to maxDelay, and the call
    still returns a failure result". *)
Definition fetch (currentDelay : Q) (r : Response) : Fetched :=
  match r with
  | Page => {| slept := currentDelay; ok := true;
               nextDelay := relax currentDelay |}
  | RateLimited | TransportError =>
      {| slept := currentDelay; ok := false;
         nextDelay := Qmin (currentDelay * backoffMultiplier config)
                           (maxDelay config) |}
  end.

(** Consecutive calls on one fetcher, whose delay starts at
    [initialDelay]. *)
Fixpoint fetchFrom (currentDelay : Q) (rs : list Response) : list Fetched :=
  match rs with
  | [] => []
  | r :: rs' =>
      let f := fetch currentDelay r in
      f :: fetchFrom (nextDelay f) rs'
  end.

Definition fetchAll (rs : list Response) : list Fetched :=
  fetchFrom (initialDelay config) rs.

End Fetch.

End Fetcher.

(* ===================================================================== *)
(** ** scraper/index.ts: the records written for a page                   *)
(* ===================================================================== *)

Module Reconcile.
Import Js Utils.

(** A Part as [processPartsPage] builds it, before it has a row id. *)
Record Part := {
  detail_page_id : option jsstring;
  part_number : jsstring;
  pnc : option jsstring;
  description : option jsstring;
  ref_number : option jsstring;
  quantity : option Number;
  spec : option jsstring;
  notes : option jsstring;
  color : option jsstring;
  model_date_range : option jsstring;
  diagram_id : jsstring;
  group_id : jsstring;
  subgroup_id : option jsstring;
  replacement_part_number : option jsstring
}.

(** The calls of db/queries.ts that a page makes, with their arguments,
    in order. *)
Inductive DbCall :=
| InsertGroup (id name : jsstring)
| InsertSubgroup (subgroup : Schema.Subgroup)
| InsertDiagram (diagram : Schema.Diagram)
| InsertParts (partRecords : list Part).

(** [this.diagramGroupMap]: a [Map] from detail page id to the diagram and
    subgroup made for it. *)
Record Mapping := {
  diagramId : jsstring;
  subgroupId : jsstring
}.

Definition DiagramGroupMap := list (jsstring * Mapping).

Fixpoint mapGet (m : DiagramGroupMap) (k : jsstring) : option Mapping :=
  match m with
  | [] => None
  | (k', v) :: m' => if eqb k' k then Some v else mapGet m' k
  end.

Fixpoint mapSet (m : DiagramGroupMap) (k : jsstring) (v : Mapping)
  : DiagramGroupMap :=
  match m with
  | [] => [(k, v)]
  | (k', v') :: m' => if eqb k' k then (k', v) :: m'
                      else (k', v') :: mapSet m' k v
  end.

(** What the two functions read of a page: [extractPageTitle(html)], the
    [td.detail-list] elements and the document of [parsePartsPage]. *)
Record Page := {
  pageTitle : option jsstring;
  detailLists : list Parser.DetailListTd;
  partsDom : Parser.PartsPageDom
}.

(** [subgroupSlug.replace(/-/g, " ")] *)
Definition dashesToSpaces (s : jsstring) : jsstring :=
  map (fun c => if N.eqb c 45 then 32%N else c) s.

(** [extractPageTitle(html) || subgroupSlug.replace(/-/g, " ")] *)
Definition rawTitle (page : Page) (subgroupSlug : jsstring) : jsstring :=
  match orNull (pageTitle page) with
  | Some t => t
  | None => dashesToSpaces subgroupSlug
  end.

(** [for (const detailId of section.detailPageIds)
       this.diagramGroupMap.set(detailId, { diagramId, subgroupId })] *)
Definition mapSection (m : DiagramGroupMap) (ids : list jsstring)
  (v : Mapping) : DiagramGroupMap :=
  fold_left (fun m detailId => mapSet m detailId v) ids m.

Section WithPlatform.

(** [new URL(src, baseUrl).toString()], and [cleanSubgroupName] of
    utils.ts, whose result is only stored as a name. *)
Variable resolveUrl : jsstring -> jsstring -> option jsstring.
Variable cleanSubgroupName : jsstring -> jsstring.

(** The body of [for (const section of sections)] when the page has
    several sections. *)
Definition sectionCalls (url groupSlug basePath title : jsstring)
  (section : Parser.DetailListSection) : list DbCall :=
  let subgroupId := basePath ++ lit "/" ++ Parser.slug section in
  let diagramId := subgroupId in
  let cleanedHeading := cleanSubgroupName (Parser.heading section) in
  let subgroupName := title ++ lit " - " ++ cleanedHeading in
  [ InsertSubgroup {| Schema.sg_id := subgroupId;
                      Schema.sg_name := subgroupName;
                      Schema.sg_group_id := groupSlug;
                      Schema.sg_path := basePath |};
    InsertDiagram {| Schema.d_id := diagramId;
                     Schema.d_group_id := groupSlug;
                     Schema.d_subgroup_id := Some subgroupId;
                     Schema.d_name := cleanedHeading;
                     Schema.d_image_url := Parser.sectionImageUrl section;
                     Schema.d_image_path := None;
                     Schema.d_source_url := url |} ].

Definition sectionMapping (basePath : jsstring)
  (section : Parser.DetailListSection) : Mapping :=
  {| diagramId := basePath ++ lit "/" ++ Parser.slug section;
     subgroupId := basePath ++ lit "/" ++ Parser.slug section |}.

(** [processSubgroupPage(url, html, pathParts)]: the calls it makes and
    the map it leaves; [None] when it throws. *)
Definition processSubgroupPage (m : DiagramGroupMap) (url : jsstring)
  (page : Page) (pathParts : list jsstring)
  : option (list DbCall * DiagramGroupMap) :=
  match orNull (nth_error pathParts 3), orNull (nth_error pathParts 4) with
  | Some groupSlug, Some subgroupSlug =>
      let basePath := groupSlug ++ lit "/" ++ subgroupSlug in
      let title := cleanSubgroupName (rawTitle page subgroupSlug) in
      match Parser.parseDetailListSections resolveUrl (detailLists page)
              url with
      | None => None
      | Some sections =>
          if Nat.leb (length sections) 1 then
            let subgroupId := basePath in
            let subgroupCall :=
              InsertSubgroup {| Schema.sg_id := subgroupId;
                                Schema.sg_name := title;
                                Schema.sg_group_id := groupSlug;
                                Schema.sg_path := basePath |} in
            match sections with
            | [section] =>
                match orNull (Parser.sectionImageUrl section) with
                | Some imageUrl =>
                    let diagramId := subgroupId in
                    Some ([ subgroupCall;
                            InsertDiagram
                              {| Schema.d_id := diagramId;
                                 Schema.d_group_id := groupSlug;
                                 Schema.d_subgroup_id := Some subgroupId;
                                 Schema.d_name := title;
                                 Schema.d_image_url := Some imageUrl;
                                 Schema.d_image_path := None;
                                 Schema.d_source_url := url |} ],
                          mapSection m (Parser.detailPageIds section)
                            {| diagramId := diagramId;
                               subgroupId := subgroupId |})
                | None => Some ([subgroupCall], m)
                end
            | _ => Some ([subgroupCall], m)
            end
          else
            Some (flat_map (sectionCalls url groupSlug basePath title)
                           sections,
                  fold_left (fun m section =>
                               mapSection m (Parser.detailPageIds section)
                                 (sectionMapping basePath section))
                            sections m)
      end
  | _, _ => Some ([], m)
  end.

(** [parts.map((p) => ({ ... }))] *)
Definition partRecord (detailPageId : option jsstring)
  (diagramId groupSlug : jsstring) (subgroupId : option jsstring)
  (p : Parser.ParsedPart) : Part :=
  {| detail_page_id := detailPageId;
     part_number := Parser.partNumber p;
     pnc := Parser.pnc p;
     description := Parser.description p;
     ref_number := Parser.refNumber p;
     quantity := Parser.quantity p;
     spec := Parser.spec p;
     notes := Parser.notes p;
     color := Parser.color p;
     model_date_range := Parser.modelDateRange p;
     diagram_id := diagramId;
     group_id := groupSlug;
     subgroup_id := subgroupId;
     replacement_part_number := None |}.

(** [if (parts.length > 0) await insertParts(this.client, partRecords)] *)
Definition insertPartsCall (records : list Part) : list DbCall :=
  match records with
  | [] => []
  | _ :: _ => [InsertParts records]
  end.

(** [processPartsPage(url, html, pathParts)]: the calls it makes; [None]
    when it throws. *)
Definition processPartsPage (m : DiagramGroupMap) (url : jsstring)
  (page : Page) (pathParts : list jsstring) : option (list DbCall) :=
  let detailPageId := orNull (nth_error pathParts 5) in
  let groupSlug := match orNull (nth_error pathParts 3) with
                   | Some g => g
                   | None => lit "unknown"
                   end in
  let subgroupSlug := orNull (nth_error pathParts 4) in
  let mapping := match detailPageId with
                 | Some d => mapGet m d
                 | None => None
                 end in
  match mapping with
  | Some mapping =>
      match Parser.parsePartsPage resolveUrl (partsDom page) url
              (diagramId mapping) with
      | None => None
      | Some parsed =>
          Some (insertPartsCall
                  (map (partRecord detailPageId (diagramId mapping)
                          groupSlug (Some (subgroupId mapping)))
                       (Parser.parts parsed)))
      end
  | None =>
      let diagramId := match subgroupSlug with
                       | Some sg => groupSlug ++ lit "/" ++ sg
                       | None => groupSlug
                       end in
      match Parser.parsePartsPage resolveUrl (partsDom page) url
              diagramId with
      | None => None
      | Some parsed =>
          let subgroupId := option_map
                              (fun sg => groupSlug ++ lit "/" ++ sg)
                              subgroupSlug in
          Some ([InsertGroup groupSlug groupSlug] ++
                match subgroupSlug with
                | Some sg =>
                    [InsertSubgroup
                       {| Schema.sg_id := groupSlug ++ lit "/" ++ sg;
                          Schema.sg_name :=
                            cleanSubgroupName (rawTitle page sg);
                          Schema.sg_group_id := groupSlug;
                          Schema.sg_path := groupSlug ++ lit "/" ++ sg |}]
                | None => []
                end ++
                [InsertDiagram
                   {| Schema.d_id := Parser.id (Parser.diagram parsed);
                      Schema.d_group_id := groupSlug;
                      Schema.d_subgroup_id := subgroupId;
                      Schema.d_name := Parser.name (Parser.diagram parsed);
                      Schema.d_image_url :=
                        Parser.imageUrl (Parser.diagram parsed);
                      Schema.d_image_path := None;
                      Schema.d_source_url := url |}] ++
                insertPartsCall
                  (map (partRecord detailPageId
                          (Parser.id (Parser.diagram parsed)) groupSlug
                          subgroupId)
                       (Parser.parts parsed)))
      end
  end.

(** The part records among the calls. *)
Definition insertedParts (calls : list DbCall) : list Part :=
  flat_map (fun call => match call with
                        | InsertParts l => l
                        | _ => []
                        end) calls.

End WithPlatform.

(** A listing page body/doors with two sections that both link detail
    page 723107, and that detail page. *)
Definition doorsListing : Page :=
  {| pageTitle := Some (lit "Doors");
     detailLists :=
       [ {| Parser.h4Text := lit "ALL (LEFT SIDE)";
            Parser.diagramImg := None;
            Parser.hrefs := [Some (lit "/body/doors/723107/")] |};
         {| Parser.h4Text := lit "ALL (RIGHT SIDE)";
            Parser.diagramImg := None;
            Parser.hrefs := [Some (lit "/body/doors/723107/?frame_no=1");
                             Some (lit "/body/doors/723115/")] |} ];
     partsDom := {| Parser.h1Text := []; Parser.titleText := [];
                    Parser.partsPictureSrcs := [];
                    Parser.topCarsCells := None |} |}.

Definition doorsDetail : Page :=
  {| pageTitle := Some (lit "Door panel");
     detailLists := [];
     partsDom := {| Parser.h1Text := lit "Door panel";
                    Parser.titleText := [];
                    Parser.partsPictureSrcs := [];
                    Parser.topCarsCells := Some Parser.exampleRow |} |}.

Definition doorsParts (extra : list string) : list jsstring :=
  map lit (["delica_space_gear"; "pd6w"; "hseue9"; "body"; "doors"]%string
           ++ extra).

(** A listing page engine/oil-pump with one section and its diagram. *)
Definition pumpListing : Page :=
  {| pageTitle := Some (lit "Oil pump");
     detailLists :=
       [ {| Parser.h4Text := lit "Oil pump";
            Parser.diagramImg := Some (Some (lit "http://epc/pump.png"));
            Parser.hrefs := [Some (lit "/engine/oil-pump/11778/")] |} ];
     partsDom := partsDom doorsListing |}.

Definition pumpParts (extra : list string) : list jsstring :=
  map lit (["delica_space_gear"; "pd6w"; "hseue9"; "engine";
            "oil-pump"]%string ++ extra).

(** The map that the listing page leaves, from an empty one, and the calls
    of the detail page after it; no relative URL is resolved and names are
    stored as they are. *)
Definition mapAfter (url : jsstring) (page : Page)
  (pathParts : list jsstring) : DiagramGroupMap :=
  match processSubgroupPage (fun _ _ => None) (fun name => name) [] url
          page pathParts with
  | Some (_, m) => m
  | None => []
  end.

Definition detailCalls (m : DiagramGroupMap) (url : jsstring)
  (pathParts : list jsstring) : option (list DbCall) :=
  processPartsPage (fun _ _ => None) (fun name => name) m url doorsDetail
    pathParts.

Definition doorsUrl : jsstring := lit "https://epc/pd6w/hseue9/body/doors/".
Definition pumpUrl : jsstring :=
  lit "https://epc/pd6w/hseue9/engine/oil-pump/".

Definition doorsMap : DiagramGroupMap :=
  mapAfter doorsUrl doorsListing (doorsParts []).

Definition doorsRecords : list Part :=
  match detailCalls doorsMap doorsUrl (doorsParts ["723107"%string]) with
  | Some calls => insertedParts calls
  | None => []
  end.

Definition pumpMap : DiagramGroupMap :=
  mapAfter pumpUrl pumpListing (pumpParts []).

End Reconcile.

(* ===================================================================== *)
(** ** scraper/parser.ts: the links of a page                             *)
(* ===================================================================== *)

Module Links.
Import Js.

(** What the link functions read of the document: the [href] attribute of
    every [a] and of every [area], in document order. *)
Record LinksDom := {
  aHrefs : list (option jsstring);
  areaHrefs : list (option jsstring)
}.

Section WithEnv.

(** [Deno.env.get("FRAME_NAME")], [Deno.env.get("TRIM_CODE")], and
    [new URL(href, baseUrl).toString()], [None] when it throws. *)
Variable FRAME_NAME TRIM_CODE : option jsstring.
Variable resolveUrl : jsstring -> jsstring -> option jsstring.

Definition getVehicleUrlPattern : jsstring :=
  let frameName := match orNull FRAME_NAME with
                   | Some v => v
                   | None => lit "pd6w"
                   end in
  let trimCode := match orNull TRIM_CODE with
                  | Some v => v
                  | None => lit "hseue9"
                  end in
  lit "/delica_space_gear/" ++ frameName ++ lit "/" ++ trimCode ++ lit "/".

(** The body of [try]: [seen] and [links] always hold the same URLs, so
    the list stands for both. *)
Definition pushClean (href baseUrl : jsstring) (links : list jsstring)
  : list jsstring :=
  match resolveUrl href baseUrl with
  | None => links
  | Some absoluteUrl =>
      let cleanUrl := splitHead absoluteUrl (lit "#") in
      if existsb (eqb cleanUrl) links then links else links ++ [cleanUrl]
  end.

(** The links that [parseCategoryPage] skips as navigation. *)
Definition isNavigation (href : jsstring) : bool :=
  eqb href (lit "/") ||
  eqb href (lit "../") ||
  startsWith href (lit "#") ||
  startsWith href (lit "javascript:") ||
  includes href (lit "amayama.com") ||
  includes href (lit "/quick/") ||
  (includes href (lit "epc-data.com") &&
   negb (includes href getVehicleUrlPattern)).

(** The callback of [$("a").each]. *)
Definition aStep (baseUrl : jsstring) (links : list jsstring)
  (href : option jsstring) : list jsstring :=
  match orNull href with
  | None => links
  | Some href =>
      if isNavigation href then links
      else if negb (includes href getVehicleUrlPattern) then links
      else pushClean href baseUrl links
  end.

(** The callback of [$("area").each]. *)
Definition areaStep (baseUrl : jsstring) (links : list jsstring)
  (href : option jsstring) : list jsstring :=
  match orNull href with
  | None => links
  | Some href =>
      if negb (includes href getVehicleUrlPattern) then links
      else pushClean href baseUrl links
  end.

(** [parseCategoryPage(html, baseUrl)] *)
Definition parseCategoryPage (dom : LinksDom) (baseUrl : jsstring)
  : list jsstring :=
  fold_left (areaStep baseUrl) (areaHrefs dom)
            (fold_left (aStep baseUrl) (aHrefs dom) []).

(** [addLink] of [extractAllLinks]. *)
Definition addLink (baseUrl : jsstring) (links : list jsstring)
  (href : option jsstring) : list jsstring :=
  match orNull href with
  | None => links
  | Some href =>
      if startsWith href (lit "#") ||
         startsWith href (lit "javascript:") ||
         startsWith href (lit "mailto:") ||
         includes href (lit "amayama.com") ||
         includes href (lit "google") ||
         includes href (lit "/quick/")
      then links
      else if includes href (lit "epc-data.com") &&
              negb (includes href getVehicleUrlPattern)
      then links
      else
        match resolveUrl href baseUrl with
        | None => links
        | Some absoluteUrl =>
            let cleanUrl := splitHead absoluteUrl (lit "#") in
            if negb (includes cleanUrl getVehicleUrlPattern) then links
            else if existsb (eqb cleanUrl) links then links
            else links ++ [cleanUrl]
        end
  end.

(** [extractAllLinks(html, baseUrl)] *)
Definition extractAllLinks (dom : LinksDom) (baseUrl : jsstring)
  : list jsstring :=
  fold_left (addLink baseUrl) (areaHrefs dom)
            (fold_left (addLink baseUrl) (aHrefs dom) []).

End WithEnv.

(** A page with a link to a subgroup, the same link with a fragment, a
    link to the quick search and a link to another site. *)
Definition engineBase : jsstring :=
  lit "https://epc/delica_space_gear/pd6w/hseue9/engine/".

Definition engineDom : LinksDom :=
  {| aHrefs :=
       [ Some (lit "/delica_space_gear/pd6w/hseue9/engine/pump/");
         Some (lit "/delica_space_gear/pd6w/hseue9/engine/pump/#top");
         Some (lit "/delica_space_gear/pd6w/hseue9/quick/");
         Some (lit "https://amayama.com/"); None ];
     areaHrefs :=
       [ Some (lit "/delica_space_gear/pd6w/hseue9/engine/pump/11778/") ]
  |}.

(** A resolver for the example: an absolute path is put after the origin
    of the site. *)
Definition engineResolve (href base : jsstring) : option jsstring :=
  if startsWith href (lit "/") then Some (lit "https://epc" ++ href)
  else if startsWith href (lit "http") then Some href
  else None.

Definition engineLinks : list jsstring :=
  parseCategoryPage None None engineResolve engineDom engineBase.

End Links.

(* ===================================================================== *)
(** ** scraper/index.ts: the file name of a diagram image                 *)
(* ===================================================================== *)

Module Images.
Import Js.
Local Open Scope N_scope.

(** [[a-zA-Z0-9_-]] *)
Definition isSafeChar (c : N) : bool :=
  isLower c || isUpper c || isDigit c || (c =? 95) || (c =? 45).

(** [diagram.id.replace(/[^a-zA-Z0-9_-]/g, "_").substring(0, 100)] *)
Definition safeId (id : jsstring) : jsstring :=
  firstn 100 (map (fun c => if isSafeChar c then c else 95) id).

(** [[a-z]] under the [i] flag. *)
Definition isLetter (c : N) : bool := isLower c || isUpper c.

(** The run of letters at the start of a text, and the rest. *)
Fixpoint letters (s : jsstring) : jsstring * jsstring :=
  match s with
  | c :: s' =>
      if isLetter c then let (a, b) := letters s' in (c :: a, b)
      else ([], s)
  | [] => ([], [])
  end.

(** A match of [/\.([a-z]+)(?:\?|$)/i] that starts at the dot before [s]:
    giving back a letter never helps, since a letter cannot start the end
    of the pattern. *)
Definition extensionAt (s : jsstring) : option jsstring :=
  let (a, rest) := letters s in
  if truthy a && Parser.atQueryOrEnd rest then Some a else None.

(** [url.match(pattern)]: the group of the leftmost match. *)
Fixpoint extensionMatch (url : jsstring) : option jsstring :=
  match url with
  | [] => None
  | c :: s' =>
      match (if c =? 46 then extensionAt s' else None) with
      | Some m => Some m
      | None => extensionMatch s'
      end
  end.

(** [getExtension(url)] *)
Definition getExtension (url : jsstring) : jsstring :=
  match extensionMatch url with
  | Some m => toLowerCase m
  | None => lit "png"
  end.

(** [`${safeId}.${this.getExtension(diagram.image_url)}`] *)
Definition filename (id image_url : jsstring) : jsstring :=
  safeId id ++ lit "." ++ getExtension image_url.

(** [`${this.config.imagesDir}/${filename}`] *)
Definition imagePath (imagesDir id image_url : jsstring) : jsstring :=
  imagesDir ++ lit "/" ++ filename id image_url.

End Images.

(* ===================================================================== *)
(** ** The repair script: fetching a page                                 *)
(* ===================================================================== *)

Module Script.
Import Js.

(** What [fetch(url)] answers: [response.status] and [response.text()]. *)
Record HttpResponse := {
  status : Z;
  body : jsstring
}.

(** [response.ok] *)
Definition ok (response : HttpResponse) : bool :=
  Z.leb 200 (status response) && Z.leb (status response) 299.

Inductive FetchOutcome :=
| Text (html : jsstring)          (* return response.text() *)
| Failed (code : Z)               (* throw: Failed to fetch url: status *)
| RetriesExhausted.               (* throw: ... after retries retries *)

(** The outcome of [fetchPage], the number of requests it made and the
    delays it waited, in milliseconds and in order. *)
Record FetchRun := {
  outcome : FetchOutcome;
  requests : nat;
  waits : list Z
}.

(** [Math.pow(2, attempt + 1) * 5000] *)
Definition delay (attempt : nat) : Z :=
  (2 ^ Z.of_nat (attempt + 1) * 5000)%Z.

(** The [for] loop of [fetchPage] with [left = retries - attempt]
    iterations to go; [responses n] is the answer to the request number
    [n] of the call. *)
Fixpoint fetchLoop (responses : nat -> HttpResponse) (left attempt : nat)
  (waited : list Z) : FetchRun :=
  match left with
  | O => {| outcome := RetriesExhausted; requests := attempt;
            waits := waited |}
  | S left' =>
      let response := responses attempt in
      if ok response then
        {| outcome := Text (body response); requests := S attempt;
           waits := waited |}
      else if Z.eqb (status response) 429 then
        fetchLoop responses left' (S attempt) (waited ++ [delay attempt])
      else
        {| outcome := Failed (status response); requests := S attempt;
           waits := waited |}
  end.

(** [fetchPage(url, retries = 3)] *)
Definition fetchPage (responses : nat -> HttpResponse) (retries : nat)
  : FetchRun :=
  fetchLoop responses retries 0 [].

(** A site that answers 429 twice, then serves the page. *)
Definition busySite (n : nat) : HttpResponse :=
  if Nat.ltb n 2 then {| status := 429; body := [] |}
  else {| status := 200; body := lit "<html></html>" |}.

End Script.

(* ===================================================================== *)
(** ** Neighbouring characters of a text                                  *)
(* ===================================================================== *)

Module Text.
Import Js.
Local Open Scope N_scope.

(** [pairwise R s]: every character of [s] and the one after it are in
    the relation [R]. *)
Fixpoint pairwise (R : N -> N -> bool) (s : jsstring) : bool :=
  match s with
  | a :: s' =>
      match s' with
      | b :: _ => R a b && pairwise R s'
      | [] => true
      end
  | [] => true
  end.

(** No two white space characters in a row. *)
Definition singleSpaced (a b : N) : bool := negb (isSpace a && isSpace b).

(** A comma has white space after it. *)
Definition commaSpaced (a b : N) : bool := negb (a =? 44) || isSpace b.

End Text.

(* ===================================================================== *)
(** ** scraper/parser.ts: the categories of the index page                *)
(* ===================================================================== *)

Module IndexPage.
Import Js.
Local Open Scope N_scope.

(** What [parseIndexPage] reads of one [#partnames li]: the [href]
    attribute and the text of its first [a] (no attribute and [""] when it
    has none), and the text of the [li]. *)
Record IndexLi := {
  href : option jsstring;
  aText : jsstring;
  liText : jsstring
}.

(** [/^(\d{2})\s*-/]: the group of the match, if any. *)
Definition codePattern : list item :=
  [rep isDigit 2; star isSpace; one (fun c => c =? 45)].

Definition codeMatch (fullText : jsstring) : option jsstring :=
  match match_items false codePattern fullText with
  | Some _ => Some (firstn 2 fullText)
  | None => None
  end.

Section WithUrl.

(** [new URL(href, baseUrl)]: [None] when the constructor throws, else
    [pathname.split("/").filter(Boolean)] and [toString()]. *)
Variable urlOf : jsstring -> jsstring -> option (list jsstring * jsstring).

(** One callback of [$("#partnames li").each]; the set [seen] holds the
    ids of [categories], so the list stands for both.  [None] when
    [new URL] throws. *)
Definition liStep (baseUrl : jsstring)
  (categories : list Scheduler.ParsedGroup) (li : IndexLi)
  : option (list Scheduler.ParsedGroup) :=
  let linkText := trim (aText li) in
  let fullText := trim (liText li) in
  match orNull (href li) with
  | None => Some categories
  | Some href =>
      if negb (truthy linkText) then Some categories
      else
        match codeMatch fullText with
        | None => Some categories
        | Some code =>
            match urlOf href baseUrl with
            | None => None
            | Some (pathParts, absoluteUrl) =>
                match orNull (nth_error pathParts 3) with
                | None => Some categories
                | Some slug =>
                    if existsb (eqb slug) (map Scheduler.id categories)
                    then Some categories
                    else Some (categories ++
                               [{| Scheduler.id := slug;
                                   Scheduler.name :=
                                     code ++ lit " - " ++ linkText;
                                   Scheduler.groupUrl := absoluteUrl |}])
                end
            end
        end
  end.

Fixpoint liLoop (baseUrl : jsstring) (lis : list IndexLi)
  (categories : list Scheduler.ParsedGroup)
  : option (list Scheduler.ParsedGroup) :=
  match lis with
  | [] => Some categories
  | li :: lis' =>
      match liStep baseUrl categories li with
      | None => None
      | Some categories' => liLoop baseUrl lis' categories'
      end
  end.

(** [parseIndexPage(html, baseUrl)] over the [#partnames li] elements;
    [None] when it throws. *)
Definition parseIndexPage (lis : list IndexLi) (baseUrl : jsstring)
  : option (list Scheduler.ParsedGroup) :=
  liLoop baseUrl lis [].

End WithUrl.

(** An index with the engine category listed twice and an entry without
    a code. *)
Definition exampleLis : list IndexLi :=
  [ {| href := Some (lit "/delica_space_gear/pd6w/hseue9/engine/");
       aText := lit "Engine"; liText := lit " 11 - Engine " |};
    {| href := Some (lit "/delica_space_gear/pd6w/hseue9/engine/");
       aText := lit "Engine"; liText := lit "11 - Engine" |};
    {| href := Some (lit "/delica_space_gear/pd6w/hseue9/body/");
       aText := lit "Body"; liText := lit "Body" |} ].

Definition exampleUrlOf (href base : jsstring)
  : option (list jsstring * jsstring) :=
  if eqb href (lit "/delica_space_gear/pd6w/hseue9/engine/") then
    Some (map lit ["delica_space_gear"; "pd6w"; "hseue9"; "engine"]%string,
          lit "https://epc/delica_space_gear/pd6w/hseue9/engine/")
  else if eqb href (lit "/delica_space_gear/pd6w/hseue9/body/") then
    Some (map lit ["delica_space_gear"; "pd6w"; "hseue9"; "body"]%string,
          lit "https://epc/delica_space_gear/pd6w/hseue9/body/")
  else None.

Definition exampleGroup : Scheduler.ParsedGroup :=
  {| Scheduler.id := lit "engine";
     Scheduler.name := lit "11 - Engine";
     Scheduler.groupUrl :=
       lit "https://epc/delica_space_gear/pd6w/hseue9/engine/" |}.

End IndexPage.

(* ===================================================================== *)
(** ** The work left to a crawl of a finite site                          *)
(* ===================================================================== *)

Module Progress.
Import Js Scheduler.

(** The URL has a row in scrape_progress. *)
Definition hasRow (d : ProgressTable) (u : jsstring) : bool :=
  match getUrlStatus d u with Some _ => true | None => false end.

(** The URLs of the site that have no row yet, each once. *)
Definition unseen (site : list jsstring) (d : ProgressTable)
  : list jsstring :=
  filter (fun u => negb (hasRow d u)) (nodup (list_eq_dec N.eq_dec) site).

(** The URLs queued, and those that can still be queued. *)
Definition workLeft (Catalog : Type) (site : list jsstring)
  (s : Scraper Catalog) : nat :=
  length (urlQueue s) + length (unseen site (db s)).

End Progress.

(* ===================================================================== *)
(** * Theorems                                                            *)
(* ===================================================================== *)

(** ** The matcher of quantified character classes *)

Module JsFacts.
Import Js.

Lemma run_len_prefix (c : N -> bool) (s : jsstring) :
  forall (b : option nat) (k : nat),
    k <= run_len c b s ->
    forallb c (firstn k s) = true /\ k <= length s.
Proof.
  induction s as [|x s IH]; intros b k Hk; simpl in *.
  - assert (k = 0) by lia. subst. simpl. auto.
  - destruct k as [|k]; [simpl; split; [reflexivity | lia]|].
    destruct (c x) eqn:Hx; [|lia].
    destruct b as [[|b]|]; try lia.
    + destruct (IH (Some b) k ltac:(lia)) as [H1 H2].
      simpl. rewrite Hx, H1. split; [reflexivity | lia].
    + destruct (IH None k ltac:(lia)) as [H1 H2].
      simpl. rewrite Hx, H1. split; [reflexivity | lia].
Qed.

Lemma try_down_some (f : nat -> option nat) (l : nat) :
  forall (k m : nat),
    try_down k l f = Some m ->
    exists k' n, l <= k' /\ k' <= k /\ f k' = Some n /\ m = k' + n.
Proof.
  induction k as [|k IH]; intros m H; simpl in H.
  - destruct (Nat.ltb 0 l) eqn:E; [discriminate|].
    apply Nat.ltb_ge in E.
    destruct (f 0) as [n|] eqn:Hf; [|discriminate].
    injection H as Hm. exists 0, n. repeat split; auto.
  - destruct (Nat.ltb (S k) l) eqn:E; [discriminate|].
    apply Nat.ltb_ge in E.
    destruct (f (S k)) as [n|] eqn:Hf.
    + injection H as Hm. exists (S k), n. repeat split; auto.
    + destruct (IH m H) as (k' & n & H1 & H2 & H3 & H4).
      exists k', n. repeat split; auto.
Qed.

Lemma firstn_plus (A : Type) (k m : nat) :
  forall s : list A, firstn (k + m) s = firstn k s ++ firstn m (skipn k s).
Proof.
  induction k as [|k IH]; intros [|x s]; simpl; auto.
  - destruct m; reflexivity.
  - rewrite IH. reflexivity.
Qed.

Lemma match_items_sound (e : bool) (its : list item) :
  forall (s : jsstring) (n : nat),
    match_items e its s = Some n ->
    n <= length s /\ (e = true -> n = length s) /\ segs its (firstn n s).
Proof.
  induction its as [|it its IH]; intros s n H; simpl in H.
  - destruct e.
    + destruct s; [|discriminate]. inversion H; subst.
      simpl. repeat split; auto. constructor.
    + inversion H; subst. simpl. repeat split; try lia; try discriminate.
      constructor.
  - apply try_down_some in H.
    destruct H as (k & m & Hlo & Hk & Hm & ->).
    destruct (run_len_prefix _ _ _ Hk) as [Hall Hlen].
    destruct (IH _ _ Hm) as (H1 & H2 & H3).
    rewrite length_skipn in H1, H2.
    split; [lia|]. split; [intro He; specialize (H2 He); lia|].
    rewrite firstn_plus.
    constructor; auto. rewrite length_firstn. lia.
Qed.

Lemma segs_minLen (its : list item) (s : jsstring) :
  segs its s -> minLen its <= length s.
Proof.
  induction 1; simpl; [lia|]. rewrite length_app. lia.
Qed.

Lemma segs_all (P : N -> bool) (its : list item) (s : jsstring) :
  (forall it x, In it its -> cls it x = true -> P x = true) ->
  segs its s -> forallb P s = true.
Proof.
  intros HP H. induction H; [reflexivity|].
  rewrite forallb_app. apply andb_true_iff. split.
  - rewrite forallb_forall in *. intros x Hx.
    apply (HP it); [left; reflexivity | auto].
  - apply IHsegs. intros it' x Hin. apply HP. right; assumption.
Qed.

Lemma segs_has (its : list item) (s : jsstring) (it : item) :
  In it its -> 1 <= lo it -> segs its s ->
  exists x, In x s /\ cls it x = true.
Proof.
  intros Hin Hlo H. induction H; [destruct Hin|].
  destruct Hin as [->|Hin].
  - destruct a as [|x a]; [simpl in *; lia|].
    exists x. split; [left; reflexivity|].
    simpl in H0. apply andb_true_iff in H0. tauto.
  - destruct (IHsegs Hin) as (x & Hx & Hc).
    exists x. split; [apply in_or_app; right; assumption | assumption].
Qed.

Lemma test_anchored_segs (its : list item) (s : jsstring) :
  test_anchored its s = true -> segs its s.
Proof.
  unfold test_anchored. destruct (match_items true its s) as [n|] eqn:E;
    [|discriminate].
  intros _. destruct (match_items_sound _ _ _ E) as (_ & H2 & H3).
  rewrite (H2 eq_refl), firstn_all in H3. exact H3.
Qed.

Lemma In_firstn (A : Type) (n : nat) (s : list A) (x : A) :
  In x (firstn n s) -> In x s.
Proof.
  intro H. rewrite <- (firstn_skipn n s). apply in_or_app. left; exact H.
Qed.

Lemma search_some (its : list item) (s d : jsstring) :
  search its s = Some d ->
  segs its d /\ (forall x, In x d -> In x s).
Proof.
  induction s as [|c s IH]; simpl.
  - destruct (match_items false its []) as [n|] eqn:E; [|discriminate].
    intro H; injection H as <-.
    destruct (match_items_sound _ _ _ E) as (_ & _ & H3).
    split; [exact H3|].
    intros x Hx. apply In_firstn in Hx. exact Hx.
  - destruct (match_items false its (c :: s)) as [n|] eqn:E.
    + intro H; injection H as <-.
      destruct (match_items_sound _ _ _ E) as (_ & _ & H3).
      split; [exact H3|].
      intros x Hx. apply In_firstn in Hx. exact Hx.
    + intro H. destruct (IH H) as [H1 H2]. split; [exact H1|].
      intros x Hx. right. auto.
Qed.

Lemma includes_In (s needle : jsstring) :
  includes s needle = true -> forall x, In x needle -> In x s.
Proof.
  assert (Hsw : forall p t, startsWith t p = true ->
                            forall x, In x p -> In x t).
  { induction p as [|a p IH]; intros t H x Hx; [destruct Hx|].
    destruct t as [|b t]; [discriminate|]. simpl in H.
    apply andb_true_iff in H. destruct H as [Hab Hp].
    apply N.eqb_eq in Hab. subst.
    destruct Hx as [->|Hx]; [left; reflexivity | right; eauto]. }
  induction s as [|c s IH]; simpl; intros H x Hx.
  - rewrite orb_false_r in H.
    destruct needle; [destruct Hx | discriminate].
  - apply orb_true_iff in H. destruct H as [H|H].
    + exact (Hsw needle (c :: s) H x Hx).
    + right. eauto.
Qed.

Lemma eqb_eq (a b : jsstring) : eqb a b = true <-> a = b.
Proof.
  revert b. induction a as [|x a IH]; intros [|y b]; simpl;
    try (split; [discriminate | congruence]); [tauto|].
  rewrite andb_true_iff, N.eqb_eq, IH. split.
  - intros [-> ->]. reflexivity.
  - intro H. injection H as -> ->. auto.
Qed.

Lemma eqb_refl (a : jsstring) : eqb a a = true.
Proof. apply eqb_eq. reflexivity. Qed.

Lemma eqb_neq (a b : jsstring) : a <> b -> eqb a b = false.
Proof.
  intro H. destruct (eqb a b) eqn:E; [|reflexivity].
  apply eqb_eq in E. contradiction.
Qed.

(** *** The size of what parseInt returns *)

Lemma digitVal_bound (c : N) :
  isHexDigit c = true -> (0 <= digitVal c < 16)%Z.
Proof.
  unfold isHexDigit, digitVal, isDigit, between. intro H.
  destruct ((48 <=? c)%N && (c <=? 57)%N) eqn:E1.
  - apply andb_true_iff in E1. destruct E1 as [A B].
    apply N.leb_le in A, B. rewrite N2Z.inj_sub by exact A. lia.
  - destruct ((65 <=? c)%N && (c <=? 70)%N) eqn:E2.
    + apply andb_true_iff in E2. destruct E2 as [A B].
      apply N.leb_le in A, B. rewrite N2Z.inj_sub by lia. lia.
    + cbn [orb] in H. apply andb_true_iff in H. destruct H as [A B].
      apply N.leb_le in A, B. rewrite N2Z.inj_sub by lia. lia.
Qed.

Lemma digitsVal_bound (radix : Z) (isD : N -> bool) :
  (0 <= radix <= 16)%Z ->
  (forall c, isD c = true -> isHexDigit c = true) ->
  forall (s : jsstring) (acc : Z),
    (0 <= acc)%Z ->
    (0 <= digitsVal radix isD acc s
     < (acc + 1) * 16 ^ Z.of_nat (length s))%Z.
Proof.
  intros Hr Hd. induction s as [|c s IH]; intros acc Hacc.
  - cbn [digitsVal length]. change (16 ^ Z.of_nat 0)%Z with 1%Z. lia.
  - cbn [digitsVal]. cbn [length]. rewrite Nat2Z.inj_succ, Z.pow_succ_r by lia.
    assert (Hp : (0 < 16 ^ Z.of_nat (length s))%Z)
      by (apply Z.pow_pos_nonneg; lia).
    destruct (isD c) eqn:E.
    + pose proof (digitVal_bound c (Hd c E)) as Hv.
      assert (H0 : (0 <= radix * acc + digitVal c)%Z) by nia.
      specialize (IH _ H0). split; [lia|].
      apply Z.lt_le_trans
        with (m := ((radix * acc + digitVal c + 1)
                    * 16 ^ Z.of_nat (length s))%Z); [lia|].
      assert (H1 : (radix * acc + digitVal c + 1 <= 16 * (acc + 1))%Z)
        by nia.
      nia.
    + nia.
Qed.

Lemma parseDigits_bound (radix : Z) (isD : N -> bool) (s : jsstring)
  (m : Z) :
  (0 <= radix <= 16)%Z ->
  (forall c, isD c = true -> isHexDigit c = true) ->
  parseDigits radix isD s = Some m ->
  (0 <= m < 16 ^ Z.of_nat (length s))%Z.
Proof.
  intros Hr Hd. unfold parseDigits. destruct s as [|c s']; [discriminate|].
  destruct (isD c) eqn:E; [|discriminate]. intro H. injection H as <-.
  pose proof (@digitsVal_bound radix isD Hr Hd (c :: s') 0%Z
                (Z.le_refl 0)) as Hb.
  cbn [digitsVal] in Hb |- *. rewrite ?E in Hb |- *. lia.
Qed.

Lemma isDigit_hex (c : N) : isDigit c = true -> isHexDigit c = true.
Proof. unfold isHexDigit. intros ->. reflexivity. Qed.

Lemma parseUnsigned_eq (s : jsstring) :
  parseUnsigned s = parseDigits 10 isDigit s \/
  exists x s', s = 48%N :: x :: s' /\
               parseUnsigned s = parseDigits 16 isHexDigit s'.
Proof.
  unfold parseUnsigned. destruct s as [|c [|x s']]; [left; reflexivity| |].
  - destruct c as [|q]; [left; reflexivity|].
    do 6 (try (destruct q as [q|q|]; try (left; reflexivity))).
  - destruct c as [|q]; [left; reflexivity|].
    do 6 (try (destruct q as [q|q|]; try (left; reflexivity))).
    destruct ((x =? 120)%N || (x =? 88)%N); [|left; reflexivity].
    right. exists x, s'. split; reflexivity.
Qed.

Lemma parseUnsigned_bound (s : jsstring) (m : Z) :
  parseUnsigned s = Some m ->
  (0 <= m < 16 ^ Z.of_nat (length s))%Z.
Proof.
  destruct (parseUnsigned_eq s) as [-> | (x & s' & -> & ->)].
  - apply parseDigits_bound; [lia | exact isDigit_hex].
  - intro H. apply parseDigits_bound in H; [|lia|auto].
    cbn [length]. rewrite !Nat2Z.inj_succ, !Z.pow_succ_r by lia.
    assert (Hp : (0 < 16 ^ Z.of_nat (length s'))%Z)
      by (apply Z.pow_pos_nonneg; lia).
    nia.
Qed.

Lemma toNumber_finite (m : Z) :
  (0 <= m < 2 ^ 1023)%Z -> exists z, toNumber m = Finite z.
Proof.
  intros [H0 H1]. unfold toNumber.
  destruct (m <? 2 ^ 53)%Z eqn:E; [eauto|].
  apply Z.ltb_ge in E.
  assert (Hpos : (0 < m)%Z) by (assert (0 < 2 ^ 53)%Z by reflexivity; lia).
  assert (Hlo : (53 <= Z.log2 m)%Z)
    by (apply Z.log2_le_pow2; [exact Hpos | exact E]).
  assert (Hhi : (Z.log2 m < 1023)%Z)
    by (apply Z.log2_lt_pow2; [exact Hpos | exact H1]).
  set (shift := (Z.log2 m - 52)%Z).
  assert (Hq : (Z.shiftr m shift < 2 ^ 53)%Z).
  { rewrite Z.shiftr_div_pow2 by (unfold shift; lia).
    apply Z.div_lt_upper_bound; [apply Z.pow_pos_nonneg; unfold shift; lia|].
    rewrite <- Z.pow_add_r by (unfold shift; lia).
    replace (shift + 53)%Z with (Z.succ (Z.log2 m)) by (unfold shift; lia).
    apply Z.log2_spec. exact Hpos. }
  match goal with |- context [Z.shiftl ?q' shift] =>
    assert (Hq' : (q' <= 2 ^ 53)%Z) end.
  { match goal with |- context [if ?b then _ else _] => destruct b end;
      lia. }
  match goal with |- context [(2 ^ 1024 <=? ?v)%Z] =>
    assert (Hv : (v < 2 ^ 1024)%Z) end.
  { rewrite Z.shiftl_mul_pow2 by (unfold shift; lia).
    assert (Hs : (0 < 2 ^ shift <= 2 ^ 970)%Z).
    { split; [apply Z.pow_pos_nonneg; unfold shift; lia|].
      apply Z.pow_le_mono_r; unfold shift; lia. }
    assert (Hm : (2 ^ 53 * 2 ^ 970 < 2 ^ 1024)%Z) by reflexivity.
    nia. }
  apply Z.leb_gt in Hv. rewrite Hv. eauto.
Qed.

Lemma trimStart_length (s : jsstring) : length (trimStart s) <= length s.
Proof.
  induction s as [|c s IH]; [apply le_n|].
  cbn [trimStart]. destruct (isSpace c); cbn [length]; lia.
Qed.

Lemma numberOf_finite (s : jsstring) :
  length s < 256 ->
  numberOf (parseUnsigned s) = NaN \/
  exists z, numberOf (parseUnsigned s) = Finite z.
Proof.
  intro Hlen. destruct (parseUnsigned s) as [m|] eqn:E; [|left; reflexivity].
  right. cbn [numberOf]. apply toNumber_finite.
  destruct (parseUnsigned_bound _ E) as [H0 H1]. split; [exact H0|].
  apply Z.lt_le_trans with (m := (16 ^ Z.of_nat (length s))%Z); [exact H1|].
  apply Z.le_trans with (m := (16 ^ 255)%Z).
  - apply Z.pow_le_mono_r; lia.
  - intro Hc. discriminate Hc.
Qed.

Lemma parseInt_eq (s : jsstring) :
  (exists t, trimStart s = 45%N :: t /\
             parseInt s = negate (numberOf (parseUnsigned t))) \/
  (exists t, trimStart s = 43%N :: t /\
             parseInt s = numberOf (parseUnsigned t)) \/
  parseInt s = numberOf (parseUnsigned (trimStart s)).
Proof.
  unfold parseInt. destruct (trimStart s) as [|c t];
    [right; right; reflexivity|].
  destruct c as [|q]; [right; right; reflexivity|].
  do 6 (try (destruct q as [q|q|]; try (right; right; reflexivity)));
    [right; left | left]; exists t; split; reflexivity.
Qed.

(** A cell of fewer than 256 characters does not parse to an infinity. *)
Lemma parseInt_finite (s : jsstring) :
  length s < 256 ->
  parseInt s = NaN \/ exists z, parseInt s = Finite z.
Proof.
  intro Hlen. pose proof (trimStart_length s) as Ht.
  destruct (parseInt_eq s) as [(t & E & ->) | [(t & E & ->) | ->]].
  - rewrite E in Ht. cbn [length] in Ht.
    destruct (@numberOf_finite t) as [-> | (z & ->)]; [lia | |].
    + left. reflexivity.
    + right. cbn [negate]. eauto.
  - rewrite E in Ht. cbn [length] in Ht. apply numberOf_finite. lia.
  - apply numberOf_finite. lia.
Qed.

End JsFacts.

(** ** parsePartsPage *)

Module ParserFacts.
Import Js Utils Parser JsFacts.

Lemma oemPattern_shape (cell : jsstring) :
  oemPattern_test cell = true ->
  6 <= length cell /\ forallb isUpperDigit cell = true.
Proof.
  unfold oemPattern_test. intro H. apply orb_true_iff in H.
  destruct H as [H|H]; apply test_anchored_segs in H; split.
  - apply segs_minLen in H. exact H.
  - apply (segs_all isUpperDigit) in H; [exact H|].
    intros it x [<-|[<-|[<-|[]]]]; simpl; unfold isUpperDigit;
      intros ->; rewrite ?orb_true_r; reflexivity.
  - apply segs_minLen in H. exact H.
  - apply (segs_all isUpperDigit) in H; [exact H|].
    intros it x [<-|[<-|[]]]; simpl; unfold isUpperDigit;
      intros ->; rewrite ?orb_true_r; reflexivity.
Qed.

Lemma dateSep_not_upperDigit (x : N) :
  isDateSep x = true -> isUpperDigit x = false.
Proof.
  unfold isDateSep, isUpperDigit, isUpper, isDigit, between.
  intro H. repeat (apply orb_true_iff in H; destruct H as [H|H]);
    apply N.eqb_eq in H; subst; reflexivity.
Qed.

(** A cell of the OEM shape holds no date range. *)
Lemma oemPattern_no_date (cell : jsstring) :
  oemPattern_test cell = true -> search dateRangePattern cell = None.
Proof.
  intro H. destruct (oemPattern_shape _ H) as [_ Hall].
  destruct (search dateRangePattern cell) as [d|] eqn:E; [|reflexivity].
  destruct (search_some _ _ E) as [Hs Hin].
  destruct (@segs_has dateRangePattern d (one isDateSep)
              ltac:(simpl; auto) ltac:(simpl; lia) Hs) as (x & Hx & Hc).
  simpl in Hc. apply dateSep_not_upperDigit in Hc.
  rewrite forallb_forall in Hall. rewrite (Hall x (Hin x Hx)) in Hc.
  discriminate.
Qed.

Lemma isAnchorCell_isNextEntry (i j : nat) (cell : jsstring) :
  isAnchorCell cell = true -> i + 6 < j -> isNextEntry i j cell = true.
Proof.
  unfold isAnchorCell, isNextEntry, isHeaderCell. intros H Hj.
  apply andb_true_iff in H. destruct H as [H1 H2].
  apply negb_true_iff, orb_false_iff in H2. destruct H2 as [H2 _].
  rewrite H1, H2. apply Nat.ltb_lt in Hj. rewrite Hj. reflexivity.
Qed.

Lemma partAt_inv (allCells : list jsstring) (i : nat) (part : ParsedPart) :
  partAt allCells i = Some part ->
  exists cell,
    nth_error allCells i = Some cell /\
    isAnchorCell cell = true /\
    partNumber part = cell /\
    quantity part = readQuantity (nth_error allCells (i + 1)) /\
    modelDateRange part = scanDateRange allCells i.
Proof.
  unfold partAt, isAnchorCell.
  destruct (nth_error allCells i) as [cell|]; [|discriminate].
  destruct (oemPattern_test cell) eqn:E1; [|discriminate].
  destruct (isHeaderCell cell) eqn:E2; [discriminate|]. simpl.
  destruct (Nat.ltb (length cell) 5); [discriminate|].
  intro H; injection H as <-. exists cell. simpl. rewrite E1, E2.
  repeat split; reflexivity.
Qed.

Lemma mainLoop_In (allCells : list jsstring) (part : ParsedPart) :
  forall (idxs : list nat) (acc : list ParsedPart),
    In part (mainLoop allCells idxs acc) <->
    In part acc \/ exists i, In i idxs /\ partAt allCells i = Some part.
Proof.
  induction idxs as [|i idxs IH]; intro acc; simpl.
  - split; [auto | intros [H|(i & [] & _)]; exact H].
  - rewrite IH. destruct (partAt allCells i) as [q|] eqn:E.
    + rewrite in_app_iff. simpl. split.
      * intros [[H|[->|[]]]|(k & Hk & Hp)]; eauto.
      * intros [H|(k & [<-|Hk] & Hp)]; eauto.
        rewrite E in Hp. injection Hp as ->. auto.
    + split.
      * intros [H|(k & Hk & Hp)]; eauto.
      * intros [H|(k & [<-|Hk] & Hp)]; eauto. congruence.
Qed.

Lemma extractParts_In (allCells : list jsstring) (part : ParsedPart) :
  In part (extractParts allCells) <->
  exists i, partAt allCells i = Some part.
Proof.
  unfold extractParts. rewrite mainLoop_In. simpl. split.
  - intros [[]|(i & _ & H)]. eauto.
  - intros (i & H). right. exists i. split; [|exact H].
    apply in_seq. destruct (partAt_inv _ _ H) as (c & Hc & _).
    assert (i < length allCells) by (apply nth_error_Some; congruence).
    lia.
Qed.

(** The parts of a parsed page come from the main loop over the trimmed
    cells of the table. *)
Lemma parsePartsPage_parts
  (resolveUrl : jsstring -> jsstring -> option jsstring)
  (dom : PartsPageDom) (baseUrl diagramId : jsstring)
  (page : ParsedDiagramPage) (part : ParsedPart) :
  parsePartsPage resolveUrl dom baseUrl diagramId = Some page ->
  In part (parts page) ->
  exists allCells i, partAt allCells i = Some part.
Proof.
  unfold parsePartsPage.
  destruct (firstPicture resolveUrl (partsPictureSrcs dom) baseUrl);
    [|discriminate].
  intro H; injection H as <-. simpl.
  destruct (topCarsCells dom) as [tds|]; [|intros []].
  intro Hin. apply extractParts_In in Hin. destruct Hin as (i & Hi).
  eauto.
Qed.

Lemma nth_error_offset (A : Type) (pre l : list A) (k : nat) :
  nth_error (pre ++ l) (length pre + k) = nth_error l k.
Proof.
  rewrite nth_error_app2 by lia. f_equal. lia.
Qed.

Lemma trim_lit_row :
  map trim exampleRow = exampleRow.
Proof. vm_compute. reflexivity. Qed.

Lemma anchor_row (pre suf : list jsstring) :
  exists part,
    partAt (pre ++ exampleRow ++ suf) (length pre + 2) = Some part /\
    In part (extractParts (pre ++ exampleRow ++ suf)) /\
    isExamplePart part.
Proof.
  set (allCells := pre ++ exampleRow ++ suf).
  assert (Hn : forall k, nth_error allCells (length pre + k)
                         = nth_error (exampleRow ++ suf) k)
    by (intro k; apply nth_error_offset).
  assert (Hp : partAt allCells (length pre + 2) =
               Some {| partNumber := lit "MD123456";
                       pnc := Some (lit "02878C");
                       description := Some (lit "Bolt, Flange");
                       refNumber := Some (lit "04403");
                       quantity := Some (Finite 2);
                       spec := Some (lit "M8");
                       notes := None;
                       color := Some (lit "Black");
                       modelDateRange :=
                         scanDateRange allCells (length pre + 2) |}).
  { unfold partAt.
    replace (length pre + 2 - 2) with (length pre + 0) by lia.
    replace (length pre + 2 - 1) with (length pre + 1) by lia.
    replace (length pre + 2 + 1) with (length pre + 3) by lia.
    replace (length pre + 2 + 2) with (length pre + 4) by lia.
    replace (length pre + 2 + 3) with (length pre + 5) by lia.
    replace (length pre + 2 + 4) with (length pre + 6) by lia.
    replace (length pre + 2 + 5) with (length pre + 7) by lia.
    replace (Nat.leb 2 (length pre + 2)) with true
      by (symmetry; apply Nat.leb_le; lia).
    replace (Nat.leb 1 (length pre + 2)) with true
      by (symmetry; apply Nat.leb_le; lia).
    rewrite !Hn.
    change (nth_error (exampleRow ++ suf) 0) with (Some (lit "04403")).
    change (nth_error (exampleRow ++ suf) 1) with (Some (lit "02878C")).
    change (nth_error (exampleRow ++ suf) 2) with (Some (lit "MD123456")).
    change (nth_error (exampleRow ++ suf) 3) with (Some (lit "2")).
    change (nth_error (exampleRow ++ suf) 4) with (Some (lit "Bolt, Flange")).
    change (nth_error (exampleRow ++ suf) 5) with (Some (lit "M8")).
    change (nth_error (exampleRow ++ suf) 6) with (Some (lit "")).
    change (nth_error (exampleRow ++ suf) 7) with (Some (lit "Black")).
    replace (oemPattern_test (lit "MD123456")) with true
      by (vm_compute; reflexivity).
    replace (isHeaderCell (lit "MD123456")) with false
      by (vm_compute; reflexivity).
    replace (Nat.ltb (length (lit "MD123456")) 5) with false
      by (vm_compute; reflexivity).
    cbv beta iota zeta delta [negb].
    f_equal. f_equal; vm_compute; reflexivity. }
  eexists. split; [exact Hp|]. split.
  - apply extractParts_In. eexists. exact Hp.
  - unfold isExamplePart. simpl. repeat split; reflexivity.
Qed.

(** C2.  In any flat cell sequence that holds the cells "04403", "02878C",
    "MD123456", "2", "Bolt, Flange", "M8", "", "Black" in a row, the
    iteration at the anchor "MD123456" pushes a part with partNumber
    "MD123456", pnc "02878C" (one cell before), refNumber "04403" (two
    cells before), quantity 2, description "Bolt, Flange", spec "M8",
    notes null and color "Black" (the five cells after); a page whose
    table holds that row yields such a part whenever parsePartsPage
    returns. *)
Theorem parsePartsPage_anchor_offsets :
  forall (pre suf : list jsstring),
    (exists part,
       partAt (pre ++ exampleRow ++ suf) (length pre + 2) = Some part /\
       In part (extractParts (pre ++ exampleRow ++ suf)) /\
       isExamplePart part) /\
    (forall resolveUrl h1 title srcs baseUrl diagramId page,
       parsePartsPage resolveUrl
         {| h1Text := h1; titleText := title; partsPictureSrcs := srcs;
            topCarsCells := Some (pre ++ exampleRow ++ suf) |}
         baseUrl diagramId = Some page ->
       exists part, In part (parts page) /\ isExamplePart part).
Proof.
  intros pre suf. split; [apply anchor_row|].
  intros resolveUrl h1 title srcs baseUrl diagramId page.
  remember (pre ++ exampleRow ++ suf) as tds eqn:Htds.
  unfold parsePartsPage.
  cbn [partsPictureSrcs topCarsCells h1Text titleText].
  destruct (firstPicture resolveUrl srcs baseUrl); [|discriminate].
  intro H; injection H as <-. cbn [parts]. subst tds.
  rewrite !map_app, trim_lit_row.
  destruct (anchor_row (map trim pre) (map trim suf)) as (part & _ & H1 & H2).
  exists part. auto.
Qed.

Lemma parsePartsPage_anchor_offsets_witness :
  exists part,
    In part (parts {| diagram := {| id := lit "engine/oil-pump";
                                    name := lit "Oil pump";
                                    imageUrl := None |};
                      parts := extractParts (map lit ["No"; "PNC"]%string
                                             ++ exampleRow ++ []) |}) /\
    isExamplePart part.
Proof.
  apply (proj2 (parsePartsPage_anchor_offsets (map lit ["No"; "PNC"]%string)
                  [])
           (fun _ _ => None) (lit "Oil pump") (lit "") [] (lit "http://x/")
           (lit "engine/oil-pump")).
  vm_compute. reflexivity.
Defined.

(** C3.  No part emitted by parsePartsPage has a partNumber that is header
    text: the partNumber never contains "oem" or "part number" (compared
    in lower case), so a cell of the OEM shape such as "OEM12345" is never
    emitted; and it is none of the column headers of the table, "OEM part
    number" among them. *)
Theorem parsePartsPage_never_emits_header :
  forall (resolveUrl : jsstring -> jsstring -> option jsstring)
         (dom : PartsPageDom) (baseUrl diagramId : jsstring)
         (page : ParsedDiagramPage) (part : ParsedPart),
    parsePartsPage resolveUrl dom baseUrl diagramId = Some page ->
    In part (parts page) ->
    isHeaderCell (partNumber part) = false /\
    partNumber part <> lit "OEM12345" /\
    ~ In (partNumber part) columnHeaders.
Proof.
  intros resolveUrl dom baseUrl diagramId page part Hpage Hin.
  destruct (@parsePartsPage_parts _ _ _ _ _ _ Hpage Hin) as (cells & i & Hp).
  destruct (@partAt_inv _ _ _ Hp) as (cell & _ & Ha & Hn & _).
  rewrite Hn. clear - Ha.
  assert (Hh : isHeaderCell cell = false).
  { unfold isAnchorCell in Ha. apply andb_true_iff in Ha.
    destruct Ha as [_ Ha]. apply negb_true_iff in Ha. exact Ha. }
  split; [exact Hh|]. split.
  - intros ->. vm_compute in Hh. discriminate.
  - intro H. unfold columnHeaders in H. simpl in H.
    repeat (destruct H as [<-|H]; [vm_compute in Ha; discriminate|]).
    exact H.
Qed.

Lemma parsePartsPage_never_emits_header_witness :
  isHeaderCell (lit "MD123456") = false /\
  lit "MD123456" <> lit "OEM12345" /\
  ~ In (lit "MD123456") columnHeaders.
Proof.
  apply (@parsePartsPage_never_emits_header
           (fun _ _ => None)
           {| h1Text := lit "Oil pump"; titleText := lit "";
              partsPictureSrcs := [];
              topCarsCells := Some (map lit ["OEM part number"; "OEM12345";
                                             "MD123456"]%string) |}
           (lit "http://x/") (lit "engine/oil-pump")
           {| diagram := {| id := lit "engine/oil-pump";
                            name := lit "Oil pump"; imageUrl := None |};
              parts := [{| partNumber := lit "MD123456";
                           pnc := None; description := None;
                           refNumber := Some (lit "OEM part number");
                           quantity := None; spec := None; notes := None;
                           color := None; modelDateRange := None |}] |}
           {| partNumber := lit "MD123456";
              pnc := None; description := None;
              refNumber := Some (lit "OEM part number");
              quantity := None; spec := None; notes := None;
              color := None; modelDateRange := None |}).
  - vm_compute. reflexivity.
  - simpl. left. reflexivity.
Defined.

(** C9.  Every part emitted by parsePartsPage has a partNumber of the OEM
    shape, hence of at least 6 characters; and for every cell of the OEM
    shape the later test [partNumber.length < 5] is false, so its
    [continue] is never taken. *)
Theorem parsePartsPage_partNumber_shape :
  forall (resolveUrl : jsstring -> jsstring -> option jsstring)
         (dom : PartsPageDom) (baseUrl diagramId : jsstring)
         (page : ParsedDiagramPage) (part : ParsedPart),
    parsePartsPage resolveUrl dom baseUrl diagramId = Some page ->
    In part (parts page) ->
    oemPattern_test (partNumber part) = true /\
    6 <= length (partNumber part) /\
    (forall cell, oemPattern_test cell = true ->
                  Nat.ltb (length cell) 5 = false).
Proof.
  intros resolveUrl dom baseUrl diagramId page part Hpage Hin.
  destruct (@parsePartsPage_parts _ _ _ _ _ _ Hpage Hin) as (cells & i & Hp).
  destruct (@partAt_inv _ _ _ Hp) as (cell & _ & Ha & Hn & _).
  unfold isAnchorCell in Ha. apply andb_true_iff in Ha.
  destruct Ha as [Ha _]. rewrite Hn. split; [exact Ha|]. split.
  - apply oemPattern_shape. exact Ha.
  - intros c Hc. apply Nat.ltb_ge.
    destruct (oemPattern_shape _ Hc) as [Hlen _]. lia.
Qed.

Lemma parsePartsPage_partNumber_shape_witness :
  oemPattern_test (lit "WASHER") = true /\
  6 <= length (lit "WASHER") /\
  (forall cell, oemPattern_test cell = true ->
                Nat.ltb (length cell) 5 = false).
Proof.
  apply (@parsePartsPage_partNumber_shape
           (fun _ _ => None)
           {| h1Text := lit ""; titleText := lit "Washers for Delica";
              partsPictureSrcs := [];
              topCarsCells := Some [lit " WASHER "] |}
           (lit "http://x/") (lit "body/washers")
           {| diagram := {| id := lit "body/washers";
                            name := lit "Washers"; imageUrl := None |};
              parts := [{| partNumber := lit "WASHER";
                           pnc := None; description := None;
                           refNumber := None;
                           quantity := None; spec := None; notes := None;
                           color := None; modelDateRange := None |}] |}
           {| partNumber := lit "WASHER";
              pnc := None; description := None; refNumber := None;
              quantity := None; spec := None; notes := None;
              color := None; modelDateRange := None |}).
  - vm_compute. reflexivity.
  - simpl. left. reflexivity.
Defined.

(** C10 (amended).  The quantity of every part emitted by parsePartsPage
    is null or a truthy Number: a nonzero integer or an infinity, never 0
    and never NaN.  When the cell right after the anchor parses to 0 or
    to NaN the quantity is null; when that cell has fewer than 256
    characters the quantity is null or a nonzero integer. *)
Theorem parsePartsPage_quantity_nonzero :
  forall (resolveUrl : jsstring -> jsstring -> option jsstring)
         (dom : PartsPageDom) (baseUrl diagramId : jsstring)
         (page : ParsedDiagramPage) (part : ParsedPart),
    parsePartsPage resolveUrl dom baseUrl diagramId = Some page ->
    In part (parts page) ->
    (quantity part = None \/
     (exists z, quantity part = Some (Finite z) /\ z <> 0%Z) \/
     quantity part = Some Infinity \/
     quantity part = Some NegInfinity) /\
    (forall allCells i next,
        partAt allCells i = Some part ->
        nth_error allCells (i + 1) = Some next ->
        (parseInt next = Finite 0 \/ parseInt next = NaN ->
         quantity part = None) /\
        (length next < 256 ->
         quantity part = None \/
         exists z, quantity part = Some (Finite z) /\ z <> 0%Z)).
Proof.
  intros resolveUrl dom baseUrl diagramId page part Hpage Hin. split.
  - destruct (@parsePartsPage_parts _ _ _ _ _ _ Hpage Hin) as (cells & i & Hp).
    destruct (@partAt_inv _ _ _ Hp) as (cell & _ & _ & _ & Hq & _).
    rewrite Hq. unfold readQuantity.
    destruct (orNull (nth_error cells (i + 1))) as [c|]; [|left; reflexivity].
    cbv zeta. destruct (parseInt c) as [z| | |]; cbn [truthyNumber].
    + destruct (Z.eqb z 0) eqn:E; cbn [negb]; [left; reflexivity|].
      right. left. exists z. split; [reflexivity|]. apply Z.eqb_neq. exact E.
    + right. right. left. reflexivity.
    + right. right. right. reflexivity.
    + left. reflexivity.
  - intros allCells i next Hp Hnext.
    destruct (@partAt_inv _ _ _ Hp) as (cell & _ & _ & _ & Hq & _).
    rewrite Hq, Hnext. unfold readQuantity, orNull.
    destruct (truthy next); [|split; [reflexivity | left; reflexivity]].
    cbv zeta. split.
    + intros [-> | ->]; reflexivity.
    + intro Hlen. destruct (parseInt_finite next Hlen) as [-> | (z & ->)];
        [left; reflexivity|]. cbn [truthyNumber].
      destruct (Z.eqb z 0) eqn:E; cbn [negb]; [left; reflexivity|].
      right. exists z. split; [reflexivity|]. apply Z.eqb_neq. exact E.
Qed.

Lemma parsePartsPage_quantity_nonzero_witness :
  (quantity zeroQuantityPart = None \/
   (exists z, quantity zeroQuantityPart = Some (Finite z) /\ z <> 0%Z) \/
   quantity zeroQuantityPart = Some Infinity \/
   quantity zeroQuantityPart = Some NegInfinity) /\
  quantity zeroQuantityPart = None /\
  (quantity zeroQuantityPart = None \/
   exists z, quantity zeroQuantityPart = Some (Finite z) /\ z <> 0%Z).
Proof.
  destruct (@parsePartsPage_quantity_nonzero
           (fun _ _ => None)
           {| h1Text := lit "Oil pump"; titleText := lit "";
              partsPictureSrcs := [];
              topCarsCells := Some (map lit ["MD123456"; "0"]%string) |}
           (lit "http://x/") (lit "engine/oil-pump")
           {| diagram := {| id := lit "engine/oil-pump";
                            name := lit "Oil pump"; imageUrl := None |};
              parts := [zeroQuantityPart] |}
           zeroQuantityPart) as [H1 H2].
  - vm_compute. reflexivity.
  - simpl. left. reflexivity.
  - split; [exact H1|].
    destruct (H2 (map lit ["MD123456"; "0"]%string) 0 (lit "0"))
      as [H3 H4].
    + vm_compute. reflexivity.
    + reflexivity.
    + split.
      * apply H3. left. vm_compute. reflexivity.
      * apply H4. vm_compute. lia.
Defined.

(** C10, counterexample.  A cell of 400 digits after an anchor parses to
    Infinity, which is truthy: the part is emitted with the quantity
    Infinity, which is neither null nor an integer. *)
Lemma parsePartsPage_quantity_counterexample :
  let dom := {| h1Text := lit "Oil pump"; titleText := lit "";
                partsPictureSrcs := [];
                topCarsCells := Some [lit "MD123456"; longCell] |} in
  let page := {| diagram := {| id := lit "engine/oil-pump";
                               name := lit "Oil pump"; imageUrl := None |};
                 parts := [longQuantityPart] |} in
  parsePartsPage (fun _ _ => None) dom (lit "http://x/")
    (lit "engine/oil-pump") = Some page /\
  In longQuantityPart (parts page) /\
  partAt [lit "MD123456"; longCell] 0 = Some longQuantityPart /\
  parseInt longCell = Infinity /\
  quantity longQuantityPart = Some Infinity /\
  ~ (quantity longQuantityPart = None \/
     exists z, quantity longQuantityPart = Some (Finite z) /\ z <> 0%Z).
Proof.
  cbv zeta. split; [vm_compute; reflexivity|].
  split; [left; reflexivity|].
  split; [vm_compute; reflexivity|].
  split; [vm_compute; reflexivity|].
  split; [reflexivity|].
  intros [H | (z & H & _)]; discriminate H.
Qed.

Lemma scanLoop_some (allCells : list jsstring) (i : nat) (d : jsstring) :
  forall js : list nat,
    scanLoop allCells i js = Some d ->
    exists pre j post scanCell,
      js = pre ++ j :: post /\
      nth_error allCells j = Some scanCell /\
      search dateRangePattern scanCell = Some d /\
      (forall k cell, In k pre -> nth_error allCells k = Some cell ->
                      isNextEntry i k cell = false).
Proof.
  induction js as [|j js IH]; simpl; [discriminate|].
  destruct (nth_error allCells j) as [scanCell|] eqn:Hj.
  - destruct (truthy scanCell) eqn:Ht; simpl.
    + destruct (search dateRangePattern scanCell) as [m|] eqn:Hs.
      * intro H; injection H as ->.
        exists [], j, js, scanCell. simpl. repeat split; auto.
        intros k cell [].
      * destruct (isNextEntry i j scanCell) eqn:Hn; [discriminate|].
        intro H. destruct (IH H) as (pre & j' & post & c & -> & H1 & H2 & H3).
        exists (j :: pre), j', post, c. repeat split; auto.
        intros k cell [<-|Hk] Hc; [congruence | eauto].
    + intro H. destruct (IH H) as (pre & j' & post & c & -> & H1 & H2 & H3).
      exists (j :: pre), j', post, c. repeat split; auto.
      intros k cell [<-|Hk] Hc; [|eauto].
      assert (cell = []) by (destruct scanCell; [congruence|discriminate]).
      subst cell. unfold isNextEntry.
      replace (oemPattern_test []) with false by (vm_compute; reflexivity).
      rewrite andb_false_r. reflexivity.
  - intro H. destruct (IH H) as (pre & j' & post & c & -> & H1 & H2 & H3).
    exists (j :: pre), j', post, c. repeat split; auto.
    intros k cell [<-|Hk] Hc; [congruence | eauto].
Qed.

Lemma seq_split (a n : nat) (pre post : list nat) (j : nat) :
  seq a n = pre ++ j :: post ->
  a <= j /\ j < a + n /\ (forall k, a <= k -> k < j -> In k pre).
Proof.
  revert a n. induction pre as [|p pre IH]; intros a n H.
  - destruct n as [|n]; [discriminate|]. simpl in H. injection H as <- _.
    repeat split; lia.
  - destruct n as [|n]; [discriminate|]. simpl in H. injection H as <- H.
    destruct (IH _ _ H) as (H1 & H2 & H3). repeat split; try lia.
    intros k Hk1 Hk2. destruct (Nat.eq_dec k a) as [->|Hne];
      [left; reflexivity | right; apply H3; lia].
Qed.

(** C4.  For the part read at an anchor at index [i], a modelDateRange
    is the date range found in a cell [j] with [i+1 <= j <= i+15], and
    [j] lies before every cell past the minimum offset ([k > i+6]) that is
    an anchor (OEM shape, not header text): the scan stops there, so no
    date range at or after the next entry is assigned to this part. *)
Theorem modelDateRange_window_and_stop :
  forall (allCells : list jsstring) (i : nat) (part : ParsedPart)
         (d : jsstring),
    partAt allCells i = Some part ->
    modelDateRange part = Some d ->
    exists j scanCell,
      i + 1 <= j /\ j <= i + 15 /\
      nth_error allCells j = Some scanCell /\
      search dateRangePattern scanCell = Some d /\
      (forall k cell,
          i + 6 < k ->
          nth_error allCells k = Some cell ->
          isAnchorCell cell = true ->
          j < k).
Proof.
  intros allCells i part d Hp Hd.
  destruct (@partAt_inv _ _ _ Hp) as (_ & _ & _ & _ & _ & Hm).
  rewrite Hm in Hd. unfold scanDateRange in Hd.
  apply scanLoop_some in Hd.
  destruct Hd as (pre & j & post & c & Hjs & Hc & Hs & Hno).
  apply seq_split in Hjs. destruct Hjs as (Hlo & Hhi & Hpre).
  exists j, c. repeat split; try lia; auto.
  intros k cell Hk Hcell Ha.
  destruct (Nat.lt_ge_cases j k) as [Hlt|Hge]; [exact Hlt|exfalso].
  destruct (Nat.eq_dec k j) as [->|Hne].
  - assert (cell = c) by congruence. subst cell.
    unfold isAnchorCell in Ha. apply andb_true_iff in Ha.
    destruct Ha as [Ha _].
    apply oemPattern_no_date in Ha. congruence.
  - assert (Hin : In k pre) by (apply Hpre; lia).
    pose proof (@isAnchorCell_isNextEntry i k cell Ha Hk) as Hn.
    rewrite (Hno k cell Hin Hcell) in Hn. discriminate.
Qed.

Example stacked_entries_keep_their_dates :
  map (fun part => (partNumber part, modelDateRange part))
      (extractParts stackedExample)
  = [(lit "MD123456", None);
     (lit "MD654321", Some (lit "2001.04.1 - 2005.09"))].
Proof. vm_compute. reflexivity. Qed.

Lemma modelDateRange_window_and_stop_witness :
  exists j scanCell,
    2 + 1 <= j /\ j <= 2 + 15 /\
    nth_error dateExample j = Some scanCell /\
    search dateRangePattern scanCell = Some (lit "1999.05.1 - 2001.03") /\
    (forall k cell,
        2 + 6 < k ->
        nth_error dateExample k = Some cell ->
        isAnchorCell cell = true ->
        j < k).
Proof.
  refine (@modelDateRange_window_and_stop dateExample 2
            {| partNumber := lit "MD123456";
               pnc := Some (lit "02878C");
               description := Some (lit "Bolt, Flange");
               refNumber := Some (lit "04403");
               quantity := Some (Finite 2);
               spec := Some (lit "M8");
               notes := None;
               color := Some (lit "Black");
               modelDateRange := Some (lit "1999.05.1 - 2001.03") |}
            (lit "1999.05.1 - 2001.03") _ _).
  - vm_compute. reflexivity.
  - reflexivity.
Defined.

End ParserFacts.

(** ** parseDetailListSections *)

Module SectionFacts.
Import Js Utils Parser.

Section WithUrl.

Variable resolveUrl : jsstring -> jsstring -> option jsstring.
Variable baseUrl : jsstring.

Lemma sectionOf_pushed (td : DetailListTd) (section : DetailListSection) :
  sectionOf resolveUrl td baseUrl = Some (Some section) ->
  heading section = trim (h4Text td) /\
  slug section = slugify (heading section) /\
  keptHeading (trim (h4Text td)) = true.
Proof.
  unfold sectionOf, keptHeading.
  destruct (truthy (trim (h4Text td))); simpl; [|discriminate].
  destruct (truthy (slugify (trim (h4Text td)))); simpl; [|discriminate].
  match goal with |- match ?x with _ => _ end = _ -> _ => destruct x end;
    [|discriminate].
  intro H; injection H as <-. simpl. auto.
Qed.

Lemma sectionOf_skipped (td : DetailListTd) :
  sectionOf resolveUrl td baseUrl = Some None ->
  keptHeading (trim (h4Text td)) = false.
Proof.
  unfold sectionOf, keptHeading.
  destruct (truthy (trim (h4Text td))); simpl; [|reflexivity].
  destruct (truthy (slugify (trim (h4Text td)))); simpl; [|reflexivity].
  match goal with |- match ?x with _ => _ end = _ -> _ => destruct x end;
    discriminate.
Qed.

Lemma sectionOf_returns (td : DetailListTd) :
  (forall src, resolveUrl src baseUrl <> None) ->
  sectionOf resolveUrl td baseUrl <> None.
Proof.
  intro Hres. unfold sectionOf.
  destruct (truthy (trim (h4Text td))); simpl; [|discriminate].
  destruct (truthy (slugify (trim (h4Text td)))); simpl; [|discriminate].
  destruct (diagramImg td) as [src|]; [|discriminate].
  destruct (orNull src) as [src'|]; [|discriminate].
  unfold absoluteSrc. destruct (startsWith src' (lit "http")); simpl;
    [discriminate|].
  destruct (resolveUrl src' baseUrl) eqn:E; simpl; [discriminate|].
  exfalso. exact (Hres _ E).
Qed.

Lemma sectionsLoop_spec (tds : list DetailListTd) :
  forall acc sections,
    sectionsLoop resolveUrl tds baseUrl acc = Some sections ->
    exists pushed,
      sections = acc ++ pushed /\
      map heading pushed
      = filter keptHeading (map (fun td => trim (h4Text td)) tds) /\
      Forall (fun section => slug section = slugify (heading section))
             pushed.
Proof.
  induction tds as [|td tds IH]; intros acc sections; simpl.
  - intro H; injection H as <-. exists []. rewrite app_nil_r. auto.
  - destruct (sectionOf resolveUrl td baseUrl) as [[section|]|] eqn:E;
      [| |discriminate]; intro H.
    + destruct (sectionOf_pushed _ E) as (Hh & Hs & Hk). rewrite Hk.
      destruct (IH _ _ H) as (pushed & -> & Hm & Hf).
      exists (section :: pushed). rewrite <- app_assoc. simpl.
      rewrite Hh, Hm. repeat split; auto.
    + rewrite (sectionOf_skipped _ E).
      destruct (IH _ _ H) as (pushed & -> & Hm & Hf). eauto.
Qed.

Lemma sectionsLoop_returns (tds : list DetailListTd) :
  (forall src, resolveUrl src baseUrl <> None) ->
  forall acc, sectionsLoop resolveUrl tds baseUrl acc <> None.
Proof.
  intro Hres. induction tds as [|td tds IH]; intro acc; simpl;
    [discriminate|].
  pose proof (sectionOf_returns td Hres) as Htd.
  destruct (sectionOf resolveUrl td baseUrl) as [[section|]|];
    [apply IH | apply IH | congruence].
Qed.

End WithUrl.

(** C5, as the code has it.  parseDetailListSections returns one section
    for each td.detail-list, in document order, whose trimmed h4 heading
    is non-empty and has a non-empty slug, so at most N sections for N
    headed ones; every slug returned is non-empty and is slugify of the
    heading; the slugs are pairwise distinct exactly when the slugify of
    the headings kept are.  It returns whenever every image source
    resolves to a URL. *)
Theorem parseDetailListSections_sections :
  forall (resolveUrl : jsstring -> jsstring -> option jsstring)
         (tds : list DetailListTd) (baseUrl : jsstring),
    ((forall src, resolveUrl src baseUrl <> None) ->
     parseDetailListSections resolveUrl tds baseUrl <> None) /\
    (forall sections,
        parseDetailListSections resolveUrl tds baseUrl = Some sections ->
        map heading sections
        = filter keptHeading (map (fun td => trim (h4Text td)) tds) /\
        length sections <= length (filter headed tds) /\
        (forall section, In section sections ->
                         slug section = slugify (heading section) /\
                         slug section <> []) /\
        (NoDup (map slug sections) <->
         NoDup (map slugify (map heading sections)))).
Proof.
  intros resolveUrl tds baseUrl. split.
  - intro Hres. apply sectionsLoop_returns. exact Hres.
  - intros sections H. unfold parseDetailListSections in H.
    apply sectionsLoop_spec in H. destruct H as (pushed & -> & Hm & Hf).
    simpl. rewrite Forall_forall in Hf.
    assert (Hslug : map slug pushed = map slugify (map heading pushed)).
    { rewrite map_map. apply map_ext_in. intros a Ha. apply Hf. exact Ha. }
    split; [exact Hm|]. split; [|split].
    + rewrite <- (length_map heading), Hm.
      clear. induction tds as [|td tds IH]; simpl; [lia|].
      unfold keptHeading at 1, headed at 1.
      destruct (truthy (trim (h4Text td))); simpl.
      * destruct (truthy (slugify (trim (h4Text td)))); simpl; lia.
      * exact IH.
    + intros section Hin. split; [apply Hf; exact Hin|].
      assert (Hk : In (heading section)
                      (filter keptHeading
                         (map (fun td => trim (h4Text td)) tds)))
        by (rewrite <- Hm; apply in_map; exact Hin).
      apply filter_In in Hk. destruct Hk as [_ Hk].
      unfold keptHeading in Hk. apply andb_true_iff in Hk.
      destruct Hk as [_ Hk]. rewrite (Hf _ Hin).
      destruct (slugify (heading section)); [discriminate | discriminate].
    + rewrite Hslug. reflexivity.
Qed.

Lemma parseDetailListSections_sections_witness :
  parseDetailListSections (fun src _ => Some src) twoSectionTds
    (lit "http://x/") <> None /\
  map heading twoSections
  = filter keptHeading (map (fun td => trim (h4Text td)) twoSectionTds) /\
  length twoSections <= length (filter headed twoSectionTds) /\
  (forall section, In section twoSections ->
                   slug section = slugify (heading section) /\
                   slug section <> []) /\
  (NoDup (map slug twoSections) <->
   NoDup (map slugify (map heading twoSections))).
Proof.
  destruct (parseDetailListSections_sections
              (fun src _ => Some src) twoSectionTds (lit "http://x/"))
    as [H1 H2].
  split.
  - apply H1. intros src. discriminate.
  - apply H2. vm_compute. reflexivity.
Defined.

(** C5 as stated fails: two td.detail-list sections with distinct,
    non-empty headings get the same slug, and a headed section whose
    heading has no letter or digit gets no section at all. *)
Lemma parseDetailListSections_counterexample :
  (Forall (fun td => headed td = true) twoSectionTds /\
   NoDup (map (fun td => trim (h4Text td)) twoSectionTds) /\
   parseDetailListSections (fun _ _ => None) twoSectionTds (lit "http://x/")
   = Some twoSections /\
   ~ NoDup (map slug twoSections)) /\
  (headed starTd = true /\
   parseDetailListSections (fun _ _ => None) [starTd] (lit "http://x/")
   = Some []).
Proof.
  split; [|split; vm_compute; reflexivity].
  split; [repeat constructor|]. split.
  - unfold twoSectionTds. simpl. constructor.
    + intros [H|[]]. vm_compute in H. discriminate.
    + constructor; [intros []|constructor].
  - split; [vm_compute; reflexivity|].
    intro H. vm_compute in H. inversion H as [|x l Hn _]. apply Hn.
    left. reflexivity.
Qed.

End SectionFacts.

(** ** The crawl scheduler *)

Module SchedulerFacts.
Import Js Scheduler JsFacts.

Lemma find_app (A : Type) (f : A -> bool) (l l' : list A) :
  find f (l ++ l') = match find f l with
                     | Some x => Some x
                     | None => find f l'
                     end.
Proof.
  induction l as [|x l IH]; simpl; [reflexivity|].
  destruct (f x); [reflexivity | exact IH].
Qed.

Lemma statusOf_markUrlPending (db : ProgressTable) (u v : jsstring)
  (st : Status) :
  statusOf db v = Some st -> statusOf (markUrlPending db u) v = Some st.
Proof.
  unfold markUrlPending, statusOf, getUrlStatus.
  destruct (find (fun row => eqb (url row) u) db); [auto|].
  rewrite find_app.
  destruct (find (fun row => eqb (url row) v) db); [auto | discriminate].
Qed.

Lemma statusOf_setStatus_same (db : ProgressTable) (u : jsstring)
  (st : Status) (err : option jsstring) :
  statusOf (setStatus db u st err) u = Some st.
Proof.
  unfold setStatus, statusOf, getUrlStatus.
  destruct (find (fun row => eqb (url row) u) db) as [r|] eqn:E.
  - revert r E. induction db as [|r0 db IH]; simpl; [discriminate|].
    intros r. destruct (eqb (url r0) u) eqn:Er; simpl.
    + rewrite eqb_refl. reflexivity.
    + rewrite Er. apply IH.
  - rewrite find_app, E. simpl. rewrite eqb_refl. reflexivity.
Qed.

Lemma statusOf_setStatus_other (db : ProgressTable) (u v : jsstring)
  (st : Status) (err : option jsstring) :
  v <> u -> statusOf (setStatus db u st err) v = statusOf db v.
Proof.
  intro Hne. unfold setStatus, statusOf, getUrlStatus.
  destruct (find (fun row => eqb (url row) u) db) as [r|] eqn:E.
  - clear r E. induction db as [|r db IH]; simpl; [reflexivity|].
    destruct (eqb (url r) u) eqn:Er; simpl.
    + apply eqb_eq in Er. rewrite Er.
      rewrite (eqb_neq (fun H => Hne (eq_sym H))). exact IH.
    + destruct (eqb (url r) v); [reflexivity | exact IH].
  - rewrite find_app.
    destruct (find (fun row => eqb (url row) v) db); [reflexivity|].
    simpl. rewrite (eqb_neq (fun H => Hne (eq_sym H))). reflexivity.
Qed.

Section Crawl.

Variable Html : Type.
Variable Catalog : Type.
Variable fetch : nat -> jsstring -> Html + jsstring.
Variable getUrlWithFrame : jsstring -> jsstring.
Variable parseIndexPage : Html -> jsstring -> option (list ParsedGroup).
Variable parseCategoryPage : Html -> jsstring -> list jsstring.
Variable insertGroup : Catalog -> ParsedGroup -> Catalog.
Variable persistRecords : jsstring -> Html -> Catalog -> Catalog * bool.
Variable baseUrl : jsstring.

Variable db0 : ProgressTable.

Local Abbreviation index := (indexUrl getUrlWithFrame baseUrl).
Local Abbreviation Scraper := (Scraper Catalog).

Local Abbreviation Inv := (Inv getUrlWithFrame baseUrl db0).

Lemma inv_start : Inv db0 [].
Proof.
  repeat split. intros u [H|[]]. exact H.
Qed.

Lemma inv_fetch (d : ProgressTable) (t : list Event) (u : jsstring) :
  Inv d t -> statusOf d u <> Some completed -> Inv d (EvFetch u :: t).
Proof.
  intros (H1 & H2 & H3) Hu. split; [|split; [exact H2|split; [|exact H3]]].
  - intros v [Hv|[Hv|Hv]]; [| discriminate |]; apply H1; [left|right]; auto.
  - intro Hc. apply Hu. apply H1. exact Hc.
Qed.

Lemma inv_pending (d : ProgressTable) (t : list Event) (u : jsstring) :
  Inv d t -> Inv (markUrlPending d u) (EvPending u :: t).
Proof.
  intros (H1 & H2 & H3). split; [|split; [exact H2|exact H3]].
  intros v Hv. apply statusOf_markUrlPending. apply H1.
  destruct Hv as [Hv|[Hv|Hv]]; [left | discriminate | right]; auto.
Qed.

Lemma inv_failed (d : ProgressTable) (t : list Event) (u err : jsstring) :
  Inv d (EvFetch u :: t) ->
  Inv (markUrlFailed d u err) (EvFailed u :: EvFetch u :: t).
Proof.
  intros (H1 & H2 & H3). split; [|split; [exact H2|exact H3]].
  intros v Hv.
  assert (Hv' : completedAfter db0 t v).
  { destruct Hv as [Hv|[Hv|[Hv|Hv]]]; [left | discriminate | discriminate
                                       | right]; auto. }
  destruct H3 as [Hn _].
  assert (v <> u) by (intros ->; contradiction).
  unfold markUrlFailed. rewrite statusOf_setStatus_other by assumption.
  apply H1. destruct Hv' as [Hv'|Hv']; [left | right; right]; auto.
Qed.

Lemma inv_note (d : ProgressTable) (t : list Event) (e : Event) :
  (forall u, e <> EvCompleted u) -> (forall u, e <> EvFetch u) ->
  Inv d t -> Inv d (e :: t).
Proof.
  intros He Hf (H1 & H2 & H3). split; [|split].
  - intros v [Hv|[Hv|Hv]]; [| exfalso; eapply He; eauto |];
      apply H1; [left|right]; auto.
  - destruct e; simpl; auto. exfalso. eapply He; eauto.
  - destruct e; simpl; auto. exfalso. eapply Hf; eauto.
Qed.

Lemma inv_completed (d : ProgressTable) (t : list Event) (u : jsstring)
  (e : Event) :
  e = EvProcessed u \/ (e = EvIndexed u /\ u = index) ->
  Inv d (e :: t) ->
  Inv (markUrlCompleted d u) (EvCompleted u :: e :: t).
Proof.
  intros He (H1 & H2 & H3). split; [|split].
  - intros v Hv. destruct (list_eq_dec N.eq_dec v u) as [->|Hne].
    + apply statusOf_setStatus_same.
    + unfold markUrlCompleted. rewrite statusOf_setStatus_other by assumption.
      apply H1. destruct Hv as [Hv|[Hv|Hv]]; [left | congruence | right];
        auto.
  - split; [|exact H2]. destruct He as [->|[-> Hu]]; simpl; auto.
  - exact H3.
Qed.

Lemma inv_queueLink (s : Scraper) (link : jsstring) :
  Inv (db s) (trace s) ->
  Inv (db (queueLink getUrlWithFrame s link))
      (trace (queueLink getUrlWithFrame s link)).
Proof.
  intro H. unfold queueLink.
  destruct (getUrlStatus (db s) (getUrlWithFrame link)); [exact H|].
  simpl. apply inv_pending. exact H.
Qed.

Lemma inv_fold (A : Type) (f : Scraper -> A -> Scraper) (l : list A) :
  (forall s a, Inv (db s) (trace s) -> Inv (db (f s a)) (trace (f s a))) ->
  forall s, Inv (db s) (trace s) ->
            Inv (db (fold_left f l s)) (trace (fold_left f l s)).
Proof.
  intro Hf. induction l as [|a l IH]; intros s H; simpl; auto.
Qed.

Lemma inv_processPage (s : Scraper) (u : jsstring) (html : Html) :
  Inv (db s) (trace s) ->
  Inv (db (fst (processPage getUrlWithFrame parseCategoryPage persistRecords
                  s u html)))
      (trace (fst (processPage getUrlWithFrame parseCategoryPage
                     persistRecords s u html))).
Proof.
  intro H. unfold processPage.
  destruct (persistRecords u html (catalog s)) as [c [|]]; simpl; [|exact H].
  apply inv_fold; [apply inv_queueLink | exact H].
Qed.

Lemma inv_processQueue (fuel : nat) :
  forall s : Scraper,
    Inv (db s) (trace s) ->
    Inv (db (fst (processQueue fetch getUrlWithFrame parseCategoryPage
                    persistRecords fuel s)))
        (trace (fst (processQueue fetch getUrlWithFrame parseCategoryPage
                       persistRecords fuel s))).
Proof.
  induction fuel as [|fuel IH]; intros s H; simpl; [exact H|].
  destruct (urlQueue s) as [|u rest]; [exact H|]. simpl.
  destruct (statusOf (db s) u) as [st|] eqn:Est.
  - destruct (isCompleted st) eqn:Ec; [apply IH; exact H|].
    assert (Hu : statusOf (db s) u <> Some completed)
      by (rewrite Est; intro E; injection E as ->; discriminate).
    pose proof (inv_fetch u H Hu) as Hf.
    destruct (fetch (requests s) u) as [html|err].
    + match goal with |- context [processPage _ _ _ ?s0 u html] =>
        pose proof (@inv_processPage s0 u html Hf) as Hp;
        destruct (processPage getUrlWithFrame parseCategoryPage
                    persistRecords s0 u html) as [s1 [|]] end;
        simpl in Hp; [|exact Hp].
      apply IH. simpl. apply inv_completed; [left; reflexivity|].
      apply inv_note; [discriminate | discriminate | exact Hp].
    + apply IH. simpl. apply inv_failed. exact Hf.
  - assert (Hu : statusOf (db s) u <> Some completed)
      by (rewrite Est; discriminate).
    pose proof (inv_fetch u H Hu) as Hf.
    destruct (fetch (requests s) u) as [html|err].
    + match goal with |- context [processPage _ _ _ ?s0 u html] =>
        pose proof (@inv_processPage s0 u html Hf) as Hp;
        destruct (processPage getUrlWithFrame parseCategoryPage
                    persistRecords s0 u html) as [s1 [|]] end;
        simpl in Hp; [|exact Hp].
      apply IH. simpl. apply inv_completed; [left; reflexivity|].
      apply inv_note; [discriminate | discriminate | exact Hp].
    + apply IH. simpl. apply inv_failed. exact Hf.
Qed.

Lemma statusOf_markUrlPending_self (d : ProgressTable) (u : jsstring) :
  statusOf d u <> Some completed ->
  statusOf (markUrlPending d u) u <> Some completed.
Proof.
  unfold markUrlPending, statusOf, getUrlStatus.
  destruct (find (fun row => eqb (url row) u) d) eqn:E; simpl.
  - rewrite E. auto.
  - intros _. rewrite find_app, E. simpl. rewrite eqb_refl. discriminate.
Qed.

Lemma inv_queueCategory (s : Scraper) (cat : ParsedGroup) :
  Inv (db s) (trace s) ->
  Inv (db (queueCategory getUrlWithFrame insertGroup s cat))
      (trace (queueCategory getUrlWithFrame insertGroup s cat)).
Proof.
  intro H. unfold queueCategory. simpl. apply inv_pending. exact H.
Qed.

Lemma inv_scrapeIndex (s : Scraper) :
  Inv (db s) (trace s) ->
  Inv (db (fst (scrapeIndex fetch getUrlWithFrame parseIndexPage insertGroup
                  baseUrl s)))
      (trace (fst (scrapeIndex fetch getUrlWithFrame parseIndexPage
                     insertGroup baseUrl s))).
Proof.
  intro H. unfold scrapeIndex.
  assert (Hcase : (match statusOf (db s) index with
                   | Some st => isCompleted st
                   | None => false
                   end) = true \/ statusOf (db s) index <> Some completed).
  { destruct (statusOf (db s) index) as [[| |]|]; simpl; auto;
      right; discriminate. }
  destruct Hcase as [Hc|Hn].
  - rewrite Hc. exact H.
  - destruct (match statusOf (db s) index with
              | Some st => isCompleted st
              | None => false
              end); [exact H|].
    unfold doFetch. simpl.
    pose proof (inv_fetch index (inv_pending index H)
                  (@statusOf_markUrlPending_self (db s) index Hn)) as Hf.
    destruct (fetch (requests s) index) as [html|err].
    + destruct (parseIndexPage html index) as [categories|]; [|exact Hf].
      simpl. apply inv_completed; [right; split; reflexivity|].
      apply inv_note; [discriminate | discriminate |].
      match goal with |- context [fold_left _ _ ?s0] =>
        apply (@inv_fold _ (queueCategory getUrlWithFrame insertGroup)
                 categories inv_queueCategory s0) end.
      exact Hf.
    + simpl. apply inv_failed. exact Hf.
Qed.

Lemma inv_run (fuel : nat) (catalog0 : Catalog) :
  let final := fst (run fetch getUrlWithFrame parseIndexPage
                      parseCategoryPage insertGroup persistRecords baseUrl
                      fuel (newScraper db0 catalog0)) in
  Inv (db final) (trace final).
Proof.
  unfold run.
  assert (Hs : Inv (db (fst (startRun fetch getUrlWithFrame parseIndexPage
                               insertGroup baseUrl
                               (newScraper db0 catalog0))))
                   (trace (fst (startRun fetch getUrlWithFrame
                                  parseIndexPage insertGroup baseUrl
                                  (newScraper db0 catalog0))))).
  { unfold startRun. simpl.
    destruct (getPendingUrls db0); [|simpl; apply inv_start].
    apply inv_scrapeIndex. simpl. apply inv_start. }
  destruct (startRun fetch getUrlWithFrame parseIndexPage insertGroup
              baseUrl (newScraper db0 catalog0)) as [s1 [|]]; simpl in Hs.
  - apply inv_processQueue. exact Hs.
  - exact Hs.
Qed.

Lemma completedAfterWrite_at (t newer older : list Event) (u : jsstring) :
  completedAfterWrite getUrlWithFrame baseUrl t ->
  t = newer ++ EvCompleted u :: older ->
  exists older',
    older = EvProcessed u :: older' \/
    (u = index /\ older = EvIndexed u :: older').
Proof.
  revert t. induction newer as [|e newer IH]; intros t H ->; simpl in H.
  - destruct H as [H _]. destruct older as [|[v|v|v|v|v|v] older'];
      try contradiction.
    + subst v. eauto.
    + destruct H as [-> H]. eauto.
  - apply (IH (newer ++ EvCompleted u :: older)); [|reflexivity].
    destruct e; try exact H. destruct H as [_ H]. exact H.
Qed.

Lemma noFetchOfCompleted_at (t newer older : list Event) (u : jsstring) :
  noFetchOfCompleted db0 t ->
  t = newer ++ EvFetch u :: older ->
  ~ completedAfter db0 older u.
Proof.
  revert t. induction newer as [|e newer IH]; intros t H ->; simpl in H.
  - destruct H as [H _]. exact H.
  - apply (IH (newer ++ EvFetch u :: older)); [|reflexivity].
    destruct e; try exact H. destruct H as [_ H]. exact H.
Qed.

Lemma getPendingUrls_pending (u : jsstring) :
  NoDup (map url db0) ->
  In u (getPendingUrls db0) -> statusOf db0 u = Some pending.
Proof.
  unfold getPendingUrls, statusOf, getUrlStatus.
  induction db0 as [|r d IH]; simpl; [intros _ []|].
  intros Hnd Hin. inversion Hnd as [|x l Hx Hd]; subst.
  destruct (eqb (url r) u) eqn:E.
  - simpl. destruct (isPending (status r)) eqn:Ep.
    + destruct (status r); try discriminate. reflexivity.
    + exfalso. apply Hx. apply eqb_eq in E. rewrite E.
      apply in_map_iff in Hin. destruct Hin as (row & Hr & Hin).
      apply filter_In in Hin. apply in_map_iff. exists row. tauto.
  - apply IH; [exact Hd|].
    destruct (isPending (status r)); [|exact Hin].
    destruct Hin as [Hin|Hin]; [|exact Hin].
    rewrite Hin, eqb_refl in E. discriminate.
Qed.

(** C1.  In every run of the scheduler (any answers of the site, however
    long the run lasts, whether or not processPage throws):
    - markUrlCompleted(u) comes right after processPage(u, html) has
      returned (for the index page: right after its groups are saved);
    - a URL is only fetched while it is not completed: it was not
      completed in the table at the start and has not been marked
      completed earlier in the run; a completed URL keeps that status;
    - processQueue drops a queued URL whose stored status is completed
      without fetching it;
    - when the table has pending URLs at the start, the queue is exactly
      those URLs, nothing is fetched before processQueue, and (URLs being
      a key of the table) each queued URL has status pending. *)
Theorem completed_after_processing_and_never_refetched :
  forall (fuel : nat) (catalog0 : Catalog),
    let s0 := newScraper db0 catalog0 in
    let final := fst (run fetch getUrlWithFrame parseIndexPage
                        parseCategoryPage insertGroup persistRecords
                        baseUrl fuel s0) in
    (forall newer u older,
        trace final = newer ++ EvCompleted u :: older ->
        exists older',
          older = EvProcessed u :: older' \/
          (u = index /\ older = EvIndexed u :: older')) /\
    (forall newer u older,
        trace final = newer ++ EvFetch u :: older ->
        statusOf db0 u <> Some completed /\ ~ In (EvCompleted u) older) /\
    (forall u, statusOf db0 u = Some completed \/
               In (EvCompleted u) (trace final) ->
               statusOf (db final) u = Some completed) /\
    (forall (s : Scraper) u rest n,
        urlQueue s = u :: rest ->
        statusOf (db s) u = Some completed ->
        processQueue fetch getUrlWithFrame parseCategoryPage persistRecords
          (S n) s
        = processQueue fetch getUrlWithFrame parseCategoryPage
            persistRecords n (withQueue s rest)) /\
    (getPendingUrls db0 <> [] ->
     startRun fetch getUrlWithFrame parseIndexPage insertGroup baseUrl s0
     = (withQueue s0 (getPendingUrls db0), true) /\
     (NoDup (map url db0) ->
      forall u, In u (getPendingUrls db0) ->
                statusOf db0 u = Some pending)).
Proof.
  intros fuel catalog0 s0 final.
  destruct (inv_run fuel catalog0) as (H1 & H2 & H3). fold s0 final in H1, H2, H3.
  split; [|split; [|split; [|split]]].
  - intros newer u older Ht. eapply completedAfterWrite_at; eauto.
  - intros newer u older Ht.
    pose proof (noFetchOfCompleted_at _ H3 Ht) as Hn.
    unfold completedAfter in Hn. tauto.
  - exact H1.
  - intros s u rest n Hq Hs. simpl. rewrite Hq. simpl. rewrite Hs.
    reflexivity.
  - intro Hp. split.
    + unfold startRun. simpl. destruct (getPendingUrls db0); [congruence|].
      reflexivity.
    + intros Hnd u Hu. apply getPendingUrls_pending; assumption.
Qed.

End Crawl.

Lemma completed_after_processing_and_never_refetched_witness :
  trace (fst (exampleRun 5))
  = [EvCompleted exampleDetail; EvProcessed exampleDetail;
     EvFetch exampleDetail;
     EvCompleted examplePump; EvProcessed examplePump;
     EvPending exampleDetail; EvFetch examplePump] /\
  (exists older',
      [EvProcessed examplePump; EvPending exampleDetail; EvFetch examplePump]
      = EvProcessed examplePump :: older' \/
      (examplePump = exampleIndex /\
       [EvProcessed examplePump; EvPending exampleDetail;
        EvFetch examplePump] = EvIndexed examplePump :: older')) /\
  (statusOf exampleDb exampleDetail <> Some completed /\
   ~ In (EvCompleted exampleDetail)
        [EvCompleted examplePump; EvProcessed examplePump;
         EvPending exampleDetail; EvFetch examplePump]) /\
  statusOf (db (fst (exampleRun 5))) exampleEngine = Some completed /\
  statusOf exampleDb examplePump = Some pending.
Proof.
  destruct (@completed_after_processing_and_never_refetched
              unit nat (fun _ _ => inl tt) (fun u => u) (fun _ _ => Some [])
              (fun _ _ => [exampleEngine; exampleDetail])
              (fun c _ => c) (fun _ _ c => (S c, true))
              exampleIndex exampleDb 5 0) as (H1 & H2 & H3 & _ & H5).
  split; [vm_compute; reflexivity|]. split; [|split; [|split]].
  - apply (H1 [EvCompleted exampleDetail; EvProcessed exampleDetail;
               EvFetch exampleDetail] examplePump).
    vm_compute. reflexivity.
  - apply (H2 [EvCompleted exampleDetail; EvProcessed exampleDetail]
              exampleDetail).
    vm_compute. reflexivity.
  - apply H3. left. vm_compute. reflexivity.
  - assert (Hp : getPendingUrls exampleDb <> []) by (vm_compute; discriminate).
    destruct (H5 Hp) as [_ H6]. apply H6.
    + vm_compute. repeat constructor; simpl; intuition discriminate.
    + vm_compute. left. reflexivity.
Defined.

End SchedulerFacts.



(** ** The repair of shared parts *)

Module RepairFacts.
Import Js Schema Repair JsFacts.

Lemma hasKey_In (l : list Part) (pn d : jsstring) :
  hasKey l pn d = true <-> In (pn, d) (keys l).
Proof.
  unfold hasKey, keys. rewrite existsb_exists, in_map_iff. split.
  - intros (r & Hr & H). apply andb_true_iff in H. destruct H as [H1 H2].
    apply eqb_eq in H1, H2. exists r. subst. auto.
  - intros (r & H & Hr). injection H as <- <-. exists r.
    rewrite !eqb_refl. auto.
Qed.

Lemma hasKey_app (l l' : list Part) (pn d : jsstring) :
  hasKey l pn d = true -> hasKey (l ++ l') pn d = true.
Proof.
  unfold hasKey. rewrite existsb_app. intros ->. reflexivity.
Qed.

Lemma hasKey_row (l : list Part) (pn d : jsstring) :
  hasKey l pn d = true <->
  exists r, In r l /\ part_number r = pn /\ diagram_id r = d.
Proof.
  unfold hasKey. rewrite existsb_exists. split.
  - intros (r & Hr & H). apply andb_true_iff in H. destruct H as [H1 H2].
    apply eqb_eq in H1, H2. eauto.
  - intros (r & Hr & <- & <-). exists r. rewrite !eqb_refl. auto.
Qed.

Lemma hasKey_incl (l l' : list Part) (pn d : jsstring) :
  incl l l' -> hasKey l pn d = true -> hasKey l' pn d = true.
Proof.
  intros Hi H. apply hasKey_row in H. destruct H as (r & Hr & H).
  apply hasKey_row. exists r. split; [apply Hi; exact Hr | exact H].
Qed.

Lemma existsb_eqb_In (d : jsstring) (l : list jsstring) :
  existsb (eqb d) l = true <-> In d l.
Proof.
  rewrite existsb_exists. split.
  - intros (x & Hx & H). apply eqb_eq in H. subst. exact Hx.
  - intro H. exists d. split; [exact H | apply eqb_refl].
Qed.

Lemma underDiagramb_spec (l : list Part) (D d : jsstring) :
  underDiagramb l D d = true <-> underDiagram l D d.
Proof.
  unfold underDiagramb, underDiagram. rewrite existsb_eqb_In, in_map_iff.
  split.
  - intros (x & Hd & Hx). apply filter_In in Hx. exists x. tauto.
  - intros (x & Hx & Hdet & Hd). exists x. split; [exact Hd|].
    apply filter_In. auto.
Qed.

Lemma In_app_l (A : Type) (l l' : list A) (x : A) : In x l -> In x (l ++ l').
Proof. intro H. apply in_or_app. left. exact H. Qed.

Lemma underDiagram_incl (l l' : list Part) (D d : jsstring) :
  incl l l' -> underDiagram l D d -> underDiagram l' D d.
Proof.
  intros Hi (x & Hx & H). exists x. split; [apply Hi; exact Hx | exact H].
Qed.

Lemma underDiagram_app (l new : list Part) (D d : jsstring) :
  underDiagram l D d -> underDiagram (l ++ new) D d.
Proof.
  apply underDiagram_incl. intros x Hx. apply In_app_l. exact Hx.
Qed.



(** *** The row ids *)

Lemma maxId_nonneg (l : list Part) : (0 <= maxId l)%Z.
Proof.
  induction l as [|r l IH]; [apply Z.le_refl|].
  cbn [maxId fold_right]. fold (maxId l). lia.
Qed.

Lemma maxId_app (l l' : list Part) :
  maxId (l ++ l') = Z.max (maxId l) (maxId l').
Proof.
  induction l as [|r l IH].
  - cbn [app maxId fold_right]. pose proof (maxId_nonneg l'). fold (maxId l').
    lia.
  - cbn [app maxId fold_right]. fold (maxId (l ++ l')). fold (maxId l).
    rewrite IH. lia.
Qed.


(** *** Loops whose body may throw *)

(** What every turn of the body keeps, the loop keeps, however it ends. *)
Lemma forEach_inv (A S : Type) (body : S -> A -> S * bool) (P : S -> Prop)
  (l : list A) :
  (forall s a, In a l -> P s -> P (fst (body s a))) ->
  forall s, P s -> P (fst (forEach body l s)).
Proof.
  induction l as [|a l IH]; intros Hb s Hs; [exact Hs|].
  cbn [forEach]. pose proof (Hb s a (or_introl eq_refl) Hs) as H1.
  destruct (body s a) as [s' [|]]; cbn [fst] in *; [|exact H1].
  apply IH; [|exact H1]. intros s0 a0 Ha. apply Hb. right. exact Ha.
Qed.


(** *** One statement *)

Lemma insertStep_cases (store : Store) (d : jsstring) (st : RunState)
  (r0 : Part) :
  (insertStep store d st r0 = (st, false) /\
   ((maxRowid <= lastId (table st))%Z \/
    (hasKey (rows (table st)) (part_number r0) d = false /\
     foreignKeysHold store d r0 = false))) \/
  ((lastId (table st) < maxRowid)%Z /\
   hasKey (rows (table st)) (part_number r0) d = true /\
   insertStep store d st r0
   = ({| table := {| rows := rows (table st);
                     sequence := lastId (table st) + 1 |};
         totalFixed := S (totalFixed st) |}, true)) \/
  ((lastId (table st) < maxRowid)%Z /\
   hasKey (rows (table st)) (part_number r0) d = false /\
   foreignKeysHold store d r0 = true /\
   insertStep store d st r0
   = ({| table := {| rows := rows (table st)
                             ++ [retarget r0 d (lastId (table st) + 1)];
                     sequence := lastId (table st) + 1 |};
         totalFixed := S (totalFixed st) |}, true)).
Proof.
  unfold insertStep, insertOrIgnore.
  destruct (maxRowid <=? lastId (table st))%Z eqn:Ef.
  - left. apply Z.leb_le in Ef. auto.
  - apply Z.leb_gt in Ef.
    destruct (hasKey (rows (table st)) (part_number r0) d) eqn:Ek.
    + right. left. auto.
    + destruct (foreignKeysHold store d r0) eqn:Efk.
      * right. right. auto.
      * left. auto.
Qed.

Lemma lastId_ignored (t : PartsTable) :
  lastId {| rows := rows t; sequence := lastId t + 1 |} = (lastId t + 1)%Z.
Proof.
  unfold lastId. cbn [rows sequence]. lia.
Qed.

Lemma lastId_inserted (t : PartsTable) (r : Part) :
  id r = (lastId t + 1)%Z ->
  lastId {| rows := rows t ++ [r]; sequence := lastId t + 1 |}
  = (lastId t + 1)%Z.
Proof.
  intro Hid. unfold lastId. cbn [rows sequence]. rewrite maxId_app.
  cbn [maxId fold_right]. rewrite Hid. unfold lastId.
  pose proof (maxId_nonneg (rows t)). lia.
Qed.

Lemma lastId_positive (t : PartsTable) : (0 <= lastId t)%Z.
Proof. unfold lastId. pose proof (maxId_nonneg (rows t)). lia. Qed.

Lemma stepped_refl (store : Store) (R : list Part) (M : list jsstring)
  (st : RunState) : stepped store R M st st.
Proof.
  split; [apply Z.le_refl|]. split; [apply le_n|]. split; [|auto].
  exists []. rewrite app_nil_r. split; [reflexivity | intros r []].
Qed.

Lemma stepped_insertStep (store : Store) (R : list Part) (M : list jsstring)
  (st st' : RunState) (d : jsstring) (r0 : Part) :
  In r0 R -> In d M ->
  stepped store R M st st' ->
  stepped store R M st (fst (insertStep store d st' r0)).
Proof.
  intros Hr Hd (H1 & H2 & (new & Hrows & Hnew) & H4).
  destruct (insertStep_cases store d st' r0)
    as [[-> _] | [(Hf & Hk & ->) | (Hf & Hk & Hfk & ->)]]; cbn [fst].
  - split; [exact H1|]. split; [exact H2|]. split; [|exact H4].
    exists new. auto.
  - unfold stepped. cbn [table totalFixed rows].
    split; [rewrite lastId_ignored; lia|].
    split; [lia|]. split; [|exact H4]. exists new. auto.
  - unfold stepped. cbn [table totalFixed rows].
    split; [rewrite lastId_inserted by reflexivity; lia|].
    split; [rewrite length_app; cbn [length]; lia|]. split.
    + exists (new ++ [retarget r0 d (lastId (table st') + 1)]).
      split; [rewrite Hrows, app_assoc; reflexivity|].
      intros r Hin. apply in_app_or in Hin. destruct Hin as [Hin|[<-|[]]].
      * apply Hnew. exact Hin.
      * exists r0. cbn [diagram_id id retarget].
        split; [exact Hr|]. split; [exact Hd|]. split; [reflexivity|].
        split.
        -- unfold foreignKeysHold in Hfk. apply andb_true_iff in Hfk.
           tauto.
        -- pose proof (lastId_positive (table st')). lia.
    + intro Hnd. specialize (H4 Hnd). unfold keys. rewrite map_app.
      apply NoDup_app; [exact H4 | repeat constructor; intros [] |].
      intros k Hk' [<-|[]]. apply hasKey_In in Hk'.
      cbn [part_number diagram_id retarget] in Hk'. congruence.
Qed.

Lemma stepped_inner (store : Store) (R : list Part) (M : list jsstring)
  (st : RunState) (d : jsstring) (R' : list Part) :
  incl R' R -> In d M ->
  forall st', stepped store R M st st' ->
    stepped store R M st (fst (forEach (insertStep store d) R' st')).
Proof.
  intros Hi Hd. apply forEach_inv. intros s a Ha Hs.
  apply stepped_insertStep; [apply Hi; exact Ha | exact Hd | exact Hs].
Qed.

Lemma stepped_outer (store : Store) (R : list Part) (M : list jsstring)
  (st : RunState) (M' : list jsstring) :
  incl M' M ->
  forall st', stepped store R M st st' ->
    stepped store R M st
      (fst (forEach (fun s d => forEach (insertStep store d) R s) M' st')).
Proof.
  intros Hi. apply forEach_inv. intros s d Hd Hs.
  apply stepped_inner; [apply incl_refl | apply Hi; exact Hd | exact Hs].
Qed.

(** The two [continue] of the loop body are turns of the loops that do
    nothing. *)
Lemma repairShared_loops (store : Store) (st : RunState) (D : jsstring)
  (ds : list jsstring) :
  repairShared store st (D, ds)
  = match selectParts (rows (table st)) D with
    | None => (st, false)
    | Some partsResult =>
        forEach (fun s d => forEach (insertStep store d) partsResult s)
                (filter (fun d => negb (underDiagramb (rows (table st)) D d))
                        ds) st
    end.
Proof.
  unfold repairShared, selectParts, underDiagramb.
  destruct (forallb readable (filter (hasDetail D) (rows (table st))));
    [|reflexivity].
  destruct (filter (hasDetail D) (rows (table st))) as [|r l] eqn:E.
  - symmetry. cbn [map existsb negb].
    induction (filter (fun _ : jsstring => true) ds) as [|d m IH];
      [reflexivity|]. cbn [forEach]. exact IH.
  - destruct (filter _ ds); reflexivity.
Qed.

Lemma selectParts_some (l : list Part) (D : jsstring) (R : list Part) :
  selectParts l D = Some R ->
  R = filter (hasDetail D) l /\ forallb readable R = true.
Proof.
  unfold selectParts.
  destruct (forallb readable (filter (hasDetail D) l)) eqn:E;
    [|discriminate].
  intro H. injection H as <-. auto.
Qed.

Lemma repairShared_stepped (store : Store) (st : RunState) (D : jsstring)
  (ds : list jsstring) :
  stepped store (filter (hasDetail D) (rows (table st)))
    (filter (fun d => negb (underDiagramb (rows (table st)) D d)) ds)
    st (fst (repairShared store st (D, ds))).
Proof.
  rewrite repairShared_loops.
  destruct (selectParts (rows (table st)) D) as [R|] eqn:E;
    [|apply stepped_refl].
  apply selectParts_some in E. destruct E as [-> _].
  apply stepped_outer; [apply incl_refl | apply stepped_refl].
Qed.

(** *** One state after another *)

Lemma grown_refl (store : Store) (l0 : list Part) : grown store l0 l0.
Proof.
  exists []. rewrite app_nil_r. split; [reflexivity | intros r []].
Qed.

Lemma sameData_trans (r r1 r0 : Part) :
  sameData r r1 -> sameData r1 r0 -> sameData r r0.
Proof.
  unfold sameData. intros H1 H2. rewrite H1 at 1. rewrite H2. reflexivity.
Qed.

Lemma sameData_detail (r r0 : Part) (D : jsstring) :
  sameData r r0 -> hasDetail D r = hasDetail D r0.
Proof. unfold sameData. intros ->. reflexivity. Qed.

Lemma grown_trans (store : Store) (l0 l1 l2 : list Part) :
  grown store l0 l1 -> grown store l1 l2 -> grown store l0 l2.
Proof.
  intros (new1 & H1 & Hn1) (new2 & H2 & Hn2).
  exists (new1 ++ new2). split; [rewrite H2, H1, app_assoc; reflexivity|].
  intros r Hr. apply in_app_or in Hr. destruct Hr as [Hr|Hr];
    [apply Hn1; exact Hr|].
  destruct (Hn2 r Hr) as (r1 & D & Hin & Hdet & Hsame & Hnone & Hsub & Hid).
  assert (Hnone0 : ~ underDiagram l0 D (diagram_id r)).
  { intro Hu. apply Hnone. rewrite H1. apply underDiagram_app. exact Hu. }
  rewrite H1 in Hin. apply in_app_or in Hin. destruct Hin as [Hin|Hin].
  - exists r1, D. auto 10.
  - destruct (Hn1 r1 Hin) as (r0 & D0 & Hin0 & Hdet0 & Hsame0 & _).
    exists r0, D. split; [exact Hin0|]. split.
    + rewrite <- (sameData_detail D Hsame0). exact Hdet.
    + split; [eapply sameData_trans; eassumption|]. auto.
Qed.

Lemma follows_refl (store : Store) (st : RunState) : follows store st st.
Proof.
  split; [apply Z.le_refl|]. split; [apply le_n|].
  split; [apply grown_refl | auto].
Qed.

Lemma follows_trans (store : Store) (st0 st1 st2 : RunState) :
  follows store st0 st1 -> follows store st1 st2 -> follows store st0 st2.
Proof.
  intros (A1 & A2 & A3 & A4) (B1 & B2 & B3 & B4).
  split; [lia|]. split; [lia|].
  split; [eapply grown_trans; eassumption | auto].
Qed.

Lemma follows_repairShared (store : Store) (st : RunState)
  (entry : jsstring * list jsstring) :
  follows store st (fst (repairShared store st entry)).
Proof.
  destruct entry as [D ds].
  destruct (repairShared_stepped store st D ds)
    as (H1 & H2 & (new & Hrows & Hnew) & H4).
  split; [exact H1|]. split; [exact H2|]. split; [|exact H4].
  exists new. split; [exact Hrows|]. intros r Hr.
  destruct (Hnew r Hr) as (r0 & Hin & Hd & Heq & Hsub & Hid).
  apply filter_In in Hin. destruct Hin as [Hin Hdet].
  apply filter_In in Hd. destruct Hd as [_ Hd].
  exists r0, D. split; [exact Hin|]. split; [exact Hdet|].
  split; [exact Heq|]. split; [|auto].
  intro Hu. apply underDiagramb_spec in Hu. rewrite Hu in Hd. discriminate.
Qed.

Lemma follows_entries (store : Store) (entries : IdMap) :
  forall st, follows store st (fst (forEach (repairShared store) entries st)).
Proof.
  intro st. apply (@forEach_inv _ _ (repairShared store) (follows store st)).
  - intros s a _ Hs. eapply follows_trans; [exact Hs|].
    apply follows_repairShared.
  - apply follows_refl.
Qed.

(** *** The map from detail ids to diagrams *)





Lemma mapGet_In (m : IdMap) (k : jsstring) (v : list jsstring) :
  mapGet m k = Some v -> In (k, v) m.
Proof.
  induction m as [|[k0 v0] m IH]; simpl; [discriminate|].
  destruct (eqb k0 k) eqn:E.
  - intro H. injection H as ->. apply eqb_eq in E. subst. left. reflexivity.
  - intro H. right. apply IH. exact H.
Qed.



(** The diagrams recorded for a detail id are diagrams of the sections. *)
Lemma In_mapSet (m : IdMap) (k : jsstring) (v : list jsstring)
  (e : jsstring * list jsstring) :
  In e (mapSet m k v) -> In e m \/ snd e = v.
Proof.
  induction m as [|[k0 v0] m IH]; cbn [mapSet].
  - intros [<-|[]]. right. reflexivity.
  - destruct (eqb k0 k).
    + intros [<-|H]; [right; reflexivity | left; right; exact H].
    + intros [<-|H]; [left; left; reflexivity|].
      destruct (IH H) as [H'|H']; [left; right; exact H' | right; exact H'].
Qed.

Lemma values_addDetail (allowed : list jsstring) (m : IdMap)
  (k d : jsstring) :
  In d allowed ->
  (forall e, In e m -> incl (snd e) allowed) ->
  forall e, In e (addDetail m k d) -> incl (snd e) allowed.
Proof.
  intros Hd Hm e He. unfold addDetail in He. apply In_mapSet in He.
  destruct He as [He | ->]; [apply Hm; exact He|].
  apply incl_app; [|intros x [<-|[]]; exact Hd].
  destruct (mapGet m k) as [l|] eqn:E; [|intros x []].
  apply mapGet_In in E. apply (Hm _ E).
Qed.

Lemma values_sections (allowed : list jsstring)
  (sections : list DiagramMapping) :
  (forall s, In s sections -> In (diagramId s) allowed) ->
  forall e, In e (detailIdToDiagrams sections) -> incl (snd e) allowed.
Proof.
  intro Hs. unfold detailIdToDiagrams.
  assert (H : forall m : IdMap,
             (forall e, In e m -> incl (snd e) allowed) ->
             forall e,
               In e (fold_left
                       (fun m section =>
                          fold_left (fun m x =>
                                       addDetail m x (diagramId section))
                                    (detailPageIds section) m)
                       sections m) ->
               incl (snd e) allowed).
  { induction sections as [|sec sections IH]; intros m Hm; [exact Hm|].
    cbn [fold_left]. apply IH.
    - intros s0 H0. apply Hs. right. exact H0.
    - assert (Hd : In (diagramId sec) allowed)
        by (apply Hs; left; reflexivity).
      clear IH Hs. revert m Hm.
      induction (detailPageIds sec) as [|x ids IHi]; intros m Hm;
        [exact Hm|].
      cbn [fold_left]. apply IHi. apply values_addDetail; assumption. }
  apply H. intros e [].
Qed.

Lemma In_insertSorted (d x : Diagram) (l : list Diagram) :
  In x (insertSorted d l) <-> x = d \/ In x l.
Proof.
  induction l as [|y l IH]; cbn [insertSorted].
  - split; [intros [<-|[]]; auto | intros [->|[]]; left; reflexivity].
  - destruct (ltb (d_id d) (d_id y)).
    + split; [intros [<-|H]; auto | intros [->|H]; [left|right]; auto].
    + cbn [In]. rewrite IH. tauto.
Qed.

Lemma diagramsForPath_In (store : Store) (path : jsstring) (x : Diagram) :
  In x (diagramsForPath store path) -> In x (diagrams store).
Proof.
  unfold diagramsForPath.
  induction (filter _ (diagrams store)) as [|y l IH] eqn:E in |- *.
  - intros [].
  - intros H. cbn [fold_right] in H. apply In_insertSorted in H.
    assert (Hy : forall z, In z (y :: l) -> In z (diagrams store)).
    { intros z Hz. rewrite <- E in Hz. apply filter_In in Hz. tauto. }
    destruct H as [->|H]; [apply Hy; left; reflexivity|].
    clear IH. revert H. clear E.
    assert (Hl : forall z, In z l -> In z (diagrams store))
      by (intros z Hz; apply Hy; right; exact Hz).
    clear Hy. induction l as [|z l IHl]; [intros []|].
    cbn [fold_right]. intro H. apply In_insertSorted in H.
    destruct H as [->|H]; [apply Hl; left; reflexivity|].
    apply IHl; [|exact H]. intros w Hw. apply Hl. right. exact Hw.
Qed.

(** *** The inserts under one diagram *)

Lemma foreignKeys_bad (store : Store) (d : jsstring) (r : Part) :
  isSubgroup store d = false -> foreignKeysHold store d r = false.
Proof. unfold foreignKeysHold. intros ->. apply andb_false_r. Qed.

Lemma inner_rows (store : Store) (d : jsstring) (R : list Part)
  (st : RunState) :
  (lastId (table st)
   <= lastId (table (fst (forEach (insertStep store d) R st))))%Z /\
  exists new,
    rows (table (fst (forEach (insertStep store d) R st)))
    = rows (table st) ++ new /\
    forall r, In r new -> diagram_id r = d.
Proof.
  destruct (@stepped_inner store R [d] st d R (incl_refl R)
              (or_introl eq_refl) st (stepped_refl store R [d] st))
    as (H1 & _ & (new & Hrows & Hnew) & _).
  split; [exact H1|]. exists new. split; [exact Hrows|].
  intros r Hr. destruct (Hnew r Hr) as (_ & _ & [<-|[]] & _). reflexivity.
Qed.

(** Statements that are ignored or fail leave the rows as they are. *)
Lemma inner_quiet (store : Store) (d : jsstring) (R : list Part) :
  forall st : RunState,
    (forall r, In r R ->
               hasKey (rows (table st)) (part_number r) d = true \/
               foreignKeysHold store d r = false) ->
    rows (table (fst (forEach (insertStep store d) R st)))
    = rows (table st).
Proof.
  induction R as [|r R IH]; intros st H; [reflexivity|].
  cbn [forEach].
  destruct (insertStep_cases store d st r)
    as [[-> _] | [(Hf & Hk & ->) | (Hf & Hk & Hfk & ->)]].
  - reflexivity.
  - rewrite IH; [reflexivity|]. cbn [table rows]. intros r' Hr'.
    apply H. right. exact Hr'.
  - exfalso. destruct (H r (or_introl eq_refl)); congruence.
Qed.

(** Under a diagram that is a subgroup id, with the group of every row
    in [groups] and row ids left, no insert fails, and afterwards the
    diagram has every part number of the rows. *)
Lemma inner_good (store : Store) (d : jsstring) (R : list Part) :
  isSubgroup store d = true ->
  isDiagram store d = true ->
  (forall r, In r R -> isGroup store (group_id r) = true) ->
  forall st : RunState,
    (lastId (table (fst (forEach (insertStep store d) R st))) < maxRowid)%Z ->
    snd (forEach (insertStep store d) R st) = true /\
    forall r, In r R ->
      hasKey (rows (table (fst (forEach (insertStep store d) R st))))
             (part_number r) d = true.
Proof.
  intros Hsub Hdia. induction R as [|r R IH]; intros Hg st Hend.
  - split; [reflexivity | intros r []].
  - assert (Hfk : foreignKeysHold store d r = true).
    { unfold foreignKeysHold. rewrite Hsub, Hdia, (Hg r (or_introl eq_refl)).
      reflexivity. }
    assert (Hg' : forall r', In r' R -> isGroup store (group_id r') = true)
      by (intros r' Hr'; apply Hg; right; exact Hr').
    cbn [forEach] in *.
    destruct (insertStep_cases store d st r)
      as [[E [Hfull | [_ Hno]]] | [(Hf & Hk & E) | (Hf & Hk & _ & E)]];
      rewrite E in *; cbn [fst snd] in *.
    + lia.
    + congruence.
    + destruct (IH Hg' _ Hend) as [Hok Hkeys]. split; [exact Hok|].
      intros r' [<-|Hr']; [|apply Hkeys; exact Hr'].
      match goal with |- context [forEach _ R ?s] =>
        destruct (inner_rows store d R s) as (_ & new & -> & _) end.
      apply hasKey_app. exact Hk.
    + destruct (IH Hg' _ Hend) as [Hok Hkeys]. split; [exact Hok|].
      intros r' [<-|Hr']; [|apply Hkeys; exact Hr'].
      match goal with |- context [forEach _ R ?s] =>
        destruct (inner_rows store d R s) as (_ & new & -> & _) end.
      apply hasKey_app. cbn [table rows]. apply hasKey_row.
      eexists. split; [apply in_or_app; right; left; reflexivity|].
      split; reflexivity.
Qed.

(** Under a diagram that is no subgroup id, where the first run of the
    inserts failed the second fails. *)
Lemma inner_bad_fails (store : Store) (d : jsstring) (R extra : list Part) :
  isSubgroup store d = false ->
  forall st st' : RunState,
    (forall pn, hasKey (rows (table st')) pn d
                = hasKey (rows (table st)) pn d) ->
    (lastId (table (fst (forEach (insertStep store d) R st))) < maxRowid)%Z ->
    snd (forEach (insertStep store d) R st) = false ->
    snd (forEach (insertStep store d) (R ++ extra) st') = false.
Proof.
  intro Hbad. induction R as [|r R IH]; intros st st' Hkeys Hend Hfail;
    [discriminate|].
  pose proof (foreignKeys_bad store d r Hbad) as Hfk.
  cbn [forEach app] in *.
  destruct (insertStep_cases store d st r)
    as [[E [Hfull | [Hk _]]] | [(Hf & Hk & E) | (_ & _ & Hfk' & _)]];
    [| | |congruence]; rewrite E in *; cbn [fst snd] in *.
  - lia.
  - destruct (insertStep_cases store d st' r)
      as [[E' _] | [(_ & Hk' & _) | (_ & _ & Hfk' & _)]].
    + rewrite E'. reflexivity.
    + rewrite Hkeys in Hk'. congruence.
    + congruence.
  - destruct (insertStep_cases store d st' r)
      as [[E' _] | [(_ & Hk' & E') | (_ & Hk' & _ & _)]].
    + rewrite E'. reflexivity.
    + rewrite E'. eapply IH; [|exact Hend | exact Hfail].
      cbn [table rows]. exact Hkeys.
    + rewrite Hkeys in Hk'. congruence.
Qed.

(** *** One shared detail id, a second time *)

Section Again.

Variable store : Store.
Variable D : jsstring.
Variables L L' R extra : list Part.

Hypothesis HLL' : incl L L'.
Hypothesis Hbad :
  forall r, In r L' -> isSubgroup store (diagram_id r) = false -> In r L.
Hypothesis Hgroups : forall r, In r R -> isGroup store (group_id r) = true.
Hypothesis Hpn :
  forall r, In r (R ++ extra) ->
            exists r0, In r0 R /\ part_number r = part_number r0.

Local Abbreviation missing1 :=
  (fun d : jsstring => negb (underDiagramb L D d)).
Local Abbreviation missing2 :=
  (fun d : jsstring => negb (underDiagramb L' D d)).

Lemma hasKey_bad (l : list Part) (pn d : jsstring) :
  isSubgroup store d = false -> incl L l -> incl l L' ->
  hasKey L' pn d = hasKey l pn d.
Proof.
  intros Hd H1 H2. destruct (hasKey l pn d) eqn:E.
  - apply (@hasKey_incl _ _ pn d H2). exact E.
  - apply not_true_is_false. intro H. apply hasKey_row in H.
    destruct H as (r & Hr & Hpn' & Hdr).
    assert (Hin : In r L) by (apply Hbad; [exact Hr | rewrite Hdr; exact Hd]).
    assert (Ht : hasKey l pn d = true)
      by (apply hasKey_row; exists r; auto).
    congruence.
Qed.

Lemma missing_twice (d : jsstring) :
  missing2 d = true -> missing1 d = true.
Proof.
  cbv beta. rewrite !negb_true_iff. intro H.
  apply not_true_is_false. intro H1. apply underDiagramb_spec in H1.
  assert (H2 : underDiagramb L' D d = true)
    by (apply underDiagramb_spec; eapply underDiagram_incl; eassumption).
  congruence.
Qed.

Lemma missing_once (d : jsstring) :
  missing1 d = true -> missing2 d = false -> isSubgroup store d = true.
Proof.
  cbv beta. rewrite negb_true_iff, negb_false_iff.
  intros H1 H2. destruct (isSubgroup store d) eqn:E; [reflexivity|].
  exfalso. apply underDiagramb_spec in H2. destruct H2 as (x & Hx & Hdx & Hd).
  assert (Hin : In x L) by (apply Hbad; [exact Hx | rewrite Hd; exact E]).
  assert (Ht : underDiagramb L D d = true)
    by (apply underDiagramb_spec; exists x; auto).
  congruence.
Qed.

Local Abbreviation outer1 :=
  (forEach (fun s d => forEach (insertStep store d) R s)).
Local Abbreviation outer2 :=
  (forEach (fun s d => forEach (insertStep store d) (R ++ extra) s)).

Lemma outer_rows (M : list jsstring) (st : RunState) :
  (lastId (table st) <= lastId (table (fst (outer1 M st))))%Z /\
  incl (rows (table st)) (rows (table (fst (outer1 M st)))).
Proof.
  destruct (@stepped_outer store R M st M (incl_refl M) st
              (stepped_refl store R M st))
    as (H1 & _ & (new & Hrows & _) & _).
  split; [exact H1|]. rewrite Hrows. intros x Hx. apply In_app_l. exact Hx.
Qed.

Lemma outer_again (ds : list jsstring) :
  (forall d, In d ds -> isDiagram store d = true) ->
  forall st st' : RunState,
    incl L (rows (table st)) ->
    rows (table st') = L' ->
    incl (rows (table (fst (outer1 (filter missing1 ds) st)))) L' ->
    (lastId (table (fst (outer1 (filter missing1 ds) st))) < maxRowid)%Z ->
    rows (table (fst (outer2 (filter missing2 ds) st'))) = L' /\
    (snd (outer1 (filter missing1 ds) st) = false ->
     snd (outer2 (filter missing2 ds) st') = false).
Proof.
  induction ds as [|d ds IH]; intros Hdia st st' HL Hst' Hend Hfull.
  - cbn [filter forEach fst snd]. split; [exact Hst' | discriminate].
  - assert (Hdia' : forall x, In x ds -> isDiagram store x = true)
      by (intros x Hx; apply Hdia; right; exact Hx).
    cbn [filter] in *. cbv beta in *.
    destruct (negb (underDiagramb L D d)) eqn:E1.
    + (* the first run handles [d] *)
      cbn [forEach] in Hend, Hfull |- *.
      pose proof (inner_rows store d R st) as (Hl1 & new1 & Hrows1 & _).
      destruct (forEach (insertStep store d) R st) as [sb okb] eqn:Eb.
      cbn [fst snd] in Hl1, Hrows1.
      assert (Hsb : incl (rows (table sb)) L' /\
                    (lastId (table sb) < maxRowid)%Z).
      { destruct okb; cbn [fst] in Hend, Hfull.
        - destruct (outer_rows (filter missing1 ds) sb) as [Hm Hi].
          split; [|lia]. intros x Hx. apply Hend. apply Hi. exact Hx.
        - split; assumption. }
      destruct Hsb as [Hsb Hsbf].
      assert (HLb : incl L (rows (table sb))).
      { rewrite Hrows1. intros x Hx. apply In_app_l. apply HL. exact Hx. }
      destruct (isSubgroup store d) eqn:Esub.
      * (* a subgroup id: the first run completes it *)
        destruct (@inner_good store d R Esub (Hdia d (or_introl eq_refl))
                    Hgroups st) as [Hok Hkeys];
          [rewrite Eb; exact Hsbf|].
        rewrite Eb in Hok, Hkeys. cbn [fst snd] in Hok, Hkeys. subst okb.
        destruct (negb (underDiagramb L' D d)) eqn:E2.
        -- cbn [forEach].
           assert (Hq : rows (table (fst (forEach (insertStep store d)
                                            (R ++ extra) st'))) = L').
           { rewrite inner_quiet; [exact Hst'|]. intros r Hr. left.
             destruct (Hpn r Hr) as (r0 & Hr0 & ->). rewrite Hst'.
             apply (@hasKey_incl _ _ _ _ Hsb). apply Hkeys. exact Hr0. }
           destruct (forEach (insertStep store d) (R ++ extra) st')
             as [sb' okb']. cbn [fst] in Hq. destruct okb'.
           ++ apply IH; assumption.
           ++ cbn [fst snd]. auto.
        -- apply IH; assumption.
      * (* no subgroup id: nothing is inserted under it *)
        assert (E2 : negb (underDiagramb L' D d) = true).
        { destruct (negb (underDiagramb L' D d)) eqn:E2; [reflexivity|].
          rewrite (missing_once d E1 E2) in Esub. discriminate. }
        rewrite E2. cbn [forEach].
        assert (Hq : rows (table (fst (forEach (insertStep store d)
                                         (R ++ extra) st'))) = L').
        { rewrite inner_quiet; [exact Hst'|]. intros r Hr. right.
          apply foreignKeys_bad. exact Esub. }
        assert (Hfail : okb = false ->
                  snd (forEach (insertStep store d) (R ++ extra) st')
                  = false).
        { intros ->.
          apply (@inner_bad_fails store d R extra Esub st st').
          - intro pn. rewrite Hst'. apply hasKey_bad; [exact Esub|exact HL|].
            intros x Hx. apply Hsb. rewrite Hrows1. apply In_app_l. exact Hx.
          - rewrite Eb. exact Hsbf.
          - rewrite Eb. reflexivity. }
        destruct (forEach (insertStep store d) (R ++ extra) st')
          as [sb' okb']. cbn [fst snd] in Hq, Hfail. destruct okb'.
        -- destruct okb; [|specialize (Hfail eq_refl); discriminate].
           apply IH; assumption.
        -- cbn [fst snd]. auto.
    + (* the first run had a row of the page under [d] *)
      assert (E2 : negb (underDiagramb L' D d) = false).
      { destruct (negb (underDiagramb L' D d)) eqn:E2; [|reflexivity].
        rewrite (missing_twice d E2) in E1. discriminate. }
      rewrite E2. apply IH; assumption.
Qed.

End Again.

Lemma sameData_columns (r r0 : Part) :
  sameData r r0 ->
  part_number r = part_number r0 /\ group_id r = group_id r0 /\
  quantity r = quantity r0.
Proof. unfold sameData. intros ->. auto. Qed.

Lemma grown_incl (store : Store) (L L' : list Part) :
  grown store L L' -> incl L L'.
Proof. intros (new & -> & _) x Hx. apply In_app_l. exact Hx. Qed.

Lemma grown_bad (store : Store) (L L' : list Part) (r : Part) :
  grown store L L' -> In r L' ->
  isSubgroup store (diagram_id r) = false -> In r L.
Proof.
  intros (new & -> & Hnew) Hr Hd. apply in_app_or in Hr.
  destruct Hr as [Hr|Hr]; [exact Hr|].
  destruct (Hnew r Hr) as (_ & _ & _ & _ & _ & _ & Hsub & _). congruence.
Qed.

Lemma grown_page (store : Store) (L L' : list Part) (D : jsstring) :
  grown store L L' ->
  exists extra,
    filter (hasDetail D) L' = filter (hasDetail D) L ++ extra /\
    forall r, In r (filter (hasDetail D) L ++ extra) ->
              exists r0, In r0 (filter (hasDetail D) L) /\
                         part_number r = part_number r0.
Proof.
  intros (new & -> & Hnew). exists (filter (hasDetail D) new).
  split; [apply filter_app|]. intros r Hr. apply in_app_or in Hr.
  destruct Hr as [Hr|Hr]; [exists r; auto|].
  apply filter_In in Hr. destruct Hr as [Hr Hdet].
  destruct (Hnew r Hr) as (r0 & D0 & Hin & _ & Hsame & _).
  exists r0. split.
  - apply filter_In. split; [exact Hin|].
    rewrite <- (sameData_detail D Hsame). exact Hdet.
  - eapply sameData_columns; exact Hsame.
Qed.

Lemma grown_groups (store : Store) (L L' : list Part) :
  grown store L L' -> groupsHold store L -> groupsHold store L'.
Proof.
  intros (new & -> & Hnew) Hg r Hr. apply in_app_or in Hr.
  destruct Hr as [Hr|Hr]; [apply Hg; exact Hr|].
  destruct (Hnew r Hr) as (r0 & _ & Hin & _ & Hsame & _).
  destruct (@sameData_columns _ _ Hsame) as (_ & -> & _). apply Hg. exact Hin.
Qed.

(** The loop body on a state whose rows the first run has left: it adds
    no row, and it throws where the first run threw. *)
Lemma repairShared_again (store : Store) (st st' : RunState) (D : jsstring)
  (ds : list jsstring) :
  groupsHold store (rows (table st)) ->
  (forall d, In d ds -> isDiagram store d = true) ->
  (lastId (table (fst (repairShared store st (D, ds)))) < maxRowid)%Z ->
  grown store (rows (table (fst (repairShared store st (D, ds)))))
        (rows (table st')) ->
  rows (table (fst (repairShared store st' (D, ds)))) = rows (table st') /\
  (snd (repairShared store st (D, ds)) = false ->
   snd (repairShared store st' (D, ds)) = false).
Proof.
  intros Hg Hdia Hfull Hgrown.
  destruct (follows_repairShared store st (D, ds)) as (_ & _ & Hg1 & _).
  pose proof (@grown_trans _ _ _ _ Hg1 Hgrown) as HLL.
  destruct (@grown_page _ _ _ D HLL) as (extra & Hextra & Hpn).
  rewrite !repairShared_loops in *. unfold selectParts in *.
  rewrite Hextra, forallb_app.
  destruct (forallb readable (filter (hasDetail D) (rows (table st))));
    cbn [andb]; [|split; reflexivity].
  destruct (forallb readable extra); [|split; reflexivity].
  apply (@outer_again store D (rows (table st)) (rows (table st'))
           (filter (hasDetail D) (rows (table st))) extra).
  - eapply grown_incl; exact HLL.
  - intros r Hr Hd. eapply grown_bad; eassumption.
  - intros r Hr. apply filter_In in Hr. apply Hg. tauto.
  - exact Hpn.
  - exact Hdia.
  - apply incl_refl.
  - reflexivity.
  - eapply grown_incl; exact Hgrown.
  - exact Hfull.
Qed.

Lemma entries_again (store : Store) (entries : IdMap) :
  (forall e, In e entries ->
             forall d, In d (snd e) -> isDiagram store d = true) ->
  forall st st' : RunState,
    groupsHold store (rows (table st)) ->
    (lastId (table (fst (forEach (repairShared store) entries st)))
     < maxRowid)%Z ->
    grown store (rows (table (fst (forEach (repairShared store) entries st))))
          (rows (table st')) ->
    rows (table (fst (forEach (repairShared store) entries st')))
    = rows (table st').
Proof.
  induction entries as [|[D ds] entries IH]; intros Hdia st st' Hg Hfull Hgr;
    [reflexivity|].
  assert (Hdia' : forall e, In e entries ->
                    forall d, In d (snd e) -> isDiagram store d = true)
    by (intros e He; apply Hdia; right; exact He).
  cbn [forEach] in *.
  pose proof (follows_repairShared store st (D, ds)) as (_ & _ & Hg1 & _).
  pose proof (@repairShared_again store st st' D ds Hg
                (Hdia (D, ds) (or_introl eq_refl))) as Hagain.
  destruct (repairShared store st (D, ds)) as [s1 ok1].
  cbn [fst snd] in *.
  assert (H1 : (lastId (table s1) < maxRowid)%Z /\
               grown store (rows (table s1)) (rows (table st'))).
  { destruct ok1; cbn [fst] in Hfull, Hgr; [|auto].
    destruct (follows_entries store entries s1) as (Hl & _ & Hg2 & _).
    split; [lia|]. eapply grown_trans; eassumption. }
  destruct H1 as [Hf1 Hgr1]. destruct (Hagain Hf1 Hgr1) as [Hrows Hfail].
  destruct (repairShared store st' (D, ds)) as [s1' ok1'].
  cbn [fst snd] in *. destruct ok1'; [|exact Hrows].
  destruct ok1; [|specialize (Hfail eq_refl); discriminate].
  rewrite <- Hrows. apply (IH Hdia' s1 s1').
  - eapply grown_groups; eassumption.
  - exact Hfull.
  - rewrite Hrows. exact Hgr.
Qed.

(** With no row id left, every statement fails. *)
Lemma insertStep_full (store : Store) (d : jsstring) (st : RunState)
  (r : Part) :
  (maxRowid <= lastId (table st))%Z -> insertStep store d st r = (st, false).
Proof.
  intro H. unfold insertStep, insertOrIgnore.
  apply Z.leb_le in H. rewrite H. reflexivity.
Qed.

Lemma outer_full (store : Store) (R : list Part) (M : list jsstring)
  (st : RunState) :
  (maxRowid <= lastId (table st))%Z ->
  fst (forEach (fun s d => forEach (insertStep store d) R s) M st) = st.
Proof.
  intro H. induction M as [|d M IH]; [reflexivity|].
  cbn [forEach]. destruct R as [|r R].
  - cbn [forEach]. exact IH.
  - cbn [forEach]. rewrite (@insertStep_full store d st r H). reflexivity.
Qed.

Lemma entries_full (store : Store) (entries : IdMap) (st : RunState) :
  (maxRowid <= lastId (table st))%Z ->
  fst (forEach (repairShared store) entries st) = st.
Proof.
  intro H. induction entries as [|[D ds] entries IH]; [reflexivity|].
  cbn [forEach].
  assert (E : fst (repairShared store st (D, ds)) = st).
  { rewrite repairShared_loops.
    destruct (selectParts (rows (table st)) D); [|reflexivity].
    apply outer_full. exact H. }
  destruct (repairShared store st (D, ds)) as [s1 ok]. cbn [fst] in E.
  subst s1. destruct ok; [exact IH | reflexivity].
Qed.

Section Main.

Variable frameName trimCode frameNo : jsstring.
Variable fetchPage : jsstring -> option (list Parser.DetailListTd).

Local Abbreviation main := (main frameName trimCode frameNo fetchPage).
Local Abbreviation sharedOfPath :=
  (sharedOfPath frameName trimCode frameNo fetchPage).
Local Abbreviation repairSubgroup :=
  (repairSubgroup frameName trimCode frameNo fetchPage).

Lemma sharedOfPath_diagrams (store : Store) (path D : jsstring)
  (ds : list jsstring) :
  In (D, ds) (sharedOfPath store path) ->
  incl ds (map d_id (diagramsForPath store path)).
Proof.
  unfold Repair.sharedOfPath.
  destruct (fetchPage _) as [tds|]; [|intros []].
  destruct (negb _); [intros []|]. intro H.
  unfold sharedDetailIds in H. apply filter_In in H. destruct H as [H _].
  apply (@values_sections (map d_id (diagramsForPath store path))
           (assignDiagrams (parseDetailListSections tds)
                           (diagramsForPath store path))) in H;
    [exact H|].
  intros s Hs. unfold assignDiagrams in Hs. apply in_map_iff in Hs.
  destruct Hs as ([sec d] & <- & Hin). cbn [diagramId snd].
  apply in_map. apply in_combine_r in Hin. exact Hin.
Qed.

Lemma sharedOfPath_isDiagram (store : Store) (path : jsstring)
  (e : jsstring * list jsstring) :
  In e (sharedOfPath store path) ->
  forall d, In d (snd e) -> isDiagram store d = true.
Proof.
  destruct e as [D ds]. intros He d Hd.
  apply (@sharedOfPath_diagrams store path D ds He) in Hd.
  apply in_map_iff in Hd.
  destruct Hd as (x & <- & Hx). apply diagramsForPath_In in Hx.
  unfold isDiagram. apply existsb_eqb_In. apply in_map. exact Hx.
Qed.

Lemma repairSubgroup_entries (store : Store) (st : RunState)
  (path : jsstring) :
  repairSubgroup store st path
  = fst (forEach (repairShared store) (sharedOfPath store path) st).
Proof.
  unfold Repair.repairSubgroup. destruct (sharedOfPath store path);
    reflexivity.
Qed.

Lemma follows_paths (store : Store) (paths : list jsstring) :
  forall st, follows store st (fold_left (repairSubgroup store) paths st).
Proof.
  induction paths as [|path paths IH]; intro st; [apply follows_refl|].
  cbn [fold_left]. eapply follows_trans; [|apply IH].
  rewrite repairSubgroup_entries. apply follows_entries.
Qed.

(** The whole loop on a state whose rows the first run has left. *)
Lemma paths_again (store : Store) (paths : list jsstring) :
  forall st st' : RunState,
    groupsHold store (rows (table st)) ->
    (lastId (table (fold_left (repairSubgroup store) paths st))
     < maxRowid)%Z ->
    grown store (rows (table (fold_left (repairSubgroup store) paths st)))
          (rows (table st')) ->
    rows (table (fold_left (repairSubgroup store) paths st'))
    = rows (table st').
Proof.
  induction paths as [|path paths IH]; intros st st' Hg Hfull Hgr;
    [reflexivity|].
  cbn [fold_left] in *.
  destruct (follows_paths store paths (repairSubgroup store st path))
    as (Hl & _ & Hg2 & _).
  assert (Hg1 : grown store (rows (table st))
                      (rows (table (repairSubgroup store st path)))).
  { rewrite repairSubgroup_entries. apply follows_entries. }
  assert (Hrows : rows (table (repairSubgroup store st' path))
                  = rows (table st')).
  { rewrite !repairSubgroup_entries in *.
    apply (@entries_again store (sharedOfPath store path)
             (sharedOfPath_isDiagram store path) st st' Hg); [lia|].
    eapply grown_trans; eassumption. }
  rewrite <- Hrows. apply (IH (repairSubgroup store st path)).
  - eapply grown_groups; eassumption.
  - exact Hfull.
  - rewrite Hrows. exact Hgr.
Qed.

Lemma paths_full (store : Store) (paths : list jsstring) (st : RunState) :
  (maxRowid <= lastId (table st))%Z ->
  fold_left (repairSubgroup store) paths st = st.
Proof.
  intro H. induction paths as [|path paths IH]; [reflexivity|].
  cbn [fold_left]. rewrite repairSubgroup_entries, entries_full by exact H.
  exact IH.
Qed.

(** A second run of the script, on what the first run left. *)
Lemma main_twice (store : Store) :
  parts (fst (main (fst (main store))))
  = table (fold_left (repairSubgroup store) (multiDiagramPaths store)
             {| table := parts (fst (main store)); totalFixed := 0 |}).
Proof. reflexivity. Qed.

Lemma main_again (store : Store) :
  groupsHold store (rows (parts store)) ->
  rows (parts (fst (main (fst (main store)))))
  = rows (parts (fst (main store))).
Proof.
  intro Hg. rewrite main_twice.
  set (st0 := {| table := parts store; totalFixed := 0 |}).
  set (final := fold_left (repairSubgroup store) (multiDiagramPaths store)
                          st0).
  change (parts (fst (main store))) with (table final).
  destruct (Z_lt_le_dec (lastId (table final)) maxRowid) as [Hlt|Hge].
  - apply (@paths_again store (multiDiagramPaths store) st0
             {| table := table final; totalFixed := 0 |} Hg Hlt).
    apply grown_refl.
  - rewrite paths_full; [reflexivity | exact Hge].
Qed.

End Main.

(** *** A run in which no statement fails *)








Section Copied.

Variable store : Store.
Variable st0 : RunState.
Variables D d2 : jsstring.
Variable p : Part.

Hypothesis Hsub2 : isSubgroup store d2 = true.
Hypothesis Hp : In p (rows (table st0)).
Hypothesis Hdet : hasDetail D p = true.
Hypothesis Hg0 : groupsHold store (rows (table st0)).
Hypothesis Hread0 :
  forall r, In r (rows (table st0)) -> readable r = true.

(** A state of the run: it comes after the first one, and with a row of
    page [D] under [d2] it has a row for the part number of [p] there. *)
Local Abbreviation reached := (fun s : RunState =>
  follows store st0 s /\
  (underDiagram (rows (table s)) D d2 ->
   hasKey (rows (table s)) (part_number p) d2 = true)).




End Copied.

Section CopiedPaths.

Variable frameName trimCode frameNo : jsstring.
Variable fetchPage : jsstring -> option (list Parser.DetailListTd).

Local Abbreviation sharedOfPath :=
  (sharedOfPath frameName trimCode frameNo fetchPage).
Local Abbreviation repairSubgroup :=
  (repairSubgroup frameName trimCode frameNo fetchPage).

Variable store : Store.
Variable st0 : RunState.
Variables D d2 : jsstring.
Variable p : Part.

Hypothesis Hsub2 : isSubgroup store d2 = true.
Hypothesis Hp : In p (rows (table st0)).
Hypothesis Hdet : hasDetail D p = true.
Hypothesis Hg0 : groupsHold store (rows (table st0)).

Local Abbreviation reached := (fun s : RunState =>
  follows store st0 s /\
  (underDiagram (rows (table s)) D d2 ->
   hasKey (rows (table s)) (part_number p) d2 = true)).


End CopiedPaths.

Section Main.

Variable frameName trimCode frameNo : jsstring.
Variable fetchPage : jsstring -> option (list Parser.DetailListTd).

Local Abbreviation main := (main frameName trimCode frameNo fetchPage).
Local Abbreviation sharedOfPath :=
  (sharedOfPath frameName trimCode frameNo fetchPage).
Local Abbreviation repairSubgroup :=
  (repairSubgroup frameName trimCode frameNo fetchPage).


End Main.



End RepairFacts.


(** ** Merging replacement rows *)

Module MigrationFacts.
Import Js Schema Migration.

Lemma find_unique (l : list LegacyPart) (i : Z) (b : LegacyPart) :
  In b l -> replaces i b = true ->
  (forall x, In x l -> replaces i x = true -> x = b) ->
  find (replaces i) l = Some b.
Proof.
  induction l as [|x l IH]; intros Hin Hb Hu; [destruct Hin|].
  simpl. destruct (replaces i x) eqn:E.
  - f_equal. apply Hu; [left; reflexivity | exact E].
  - destruct Hin as [->|Hin]; [congruence|].
    apply IH; auto. intros y Hy. apply Hu. right. exact Hy.
Qed.

Lemma blocked_false (tags : list Z) (l : list LegacyPart) :
  (forall X, In X l -> replaces_id X <> None -> ~ In (id (row X)) tags) ->
  blocked tags l = false.
Proof.
  intro H. apply not_true_is_false. intro Hb. unfold blocked in Hb.
  apply existsb_exists in Hb. destruct Hb as (X & HX & Hb).
  apply andb_true_iff in Hb. destruct Hb as [Hr Ht].
  apply existsb_exists in Ht. destruct Ht as (i & Hi & Heq).
  apply Z.eqb_eq in Heq. subst i. apply (H X HX); [|exact Hi].
  unfold isReplacement in Hr. destruct (replaces_id X); [|discriminate].
  discriminate.
Qed.

Lemma blocked_updated (tags : list Z) (l : list LegacyPart) :
  blocked tags (updateReplaced l) = blocked tags l.
Proof.
  unfold blocked, updateReplaced.
  assert (H : forall l0 l1 : list LegacyPart,
    existsb (fun r => isReplacement r && existsb (Z.eqb (id (row r))) tags)
      (map (fun r =>
              if existsb (replaces (id (row r))) l0 then
                {| row := setReplacement (row r)
                            (option_map (fun x => part_number (row x))
                                        (find (replaces (id (row r))) l0));
                   replaces_id := replaces_id r |}
              else r) l1)
    = existsb (fun r => isReplacement r
                        && existsb (Z.eqb (id (row r))) tags) l1).
  { intros l0 l1. induction l1 as [|r l1 IH]; [reflexivity|].
    cbn [map existsb]. rewrite IH. f_equal.
    destruct (existsb (replaces (id (row r))) l0); reflexivity. }
  apply H.
Qed.

(** C7, as the code has it.  Let the table have the column replaces_id,
    with ids a key; let B be the only row whose replaces_id is the id of
    A, let A be no replacement itself, and let no row that has a
    replaces_id be referenced from tags_to_parts.  The merge then returns;
    after it A is there with replacement_part_number the part number of B
    ("MD999999" when that is B's) and nothing else changed, and no row has
    the id of B.  Running the merge again changes nothing, and on a table
    where no row has a replaces_id it returns and changes no row. *)
Theorem merge_replacement_rows :
  forall (t : LegacyTable) (A B : LegacyPart),
    hasReplacesId t = true ->
    NoDup (map (fun r => id (row r)) (legacyRows t)) ->
    In A (legacyRows t) ->
    In B (legacyRows t) ->
    replaces_id B = Some (id (row A)) ->
    replaces_id A = None ->
    (forall X, In X (legacyRows t) ->
               replaces_id X = Some (id (row A)) -> X = B) ->
    (forall X, In X (legacyRows t) -> replaces_id X <> None ->
               ~ In (id (row X)) (tagged t)) ->
    let t' := fst (migrateReplacesIdToReplacementPartNumber t) in
    snd (migrateReplacesIdToReplacementPartNumber t) = true /\
    In {| row := setReplacement (row A) (Some (part_number (row B)));
          replaces_id := None |} (legacyRows t') /\
    (part_number (row B) = lit "MD999999" ->
     exists A', In A' (legacyRows t') /\ id (row A') = id (row A) /\
                replacement_part_number (row A') = Some (lit "MD999999")) /\
    (forall X, In X (legacyRows t') -> id (row X) <> id (row B)) /\
    migrateReplacesIdToReplacementPartNumber t' = (t', true) /\
    (forall u, (forall X, In X (legacyRows u) -> replaces_id X = None) ->
               snd (migrateReplacesIdToReplacementPartNumber u) = true /\
               map row (legacyRows
                          (fst (migrateReplacesIdToReplacementPartNumber u)))
               = map row (legacyRows u)).
Proof.
  intros t A B Hcol Hnd HA HB HBA HAn Huniq Htag t'.
  assert (HrB : replaces (id (row A)) B = true)
    by (unfold replaces; rewrite HBA; apply Z.eqb_refl).
  assert (Hex : existsb isReplacement (legacyRows t) = true).
  { apply existsb_exists. exists B. split; [exact HB|].
    unfold isReplacement. rewrite HBA. reflexivity. }
  assert (Hrun : migrateReplacesIdToReplacementPartNumber t
                 = (dropReplacesId (tagged t)
                      (filter (fun r => negb (isReplacement r))
                              (updateReplaced (legacyRows t))), true)).
  { unfold migrateReplacesIdToReplacementPartNumber, deleteReplacements.
    rewrite Hcol, Hex. cbn [negb]. rewrite blocked_updated.
    rewrite (blocked_false _ _ Htag). reflexivity. }
  assert (Ht' : legacyRows t'
                = map (fun r => {| row := row r; replaces_id := None |})
                      (filter (fun r => negb (isReplacement r))
                              (updateReplaced (legacyRows t)))).
  { unfold t'. rewrite Hrun. reflexivity. }
  assert (HA' : In {| row := setReplacement (row A)
                               (Some (part_number (row B)));
                      replaces_id := None |} (legacyRows t')).
  { rewrite Ht'. apply in_map_iff.
    exists {| row := setReplacement (row A) (Some (part_number (row B)));
              replaces_id := replaces_id A |}.
    split; [reflexivity|]. apply filter_In. split.
    - unfold updateReplaced. apply in_map_iff. exists A. split; [|exact HA].
      assert (He : existsb (replaces (id (row A))) (legacyRows t) = true)
        by (apply existsb_exists; exists B; auto).
      rewrite He. rewrite (find_unique _ _ HB HrB).
      + reflexivity.
      + intros X HX HrX. apply Huniq; [exact HX|].
        unfold replaces in HrX. destruct (replaces_id X); [|discriminate].
        apply Z.eqb_eq in HrX. congruence.
    - unfold isReplacement. simpl. rewrite HAn. reflexivity. }
  split; [rewrite Hrun; reflexivity|].
  split; [exact HA'|]. split; [|split; [|split]].
  - intro Hpn. eexists. split; [exact HA'|]. simpl. rewrite Hpn. auto.
  - intros X HX Hid. rewrite Ht' in HX. apply in_map_iff in HX.
    destruct HX as (Y & <- & HY). simpl in Hid.
    apply filter_In in HY. destruct HY as [HY HYn].
    unfold updateReplaced in HY. apply in_map_iff in HY.
    destruct HY as (Z0 & HZ & HZin).
    assert (HidZ : id (row Z0) = id (row B)).
    { rewrite <- Hid, <- HZ.
      destruct (existsb (replaces (id (row Z0))) (legacyRows t));
        reflexivity. }
    assert (HrZ : replaces_id Y = replaces_id Z0).
    { rewrite <- HZ.
      destruct (existsb (replaces (id (row Z0))) (legacyRows t));
        reflexivity. }
    assert (Z0 = B).
    { clear - Hnd HZin HB HidZ.
      induction (legacyRows t) as [|x l IH]; [destruct HB|].
      simpl in Hnd. inversion Hnd as [|i l' Hni Hnd']; subst.
      destruct HZin as [->|HZin], HB as [->|HB]; auto.
      - exfalso. apply Hni. rewrite HidZ.
        apply (in_map (fun r => id (row r))). exact HB.
      - exfalso. apply Hni. rewrite <- HidZ.
        apply (in_map (fun r => id (row r))). exact HZin. }
    subst Z0. unfold isReplacement in HYn. rewrite HrZ, HBA in HYn.
    discriminate.
  - unfold migrateReplacesIdToReplacementPartNumber at 1.
    replace (hasReplacesId t') with false; [reflexivity|].
    unfold t'. rewrite Hrun. reflexivity.
  - intros u Hu. unfold migrateReplacesIdToReplacementPartNumber.
    destruct (hasReplacesId u); cbn [negb]; [|split; reflexivity].
    replace (existsb isReplacement (legacyRows u)) with false.
    + cbn [fst snd dropReplacesId legacyRows]. split; [reflexivity|].
      rewrite map_map. cbn [row]. reflexivity.
    + symmetry. apply not_true_is_false. intro H.
      apply existsb_exists in H. destruct H as (X & HX & HXr).
      unfold isReplacement in HXr. rewrite (Hu X HX) in HXr. discriminate.
Qed.

Lemma merge_replacement_rows_witness :
  snd (migrateReplacesIdToReplacementPartNumber pairTable) = true /\
  In {| row := setReplacement (row (legacy 10 "MD123456" None))
                 (Some (lit "MD999999"));
        replaces_id := None |} (legacyRows pairMerged) /\
  (exists A', In A' (legacyRows pairMerged) /\ id (row A') = 10%Z /\
              replacement_part_number (row A') = Some (lit "MD999999")) /\
  (forall X, In X (legacyRows pairMerged) -> id (row X) <> 11%Z) /\
  migrateReplacesIdToReplacementPartNumber pairMerged = (pairMerged, true).
Proof.
  destruct (@merge_replacement_rows pairTable
              (legacy 10 "MD123456" None) (legacy 11 "MD999999" (Some 10%Z)))
    as (H0 & H1 & H2 & H3 & H4 & _).
  - reflexivity.
  - vm_compute. repeat constructor; simpl; intuition discriminate.
  - left. reflexivity.
  - right. left. reflexivity.
  - reflexivity.
  - reflexivity.
  - intros X [<-|[<-|[]]] H; [discriminate | reflexivity].
  - intros X [<-|[<-|[]]] H [Hin|[]]; [apply H; reflexivity | discriminate].
  - split; [exact H0|]. split; [exact H1|]. split; [apply H2; reflexivity|].
    split; [exact H3 | exact H4].
Defined.

(** C7 as stated fails.  When A is a replacement itself it is deleted with
    the other replacement rows; when two rows replace A, A gets the part
    number of one of them only; and when the replacement row is
    referenced from tags_to_parts the DELETE raises a foreign-key error:
    the merge throws, row B stays and the column is kept. *)
Lemma merge_replacement_rows_counterexample :
  (In (legacy 10 "MD123456" (Some 1%Z)) (legacyRows chainTable) /\
   In (legacy 11 "MD999999" (Some 10%Z)) (legacyRows chainTable) /\
   ~ exists A',
       In A' (legacyRows (fst (migrateReplacesIdToReplacementPartNumber
                                 chainTable))) /\
       id (row A') = 10%Z) /\
  (In (legacy 10 "MD123456" None) (legacyRows twiceReplacedTable) /\
   In (legacy 12 "MD999999" (Some 10%Z)) (legacyRows twiceReplacedTable) /\
   forall A',
     In A' (legacyRows (fst (migrateReplacesIdToReplacementPartNumber
                               twiceReplacedTable))) ->
     id (row A') = 10%Z ->
     replacement_part_number (row A') <> Some (lit "MD999999")) /\
  (In (legacy 10 "MD123456" None) (legacyRows taggedPairTable) /\
   In (legacy 11 "MD999999" (Some 10%Z)) (legacyRows taggedPairTable) /\
   snd (migrateReplacesIdToReplacementPartNumber taggedPairTable) = false /\
   In (legacy 11 "MD999999" (Some 10%Z))
      (legacyRows (fst (migrateReplacesIdToReplacementPartNumber
                          taggedPairTable))) /\
   hasReplacesId (fst (migrateReplacesIdToReplacementPartNumber
                         taggedPairTable)) = true).
Proof.
  split; [|split]; split.
  - right. left. reflexivity.
  - split; [right; right; left; reflexivity|].
    intros (A' & H & Hid). vm_compute in H.
    destruct H as [<-|[]]. discriminate.
  - left. reflexivity.
  - split; [right; right; left; reflexivity|].
    intros A' H Hid. vm_compute in H.
    destruct H as [<-|[]]. discriminate.
  - left. reflexivity.
  - split; [right; left; reflexivity|].
    split; [vm_compute; reflexivity|].
    split; [vm_compute; right; left; reflexivity|].
    vm_compute. reflexivity.
Qed.

End MigrationFacts.


(** ** The backoff of the fetcher *)

Module FetcherFacts.
Import Fetcher.

Local Open Scope Q_scope.

Lemma fetch_failure (config : ScraperConfig) (relax : Q -> Q)
  (currentDelay : Q) (r : Response) :
  isFailure r = true ->
  slept (fetch config relax currentDelay r) = currentDelay /\
  ok (fetch config relax currentDelay r) = false /\
  nextDelay (fetch config relax currentDelay r)
  = Qmin (currentDelay * backoffMultiplier config) (maxDelay config) /\
  nextDelay (fetch config relax currentDelay r) <= maxDelay config.
Proof.
  destruct r; simpl; [discriminate| |]; intros _; repeat split;
    apply Q.le_min_r.
Qed.

(** C8.  For a fetcher with initialDelay 3000 and backoffMultiplier 1.5
    whose maxDelay is at least 6750 (DEFAULT_CONFIG has 120000), three
    failures in a row (HTTP 429 or transport error) are preceded by
    delays of 3000, 4500 and 6750 ms, each at most maxDelay, and each
    call returns a failure; after any failure the delay is the current
    one times backoffMultiplier, clamped to maxDelay. *)
Theorem backoff_three_failures :
  forall (config : ScraperConfig) (relax : Q -> Q) (r1 r2 r3 : Response),
    initialDelay config == 3000 ->
    backoffMultiplier config == 3 # 2 ->
    6750 <= maxDelay config ->
    isFailure r1 = true -> isFailure r2 = true -> isFailure r3 = true ->
    (exists f1 f2 f3,
        fetchAll config relax [r1; r2; r3] = [f1; f2; f3] /\
        slept f1 == 3000 /\ slept f2 == 4500 /\ slept f3 == 6750 /\
        slept f1 <= maxDelay config /\ slept f2 <= maxDelay config /\
        slept f3 <= maxDelay config /\
        ok f1 = false /\ ok f2 = false /\ ok f3 = false) /\
    (forall currentDelay r,
        isFailure r = true ->
        ok (fetch config relax currentDelay r) = false /\
        nextDelay (fetch config relax currentDelay r)
        == Qmin (currentDelay * backoffMultiplier config)
                (maxDelay config) /\
        nextDelay (fetch config relax currentDelay r) <= maxDelay config).
Proof.
  intros config relax r1 r2 r3 Hi Hm Hmax H1 H2 H3. split.
  - unfold fetchAll. cbn [fetchFrom].
    destruct (fetch_failure config relax (initialDelay config) r1 H1)
      as (S1 & O1 & N1 & _).
    set (f1 := fetch config relax (initialDelay config) r1) in *.
    destruct (fetch_failure config relax (nextDelay f1) r2 H2)
      as (S2 & O2 & N2 & _).
    set (f2 := fetch config relax (nextDelay f1) r2) in *.
    destruct (fetch_failure config relax (nextDelay f2) r3 H3)
      as (S3 & O3 & _ & _).
    set (f3 := fetch config relax (nextDelay f2) r3) in *.
    assert (E1 : slept f1 == 3000) by (rewrite S1; exact Hi).
    assert (D1 : nextDelay f1 == 4500).
    { rewrite N1, Hi, Hm. rewrite Q.min_l.
      - unfold Qeq. simpl. lia.
      - apply Qle_trans with (y := 6750); [|exact Hmax].
        unfold Qle. simpl. lia. }
    assert (E2 : slept f2 == 4500) by (rewrite S2; exact D1).
    assert (D2 : nextDelay f2 == 6750).
    { rewrite N2, D1, Hm. rewrite Q.min_l.
      - unfold Qeq. simpl. lia.
      - apply Qle_trans with (y := 6750); [|exact Hmax].
        unfold Qle. simpl. lia. }
    assert (E3 : slept f3 == 6750) by (rewrite S3; exact D2).
    exists f1, f2, f3. split; [reflexivity|].
    repeat split; auto.
    + rewrite E1. apply Qle_trans with (y := 6750); [|exact Hmax].
      unfold Qle. simpl. lia.
    + rewrite E2. apply Qle_trans with (y := 6750); [|exact Hmax].
      unfold Qle. simpl. lia.
    + rewrite E3. exact Hmax.
  - intros currentDelay r Hr.
    destruct (fetch_failure config relax currentDelay r Hr)
      as (_ & O & N & L).
    split; [exact O|]. split; [rewrite N; reflexivity | exact L].
Qed.

Lemma backoff_three_failures_witness :
  exists f1 f2 f3,
    fetchAll DEFAULT_CONFIG (fun d => d)
             [RateLimited; TransportError; RateLimited] = [f1; f2; f3] /\
    slept f1 == 3000 /\ slept f2 == 4500 /\ slept f3 == 6750 /\
    slept f1 <= maxDelay DEFAULT_CONFIG /\
    slept f2 <= maxDelay DEFAULT_CONFIG /\
    slept f3 <= maxDelay DEFAULT_CONFIG /\
    ok f1 = false /\ ok f2 = false /\ ok f3 = false.
Proof.
  refine (proj1 (@backoff_three_failures DEFAULT_CONFIG (fun d => d)
                   RateLimited TransportError RateLimited _ _ _ _ _ _)).
  - reflexivity.
  - reflexivity.
  - unfold Qle. simpl. lia.
  - reflexivity.
  - reflexivity.
  - reflexivity.
Defined.

End FetcherFacts.

(** ** More on parsePartsPage: one part per anchor, clean fields, bounds *)

Module ParserExtra.
Import Js Utils Parser JsFacts ParserFacts.

Lemma run_len_bound (c : N -> bool) (s : jsstring) :
  forall b : nat, run_len c (Some b) s <= b.
Proof.
  induction s as [|x s IH]; intro b; simpl; [lia|].
  destruct (c x); [|lia]. destruct b as [|b]; [lia|].
  specialize (IH b). lia.
Qed.

Lemma try_down_le (f : nat -> option nat) (l : nat) :
  forall (k m : nat),
    try_down k l f = Some m ->
    exists k' n, k' <= k /\ f k' = Some n /\ m = k' + n.
Proof.
  intros k m H. apply try_down_some in H.
  destruct H as (k' & n & _ & H1 & H2 & H3). eauto.
Qed.

(** A match is no longer than the maxima of its items allow. *)
Lemma match_items_maxLen (e : bool) (its : list item) :
  forall (s : jsstring) (n : nat),
    match_items e its s = Some n ->
    n <= fold_right (fun it m =>
                       match hi it with
                       | Some h => h + m
                       | None => length s
                       end) 0 its.
Proof.
  induction its as [|it its IH]; intros s n H;
    pose proof (match_items_sound _ _ _ H) as (Hlen & _); simpl in H.
  - destruct e; [destruct s; [|discriminate]|]; injection H as <-; simpl; lia.
  - apply try_down_le in H. destruct H as (k & m & Hk & Hm & ->).
    apply IH in Hm. simpl. destruct (hi it) as [h|] eqn:Eh.
    + pose proof (run_len_bound (cls it) s h) as Hb.
      assert (Hmono :
        fold_right (fun it0 m0 => match hi it0 with
                                  | Some h0 => h0 + m0
                                  | None => length (skipn k s)
                                  end) 0 its
        <= fold_right (fun it0 m0 => match hi it0 with
                                     | Some h0 => h0 + m0
                                     | None => length s
                                     end) 0 its).
      { clear. induction its as [|a its IH]; simpl; [lia|].
        destruct (hi a); [lia|]. rewrite length_skipn. lia. }
      lia.
    + exact Hlen.
Qed.

Lemma mainLoop_flat_map (allCells : list jsstring) :
  forall (idxs : list nat) (acc : list ParsedPart),
    mainLoop allCells idxs acc
    = acc ++ flat_map (fun i => match partAt allCells i with
                                | Some part => [part]
                                | None => []
                                end) idxs.
Proof.
  induction idxs as [|i idxs IH]; intro acc; simpl.
  - rewrite app_nil_r. reflexivity.
  - rewrite IH. destruct (partAt allCells i); simpl;
      [rewrite <- app_assoc|]; reflexivity.
Qed.

Lemma partNumber_partAt (allCells : list jsstring) (i : nat) :
  map partNumber (match partAt allCells i with
                  | Some part => [part]
                  | None => []
                  end)
  = match nth_error allCells i with
    | Some cell => if isAnchorCell cell then [cell] else []
    | None => []
    end.
Proof.
  unfold partAt, isAnchorCell.
  destruct (nth_error allCells i) as [cell|]; [|reflexivity].
  destruct (oemPattern_test cell) eqn:E; simpl; [|reflexivity].
  destruct (isHeaderCell cell); simpl; [reflexivity|].
  destruct (oemPattern_shape _ E) as [Hlen _].
  replace (Nat.ltb (length cell) 5) with false; [reflexivity|].
  symmetry. apply Nat.ltb_ge. lia.
Qed.

Lemma flat_map_indices (A B : Type) (h : option A -> list B) (l : list A) :
  forall pre : list A,
    flat_map (fun i => h (nth_error (pre ++ l) i))
             (seq (length pre) (length l))
    = flat_map (fun x => h (Some x)) l.
Proof.
  induction l as [|x l IH]; intro pre; simpl; [reflexivity|].
  replace (nth_error (pre ++ x :: l) (length pre)) with (Some x).
  - f_equal. specialize (IH (pre ++ [x])).
    rewrite <- app_assoc, length_app in IH. simpl in IH.
    rewrite Nat.add_1_r in IH. exact IH.
  - symmetry. rewrite nth_error_app2 by lia.
    rewrite Nat.sub_diag. reflexivity.
Qed.

Lemma extractParts_partNumbers (allCells : list jsstring) :
  map partNumber (extractParts allCells) = filter isAnchorCell allCells.
Proof.
  unfold extractParts. rewrite mainLoop_flat_map. cbn [app].
  set (h := fun o : option jsstring =>
              match o with
              | Some cell => if isAnchorCell cell then [cell] else []
              | None => []
              end).
  assert (H1 : forall idxs,
             map partNumber
                 (flat_map (fun i => match partAt allCells i with
                                     | Some part => [part]
                                     | None => []
                                     end) idxs)
             = flat_map (fun i => h (nth_error allCells i)) idxs).
  { induction idxs as [|i idxs IH]; [reflexivity|].
    cbn [flat_map]. rewrite map_app, IH, partNumber_partAt. reflexivity. }
  rewrite H1.
  pose proof (flat_map_indices h allCells []) as H2.
  cbn [app length] in H2. rewrite H2.
  clear. induction allCells as [|c l IH]; [reflexivity|].
  cbn [flat_map filter]. rewrite IH. unfold h.
  destruct (isAnchorCell c); reflexivity.
Qed.

(** X1.  parsePartsPage emits exactly one part for every cell of the
    first table.top_cars that has the OEM shape and is not header text,
    in document order, with that (trimmed) cell as its partNumber; a page
    without such a table has no parts. *)
Theorem parsePartsPage_one_part_per_anchor :
  forall (resolveUrl : jsstring -> jsstring -> option jsstring)
         (dom : PartsPageDom) (baseUrl diagramId : jsstring)
         (page : ParsedDiagramPage),
    parsePartsPage resolveUrl dom baseUrl diagramId = Some page ->
    map partNumber (parts page)
    = match topCarsCells dom with
      | Some tds => filter isAnchorCell (map trim tds)
      | None => []
      end.
Proof.
  intros resolveUrl dom baseUrl diagramId page. unfold parsePartsPage.
  destruct (firstPicture resolveUrl (partsPictureSrcs dom) baseUrl);
    [|discriminate].
  intro H; injection H as <-. cbn [parts].
  destruct (topCarsCells dom); [apply extractParts_partNumbers|reflexivity].
Qed.

Lemma parsePartsPage_one_part_per_anchor_witness :
  map partNumber (extractParts (map trim stackedExample))
  = filter isAnchorCell (map trim stackedExample).
Proof.
  apply (@parsePartsPage_one_part_per_anchor
           (fun _ _ => None)
           {| h1Text := lit "Oil pump"; titleText := lit "";
              partsPictureSrcs := [];
              topCarsCells := Some stackedExample |}
           (lit "http://x/") (lit "engine/oil-pump")
           {| diagram := {| id := lit "engine/oil-pump";
                            name := lit "Oil pump"; imageUrl := None |};
              parts := extractParts (map trim stackedExample) |}).
  vm_compute. reflexivity.
Defined.

Lemma segs_head (it : item) (its : list item) (s : jsstring) (k : nat) :
  segs (it :: its) s -> k <= lo it ->
  forallb (cls it) (firstn k s) = true.
Proof.
  intros H Hk. inversion H as [|it' its' a b Hlo Hall Hrest]; subst.
  rewrite firstn_app. replace (k - length a) with 0 by lia.
  rewrite firstn_O, app_nil_r.
  rewrite forallb_forall in *. intros x Hx. apply Hall.
  apply In_firstn in Hx. exact Hx.
Qed.

Lemma isDigit_isAlnum (x : N) : isDigit x = true -> isAlnum x = true.
Proof. unfold isAlnum. intros ->. apply orb_true_r. Qed.

Lemma cleanPnc_shape (val : option jsstring) (v : jsstring) :
  cleanPnc val = Some v ->
  val = Some v /\
  4 <= length v /\ length v <= 7 /\
  forallb isDigit (firstn 4 v) = true /\
  forallb isAlnum v = true.
Proof.
  unfold cleanPnc. destruct val as [w|]; [|discriminate].
  destruct (truthy w); simpl; [|discriminate].
  destruct (test_anchored [rep isDigit 5; range isAlnum 0 2] w) eqn:E1.
  - intro H; injection H as ->. split; [reflexivity|].
    pose proof (test_anchored_segs _ _ E1) as Hs.
    unfold test_anchored in E1.
    destruct (match_items true [rep isDigit 5; range isAlnum 0 2] v)
      as [n|] eqn:Em; [|discriminate].
    pose proof (match_items_maxLen _ _ _ Em) as Hmax.
    destruct (match_items_sound _ _ _ Em) as (_ & Hn & _).
    rewrite (Hn eq_refl) in Hmax. simpl in Hmax.
    pose proof (segs_minLen Hs) as Hmin. simpl in Hmin.
    repeat split; try lia.
    + apply (segs_head (k := 4) Hs). simpl. lia.
    + apply (segs_all isAlnum) in Hs; [exact Hs|].
      intros it x [<-|[<-|[]]]; simpl; auto using isDigit_isAlnum.
  - destruct (test_anchored [rep isDigit 4; opt isAlnum] w) eqn:E2;
      [|discriminate].
    intro H; injection H as ->. split; [reflexivity|].
    pose proof (test_anchored_segs _ _ E2) as Hs.
    unfold test_anchored in E2.
    destruct (match_items true [rep isDigit 4; opt isAlnum] v)
      as [n|] eqn:Em; [|discriminate].
    pose proof (match_items_maxLen _ _ _ Em) as Hmax.
    destruct (match_items_sound _ _ _ Em) as (_ & Hn & _).
    rewrite (Hn eq_refl) in Hmax. simpl in Hmax.
    pose proof (segs_minLen Hs) as Hmin. simpl in Hmin.
    repeat split; try lia.
    + apply (segs_head (k := 4) Hs). simpl. lia.
    + apply (segs_all isAlnum) in Hs; [exact Hs|].
      intros it x [<-|[<-|[]]]; simpl; auto using isDigit_isAlnum.
Qed.

Lemma cleanField_kept (val : option jsstring) (v : jsstring) :
  cleanField val = Some v ->
  val = Some v /\ v <> [] /\
  existsb (eqbIgnoreCase v) headerWords = false /\
  includes (toLowerCase v) (lit "per car") = false.
Proof.
  unfold cleanField, orNull. destruct val as [w|]; [|discriminate].
  destruct (truthy w) eqn:Et; cbn [negb]; [|discriminate].
  destruct (existsb (eqbIgnoreCase w) headerWords) eqn:E1; [discriminate|].
  destruct (includes (toLowerCase w) (lit "per car")) eqn:E2;
    [discriminate|].
  intro H; injection H as <-.
  repeat split; auto. intros ->. discriminate.
Qed.

Lemma partAt_fields (allCells : list jsstring) (i : nat)
  (part : ParsedPart) :
  partAt allCells i = Some part ->
  pnc part
  = cleanPnc (if Nat.leb 1 i then orNull (nth_error allCells (i - 1))
              else None) /\
  refNumber part
  = cleanField (if Nat.leb 2 i then orNull (nth_error allCells (i - 2))
                else None) /\
  description part
  = cleanDescription (cleanField (orNull (nth_error allCells (i + 2)))) /\
  spec part = cleanField (orNull (nth_error allCells (i + 3))) /\
  notes part = cleanField (orNull (nth_error allCells (i + 4))) /\
  color part = cleanField (orNull (nth_error allCells (i + 5))).
Proof.
  unfold partAt. destruct (nth_error allCells i) as [cell|]; [|discriminate].
  destruct (negb (oemPattern_test cell)); [discriminate|].
  destruct (isHeaderCell cell); [discriminate|].
  destruct (Nat.ltb (length cell) 5); [discriminate|].
  intro H; injection H as <-. simpl. repeat split; reflexivity.
Qed.

Lemma orNull_some (o : option jsstring) (v : jsstring) :
  orNull o = Some v -> o = Some v.
Proof.
  unfold orNull. destruct o as [w|]; [|discriminate].
  destruct (truthy w); [|discriminate]. auto.
Qed.

(** X2.  In every part read at an anchor at index [i]: a pnc is the cell
    just before the anchor, has 4 to 7 characters, starts with four digits
    and holds only ASCII letters and digits; a refNumber, spec, notes or
    color is the cell 2 before, 3, 4 or 5 after the anchor, is not empty,
    is none of the header words (in any case) and does not contain
    "per car". *)
Theorem part_fields_are_filtered :
  forall (allCells : list jsstring) (i : nat) (part : ParsedPart),
    partAt allCells i = Some part ->
    (forall v, pnc part = Some v ->
       1 <= i /\ nth_error allCells (i - 1) = Some v /\
       4 <= length v /\ length v <= 7 /\
       forallb isDigit (firstn 4 v) = true /\
       forallb isAlnum v = true) /\
    (forall v k,
       (refNumber part = Some v /\ 2 <= i /\ k = i - 2) \/
       (spec part = Some v /\ k = i + 3) \/
       (notes part = Some v /\ k = i + 4) \/
       (color part = Some v /\ k = i + 5) ->
       nth_error allCells k = Some v /\ v <> [] /\
       existsb (eqbIgnoreCase v) headerWords = false /\
       includes (toLowerCase v) (lit "per car") = false).
Proof.
  intros allCells i part Hp.
  destruct (partAt_fields _ _ Hp) as (Hpnc & Href & _ & Hspec & Hnotes & Hcol).
  split.
  - intros v Hv. rewrite Hpnc in Hv. apply cleanPnc_shape in Hv.
    destruct Hv as (Hval & H4 & H7 & Hd & Ha).
    destruct (Nat.leb 1 i) eqn:E; [|discriminate].
    apply Nat.leb_le in E. apply orNull_some in Hval. auto 10.
  - intros v k [(Hv & Hi & ->)|[(Hv & ->)|[(Hv & ->)|(Hv & ->)]]].
    + rewrite Href in Hv. apply cleanField_kept in Hv.
      destruct Hv as (Hval & Hrest).
      destruct (Nat.leb 2 i); [|discriminate].
      apply orNull_some in Hval. auto.
    + rewrite Hspec in Hv. apply cleanField_kept in Hv.
      destruct Hv as (Hval & Hrest). apply orNull_some in Hval. auto.
    + rewrite Hnotes in Hv. apply cleanField_kept in Hv.
      destruct Hv as (Hval & Hrest). apply orNull_some in Hval. auto.
    + rewrite Hcol in Hv. apply cleanField_kept in Hv.
      destruct Hv as (Hval & Hrest). apply orNull_some in Hval. auto.
Qed.

Lemma part_fields_are_filtered_witness :
  (1 <= 2 /\ nth_error exampleRow (2 - 1) = Some (lit "02878C") /\
   4 <= length (lit "02878C") /\ length (lit "02878C") <= 7 /\
   forallb isDigit (firstn 4 (lit "02878C")) = true /\
   forallb isAlnum (lit "02878C") = true) /\
  (nth_error exampleRow (2 + 5) = Some (lit "Black") /\
   lit "Black" <> [] /\
   existsb (eqbIgnoreCase (lit "Black")) headerWords = false /\
   includes (toLowerCase (lit "Black")) (lit "per car") = false).
Proof.
  destruct (@part_fields_are_filtered exampleRow 2
              {| partNumber := lit "MD123456";
                 pnc := Some (lit "02878C");
                 description := Some (lit "Bolt, Flange");
                 refNumber := Some (lit "04403");
                 quantity := Some (Finite 2);
                 spec := Some (lit "M8");
                 notes := None;
                 color := Some (lit "Black");
                 modelDateRange := None |})
    as [H1 H2].
  - vm_compute. reflexivity.
  - split.
    + apply H1. reflexivity.
    + apply H2. right. right. right. split; reflexivity.
Defined.

(** X3.  At the edges of the table nothing is read from outside it: for an
    anchor in the first cell the pnc is null, in the first two cells the
    refNumber is null, and when the table ends 1, 2, 3, 4 or 5 cells
    after the anchor the quantity and modelDateRange, the description,
    spec, notes or color are null. *)
Theorem anchor_at_table_edge :
  forall (allCells : list jsstring) (i : nat) (part : ParsedPart),
    partAt allCells i = Some part ->
    (i = 0 -> pnc part = None) /\
    (i < 2 -> refNumber part = None) /\
    (length allCells <= i + 1 ->
     quantity part = None /\ modelDateRange part = None) /\
    (length allCells <= i + 2 -> description part = None) /\
    (length allCells <= i + 3 -> spec part = None) /\
    (length allCells <= i + 4 -> notes part = None) /\
    (length allCells <= i + 5 -> color part = None).
Proof.
  intros allCells i part Hp.
  destruct (partAt_fields _ _ Hp) as (Hpnc & Href & Hdesc & Hspec & Hnotes
                                      & Hcol).
  destruct (@partAt_inv _ _ _ Hp) as (cell & _ & _ & _ & Hq & Hm).
  assert (Hnone : forall k, length allCells <= k ->
                            nth_error allCells k = None)
    by (intros k Hk; apply nth_error_None; exact Hk).
  split; [intros ->; rewrite Hpnc; reflexivity|].
  split.
  { intro Hi. rewrite Href.
    replace (Nat.leb 2 i) with false; [reflexivity|].
    symmetry. apply Nat.leb_gt. exact Hi. }
  split.
  { intro H. split; [rewrite Hq, (Hnone _ H); reflexivity|].
    rewrite Hm. unfold scanDateRange.
    replace (Nat.min (i + 16) (length allCells) - (i + 1)) with 0 by lia.
    reflexivity. }
  split; [intro H; rewrite Hdesc, (Hnone _ H); reflexivity|].
  split; [intro H; rewrite Hspec, (Hnone _ H); reflexivity|].
  split; [intro H; rewrite Hnotes, (Hnone _ H); reflexivity|].
  intro H; rewrite Hcol, (Hnone _ H); reflexivity.
Qed.

Lemma anchor_at_table_edge_witness :
  pnc zeroQuantityPart = None /\ refNumber zeroQuantityPart = None /\
  description zeroQuantityPart = None /\ color zeroQuantityPart = None.
Proof.
  destruct (@anchor_at_table_edge (map lit ["MD123456"; "0"]%string) 0
              zeroQuantityPart) as (H1 & H2 & _ & H4 & _ & _ & H7).
  - vm_compute. reflexivity.
  - split; [apply H1; reflexivity|]. split; [apply H2; lia|].
    split; [apply H4; simpl; lia | apply H7; simpl; lia].
Defined.

Lemma search_infix (its : list item) (s d : jsstring) :
  search its s = Some d -> exists pre post, s = pre ++ d ++ post.
Proof.
  induction s as [|c s IH]; simpl.
  - destruct (match_items false its []) as [n|]; [|discriminate].
    intro H; injection H as <-. exists [], []. destruct n; reflexivity.
  - destruct (match_items false its (c :: s)) as [n|].
    + intro H; injection H as <-.
      exists [], (skipn n (c :: s)). rewrite app_nil_l.
      symmetry. apply firstn_skipn.
    + intro H. destruct (IH H) as (pre & post & ->).
      exists (c :: pre), post. reflexivity.
Qed.

Lemma segs_last (its : list item) (it : item) :
  forall s, segs (its ++ [it]) s -> 1 <= lo it ->
            exists pre c, s = pre ++ [c] /\ cls it c = true.
Proof.
  induction its as [|i0 its IH]; intros s H Hlo; simpl in H.
  - inversion H as [|it' its' a b Hl Hall Hrest]; subst.
    inversion Hrest; subst. rewrite app_nil_r.
    destruct (@exists_last _ a) as (pre & c & ->).
    { intros ->. simpl in Hl. lia. }
    exists pre, c. split; [reflexivity|].
    rewrite forallb_app in Hall. apply andb_true_iff in Hall.
    destruct Hall as [_ Hc]. simpl in Hc. rewrite andb_true_r in Hc.
    exact Hc.
  - inversion H as [|it' its' a b Hl Hall Hrest]; subst.
    destruct (IH _ Hrest Hlo) as (pre & c & -> & Hc).
    exists (a ++ pre), c. rewrite app_assoc. auto.
Qed.

(** X4.  A modelDateRange is never empty or loose text: it is a piece of
    one cell of the table, at least 13 characters long, it starts with
    four digits and ends with a digit. *)
Theorem modelDateRange_shape :
  forall (allCells : list jsstring) (i : nat) (part : ParsedPart)
         (d : jsstring),
    partAt allCells i = Some part ->
    modelDateRange part = Some d ->
    13 <= length d /\
    forallb isDigit (firstn 4 d) = true /\
    (exists body c, d = body ++ [c] /\ isDigit c = true) /\
    exists j scanCell pre post,
      nth_error allCells j = Some scanCell /\ scanCell = pre ++ d ++ post.
Proof.
  intros allCells i part d Hp Hd.
  destruct (@partAt_inv _ _ _ Hp) as (_ & _ & _ & _ & _ & Hm).
  rewrite Hm in Hd. unfold scanDateRange in Hd.
  apply scanLoop_some in Hd.
  destruct Hd as (pre & j & post & c & _ & Hc & Hs & _).
  destruct (search_some _ _ Hs) as [Hsegs _].
  split; [apply segs_minLen in Hsegs; exact Hsegs|].
  split; [apply (segs_head (k := 4) Hsegs); simpl; lia|].
  split.
  - apply (@segs_last (removelast dateRangePattern) (range isDigit 1 2));
      [exact Hsegs | simpl; lia].
  - destruct (search_infix _ _ Hs) as (p1 & p2 & Hinf). eauto 10.
Qed.

Lemma modelDateRange_shape_witness :
  13 <= length (lit "1999.05.1 - 2001.03") /\
  forallb isDigit (firstn 4 (lit "1999.05.1 - 2001.03")) = true.
Proof.
  destruct (@modelDateRange_shape dateExample 2
              {| partNumber := lit "MD123456";
                 pnc := Some (lit "02878C");
                 description := Some (lit "Bolt, Flange");
                 refNumber := Some (lit "04403");
                 quantity := Some (Finite 2);
                 spec := Some (lit "M8");
                 notes := None;
                 color := Some (lit "Black");
                 modelDateRange := Some (lit "1999.05.1 - 2001.03") |}
              (lit "1999.05.1 - 2001.03"))
    as (H1 & H2 & _).
  - vm_compute. reflexivity.
  - reflexivity.
  - split; [exact H1 | exact H2].
Defined.

End ParserExtra.

(* ================================================================== *)
(** ** Slugs and cleaned descriptions *)

Module UtilsExtra.
Import Js Utils JsFacts.
Local Open Scope N_scope.

Lemma startsWith_iff (s p : jsstring) :
  startsWith s p = true <-> exists post, s = p ++ post.
Proof.
  revert s. induction p as [|a p IH]; intro s; simpl.
  - split; [intros _; exists s; reflexivity | destruct s; reflexivity].
  - destruct s as [|b s].
    + split; [discriminate | intros (post & H); discriminate].
    + simpl. rewrite andb_true_iff, N.eqb_eq, IH. split.
      * intros (-> & post & ->). exists post. reflexivity.
      * intros (post & H). injection H as -> ->. eauto.
Qed.

Lemma includes_iff (s needle : jsstring) :
  includes s needle = true <-> exists pre post, s = pre ++ needle ++ post.
Proof.
  induction s as [|c s IH]; cbn [includes].
  - rewrite orb_false_r, startsWith_iff. split.
    + intros (post & H). exists [], post. exact H.
    + intros (pre & post & H). destruct pre; [eauto|discriminate].
  - rewrite orb_true_iff, startsWith_iff, IH. split.
    + intros [(post & H)|(pre & post & ->)].
      * exists [], post. exact H.
      * exists (c :: pre), post. reflexivity.
    + intros (pre & post & H). destruct pre as [|x pre].
      * left. exists post. exact H.
      * right. injection H as _ ->. eauto.
Qed.

Lemma includes_false_tail (c : N) (s needle : jsstring) :
  includes (c :: s) needle = false -> includes s needle = false.
Proof. simpl. intro H. apply orb_false_iff in H. tauto. Qed.

Lemma includes_rev (s needle : jsstring) :
  includes (rev s) (rev needle) = includes s needle.
Proof.
  apply eq_true_iff_eq. rewrite !includes_iff. split.
  - intros (pre & post & H). exists (rev post), (rev pre).
    rewrite <- (rev_involutive s), H, !rev_app_distr, rev_involutive.
    rewrite app_assoc. reflexivity.
  - intros (pre & post & ->). exists (rev post), (rev pre).
    rewrite !rev_app_distr, app_assoc. reflexivity.
Qed.

(** The characters of a slug. *)
Local Abbreviation slugChar := (fun c : N => isLowerDigit c || (c =? 45)).

Lemma dashRuns_chars (s : jsstring) :
  forall b, forallb slugChar (dashRuns b s) = true.
Proof.
  induction s as [|c s IH]; intro b; simpl; [reflexivity|].
  destruct (isLowerDigit c) eqn:E.
  - cbn [forallb]. rewrite E. simpl. apply IH.
  - destruct b; [apply IH|]. simpl. apply IH.
Qed.

Lemma collapseDashes_chars (s : jsstring) :
  forall b, forallb slugChar s = true ->
            forallb slugChar (collapseDashes b s) = true.
Proof.
  induction s as [|c s IH]; intros b H; simpl; [reflexivity|].
  cbn [forallb] in H. apply andb_true_iff in H. destruct H as [Hc Hs].
  destruct (c =? 45) eqn:E.
  - destruct b; [apply IH; exact Hs|]. cbn [forallb]. apply andb_true_iff.
    split; [reflexivity | apply IH; exact Hs].
  - cbn [forallb]. apply andb_true_iff.
    split; [rewrite E; exact Hc | apply IH; exact Hs].
Qed.

Lemma includes_dd_cons (c : N) (s : jsstring) :
  includes (c :: s) [45; 45]
  = (45 =? c) && startsWith s [45] || includes s [45; 45].
Proof. reflexivity. Qed.

Lemma startsWith_dash_cons (c : N) (s : jsstring) :
  startsWith (c :: s) [45] = (45 =? c).
Proof. cbn [startsWith]. destruct s; apply andb_true_r. Qed.

Lemma collapseDashes_head (s : jsstring) :
  startsWith (collapseDashes true s) [45] = false.
Proof.
  induction s as [|c s IH]; cbn [collapseDashes]; [reflexivity|].
  destruct (c =? 45) eqn:E; [exact IH|].
  rewrite startsWith_dash_cons, N.eqb_sym. exact E.
Qed.

Lemma collapseDashes_single (s : jsstring) :
  forall b, includes (collapseDashes b s) [45; 45] = false.
Proof.
  induction s as [|c s IH]; intro b; cbn [collapseDashes]; [reflexivity|].
  destruct (c =? 45) eqn:E.
  - destruct b; [apply IH|].
    rewrite includes_dd_cons, collapseDashes_head, IH. reflexivity.
  - rewrite includes_dd_cons, N.eqb_sym, E, IH. reflexivity.
Qed.

(** What [.replace(/^-|-$/g, "")] leaves of a text without "--". *)
Lemma dropLeadingDash_cases (s : jsstring) :
  (exists rest, s = 45 :: rest /\ dropLeadingDash s = rest) \/
  (startsWith s [45] = false /\ dropLeadingDash s = s).
Proof.
  destruct s as [|c s]; [right; split; reflexivity|].
  destruct (N.eqb_spec c 45) as [->|Hne].
  - left. exists s. split; reflexivity.
  - right. split.
    + rewrite startsWith_dash_cons, N.eqb_sym. apply N.eqb_neq. exact Hne.
    + unfold dropLeadingDash.
      destruct c as [|p]; [reflexivity|].
      repeat (destruct p as [p|p|]; try reflexivity).
      exfalso. apply Hne. reflexivity.
Qed.

Lemma dropLeadingDash_head (s : jsstring) :
  includes s [45; 45] = false ->
  startsWith (dropLeadingDash s) [45] = false.
Proof.
  intro H. destruct (dropLeadingDash_cases s) as [(rest & -> & ->)|[H1 ->]];
    [|exact H1].
  rewrite includes_dd_cons in H. apply orb_false_iff in H.
  destruct H as [H _]. exact H.
Qed.

Lemma dropLeadingDash_suffix (s : jsstring) :
  exists pre, s = pre ++ dropLeadingDash s.
Proof.
  destruct (dropLeadingDash_cases s) as [(rest & -> & ->)|[_ ->]].
  - exists [45]. reflexivity.
  - exists []. reflexivity.
Qed.

Lemma includes_false_suffix (pre s needle : jsstring) :
  includes (pre ++ s) needle = false -> includes s needle = false.
Proof.
  induction pre as [|c pre IH]; [auto|].
  intro H. apply IH. exact (includes_false_tail _ _ _ H).
Qed.

Lemma forallb_suffix (f : N -> bool) (pre s : jsstring) :
  forallb f (pre ++ s) = true -> forallb f s = true.
Proof. rewrite forallb_app, andb_true_iff. tauto. Qed.

Lemma forallb_rev (f : N -> bool) (s : jsstring) :
  forallb f (rev s) = forallb f s.
Proof.
  apply eq_true_iff_eq. rewrite !forallb_forall. split; intros H x Hx;
    apply H; [apply -> in_rev | apply <- in_rev]; exact Hx.
Qed.

Lemma stripDashes_shape (t : jsstring) :
  forallb slugChar t = true ->
  includes t [45; 45] = false ->
  forallb slugChar (stripDashes t) = true /\
  includes (stripDashes t) [45; 45] = false /\
  startsWith (stripDashes t) [45] = false /\
  startsWith (rev (stripDashes t)) [45] = false.
Proof.
  intros Hc Hd. unfold stripDashes.
  set (u := dropLeadingDash t).
  assert (Hu : startsWith u [45] = false) by (apply dropLeadingDash_head; auto).
  destruct (dropLeadingDash_suffix t) as (pre & Ht). fold u in Ht.
  assert (Hcu : forallb slugChar u = true)
    by (rewrite Ht in Hc; exact (forallb_suffix _ _ _ Hc)).
  assert (Hdu : includes u [45; 45] = false)
    by (rewrite Ht in Hd; exact (includes_false_suffix _ _ _ Hd)).
  assert (Hdr : includes (rev u) [45; 45] = false)
    by (rewrite <- Hdu; exact (includes_rev u [45; 45])).
  set (w := dropLeadingDash (rev u)).
  destruct (dropLeadingDash_suffix (rev u)) as (pre2 & Hr). fold w in Hr.
  assert (Hcw : forallb slugChar w = true).
  { apply (@forallb_suffix _ pre2). rewrite <- Hr, forallb_rev. exact Hcu. }
  assert (Hdw : includes w [45; 45] = false)
    by (rewrite Hr in Hdr; exact (includes_false_suffix _ _ _ Hdr)).
  split; [rewrite forallb_rev; exact Hcw|].
  split; [rewrite <- Hdw; exact (includes_rev w [45; 45])|].
  split.
  - assert (Hu' : u = rev w ++ rev pre2).
    { rewrite <- (rev_involutive u), Hr, rev_app_distr. reflexivity. }
    destruct (startsWith (rev w) [45]) eqn:E; [|reflexivity].
    apply startsWith_iff in E. destruct E as (post & E).
    rewrite <- Hu. symmetry. apply startsWith_iff.
    exists (post ++ rev pre2). rewrite Hu', E. reflexivity.
  - rewrite rev_involutive. apply dropLeadingDash_head. exact Hdr.
Qed.

(** X5.  A slug holds only lower case ASCII letters, digits and dashes,
    never two dashes in a row, and neither starts nor ends with a dash,
    whatever the text. *)
Theorem slugify_shape :
  forall text : jsstring,
    forallb (fun c => isLowerDigit c || (c =? 45)) (slugify text) = true /\
    includes (slugify text) (lit "--") = false /\
    startsWith (slugify text) (lit "-") = false /\
    startsWith (rev (slugify text)) (lit "-") = false.
Proof.
  intro text. unfold slugify.
  apply stripDashes_shape.
  - apply collapseDashes_chars, dashRuns_chars.
  - apply collapseDashes_single.
Qed.

Lemma slugChar_cases (c : N) :
  slugChar c = true -> isLowerDigit c = true \/ c = 45.
Proof.
  rewrite orb_true_iff, N.eqb_eq. tauto.
Qed.

Lemma slugChar_le (c : N) : slugChar c = true -> 45 <= c <= 122.
Proof.
  intro H. destruct (slugChar_cases _ H) as [H1| ->]; [|lia].
  unfold isLowerDigit, isLower, isDigit, between in H1.
  rewrite orb_true_iff, !andb_true_iff, !N.leb_le in H1. lia.
Qed.

Lemma transliterate_slug (s : jsstring) :
  forallb slugChar s = true -> transliterate s = s.
Proof.
  induction s as [|c s IH]; [reflexivity|].
  simpl. rewrite andb_true_iff. intros [Hc Hs].
  unfold transliterate in *. simpl. rewrite (IH Hs).
  apply slugChar_le in Hc. unfold cyrillicMap, between.
  replace (1072 <=? c) with false by (symmetry; apply N.leb_gt; lia).
  replace (1040 <=? c) with false by (symmetry; apply N.leb_gt; lia).
  replace (c =? 1105) with false by (symmetry; apply N.eqb_neq; lia).
  replace (c =? 1025) with false by (symmetry; apply N.eqb_neq; lia).
  reflexivity.
Qed.

Lemma toLowerCase_slug (s : jsstring) :
  forallb slugChar s = true -> toLowerCase s = s.
Proof.
  induction s as [|c s IH]; [reflexivity|].
  simpl. rewrite andb_true_iff. intros [Hc Hs].
  unfold toLowerCase in *. simpl. rewrite (IH Hs).
  pose proof (slugChar_le _ Hc) as Hle.
  unfold lowerUnit.
  replace (isUpper c) with false.
  - replace (c =? 8490) with false by (symmetry; apply N.eqb_neq; lia).
    replace (c =? 304) with false by (symmetry; apply N.eqb_neq; lia).
    reflexivity.
  - symmetry. unfold isUpper, between.
    destruct (slugChar_cases _ Hc) as [H1| ->]; [|reflexivity].
    unfold isLowerDigit, isLower, isDigit, between in H1.
    rewrite orb_true_iff, !andb_true_iff, !N.leb_le in H1.
    apply andb_false_iff. rewrite !N.leb_gt. lia.
Qed.

Lemma dashRuns_slug (s : jsstring) :
  forall b,
    forallb slugChar s = true ->
    includes s [45; 45] = false ->
    (b = true -> startsWith s [45] = false) ->
    dashRuns b s = s.
Proof.
  induction s as [|c s IH]; intros b Hc Hd Hb; [reflexivity|].
  simpl in Hc. apply andb_true_iff in Hc. destruct Hc as [Hc Hs].
  rewrite includes_dd_cons in Hd. apply orb_false_iff in Hd.
  destruct Hd as [Hd1 Hd2].
  rewrite startsWith_dash_cons in Hb.
  cbn [dashRuns].
  destruct (slugChar_cases _ Hc) as [H1| ->].
  - rewrite H1. f_equal.
    apply IH; [exact Hs | exact Hd2 | discriminate].
  - replace (isLowerDigit 45) with false by reflexivity.
    destruct b; [specialize (Hb eq_refl); discriminate|].
    f_equal. apply IH; [exact Hs | exact Hd2 | intros _; exact Hd1].
Qed.

Lemma collapseDashes_slug (s : jsstring) :
  forall b,
    includes s [45; 45] = false ->
    (b = true -> startsWith s [45] = false) ->
    collapseDashes b s = s.
Proof.
  induction s as [|c s IH]; intros b Hd Hb; [reflexivity|].
  rewrite includes_dd_cons in Hd. apply orb_false_iff in Hd.
  destruct Hd as [Hd1 Hd2].
  rewrite startsWith_dash_cons in Hb.
  cbn [collapseDashes].
  destruct (N.eqb_spec c 45) as [->|Hne].
  - destruct b; [specialize (Hb eq_refl); discriminate|].
    f_equal. apply IH; [exact Hd2 | intros _; exact Hd1].
  - replace (c =? 45) with false by (symmetry; apply N.eqb_neq; exact Hne).
    f_equal. apply IH; [exact Hd2 | discriminate].
Qed.

Lemma stripDashes_slug (s : jsstring) :
  startsWith s [45] = false ->
  startsWith (rev s) [45] = false ->
  stripDashes s = s.
Proof.
  intros H1 H2. unfold stripDashes.
  destruct (dropLeadingDash_cases s) as [(rest & -> & _)|[_ ->]];
    [rewrite startsWith_dash_cons in H1; discriminate|].
  destruct (dropLeadingDash_cases (rev s)) as [(rest & E & _)|[_ ->]].
  - rewrite E, startsWith_dash_cons in H2. discriminate.
  - apply rev_involutive.
Qed.

(** X6.  Slugifying a slug changes nothing: [slugify] is idempotent. *)
Theorem slugify_idempotent :
  forall text : jsstring, slugify (slugify text) = slugify text.
Proof.
  intro text.
  destruct (slugify_shape text) as (Hc & Hd & Hs & He).
  change (lit "--") with [45; 45] in Hd.
  change (lit "-") with [45] in Hs, He.
  change (forallb slugChar (slugify text) = true) in Hc.
  set (s := slugify text) in *.
  unfold slugify.
  rewrite (transliterate_slug s Hc), (toLowerCase_slug s Hc).
  rewrite (dashRuns_slug s (b := false) Hc Hd) by discriminate.
  rewrite (collapseDashes_slug s (b := false) Hd) by discriminate.
  apply stripDashes_slug; assumption.
Qed.

End UtilsExtra.

(* ================================================================== *)
(** ** The repair pass on any store *)

Module RepairExtra.
Import Js Schema Repair JsFacts RepairFacts.

Section Main.

Variable frameName trimCode frameNo : jsstring.
Variable fetchPage : jsstring -> option (list Parser.DetailListTd).

Local Abbreviation main := (main frameName trimCode frameNo fetchPage).
Local Abbreviation repairSubgroup :=
  (repairSubgroup frameName trimCode frameNo fetchPage).

(** X7.  On every store and whatever the pages fetched, the repair pass
    writes nothing but new rows of [parts]: the subgroups and diagrams
    are as they were, every old row is where it was, every added row is
    a copy of an old row (all columns but id, diagram and subgroup) placed
    under a diagram that had no row of the copied row's detail page, the
    number of added rows is at most the count the script prints, and a
    unique key (part_number, diagram_id) stays unique. *)
Theorem repair_only_appends_copies :
  forall store : Store,
    let store' := fst (main store) in
    subgroups store' = subgroups store /\
    diagrams store' = diagrams store /\
    (exists new,
        rows (parts store') = rows (parts store) ++ new /\
        length new <= snd (main store) /\
        forall r, In r new ->
          exists r0 D,
            In r0 (rows (parts store)) /\ hasDetail D r0 = true /\
            sameData r r0 /\
            ~ underDiagram (rows (parts store)) D (diagram_id r)) /\
    (NoDup (keys (rows (parts store))) ->
     NoDup (keys (rows (parts store')))).
Proof.
  intros store store'.
  set (st0 := {| table := parts store; totalFixed := 0 |}).
  destruct (follows_paths frameName trimCode frameNo fetchPage store
              (multiDiagramPaths store) st0)
    as (_ & Hc & (new & Hrows & Hnew) & Hnd).
  split; [reflexivity|]. split; [reflexivity|]. split.
  - exists new. split; [exact Hrows|]. split.
    + change (snd (main store))
        with (totalFixed (fold_left (repairSubgroup store)
                            (multiDiagramPaths store) st0)).
      rewrite Hrows, length_app in Hc. cbn [table totalFixed st0] in Hc.
      lia.
    + intros r Hr.
      destruct (Hnew r Hr) as (r0 & D & H1 & H2 & H3 & H4 & _).
      exists r0, D. auto.
  - exact Hnd.
Qed.

(** X8.  On every store where the group of every part is a group (the
    foreign key of group_id holds), a second run of the repair pass over
    the same pages adds no row: it leaves the rows of parts, and the
    groups, subgroups and diagrams, as the first run left them, whatever
    statements of the two runs fail.  Only the counter of row ids may
    differ: it does not go down. *)
Theorem repair_idempotent :
  forall store : Store,
    groupsHold store (rows (parts store)) ->
    let store' := fst (main store) in
    let store'' := fst (main store') in
    rows (parts store'') = rows (parts store') /\
    groups store'' = groups store' /\
    subgroups store'' = subgroups store' /\
    diagrams store'' = diagrams store' /\
    (lastId (parts store') <= lastId (parts store''))%Z.
Proof.
  intros store Hg store' store''.
  split; [apply main_again; exact Hg|].
  split; [reflexivity|]. split; [reflexivity|]. split; [reflexivity|].
  destruct (follows_paths frameName trimCode frameNo fetchPage store
              (multiDiagramPaths store)
              {| table := parts store'; totalFixed := 0 |}) as (Hl & _).
  exact Hl.
Qed.

End Main.

Lemma repair_only_appends_copies_witness :
  NoDup (keys (rows (parts doorsRepaired))).
Proof.
  destruct (@repair_only_appends_copies
              (lit "pd6w") (lit "hseue9") (lit "PD6W-0500904")
              (fun _ => Some doorsPage) doorsStore) as (_ & _ & _ & H).
  apply H. vm_compute. repeat constructor. intros [].
Defined.

Lemma repair_idempotent_witness :
  rows (parts (fst (doorsMain doorsRepaired))) = rows (parts doorsRepaired).
Proof.
  destruct (@repair_idempotent
              (lit "pd6w") (lit "hseue9") (lit "PD6W-0500904")
              (fun _ => Some doorsPage) doorsStore) as (H & _).
  - intros r [<-|[]]. vm_compute. reflexivity.
  - exact H.
Defined.

End RepairExtra.

(* ================================================================== *)
(** ** What a finished run leaves in scrape_progress *)

Module SchedulerExtra.
Import Js Scheduler JsFacts SchedulerFacts.

Lemma find_url_none (d : ProgressTable) (u : jsstring) :
  getUrlStatus d u = None -> ~ In u (map url d).
Proof.
  unfold getUrlStatus. induction d as [|r d IH]; simpl; [auto|].
  destruct (eqb (url r) u) eqn:E; [discriminate|].
  intros H [Hu|Hu]; [|exact (IH H Hu)].
  rewrite Hu, eqb_refl in E. discriminate.
Qed.

Lemma urls_markUrlPending (d : ProgressTable) (u : jsstring) :
  NoDup (map url d) -> NoDup (map url (markUrlPending d u)).
Proof.
  unfold markUrlPending. intro H.
  destruct (getUrlStatus d u) eqn:E; [exact H|].
  rewrite map_app. simpl. apply NoDup_app; [exact H | |].
  - repeat constructor. intros [].
  - intros v Hv [<-|[]]. exact (find_url_none _ _ E Hv).
Qed.

Lemma urls_setStatus (d : ProgressTable) (u : jsstring) (st : Status)
  (err : option jsstring) :
  NoDup (map url d) -> NoDup (map url (setStatus d u st err)).
Proof.
  unfold setStatus. intro H.
  destruct (getUrlStatus d u) eqn:E.
  - replace (map url (map _ d)) with (map url d); [exact H|].
    rewrite map_map. apply map_ext_in. intros r _.
    destruct (eqb (url r) u) eqn:Er; [|reflexivity].
    apply eqb_eq in Er. simpl. auto.
  - rewrite map_app. simpl. apply NoDup_app; [exact H | |].
    + repeat constructor. intros [].
    + intros v Hv [<-|[]]. exact (find_url_none _ _ E Hv).
Qed.

Lemma pending_markUrlPending (d : ProgressTable) (u v : jsstring) :
  In v (getPendingUrls (markUrlPending d u)) ->
  In v (getPendingUrls d) \/ v = u.
Proof.
  unfold markUrlPending.
  destruct (getUrlStatus d u); [auto|].
  unfold getPendingUrls. rewrite filter_app, map_app, in_app_iff. simpl.
  intros [H|[H|[]]]; auto.
Qed.

Lemma pending_setStatus (d : ProgressTable) (u v : jsstring) (st : Status)
  (err : option jsstring) :
  isPending st = false ->
  In v (getPendingUrls (setStatus d u st err)) ->
  In v (getPendingUrls d) /\ v <> u.
Proof.
  intro Hst. unfold setStatus, getPendingUrls.
  destruct (getUrlStatus d u) eqn:E0.
  - rewrite !in_map_iff. intros (r & <- & Hr).
    apply filter_In in Hr. destruct Hr as [Hr Hp].
    apply in_map_iff in Hr. destruct Hr as (r0 & Hr0 & Hin).
    destruct (eqb (url r0) u) eqn:E.
    + subst r. simpl in Hp. congruence.
    + subst r. split.
      * exists r0. split; [reflexivity|]. apply filter_In. auto.
      * intro Hu. rewrite Hu, eqb_refl in E. discriminate.
  - rewrite filter_app, map_app, in_app_iff. simpl. rewrite Hst. simpl.
    intros [H|[]]. split; [exact H|].
    intros ->. apply in_map_iff in H. destruct H as (r & Hr & Hin).
    apply filter_In in Hin. destruct Hin as [Hin _].
    eapply find_url_none; [exact E0|].
    apply in_map_iff. eauto.
Qed.

Section Crawl.

Variable Html : Type.
Variable Catalog : Type.
Variable fetch : nat -> jsstring -> Html + jsstring.
Variable getUrlWithFrame : jsstring -> jsstring.
Variable parseIndexPage : Html -> jsstring -> option (list ParsedGroup).
Variable parseCategoryPage : Html -> jsstring -> list jsstring.
Variable insertGroup : Catalog -> ParsedGroup -> Catalog.
Variable persistRecords : jsstring -> Html -> Catalog -> Catalog * bool.
Variable baseUrl : jsstring.

Local Abbreviation index := (indexUrl getUrlWithFrame baseUrl).
Local Abbreviation Scraper := (Scraper Catalog).
Local Abbreviation queueLink := (queueLink (Catalog := Catalog)
                                   getUrlWithFrame).
Local Abbreviation processPage :=
  (processPage getUrlWithFrame parseCategoryPage persistRecords).
Local Abbreviation processQueue :=
  (processQueue fetch getUrlWithFrame parseCategoryPage persistRecords).
Local Abbreviation queueCategory :=
  (queueCategory getUrlWithFrame insertGroup).
Local Abbreviation scrapeIndex :=
  (scrapeIndex fetch getUrlWithFrame parseIndexPage insertGroup baseUrl).
Local Abbreviation startRun :=
  (startRun fetch getUrlWithFrame parseIndexPage insertGroup baseUrl).
Local Abbreviation run :=
  (run fetch getUrlWithFrame parseIndexPage parseCategoryPage insertGroup
       persistRecords baseUrl).

(** URLs are a key of the table, and every pending URL is in the queue or
    is one of the URLs in hand. *)
Local Abbreviation Tracked := (fun (hand : list jsstring) (s : Scraper) =>
  NoDup (map url (db s)) /\
  forall v, In v (getPendingUrls (db s)) -> In v (hand ++ urlQueue s)).

Lemma tracked_queueLink (hand : list jsstring) (s : Scraper)
  (link : jsstring) :
  Tracked hand s -> Tracked hand (queueLink s link).
Proof.
  intros [Hnd Hp]. unfold Scheduler.queueLink.
  destruct (getUrlStatus (db s) (getUrlWithFrame link)); [split; assumption|].
  cbn [db urlQueue withDb withQueue]. split.
  - apply urls_markUrlPending. exact Hnd.
  - intros v Hv. apply pending_markUrlPending in Hv.
    rewrite app_assoc. apply in_or_app. destruct Hv as [Hv| ->].
    + left. apply Hp. exact Hv.
    + right. left. reflexivity.
Qed.

Lemma tracked_queueCategory (hand : list jsstring) (s : Scraper)
  (cat : ParsedGroup) :
  Tracked hand s -> Tracked hand (queueCategory s cat).
Proof.
  intros [Hnd Hp]. unfold Scheduler.queueCategory.
  cbn [db urlQueue withDb withQueue withCatalog]. split.
  - apply urls_markUrlPending. exact Hnd.
  - intros v Hv. apply pending_markUrlPending in Hv.
    rewrite app_assoc. apply in_or_app. destruct Hv as [Hv| ->].
    + left. apply Hp. exact Hv.
    + right. left. reflexivity.
Qed.

Lemma tracked_fold (A : Type) (f : Scraper -> A -> Scraper)
  (hand : list jsstring) (l : list A) :
  (forall s a, Tracked hand s -> Tracked hand (f s a)) ->
  forall s, Tracked hand s -> Tracked hand (fold_left f l s).
Proof.
  intro Hf. induction l as [|a l IH]; intros s H; cbn [fold_left];
    [exact H|]. apply IH. apply Hf. exact H.
Qed.

Lemma tracked_processPage (hand : list jsstring) (s : Scraper)
  (u : jsstring) (html : Html) :
  Tracked hand s -> Tracked hand (fst (processPage s u html)).
Proof.
  intro H. unfold Scheduler.processPage.
  destruct (persistRecords u html (catalog s)) as [c [|]]; cbn [fst].
  - apply (@tracked_fold _ (fun s l => queueLink s l)).
    + intros s0 a. apply tracked_queueLink.
    + exact H.
  - exact H.
Qed.

Lemma tracked_settle (s : Scraper) (u : jsstring) (st : Status)
  (err : option jsstring) (e : Event) :
  isPending st = false ->
  Tracked [u] s ->
  Tracked [] (withDb s (setStatus (db s) u st err) e).
Proof.
  intros Hst [Hnd Hp]. cbn [db urlQueue withDb]. split.
  - apply urls_setStatus. exact Hnd.
  - intros v Hv. apply pending_setStatus in Hv; [|exact Hst].
    destruct Hv as [Hv Hne]. destruct (Hp v Hv) as [Hu|Hq]; [|exact Hq].
    congruence.
Qed.

Lemma completed_not_pending (d : ProgressTable) (u : jsstring) :
  NoDup (map url d) ->
  statusOf d u = Some completed -> ~ In u (getPendingUrls d).
Proof.
  intros Hnd Hs Hin.
  rewrite (@getPendingUrls_pending _ _ getUrlWithFrame persistRecords
             baseUrl d u Hnd Hin) in Hs.
  discriminate.
Qed.

Lemma finished_processQueue (fuel : nat) :
  forall s : Scraper,
    Tracked [] s ->
    snd (processQueue fuel s) = Finished ->
    NoDup (map url (db (fst (processQueue fuel s)))) /\
    getPendingUrls (db (fst (processQueue fuel s))) = [] /\
    urlQueue (fst (processQueue fuel s)) = [].
Proof.
  induction fuel as [|fuel IH]; intros s H.
  - cbn [Scheduler.processQueue fst snd]. discriminate.
  - cbn [Scheduler.processQueue].
    destruct (urlQueue s) as [|u rest] eqn:Eq.
    { cbn [fst snd]. intros _. destruct H as [Hnd Hp].
      split; [exact Hnd|]. split; [|exact Eq].
      destruct (getPendingUrls (db s)) as [|v l]; [reflexivity|].
      destruct (Hp v (or_introl eq_refl)). }
    cbn [db urlQueue withQueue catalog processedCount requests trace].
    assert (Hhand : Tracked [u] (withQueue s rest)).
    { destruct H as [Hnd Hp]. split; [exact Hnd|].
      intros v Hv. exact (Hp v Hv). }
    destruct (match statusOf (db s) u with
              | Some st => isCompleted st
              | None => false
              end) eqn:Ec.
    + apply IH. destruct Hhand as [Hnd Hp]. split; [exact Hnd|].
      intros v Hv. destruct (Hp v Hv) as [<-|Hq]; [|exact Hq].
      exfalso. apply (@completed_not_pending (db s) u Hnd); [|exact Hv].
      destruct (statusOf (db s) u) as [[| |]|]; try discriminate.
      reflexivity.
    + unfold doFetch.
      cbn [db urlQueue catalog processedCount requests trace].
      destruct (fetch (requests s) u) as [html|err].
      * match goal with |- context [processPage ?s0 u html] =>
          pose proof (@tracked_processPage [u] s0 u html Hhand) as Hp;
          destruct (processPage s0 u html) as [s1 [|]] end;
          cbn [fst snd] in *; [|discriminate].
        apply IH. unfold markUrlCompleted.
        apply (@tracked_settle (logged s1 (EvProcessed u)) u completed
                 None (EvCompleted u)); [reflexivity|].
        exact Hp.
      * apply IH. unfold markUrlFailed.
        match goal with |- context [withDb ?s0 _ _] =>
          apply (@tracked_settle s0 u failed (Some err) (EvFailed u));
            [reflexivity | exact Hhand] end.
Qed.

Lemma tracked_scrapeIndex (s : Scraper) :
  NoDup (map url (db s)) -> getPendingUrls (db s) = [] ->
  snd (scrapeIndex s) = true ->
  Tracked [] (fst (scrapeIndex s)).
Proof.
  intros Hnd Hp. unfold Scheduler.scrapeIndex.
  destruct (match statusOf (db s) index with
            | Some st => isCompleted st
            | None => false
            end).
  - intros _. cbn [fst db urlQueue withQueue]. split; [exact Hnd|].
    intros v Hv. exact Hv.
  - unfold doFetch.
    cbn [db urlQueue catalog processedCount requests trace withDb].
    match goal with |- context [fetch _ _] =>
      destruct (fetch (requests s) index) as [html|err] end;
      [destruct (parseIndexPage html index) as [categories|];
         [|cbn [snd]; discriminate]|]; intros _; cbn [fst].
    + unfold markUrlCompleted.
      match goal with |- context [fold_left ?f ?l ?s0] =>
        assert (Hf : Tracked [index] (fold_left f l s0)) end.
      { apply (@tracked_fold _ (fun s c => queueCategory s c)).
        - intros s0 a. apply tracked_queueCategory.
        - cbn [db urlQueue]. split; [apply urls_markUrlPending; exact Hnd|].
          intros v Hv. apply pending_markUrlPending in Hv.
          rewrite Hp in Hv. destruct Hv as [[]| ->]. left. reflexivity. }
      match goal with |- context [logged ?s1 ?e] =>
        apply (@tracked_settle (logged s1 e) index completed None
                 (EvCompleted index)); [reflexivity | exact Hf] end.
    + unfold markUrlFailed.
      match goal with |- context [withDb ?s0 _ _] =>
        apply (@tracked_settle s0 index failed (Some err)
                 (EvFailed index)); [reflexivity|] end.
      cbn [db urlQueue]. split; [apply urls_markUrlPending; exact Hnd|].
      intros v Hv. apply pending_markUrlPending in Hv.
      rewrite Hp in Hv. destruct Hv as [[]| ->]. left. reflexivity.
Qed.

Lemma tracked_startRun (db0 : ProgressTable) (catalog0 : Catalog) :
  NoDup (map url db0) ->
  snd (startRun (newScraper db0 catalog0)) = true ->
  Tracked [] (fst (startRun (newScraper db0 catalog0))).
Proof.
  intro Hnd. unfold Scheduler.startRun. cbn [db newScraper].
  destruct (getPendingUrls db0) as [|p l] eqn:Ep.
  - apply tracked_scrapeIndex; [exact Hnd | exact Ep].
  - intros _. cbn [fst db urlQueue withQueue newScraper]. split; [exact Hnd|].
    rewrite Ep. intros v Hv. exact Hv.
Qed.

Lemma finished_run_pending (db0 : ProgressTable) (catalog0 : Catalog)
  (fuel : nat) :
  NoDup (map url db0) ->
  snd (run fuel (newScraper db0 catalog0)) = Finished ->
  getPendingUrls (db (fst (run fuel (newScraper db0 catalog0)))) = [] /\
  urlQueue (fst (run fuel (newScraper db0 catalog0))) = [].
Proof.
  intros Hnd. unfold Scheduler.run.
  pose proof (@tracked_startRun db0 catalog0 Hnd) as Ht.
  destruct (startRun (newScraper db0 catalog0)) as [s1 [|]];
    cbn [fst snd] in Ht; [|cbn [snd]; discriminate].
  intro Hfin.
  destruct (@finished_processQueue fuel s1 (Ht eq_refl) Hfin)
    as (_ & Hp & Hq).
  split; [exact Hp | exact Hq].
Qed.

(** X9.  When a run ends normally (the queue is empty, nothing threw),
    no URL is left pending: with URLs a key of scrape_progress at the
    start, every row of the table is then completed or failed, whatever
    the site answered. *)
Theorem finished_run_leaves_nothing_pending :
  forall (db0 : ProgressTable) (catalog0 : Catalog) (fuel : nat),
    NoDup (map url db0) ->
    let result := run fuel (newScraper db0 catalog0) in
    snd result = Finished ->
    getPendingUrls (db (fst result)) = [] /\
    urlQueue (fst result) = [] /\
    forall r, In r (db (fst result)) ->
              status r = completed \/ status r = failed.
Proof.
  intros db0 catalog0 fuel Hnd result Hfin.
  destruct (@finished_run_pending db0 catalog0 fuel Hnd Hfin) as [Hp Hq].
  fold result in Hp, Hq. split; [exact Hp|]. split; [exact Hq|].
  intros r Hr. destruct (status r) eqn:Es; auto.
  exfalso. unfold getPendingUrls in Hp.
  assert (Hin : In (url r) (map url (filter (fun row => isPending (status row))
                                        (db (fst result))))).
  { apply in_map. apply filter_In. rewrite Es. auto. }
  rewrite Hp in Hin. destruct Hin.
Qed.

(** X10.  A finished run is final: once the index page is completed and
    the run has ended normally, running again on the table it left
    fetches nothing and changes nothing; in particular a failed URL is
    not tried again. *)
Theorem finished_run_is_final :
  forall (db0 : ProgressTable) (catalog0 catalog1 : Catalog)
         (fuel fuel' : nat),
    NoDup (map url db0) ->
    let result := run fuel (newScraper db0 catalog0) in
    snd result = Finished ->
    statusOf (db (fst result)) index = Some completed ->
    run (S fuel') (newScraper (db (fst result)) catalog1)
    = (newScraper (db (fst result)) catalog1, Finished).
Proof.
  intros db0 catalog0 catalog1 fuel fuel' Hnd result Hfin Hidx.
  destruct (@finished_run_pending db0 catalog0 fuel Hnd Hfin) as [Hp _].
  fold result in Hp.
  unfold Scheduler.run, Scheduler.startRun. cbn [db newScraper].
  rewrite Hp. unfold Scheduler.scrapeIndex. cbn [db newScraper].
  rewrite Hidx. cbn [isCompleted]. rewrite Hp. reflexivity.
Qed.

End Crawl.

Lemma finished_run_leaves_nothing_pending_witness :
  getPendingUrls (db (fst (exampleRun 5))) = [] /\
  urlQueue (fst (exampleRun 5)) = [].
Proof.
  destruct (@finished_run_leaves_nothing_pending
              unit nat (fun _ _ => inl tt) (fun u => u) (fun _ _ => Some [])
              (fun _ _ => [exampleEngine; exampleDetail])
              (fun c _ => c) (fun _ _ c => (S c, true))
              exampleIndex exampleDb 0 5) as (H1 & H2 & _).
  - vm_compute. repeat constructor; simpl; intuition discriminate.
  - vm_compute. reflexivity.
  - split; [exact H1 | exact H2].
Defined.

Lemma finished_run_is_final_witness :
  requests (fst (run (fun _ _ => inl tt) (fun u => u) (fun _ _ => Some [])
                     (fun _ _ => [exampleEngine; exampleDetail])
                     (fun c _ => c) (fun _ _ c => (S c, true))
                     exampleIndex 1
                     (newScraper (db (fst (exampleRun 5))) 0)))
  = 0.
Proof.
  unfold exampleRun.
  rewrite (@finished_run_is_final
             unit nat (fun _ _ => inl tt) (fun u => u) (fun _ _ => Some [])
             (fun _ _ => [exampleEngine; exampleDetail])
             (fun c _ => c) (fun _ _ c => (S c, true))
             exampleIndex exampleDb 0 0 5 0).
  - reflexivity.
  - vm_compute. repeat constructor; simpl; intuition discriminate.
  - vm_compute. reflexivity.
  - vm_compute. reflexivity.
Defined.

End SchedulerExtra.

(* ================================================================== *)
(** ** The detail page ids of a section *)

Module SectionExtra.
Import Js Utils Parser JsFacts SectionFacts.
Local Open Scope N_scope.

(** The characters of a detail page id. *)
Local Abbreviation idChar := (fun c : N => isDigit c || (c =? 44)).

Lemma startsWith_one (x c : N) (s : jsstring) :
  startsWith (c :: s) [x] = (x =? c).
Proof. cbn [startsWith]. destruct s; apply andb_true_r. Qed.

Lemma includes_pair (x c : N) (s : jsstring) :
  includes (c :: s) [x; x]
  = (x =? c) && startsWith s [x] || includes s [x; x].
Proof. reflexivity. Qed.

Lemma digit_not_comma (c : N) : isDigit c = true -> (44 =? c) = false.
Proof.
  unfold isDigit, between. intro H. apply N.eqb_neq. intros <-.
  discriminate.
Qed.

Lemma idTail_digit (d : N) (t : jsstring) :
  isDigit d = true ->
  idTail (d :: t) = (d :: fst (idTail t), snd (idTail t)).
Proof.
  intro H. cbn [idTail]. rewrite H. destruct (idTail t). reflexivity.
Qed.

(** What [idTail] reads: digits and commas, every comma before a digit. *)
Lemma idTail_spec (s : jsstring) :
  s = fst (idTail s) ++ snd (idTail s) /\
  forallb idChar (fst (idTail s)) = true /\
  includes (fst (idTail s)) [44; 44] = false /\
  startsWith (rev (fst (idTail s))) [44] = false.
Proof.
  induction s as [|c s IH]; [repeat split|].
  destruct IH as (H1 & H2 & H3 & H4).
  destruct (isDigit c) eqn:Ed.
  - rewrite (idTail_digit c s Ed). cbn [fst snd].
    split; [simpl; f_equal; exact H1|].
    split; [cbn [forallb]; rewrite Ed, H2; reflexivity|].
    split; [rewrite includes_pair, (digit_not_comma c Ed), H3; reflexivity|].
    cbn [rev]. destruct (rev (fst (idTail s))) as [|x l] eqn:Er.
    + cbn [app]. rewrite startsWith_one. apply (digit_not_comma _ Ed).
    + cbn [app]. rewrite startsWith_one. rewrite startsWith_one in H4.
      exact H4.
  - cbn [idTail]. rewrite Ed.
    destruct (c =? 44) eqn:Ec; [|repeat split].
    destruct s as [|d t]; [repeat split|].
    destruct (isDigit d) eqn:Edd; [|repeat split].
    apply N.eqb_eq in Ec. subst c.
    destruct (idTail (d :: t)) as [a b] eqn:Et. cbn [fst snd] in *.
    assert (Ha : a = d :: fst (idTail t)).
    { rewrite (idTail_digit d t Edd) in Et. injection Et as <- _.
      reflexivity. }
    split; [simpl; f_equal; exact H1|].
    split; [cbn [forallb]; rewrite H2; reflexivity|].
    split.
    + rewrite includes_pair, H3. rewrite Ha, startsWith_one.
      rewrite (digit_not_comma d Edd). reflexivity.
    + cbn [rev]. destruct (rev a) as [|x l] eqn:Er.
      * exfalso. rewrite Ha in Er. cbn [rev] in Er.
        destruct (rev (fst (idTail t))); discriminate.
      * cbn [app]. rewrite startsWith_one. rewrite startsWith_one in H4.
        exact H4.
Qed.

Lemma tail_cases (post : jsstring) :
  match post with
  | 47 :: rest' => atQueryOrEnd rest'
  | _ => atQueryOrEnd post
  end = true ->
  post = [] \/ post = [47] \/
  (exists r, post = 63 :: r) \/ (exists r, post = 47 :: 63 :: r).
Proof.
  destruct post as [|c r]; [auto|].
  destruct (N.eqb_spec c 47) as [->|Hne].
  - intro H. destruct r as [|c' r']; [auto|].
    simpl in H. apply N.eqb_eq in H. subst c'. right. right. right. eauto.
  - intro H.
    assert (Hq : atQueryOrEnd (c :: r) = true).
    { destruct c as [|p]; [exact H|].
      repeat (destruct p as [p|p|]; try exact H).
      exfalso. apply Hne. reflexivity. }
    simpl in Hq. apply N.eqb_eq in Hq. subst c. right. right. left. eauto.
Qed.

Lemma detailIdAt_spec (s id : jsstring) :
  detailIdAt s = Some id ->
  (exists post,
      s = id ++ post /\
      (post = [] \/ post = [47] \/
       (exists r, post = 63 :: r) \/ (exists r, post = 47 :: 63 :: r))) /\
  forallb idChar id = true /\
  forallb isDigit (firstn 1 id) = true /\
  includes id [44; 44] = false /\
  startsWith (rev id) [44] = false.
Proof.
  unfold detailIdAt. destruct s as [|d s']; [discriminate|].
  destruct (isDigit d) eqn:Ed; [|discriminate].
  destruct (idTail_spec s') as (H1 & H2 & H3 & H4).
  destruct (idTail s') as [a rest]. cbn [fst snd] in *.
  match goal with |- (if ?ok then _ else _) = _ -> _ =>
    destruct ok eqn:Eok end; [|discriminate].
  intro H. injection H as <-. split; [|split; [|split; [|split]]].
  - exists rest. split; [simpl; f_equal; exact H1|].
    apply tail_cases. exact Eok.
  - cbn [forallb]. rewrite Ed, H2. reflexivity.
  - cbn [firstn forallb]. rewrite Ed. reflexivity.
  - rewrite includes_pair, (digit_not_comma d Ed), H3. reflexivity.
  - cbn [rev]. destruct (rev a) as [|x l].
    + cbn [app]. rewrite startsWith_one. apply (digit_not_comma _ Ed).
    + cbn [app]. rewrite startsWith_one. rewrite startsWith_one in H4.
      exact H4.
Qed.

(** X11.  The id read from a link is the text between a slash and the
    end of the path: it is followed by nothing, a slash, a question mark
    or a slash and a question mark; it holds only digits and commas,
    starts with a digit, does not end with a comma and has no two commas
    in a row. *)
Theorem detailIdOf_shape :
  forall href id : jsstring,
    detailIdOf href = Some id ->
    (exists pre post,
        href = pre ++ lit "/" ++ id ++ post /\
        (post = [] \/ post = lit "/" \/
         startsWith post (lit "?") = true \/
         startsWith post (lit "/?") = true)) /\
    forallb (fun c => isDigit c || (c =? 44)) id = true /\
    forallb isDigit (firstn 1 id) = true /\
    includes id (lit ",,") = false /\
    startsWith (rev id) (lit ",") = false.
Proof.
  intros href id. induction href as [|c s IH]; [discriminate|].
  cbn [detailIdOf].
  destruct (if c =? 47 then detailIdAt s else None) as [m|] eqn:E.
  - intro H. injection H as ->.
    destruct (c =? 47) eqn:Ec; [|discriminate].
    apply N.eqb_eq in Ec. subst c.
    destruct (@detailIdAt_spec s id E) as ((post & Hs & Hpost) & Hrest).
    split; [|exact Hrest].
    exists [], post. split; [rewrite Hs; reflexivity|].
    destruct Hpost as [->|[->|[(r & ->)|(r & ->)]]]; auto.
    + right. right. left. destruct r; reflexivity.
    + right. right. right. destruct r; reflexivity.
  - intro H. destruct (IH H) as ((pre & post & Hs & Hpost) & Hrest).
    split; [|exact Hrest].
    exists (c :: pre), post. split; [rewrite Hs; reflexivity | exact Hpost].
Qed.

Lemma detailIdOf_shape_witness :
  (exists pre post,
      lit "/engine/723107,723115/?frame_no=1"
      = pre ++ lit "/" ++ lit "723107,723115" ++ post /\
      (post = [] \/ post = lit "/" \/
       startsWith post (lit "?") = true \/
       startsWith post (lit "/?") = true)) /\
  includes (lit "723107,723115") (lit ",,") = false.
Proof.
  destruct (@detailIdOf_shape (lit "/engine/723107,723115/?frame_no=1")
              (lit "723107,723115")) as (H1 & _ & _ & H4 & _).
  - vm_compute. reflexivity.
  - split; [exact H1 | exact H4].
Defined.

Lemma setAdd_In (x id : jsstring) (set : list jsstring) :
  In id (setAdd x set) <-> In id set \/ id = x.
Proof.
  unfold setAdd. destruct (existsb (eqb x) set) eqn:E.
  - split; [auto|]. intros [H| ->]; [exact H|].
    apply existsb_exists in E. destruct E as (y & Hy & Exy).
    apply eqb_eq in Exy. subst y. exact Hy.
  - rewrite in_app_iff. simpl. split.
    + intros [H|[H|[]]]; auto.
    + intros [H| ->]; auto.
Qed.

Lemma setAdd_NoDup (x : jsstring) (set : list jsstring) :
  NoDup set -> NoDup (setAdd x set).
Proof.
  intro H. unfold setAdd. destruct (existsb (eqb x) set) eqn:E; [exact H|].
  apply NoDup_app; [exact H | repeat constructor; intros [] |].
  intros y Hy [<-|[]].
  assert (Ht : existsb (eqb x) set = true).
  { apply existsb_exists. exists x. split; [exact Hy | apply eqb_refl]. }
  congruence.
Qed.

Lemma hrefText (href : option jsstring) (h : jsstring) :
  href = Some h ->
  match orNull href with Some h' => h' | None => [] end = h.
Proof. intros ->. simpl. destruct h; reflexivity. Qed.

Lemma collect_spec (hrefs : list (option jsstring)) :
  forall set : list jsstring,
    let step := fun set href =>
                  match detailIdOf (match orNull href with
                                    | Some h => h
                                    | None => []
                                    end) with
                  | Some m => setAdd m set
                  | None => set
                  end in
    NoDup set ->
    NoDup (fold_left step hrefs set) /\
    forall id, In id (fold_left step hrefs set) <->
               In id set \/
               exists h, In (Some h) hrefs /\ detailIdOf h = Some id.
Proof.
  induction hrefs as [|href hrefs IH]; intros set step Hnd.
  - cbn [fold_left]. split; [exact Hnd|]. intro id. split; [auto|].
    intros [H|(h & [] & _)]. exact H.
  - cbn [fold_left].
    assert (Hstep : NoDup (step set href) /\
                    forall id, In id (step set href) <->
                               In id set \/
                               exists h, href = Some h /\
                                         detailIdOf h = Some id).
    { unfold step. destruct href as [h|].
      - rewrite (hrefText eq_refl).
        destruct (detailIdOf h) as [m|] eqn:E.
        + split; [apply setAdd_NoDup; exact Hnd|].
          intro id. rewrite setAdd_In. split.
          * intros [H| ->]; [auto|]. right. exists h. auto.
          * intros [H|(h' & Hh & Hid)]; [auto|].
            injection Hh as <-. right. congruence.
        + split; [exact Hnd|]. intro id. split; [auto|].
          intros [H|(h' & Hh & Hid)]; [exact H|].
          injection Hh as <-. congruence.
      - cbn [orNull]. cbn [detailIdOf]. split; [exact Hnd|].
        intro id. split; [auto|].
        intros [H|(h' & Hh & _)]; [exact H | discriminate]. }
    destruct Hstep as [Hnd' Hin'].
    destruct (IH (step set href) Hnd') as [Hnd'' Hin''].
    split; [exact Hnd''|].
    intro id. fold step in Hin''. rewrite Hin'', Hin'. split.
    + intros [[H|(h & -> & Hid)]|(h & Hh & Hid)]; auto.
      * right. exists h. split; [left; reflexivity | exact Hid].
      * right. exists h. split; [right; exact Hh | exact Hid].
    + intros [H|(h & [Hh|Hh] & Hid)]; auto.
      * left. right. exists h. auto.
      * right. exists h. auto.
Qed.

Lemma collectDetailIds_spec (hrefs : list (option jsstring)) :
  NoDup (collectDetailIds hrefs) /\
  forall id, In id (collectDetailIds hrefs) <->
             exists h, In (Some h) hrefs /\ detailIdOf h = Some id.
Proof.
  destruct (collect_spec hrefs (NoDup_nil _)) as [H1 H2].
  split; [exact H1|]. intro id. unfold collectDetailIds. rewrite H2.
  split; [intros [[]|H]; exact H | auto].
Qed.

Section WithUrl.

Variable resolveUrl : jsstring -> jsstring -> option jsstring.
Variable baseUrl : jsstring.

Lemma sectionOf_ids (td : DetailListTd) (section : DetailListSection) :
  sectionOf resolveUrl td baseUrl = Some (Some section) ->
  detailPageIds section = collectDetailIds (hrefs td).
Proof.
  unfold sectionOf.
  destruct (truthy (trim (h4Text td))); simpl; [|discriminate].
  destruct (truthy (slugify (trim (h4Text td)))); simpl; [|discriminate].
  match goal with |- match ?x with _ => _ end = _ -> _ => destruct x end;
    [|discriminate].
  intro H; injection H as <-. reflexivity.
Qed.

Lemma sectionsLoop_tds (tds : list DetailListTd) :
  forall acc sections section,
    sectionsLoop resolveUrl tds baseUrl acc = Some sections ->
    In section sections ->
    In section acc \/
    exists td, In td tds /\
               sectionOf resolveUrl td baseUrl = Some (Some section).
Proof.
  induction tds as [|td tds IH]; intros acc sections section; simpl.
  - intro H; injection H as <-. auto.
  - destruct (sectionOf resolveUrl td baseUrl) as [[s|]|] eqn:E;
      [| |discriminate]; intros H Hin.
    + destruct (IH _ _ _ H Hin) as [Ha|(td' & Htd & Hs)].
      * apply in_app_or in Ha. destruct Ha as [Ha|[<-|[]]]; [auto|].
        right. exists td. auto.
      * right. exists td'. auto.
    + destruct (IH _ _ _ H Hin) as [Ha|(td' & Htd & Hs)]; [auto|].
      right. exists td'. auto.
Qed.

End WithUrl.

(** X12.  The detail page ids of a section are the ids of the links of
    its td.detail-list, each once: every section comes from one
    td.detail-list with that heading, its ids have no duplicates, and an
    id is listed exactly when one of the links of that element has it. *)
Theorem section_ids_are_the_linked_ids :
  forall (resolveUrl : jsstring -> jsstring -> option jsstring)
         (tds : list DetailListTd) (baseUrl : jsstring)
         (sections : list DetailListSection) (section : DetailListSection),
    parseDetailListSections resolveUrl tds baseUrl = Some sections ->
    In section sections ->
    exists td,
      In td tds /\
      heading section = trim (h4Text td) /\
      NoDup (detailPageIds section) /\
      forall id,
        In id (detailPageIds section) <->
        exists h, In (Some h) (hrefs td) /\ detailIdOf h = Some id.
Proof.
  intros resolveUrl tds baseUrl sections section H Hin.
  destruct (@sectionsLoop_tds resolveUrl baseUrl tds [] sections section H Hin) as [[]|(td & Htd & Hs)].
  exists td. split; [exact Htd|].
  destruct (@sectionOf_pushed resolveUrl baseUrl td section Hs) as (Hh & _ & _).
  split; [exact Hh|]. rewrite (@sectionOf_ids resolveUrl baseUrl td section Hs).
  apply collectDetailIds_spec.
Qed.

Lemma section_ids_are_the_linked_ids_witness :
  exists td,
    In td twoSectionTds /\
    lit "ALL (LEFT SIDE)" = trim (h4Text td) /\
    NoDup [lit "11778"] /\
    forall id,
      In id [lit "11778"] <->
      exists h, In (Some h) (hrefs td) /\ detailIdOf h = Some id.
Proof.
  apply (@section_ids_are_the_linked_ids
           (fun _ _ => None) twoSectionTds (lit "http://x/") twoSections
           {| heading := lit "ALL (LEFT SIDE)"; slug := lit "all-left-side";
              sectionImageUrl := None; detailPageIds := [lit "11778"] |}).
  - vm_compute. reflexivity.
  - left. reflexivity.
Defined.

(** X13.  The repair script reads the sections of a page with its own
    parser.  It finds at least as many sections as the scraper's parser,
    and when no headed td.detail-list has an empty slug the two find the
    same lists of detail page ids, section by section. *)
Theorem script_sections_agree :
  forall (resolveUrl : jsstring -> jsstring -> option jsstring)
         (tds : list DetailListTd) (baseUrl : jsstring)
         (sections : list DetailListSection),
    parseDetailListSections resolveUrl tds baseUrl = Some sections ->
    (length sections <= length (Repair.parseDetailListSections tds))%nat /\
    ((forall td, In td tds -> headed td = true ->
                 slugify (trim (h4Text td)) <> []) ->
     map detailPageIds sections
     = map Repair.detailPageIds (Repair.parseDetailListSections tds)).
Proof.
  intros resolveUrl tds baseUrl sections. unfold parseDetailListSections.
  assert (Hgen : forall acc sections,
             sectionsLoop resolveUrl tds baseUrl acc = Some sections ->
             exists pushed,
               sections = acc ++ pushed /\
               (length pushed
                <= length (Repair.parseDetailListSections tds))%nat /\
               ((forall td, In td tds -> headed td = true ->
                            slugify (trim (h4Text td)) <> []) ->
                map detailPageIds pushed
                = map Repair.detailPageIds
                      (Repair.parseDetailListSections tds))).
  { clear sections. induction tds as [|td tds IH]; intros acc sections.
    - simpl. intro H; injection H as <-. exists []. rewrite app_nil_r.
      repeat split; auto.
    - cbn [sectionsLoop]. unfold Repair.parseDetailListSections.
      cbn [flat_map]. fold (Repair.parseDetailListSections tds).
      destruct (sectionOf resolveUrl td baseUrl) as [[s|]|] eqn:E;
        [| |discriminate]; intro H.
      + destruct (IH _ _ H) as (pushed & -> & Hlen & Hids).
        pose proof (@sectionOf_ids resolveUrl baseUrl td s E) as Hid.
        destruct (@sectionOf_pushed resolveUrl baseUrl td s E) as (_ & _ & Hk).
        unfold keptHeading in Hk. apply andb_true_iff in Hk.
        destruct Hk as [Hk _]. rewrite Hk. cbn [negb app].
        exists (s :: pushed). rewrite <- app_assoc.
        split; [reflexivity|]. split; [simpl; lia|].
        intro Hall. cbn [map Repair.detailPageIds]. rewrite Hid. f_equal.
        apply Hids. intros td' Htd'. apply Hall. right. exact Htd'.
      + destruct (IH _ _ H) as (pushed & -> & Hlen & Hids).
        exists pushed. split; [reflexivity|].
        split; [rewrite length_app; lia|].
        intro Hall.
        pose proof (@sectionOf_skipped resolveUrl baseUrl td E) as Hk.
        unfold keptHeading in Hk.
        destruct (truthy (trim (h4Text td))) eqn:Eh.
        * exfalso. simpl in Hk.
          apply (Hall td (or_introl eq_refl) Eh).
          destruct (slugify (trim (h4Text td))); [reflexivity|discriminate].
        * cbn [negb app]. apply Hids.
          intros td' Htd'. apply Hall. right. exact Htd'. }
  intro H. destruct (Hgen _ _ H) as (pushed & -> & Hlen & Hids).
  split; [exact Hlen | exact Hids].
Qed.

Lemma script_sections_agree_witness :
  map detailPageIds twoSections
  = map Repair.detailPageIds (Repair.parseDetailListSections twoSectionTds).
Proof.
  destruct (@script_sections_agree (fun _ _ => None) twoSectionTds
              (lit "http://x/") twoSections) as [_ H].
  - vm_compute. reflexivity.
  - apply H. intros td [<-|[<-|[]]] _; vm_compute; discriminate.
Defined.

End SectionExtra.

(* ================================================================== *)
(** ** The merge of replacement rows on any table *)

Module MigrationExtra.
Import Js Schema Migration.

Lemma filter_map_same (A B : Type) (f : A -> B) (p : B -> bool)
  (q : A -> bool) (l : list A) :
  (forall x, p (f x) = q x) ->
  filter p (map f l) = map f (filter q l).
Proof.
  intro H. induction l as [|x l IH]; simpl; [reflexivity|].
  rewrite H. destruct (q x); simpl; rewrite IH; reflexivity.
Qed.

Lemma replaces_spec (i : Z) (B : LegacyPart) :
  replaces i B = true <-> replaces_id B = Some i.
Proof.
  unfold replaces. destruct (replaces_id B) as [j|].
  - rewrite Z.eqb_eq. split; congruence.
  - split; discriminate.
Qed.

(** The row that [updateReplaced] makes of [X]. *)
Lemma updated_row (l : list LegacyPart) (X : LegacyPart) :
  let X' := if existsb (replaces (id (row X))) l
            then {| row := setReplacement (row X)
                             (option_map (fun x => part_number (row x))
                                (find (replaces (id (row X))) l));
                    replaces_id := replaces_id X |}
            else X in
  replaces_id X' = replaces_id X /\
  id (row X') = id (row X) /\
  ((forall B, In B l -> replaces_id B <> Some (id (row X))) /\
   row X' = row X \/
   exists B, In B l /\ replaces_id B = Some (id (row X)) /\
             row X' = setReplacement (row X) (Some (part_number (row B)))).
Proof.
  intro X'. subst X'.
  destruct (existsb (replaces (id (row X))) l) eqn:E.
  - split; [reflexivity|]. split; [reflexivity|]. right.
    destruct (find (replaces (id (row X))) l) as [B|] eqn:Ef.
    + apply find_some in Ef. destruct Ef as [HB Hr].
      apply replaces_spec in Hr. exists B. auto.
    + apply existsb_exists in E. destruct E as (B & HB & Hr).
      rewrite (find_none _ _ Ef B HB) in Hr. discriminate.
  - split; [reflexivity|]. split; [reflexivity|]. left.
    split; [|reflexivity]. intros B HB Hr. apply replaces_spec in Hr.
    assert (Ht : existsb (replaces (id (row X))) l = true)
      by (apply existsb_exists; eauto).
    congruence.
Qed.

(** X14.  On every table that has the column replaces_id the merge does
    one of two things.  When no row with a replaces_id is referenced from
    tags_to_parts it returns, and it keeps exactly the rows that are not
    replacements, in their order and with their ids; a row kept is
    unchanged when no row replaces it, and otherwise only its
    replacement_part_number changes, to the part number of a row that
    replaced it; the column is gone afterwards.  When such a row is
    referenced it throws: every row is still there, with its id and its
    replaces_id, and so is the column. *)
Theorem merge_keeps_other_rows :
  forall t : LegacyTable,
    hasReplacesId t = true ->
    let t' := fst (migrateReplacesIdToReplacementPartNumber t) in
    (blocked (tagged t) (legacyRows t) = false ->
     snd (migrateReplacesIdToReplacementPartNumber t) = true /\
     hasReplacesId t' = false /\
     map (fun r => id (row r)) (legacyRows t')
     = map (fun r => id (row r))
           (filter (fun r => negb (isReplacement r)) (legacyRows t)) /\
     forall X',
       In X' (legacyRows t') ->
       replaces_id X' = None /\
       exists X,
         In X (legacyRows t) /\ replaces_id X = None /\
         ((forall B, In B (legacyRows t) ->
                     replaces_id B <> Some (id (row X))) /\
          row X' = row X \/
          exists B, In B (legacyRows t) /\
                    replaces_id B = Some (id (row X)) /\
                    row X' = setReplacement (row X)
                               (Some (part_number (row B))))) /\
    (blocked (tagged t) (legacyRows t) = true ->
     snd (migrateReplacesIdToReplacementPartNumber t) = false /\
     hasReplacesId t' = true /\
     map (fun r => (id (row r), replaces_id r)) (legacyRows t')
     = map (fun r => (id (row r), replaces_id r)) (legacyRows t)).
Proof.
  intros t Hcol t'. subst t'.
  unfold migrateReplacesIdToReplacementPartNumber, deleteReplacements.
  rewrite Hcol. cbn [negb]. rewrite MigrationFacts.blocked_updated.
  set (l := legacyRows t). split.
  - intro Hb. rewrite Hb.
    destruct (existsb isReplacement l) eqn:Ex.
    + unfold updateReplaced, dropReplacesId.
      cbn [fst snd hasReplacesId legacyRows].
      rewrite (@filter_map_same _ _ _ _
                 (fun r => negb (isReplacement r)))
        by (intro X; unfold isReplacement;
            destruct (updated_row l X) as (-> & _); reflexivity).
      split; [reflexivity|]. split; [reflexivity|]. split.
      * rewrite !map_map. apply map_ext. intro X. cbn [row].
        destruct (updated_row l X) as (_ & Hid & _). exact Hid.
      * intros X' HX'. apply in_map_iff in HX'.
        destruct HX' as (Y & <- & HY). cbn [row replaces_id].
        split; [reflexivity|].
        apply in_map_iff in HY. destruct HY as (X & <- & HX).
        apply filter_In in HX. destruct HX as [HX Hn].
        exists X. split; [exact HX|]. split.
        -- unfold isReplacement in Hn. destruct (replaces_id X);
             [discriminate | reflexivity].
        -- destruct (updated_row l X) as (_ & _ & H). exact H.
    + unfold dropReplacesId. cbn [fst snd hasReplacesId legacyRows].
      assert (Hnone : forall X, In X l -> replaces_id X = None).
      { intros X HX. destruct (replaces_id X) eqn:E; [|reflexivity].
        assert (Ht : existsb isReplacement l = true).
        { apply existsb_exists. exists X. split; [exact HX|].
          unfold isReplacement. rewrite E. reflexivity. }
        congruence. }
      split; [reflexivity|]. split; [reflexivity|]. split.
      * rewrite map_map. cbn [row].
        replace (filter (fun r => negb (isReplacement r)) l) with l;
          [reflexivity|].
        symmetry. apply forallb_filter_id. apply forallb_forall.
        intros X HX. unfold isReplacement. rewrite (Hnone X HX). reflexivity.
      * intros X' HX'. apply in_map_iff in HX'.
        destruct HX' as (X & <- & HX). cbn [row replaces_id].
        split; [reflexivity|]. exists X. split; [exact HX|].
        split; [exact (Hnone X HX)|]. left. split; [|reflexivity].
        intros B HB. rewrite (Hnone B HB). discriminate.
  - intro Hb. rewrite Hb.
    assert (Ex : existsb isReplacement l = true).
    { unfold blocked in Hb. apply existsb_exists in Hb.
      destruct Hb as (X & HX & Hb). apply andb_true_iff in Hb.
      apply existsb_exists. exists X. tauto. }
    rewrite Ex. cbn [fst snd hasReplacesId legacyRows].
    split; [reflexivity|]. split; [reflexivity|].
    unfold updateReplaced. rewrite map_map. apply map_ext. intro X.
    destruct (updated_row l X) as (-> & -> & _). reflexivity.
Qed.

Lemma merge_keeps_other_rows_witness :
  map (fun r => id (row r)) (legacyRows pairMerged) = [10%Z] /\
  snd (migrateReplacesIdToReplacementPartNumber taggedPairTable) = false.
Proof.
  destruct (@merge_keeps_other_rows pairTable eq_refl) as [H _].
  destruct (H eq_refl) as (_ & _ & H1 & _).
  destruct (@merge_keeps_other_rows taggedPairTable eq_refl) as [_ H2].
  destruct (H2 eq_refl) as (H3 & _).
  split; [exact H1 | exact H3].
Defined.

End MigrationExtra.

(* ================================================================== *)
(** ** The diagram a detail page is stored under *)

Module ReconcileFacts.
Import Js Utils Reconcile JsFacts.

Lemma find_last (A : Type) (f : A -> bool) (l : list A) (x : A) :
  find f (rev (l ++ [x]))
  = if f x then Some x else find f (rev l).
Proof. rewrite rev_app_distr. reflexivity. Qed.

Lemma dgm_get_set (m : DiagramGroupMap) (k k' : jsstring) (v : Mapping) :
  mapGet (mapSet m k v) k' = if eqb k k' then Some v else mapGet m k'.
Proof.
  induction m as [|[k0 v0] m IH]; simpl.
  - reflexivity.
  - destruct (eqb k0 k) eqn:E0; simpl.
    + apply eqb_eq in E0. subst k0.
      destruct (eqb k k'); reflexivity.
    + rewrite IH. destruct (eqb k0 k') eqn:E1; [|reflexivity].
      apply eqb_eq in E1. subst k0.
      replace (eqb k k') with false; [reflexivity|].
      symmetry. apply eqb_neq. intros ->. rewrite eqb_refl in E0.
      discriminate.
Qed.

Lemma dgm_get_section (ids : list jsstring) (v : Mapping) (k : jsstring) :
  forall m : DiagramGroupMap,
    mapGet (mapSection m ids v) k
    = if existsb (fun x => eqb x k) ids then Some v else mapGet m k.
Proof.
  unfold mapSection. induction ids as [|x ids IH]; intro m; simpl;
    [reflexivity|].
  rewrite IH, dgm_get_set.
  destruct (existsb (fun x0 => eqb x0 k) ids), (eqb x k); reflexivity.
Qed.

Lemma existsb_eqb_iff (k : jsstring) (ids : list jsstring) :
  existsb (fun x => eqb x k) ids = true <-> In k ids.
Proof.
  rewrite existsb_exists. split.
  - intros (x & Hx & E). apply eqb_eq in E. subst x. exact Hx.
  - intro H. exists k. split; [exact H | apply eqb_refl].
Qed.

(** The map after the sections of a page: the last section that lists a
    detail id decides. *)
Lemma dgm_get_sections (basePath k : jsstring)
  (sections : list Parser.DetailListSection) :
  forall m : DiagramGroupMap,
    mapGet (fold_left (fun m section =>
                         mapSection m (Parser.detailPageIds section)
                           (sectionMapping basePath section))
                      sections m) k
    = match find (fun s => existsb (fun x => eqb x k)
                             (Parser.detailPageIds s))
                 (rev sections) with
      | Some s => Some (sectionMapping basePath s)
      | None => mapGet m k
      end.
Proof.
  induction sections as [|s sections IH] using rev_ind; intro m.
  - reflexivity.
  - rewrite fold_left_app. cbn [fold_left].
    rewrite dgm_get_section, find_last.
    destruct (existsb (fun x => eqb x k) (Parser.detailPageIds s));
      [reflexivity | apply IH].
Qed.

Lemma find_rev_last (A : Type) (f : A -> bool) (pre post : list A)
  (s : A) :
  f s = true -> (forall x, In x post -> f x = false) ->
  find f (rev (pre ++ s :: post)) = Some s.
Proof.
  intros Hs Hpost. induction post as [|x post IH] using rev_ind.
  - rewrite find_last, Hs. reflexivity.
  - rewrite app_comm_cons, app_assoc, find_last.
    rewrite (Hpost x) by (apply in_or_app; right; left; reflexivity).
    apply IH. intros y Hy. apply Hpost. apply in_or_app. left. exact Hy.
Qed.

Lemma insertedParts_call (records : list Part) :
  insertedParts (insertPartsCall records) = records.
Proof.
  destruct records; [reflexivity|]. simpl. rewrite app_nil_r. reflexivity.
Qed.

Lemma orNull_of (s : jsstring) : s <> [] -> orNull (Some s) = Some s.
Proof. destruct s; [contradiction | reflexivity]. Qed.

Section WithPlatform.

Variable resolveUrl : jsstring -> jsstring -> option jsstring.
Variable cleanSubgroupName : jsstring -> jsstring.

Local Abbreviation processSubgroupPage :=
  (processSubgroupPage resolveUrl cleanSubgroupName).
Local Abbreviation processPartsPage :=
  (processPartsPage resolveUrl cleanSubgroupName).

(** X15.  When a listing page has two or more sections, a detail page
    linked from several of them is mapped to the last section that links
    it; its parts page then makes no group, subgroup or diagram, and every
    part record it writes is under that one section's diagram. *)
Theorem shared_detail_page_goes_to_last_section :
  forall (m m' : DiagramGroupMap) (url url' : jsstring) (page page' : Page)
         (pathParts pathParts' : list jsstring) (g sg id : jsstring)
         (pre post : list Parser.DetailListSection)
         (s : Parser.DetailListSection) (calls calls' : list DbCall),
    nth_error pathParts 3 = Some g -> g <> [] ->
    nth_error pathParts 4 = Some sg -> sg <> [] ->
    Parser.parseDetailListSections resolveUrl (detailLists page) url
    = Some (pre ++ s :: post) ->
    2 <= length (pre ++ s :: post) ->
    In id (Parser.detailPageIds s) ->
    (forall s', In s' post -> ~ In id (Parser.detailPageIds s')) ->
    processSubgroupPage m url page pathParts = Some (calls, m') ->
    nth_error pathParts' 5 = Some id -> id <> [] ->
    processPartsPage m' url' page' pathParts' = Some calls' ->
    let diagram := g ++ lit "/" ++ sg ++ lit "/" ++ Parser.slug s in
    mapGet m' id = Some {| diagramId := diagram; subgroupId := diagram |} /\
    (calls' = [] \/ exists l, calls' = [InsertParts l]) /\
    forall r, In r (insertedParts calls') ->
              diagram_id r = diagram /\ subgroup_id r = Some diagram /\
              detail_page_id r = Some id.
Proof.
  intros m m' url url' page page' pathParts pathParts' g sg id pre post s
         calls calls' Hg Hgn Hsg Hsgn Hparse Hlen Hin Hpost Hsub Hid Hidn
         Hparts diagram.
  assert (Hmap : mapGet m' id
                 = Some {| diagramId := diagram; subgroupId := diagram |}).
  { unfold Reconcile.processSubgroupPage in Hsub.
    rewrite Hg, Hsg, (orNull_of Hgn), (orNull_of Hsgn), Hparse in Hsub.
    replace (Nat.leb (length (pre ++ s :: post)) 1) with false in Hsub
      by (symmetry; apply Nat.leb_gt; lia).
    injection Hsub as _ <-. rewrite dgm_get_sections.
    rewrite (@find_rev_last _ _ pre post s).
    - unfold sectionMapping, diagram. rewrite <- !app_assoc. reflexivity.
    - apply existsb_eqb_iff. exact Hin.
    - intros x Hx. apply not_true_is_false. intro H.
      apply existsb_eqb_iff in H. exact (Hpost x Hx H). }
  split; [exact Hmap|].
  unfold Reconcile.processPartsPage in Hparts.
  rewrite Hid, (orNull_of Hidn), Hmap in Hparts. cbn [diagramId subgroupId]
    in Hparts.
  destruct (Parser.parsePartsPage resolveUrl (partsDom page') url' diagram)
    as [parsed|]; [|discriminate].
  injection Hparts as <-. split.
  - destruct (Parser.parts parsed) as [|p l]; [left; reflexivity|].
    right. eexists. reflexivity.
  - intros r Hr. rewrite insertedParts_call in Hr.
    apply in_map_iff in Hr. destruct Hr as (p & <- & _).
    repeat split.
Qed.

(** X16.  For a listing page with at most one section, it makes no
    difference to the part records of a detail page below it whether the
    listing page was processed first: with or without the mapping, the
    same records are written, under the diagram group/subgroup. *)
Theorem single_section_parts_same_either_way :
  forall (m m' : DiagramGroupMap) (url url' : jsstring) (page page' : Page)
         (pathParts pathParts' : list jsstring) (g sg id : jsstring)
         (sections : list Parser.DetailListSection) (calls : list DbCall),
    nth_error pathParts 3 = Some g -> g <> [] ->
    nth_error pathParts 4 = Some sg -> sg <> [] ->
    Parser.parseDetailListSections resolveUrl (detailLists page) url
    = Some sections ->
    length sections <= 1 ->
    processSubgroupPage m url page pathParts = Some (calls, m') ->
    nth_error pathParts' 3 = Some g ->
    nth_error pathParts' 4 = Some sg ->
    nth_error pathParts' 5 = Some id ->
    mapGet m id = None ->
    option_map insertedParts (processPartsPage m' url' page' pathParts')
    = option_map insertedParts (processPartsPage m url' page' pathParts') /\
    forall calls' r,
      processPartsPage m' url' page' pathParts' = Some calls' ->
      In r (insertedParts calls') ->
      diagram_id r = g ++ lit "/" ++ sg.
Proof.
  intros m m' url url' page page' pathParts pathParts' g sg id sections
         calls Hg Hgn Hsg Hsgn Hparse Hlen Hsub Hg' Hsg' Hid Hnone.
  set (basePath := g ++ lit "/" ++ sg).
  assert (Hfall : processPartsPage m url' page' pathParts'
                  = match Parser.parsePartsPage resolveUrl (partsDom page')
                            url' basePath with
                    | None => None
                    | Some parsed =>
                        Some ([InsertGroup g g] ++
                              [InsertSubgroup
                                 {| Schema.sg_id := basePath;
                                    Schema.sg_name :=
                                      cleanSubgroupName (rawTitle page' sg);
                                    Schema.sg_group_id := g;
                                    Schema.sg_path := basePath |}] ++
                              [InsertDiagram
                                 {| Schema.d_id :=
                                      Parser.id (Parser.diagram parsed);
                                    Schema.d_group_id := g;
                                    Schema.d_subgroup_id := Some basePath;
                                    Schema.d_name :=
                                      Parser.name (Parser.diagram parsed);
                                    Schema.d_image_url :=
                                      Parser.imageUrl
                                        (Parser.diagram parsed);
                                    Schema.d_image_path := None;
                                    Schema.d_source_url := url' |}] ++
                              insertPartsCall
                                (map (partRecord (orNull (Some id))
                                        (Parser.id (Parser.diagram parsed))
                                        g (Some basePath))
                                     (Parser.parts parsed)))
                    end).
  { unfold Reconcile.processPartsPage.
    rewrite Hg', Hsg', Hid, (orNull_of Hgn), (orNull_of Hsgn).
    assert (Hm : match orNull (Some id) with
                 | Some d => mapGet m d
                 | None => None
                 end = None)
      by (destruct (orNull (Some id)) eqn:E; [|reflexivity];
          destruct id; [discriminate|]; injection E as <-; exact Hnone).
    rewrite Hm. reflexivity. }
  assert (Hid_parsed : forall parsed,
             Parser.parsePartsPage resolveUrl (partsDom page') url' basePath
             = Some parsed ->
             Parser.id (Parser.diagram parsed) = basePath).
  { intros parsed H. unfold Parser.parsePartsPage in H.
    destruct (Parser.firstPicture resolveUrl
                (Parser.partsPictureSrcs (partsDom page')) url');
      [|discriminate].
    injection H as <-. reflexivity. }
  (* the map after the listing page *)
  unfold Reconcile.processSubgroupPage in Hsub.
  rewrite Hg, Hsg, (orNull_of Hgn), (orNull_of Hsgn), Hparse in Hsub.
  replace (Nat.leb (length sections) 1) with true in Hsub
    by (symmetry; apply Nat.leb_le; exact Hlen).
  fold basePath in Hsub.
  assert (Hcases : m' = m \/
                   exists ids,
                     m' = mapSection m ids {| diagramId := basePath;
                                              subgroupId := basePath |}).
  { destruct sections as [|s [|s2 rest]].
    - injection Hsub as _ <-. auto.
    - destruct (orNull (Parser.sectionImageUrl s)).
      + injection Hsub as _ <-. right. eauto.
      + injection Hsub as _ <-. auto.
    - injection Hsub as _ <-. auto. }
  assert (Hmapped : forall v,
             mapGet m' id = Some v ->
             v = {| diagramId := basePath; subgroupId := basePath |}).
  { intros v Hv. destruct Hcases as [->|(ids & ->)]; [congruence|].
    rewrite dgm_get_section, Hnone in Hv.
    destruct (existsb (fun x => eqb x id) ids); congruence. }
  assert (Hm' : processPartsPage m' url' page' pathParts'
                = processPartsPage m url' page' pathParts' \/
                processPartsPage m' url' page' pathParts'
                = match Parser.parsePartsPage resolveUrl (partsDom page')
                          url' basePath with
                  | None => None
                  | Some parsed =>
                      Some (insertPartsCall
                              (map (partRecord (orNull (Some id)) basePath
                                      g (Some basePath))
                                   (Parser.parts parsed)))
                  end).
  { destruct id as [|c id'].
    { left. unfold Reconcile.processPartsPage. rewrite Hid. reflexivity. }
    destruct (mapGet m' (c :: id')) as [v|] eqn:Ev.
    - right. rewrite (Hmapped v eq_refl) in Ev.
      unfold Reconcile.processPartsPage at 1.
      rewrite Hg', Hid, (orNull_of Hgn).
      cbn [orNull truthy]. rewrite Ev. reflexivity.
    - left. unfold Reconcile.processPartsPage.
      rewrite Hid. cbn [orNull truthy]. rewrite Ev, Hnone. reflexivity. }
  split.
  - destruct Hm' as [-> | ->]; [reflexivity|]. rewrite Hfall.
    destruct (Parser.parsePartsPage resolveUrl (partsDom page') url'
                basePath) as [parsed|] eqn:Ep; [|reflexivity].
    cbn [option_map]. f_equal. rewrite (Hid_parsed parsed eq_refl).
    unfold insertedParts at 2. cbn [flat_map app].
    fold (insertedParts (insertPartsCall
            (map (partRecord (orNull (Some id)) basePath g (Some basePath))
                 (Parser.parts parsed)))).
    reflexivity.
  - intros calls' r Hc Hr.
    assert (Hrec : exists parsed,
               Parser.parsePartsPage resolveUrl (partsDom page') url'
                 basePath = Some parsed /\
               In r (map (partRecord (orNull (Some id)) basePath g
                            (Some basePath))
                         (Parser.parts parsed))).
    { destruct Hm' as [Hm'|Hm']; rewrite Hm' in Hc;
        [rewrite Hfall in Hc|];
        destruct (Parser.parsePartsPage resolveUrl (partsDom page') url'
                    basePath) as [parsed|] eqn:Ep; try discriminate;
        injection Hc as <-; exists parsed; (split; [reflexivity|]).
      - rewrite (Hid_parsed parsed eq_refl) in Hr.
        unfold insertedParts in Hr. cbn [flat_map app] in Hr.
        fold (insertedParts (insertPartsCall
                (map (partRecord (orNull (Some id)) basePath g
                        (Some basePath))
                     (Parser.parts parsed)))) in Hr.
        rewrite insertedParts_call in Hr. exact Hr.
      - rewrite insertedParts_call in Hr. exact Hr. }
    destruct Hrec as (parsed & _ & Hin).
    apply in_map_iff in Hin. destruct Hin as (p & <- & _). reflexivity.
Qed.

End WithPlatform.

Lemma shared_detail_page_goes_to_last_section_witness :
  mapGet doorsMap (lit "723107")
  = Some {| diagramId := lit "body/doors/all-right-side";
            subgroupId := lit "body/doors/all-right-side" |} /\
  forall r, In r doorsRecords ->
            diagram_id r = lit "body/doors/all-right-side".
Proof.
  destruct (@shared_detail_page_goes_to_last_section
              (fun _ _ => None) (fun name => name)
              [] doorsMap doorsUrl doorsUrl doorsListing doorsDetail
              (doorsParts []) (doorsParts ["723107"%string])
              (lit "body") (lit "doors") (lit "723107")
              [ {| Parser.heading := lit "ALL (LEFT SIDE)";
                   Parser.slug := lit "all-left-side";
                   Parser.sectionImageUrl := None;
                   Parser.detailPageIds := [lit "723107"] |} ]
              []
              {| Parser.heading := lit "ALL (RIGHT SIDE)";
                 Parser.slug := lit "all-right-side";
                 Parser.sectionImageUrl := None;
                 Parser.detailPageIds := [lit "723107"; lit "723115"] |}
              (flat_map
                 (sectionCalls (fun name => name) doorsUrl (lit "body")
                    (lit "body/doors") (lit "Doors"))
                 [ {| Parser.heading := lit "ALL (LEFT SIDE)";
                      Parser.slug := lit "all-left-side";
                      Parser.sectionImageUrl := None;
                      Parser.detailPageIds := [lit "723107"] |};
                   {| Parser.heading := lit "ALL (RIGHT SIDE)";
                      Parser.slug := lit "all-right-side";
                      Parser.sectionImageUrl := None;
                      Parser.detailPageIds :=
                        [lit "723107"; lit "723115"] |} ])
              (match detailCalls doorsMap doorsUrl
                       (doorsParts ["723107"%string]) with
               | Some calls => calls
               | None => []
               end))
    as (H1 & _ & H3).
  - reflexivity.
  - discriminate.
  - reflexivity.
  - discriminate.
  - vm_compute. reflexivity.
  - simpl. lia.
  - left. reflexivity.
  - intros s' [].
  - vm_compute. reflexivity.
  - reflexivity.
  - discriminate.
  - vm_compute. reflexivity.
  - split; [exact H1|]. intros r Hr. apply H3. exact Hr.
Defined.

Lemma single_section_parts_same_either_way_witness :
  option_map insertedParts
    (detailCalls pumpMap pumpUrl (pumpParts ["11778"%string]))
  = option_map insertedParts
      (detailCalls [] pumpUrl (pumpParts ["11778"%string])).
Proof.
  destruct (@single_section_parts_same_either_way
              (fun _ _ => None) (fun name => name)
              [] pumpMap pumpUrl pumpUrl pumpListing doorsDetail
              (pumpParts []) (pumpParts ["11778"%string])
              (lit "engine") (lit "oil-pump") (lit "11778")
              [ {| Parser.heading := lit "Oil pump";
                   Parser.slug := lit "oil-pump";
                   Parser.sectionImageUrl :=
                     Some (lit "http://epc/pump.png");
                   Parser.detailPageIds := [lit "11778"] |} ]
              (match processSubgroupPage (fun _ _ => None)
                       (fun name => name) [] pumpUrl pumpListing
                       (pumpParts []) with
               | Some (calls, _) => calls
               | None => []
               end))
    as [H _].
  - reflexivity.
  - discriminate.
  - reflexivity.
  - discriminate.
  - vm_compute. reflexivity.
  - simpl. lia.
  - vm_compute. reflexivity.
  - reflexivity.
  - reflexivity.
  - reflexivity.
  - reflexivity.
  - exact H.
Defined.

End ReconcileFacts.

(* ================================================================== *)
(** ** The links followed from a page *)

Module LinksFacts.
Import Js Links JsFacts.
Local Open Scope N_scope.

Lemma startsWith_unit (x c : N) (s : jsstring) :
  startsWith (c :: s) [x] = (x =? c).
Proof. cbn [startsWith]. destruct s; apply andb_true_r. Qed.

(** The text before the first "#" has no "#". *)
Lemma splitHead_clean (s : jsstring) :
  includes (splitHead s (lit "#")) (lit "#") = false.
Proof.
  change (lit "#") with [35].
  induction s as [|c s IH]; [reflexivity|].
  cbn [splitHead]. rewrite startsWith_unit.
  destruct (35 =? c) eqn:E; [reflexivity|].
  cbn [includes]. rewrite startsWith_unit, E, IH. reflexivity.
Qed.

Lemma existsb_eqb (x : jsstring) (l : list jsstring) :
  existsb (eqb x) l = true <-> In x l.
Proof.
  rewrite existsb_exists. split.
  - intros (y & Hy & E). apply eqb_eq in E. subst y. exact Hy.
  - intro H. exists x. split; [exact H | apply eqb_refl].
Qed.

Lemma includes_nil (p : jsstring) : p <> [] -> includes [] p = false.
Proof. destruct p; [contradiction | reflexivity]. Qed.

Section WithEnv.

Variable FRAME_NAME TRIM_CODE : option jsstring.
Variable resolveUrl : jsstring -> jsstring -> option jsstring.
Variable baseUrl : jsstring.

Local Abbreviation pattern := (getVehicleUrlPattern FRAME_NAME TRIM_CODE).
Local Abbreviation pushClean := (pushClean resolveUrl).
Local Abbreviation isNavigation := (isNavigation FRAME_NAME TRIM_CODE).

(** A callback that pushes the clean URL of the hrefs it keeps. *)
Local Abbreviation stepOf := (fun (keep : jsstring -> bool)
  (links : list jsstring) (href : option jsstring) =>
  match orNull href with
  | None => links
  | Some h => if keep h then pushClean h baseUrl links else links
  end).

Lemma pushClean_spec (h : jsstring) (links : list jsstring) :
  NoDup links ->
  NoDup (pushClean h baseUrl links) /\
  forall link,
    In link (pushClean h baseUrl links) <->
    In link links \/
    exists absoluteUrl, resolveUrl h baseUrl = Some absoluteUrl /\
                        link = splitHead absoluteUrl (lit "#").
Proof.
  intro Hnd. unfold Links.pushClean.
  destruct (resolveUrl h baseUrl) as [a|].
  - destruct (existsb (eqb (splitHead a (lit "#"))) links) eqn:E.
    + split; [exact Hnd|]. intro link. split; [auto|].
      intros [H|(a' & Ha & ->)]; [exact H|].
      injection Ha as <-. apply existsb_eqb. exact E.
    + split.
      * apply NoDup_app; [exact Hnd | repeat constructor; intros [] |].
        intros y Hy [<-|[]]. apply existsb_eqb in Hy. congruence.
      * intro link. rewrite in_app_iff. simpl. split.
        { intros [H|[<-|[]]]; [auto|]. right. eauto. }
        { intros [H|(a' & Ha & ->)]; [auto|].
          injection Ha as <-. auto. }
  - split; [exact Hnd|]. intro link. split; [auto|].
    intros [H|(a' & Ha & _)]; [exact H | discriminate].
Qed.

Lemma fold_stepOf (keep : jsstring -> bool) (hrefs : list (option jsstring)) :
  keep [] = false ->
  forall links,
    NoDup links ->
    NoDup (fold_left (stepOf keep) hrefs links) /\
    forall link,
      In link (fold_left (stepOf keep) hrefs links) <->
      In link links \/
      exists h absoluteUrl,
        In (Some h) hrefs /\ keep h = true /\
        resolveUrl h baseUrl = Some absoluteUrl /\
        link = splitHead absoluteUrl (lit "#").
Proof.
  intro Hk. induction hrefs as [|href hrefs IH]; intros links Hnd.
  - cbn [fold_left]. split; [exact Hnd|]. intro link. split; [auto|].
    intros [H|(h & a & [] & _)]. exact H.
  - cbn [fold_left].
    assert (Hstep : NoDup (stepOf keep links href) /\
              forall link,
                In link (stepOf keep links href) <->
                In link links \/
                exists h absoluteUrl,
                  href = Some h /\ keep h = true /\
                  resolveUrl h baseUrl = Some absoluteUrl /\
                  link = splitHead absoluteUrl (lit "#")).
    { destruct href as [[|c h]|].
      - cbn [orNull truthy]. split; [exact Hnd|]. intro link.
        split; [auto|]. intros [H|(h & a & Hh & Hkh & _)]; [exact H|].
        injection Hh as <-. congruence.
      - cbn [orNull truthy]. destruct (keep (c :: h)) eqn:Ek.
        + destruct (pushClean_spec (c :: h) Hnd) as [H1 H2].
          split; [exact H1|]. intro link. rewrite H2. split.
          * intros [H|(a & Ha & Hl)]; [auto|]. right.
            exists (c :: h), a. auto.
          * intros [H|(h' & a & Hh & _ & Ha & Hl)]; [auto|].
            injection Hh as <-. right. eauto.
        + split; [exact Hnd|]. intro link. split; [auto|].
          intros [H|(h' & a & Hh & Hkh & _)]; [exact H|].
          injection Hh as <-. congruence.
      - cbn [orNull]. split; [exact Hnd|]. intro link. split; [auto|].
        intros [H|(h & a & Hh & _)]; [exact H | discriminate]. }
    destruct Hstep as [Hnd' Hin'].
    destruct (IH _ Hnd') as [Hnd'' Hin''].
    split; [exact Hnd''|].
    intro link. rewrite Hin'', Hin'. split.
    + intros [[H|(h & a & -> & Hr)]|(h & a & Hh & Hr)]; auto.
      * right. exists h, a. split; [left; reflexivity | exact Hr].
      * right. exists h, a. split; [right; exact Hh | exact Hr].
    + intros [H|(h & a & [Hh|Hh] & Hr)]; auto.
      * left. right. exists h, a. auto.
      * right. exists h, a. auto.
Qed.

Lemma pattern_nonempty : pattern <> [].
Proof. unfold getVehicleUrlPattern. discriminate. Qed.

(** The hrefs that the two callbacks keep. *)
Local Abbreviation keepA :=
  (fun h => negb (isNavigation h) && includes h pattern).
Local Abbreviation keepArea := (fun h : jsstring => includes h pattern).

Lemma aStep_stepOf (links : list jsstring) (href : option jsstring) :
  aStep FRAME_NAME TRIM_CODE resolveUrl baseUrl links href
  = stepOf keepA links href.
Proof.
  unfold aStep. destruct (orNull href) as [h|]; [|reflexivity].
  destruct (isNavigation h); [reflexivity|].
  destruct (includes h pattern); reflexivity.
Qed.

Lemma areaStep_stepOf (links : list jsstring) (href : option jsstring) :
  areaStep FRAME_NAME TRIM_CODE resolveUrl baseUrl links href
  = stepOf keepArea links href.
Proof.
  unfold areaStep. destruct (orNull href) as [h|]; [|reflexivity].
  destruct (includes h pattern); reflexivity.
Qed.

Lemma fold_ext (A B : Type) (f g : A -> B -> A) (l : list B) :
  (forall a b, f a b = g a b) ->
  forall a, fold_left f l a = fold_left g l a.
Proof.
  intro H. induction l as [|b l IH]; intro a; simpl; [reflexivity|].
  rewrite H. apply IH.
Qed.

(** X17.  The links that parseCategoryPage returns are pairwise distinct
    and have no "#"; a URL is returned exactly when it is the resolved
    URL, cut before its first "#", of an href that contains the vehicle
    path /delica_space_gear/FRAME_NAME/TRIM_CODE/ and is either an area
    link or an a link that is not a navigation link (a fragment, a
    javascript: link, amayama.com, the quick search). *)
Theorem parseCategoryPage_links :
  forall dom : LinksDom,
    let links := parseCategoryPage FRAME_NAME TRIM_CODE resolveUrl dom
                   baseUrl in
    NoDup links /\
    forall link,
      In link links <->
      exists href absoluteUrl,
        (In (Some href) (aHrefs dom) /\ isNavigation href = false \/
         In (Some href) (areaHrefs dom)) /\
        includes href pattern = true /\
        resolveUrl href baseUrl = Some absoluteUrl /\
        link = splitHead absoluteUrl (lit "#") /\
        includes link (lit "#") = false.
Proof.
  intros dom links. subst links. unfold Links.parseCategoryPage.
  rewrite (fold_ext _ _ (areaHrefs dom) areaStep_stepOf).
  rewrite (fold_ext _ _ (aHrefs dom) aStep_stepOf).
  assert (Hka : keepA [] = false).
  { rewrite (includes_nil pattern_nonempty). apply andb_false_r. }
  assert (Hkr : keepArea [] = false)
    by exact (includes_nil pattern_nonempty).
  destruct (@fold_stepOf keepA (aHrefs dom) Hka [] (NoDup_nil _))
    as [Hnd1 Hin1].
  destruct (@fold_stepOf keepArea (areaHrefs dom) Hkr _ Hnd1)
    as [Hnd2 Hin2].
  split; [exact Hnd2|].
  intro link. rewrite Hin2, Hin1. split.
  - intros [[[]|(h & a & Hh & Hk & Hr & ->)]|(h & a & Hh & Hk & Hr & ->)].
    + apply andb_true_iff in Hk. destruct Hk as [Hn Hp].
      apply negb_true_iff in Hn.
      exists h, a. repeat split; auto. apply splitHead_clean.
    + exists h, a. repeat split; auto. apply splitHead_clean.
  - intros (h & a & [[Hh Hn]|Hh] & Hp & Hr & Hl & _).
    + left. right. exists h, a. rewrite Hn, Hp. auto.
    + right. exists h, a. auto.
Qed.

Lemma addLink_spec (links : list jsstring) (href : option jsstring) :
  (NoDup links /\
   forall link, In link links ->
                includes link pattern = true /\
                includes link (lit "#") = false) ->
  NoDup (addLink FRAME_NAME TRIM_CODE resolveUrl baseUrl links href) /\
  forall link,
    In link (addLink FRAME_NAME TRIM_CODE resolveUrl baseUrl links href) ->
    includes link pattern = true /\ includes link (lit "#") = false.
Proof.
  intros [Hnd Hall]. unfold addLink.
  destruct (orNull href) as [h|]; [|split; assumption].
  match goal with |- context [if ?c then links else _] =>
    destruct c end; [split; assumption|].
  match goal with |- context [if ?c then links else _] =>
    destruct c end; [split; assumption|].
  destruct (resolveUrl h baseUrl) as [a|]; [|split; assumption].
  destruct (includes (splitHead a (lit "#")) pattern) eqn:Ep;
    cbn [negb]; [|split; assumption].
  destruct (existsb (eqb (splitHead a (lit "#"))) links) eqn:E;
    [split; assumption|].
  split.
  - apply NoDup_app; [exact Hnd | repeat constructor; intros [] |].
    intros y Hy [<-|[]]. apply existsb_eqb in Hy. congruence.
  - intros link Hl. apply in_app_or in Hl.
    destruct Hl as [Hl|[<-|[]]]; [apply Hall; exact Hl|].
    split; [exact Ep | apply splitHead_clean].
Qed.

(** X18.  Every link that extractAllLinks returns contains the vehicle
    path and has no "#", and the links are pairwise distinct. *)
Theorem extractAllLinks_within_vehicle :
  forall dom : LinksDom,
    let links := extractAllLinks FRAME_NAME TRIM_CODE resolveUrl dom
                   baseUrl in
    NoDup links /\
    forall link, In link links ->
                 includes link pattern = true /\
                 includes link (lit "#") = false.
Proof.
  intros dom links. subst links. unfold extractAllLinks.
  assert (Hfold : forall hrefs links,
             (NoDup links /\
              forall link, In link links ->
                           includes link pattern = true /\
                           includes link (lit "#") = false) ->
             NoDup (fold_left (addLink FRAME_NAME TRIM_CODE resolveUrl
                                 baseUrl) hrefs links) /\
             forall link,
               In link (fold_left (addLink FRAME_NAME TRIM_CODE resolveUrl
                                     baseUrl) hrefs links) ->
               includes link pattern = true /\
               includes link (lit "#") = false).
  { induction hrefs as [|href hrefs IH]; intros links H; [exact H|].
    cbn [fold_left]. apply IH. apply addLink_spec. exact H. }
  apply Hfold. apply Hfold. split; [constructor | intros link []].
Qed.

End WithEnv.

Lemma parseCategoryPage_links_witness :
  In (lit "https://epc/delica_space_gear/pd6w/hseue9/engine/pump/")
     engineLinks <->
  exists href absoluteUrl,
    (In (Some href) (aHrefs engineDom) /\
     isNavigation None None href = false \/
     In (Some href) (areaHrefs engineDom)) /\
    includes href (getVehicleUrlPattern None None) = true /\
    engineResolve href engineBase = Some absoluteUrl /\
    lit "https://epc/delica_space_gear/pd6w/hseue9/engine/pump/"
    = splitHead absoluteUrl (lit "#") /\
    includes (lit "https://epc/delica_space_gear/pd6w/hseue9/engine/pump/")
             (lit "#") = false.
Proof.
  destruct (@parseCategoryPage_links None None engineResolve engineBase
              engineDom) as [_ H].
  apply H.
Defined.

Lemma extractAllLinks_within_vehicle_witness :
  NoDup (extractAllLinks None None engineResolve engineDom engineBase).
Proof.
  destruct (@extractAllLinks_within_vehicle None None engineResolve
              engineBase engineDom) as [H _].
  exact H.
Defined.

Example engine_links :
  engineLinks
  = [ lit "https://epc/delica_space_gear/pd6w/hseue9/engine/pump/";
      lit "https://epc/delica_space_gear/pd6w/hseue9/engine/pump/11778/" ].
Proof. vm_compute. reflexivity. Qed.

End LinksFacts.

(* ================================================================== *)
(** ** Image file names *)

Module ImagesFacts.
Import Js Images JsFacts.
Local Open Scope N_scope.

Lemma letters_spec (s : jsstring) :
  forallb isLetter (fst (letters s)) = true.
Proof.
  induction s as [|c s IH]; [reflexivity|].
  cbn [letters]. destruct (isLetter c) eqn:E; [|reflexivity].
  destruct (letters s) as [a b]. cbn [fst forallb] in *.
  rewrite E, IH. reflexivity.
Qed.

Lemma extensionMatch_spec (url m : jsstring) :
  extensionMatch url = Some m -> m <> [] /\ forallb isLetter m = true.
Proof.
  induction url as [|c s IH]; [discriminate|].
  cbn [extensionMatch].
  destruct (if c =? 46 then extensionAt s else None) as [m'|] eqn:E;
    [|exact IH].
  intro H. injection H as ->.
  destruct (c =? 46); [|discriminate].
  unfold extensionAt in E. pose proof (letters_spec s) as Hl.
  destruct (letters s) as [a rest]. cbn [fst] in Hl.
  destruct (truthy a && Parser.atQueryOrEnd rest) eqn:Ea; [|discriminate].
  injection E as <-. apply andb_true_iff in Ea. destruct Ea as [Ea _].
  split; [|exact Hl]. intros ->. discriminate.
Qed.

Lemma lower_of_letter (c : N) :
  isLetter c = true -> lowerUnit c <> [] /\ forallb isLower (lowerUnit c) = true.
Proof.
  unfold isLetter, lowerUnit. intro H.
  destruct (isUpper c) eqn:Eu.
  - split; [discriminate|]. cbn [forallb]. rewrite andb_true_r.
    unfold isUpper, isLower, between in *.
    rewrite andb_true_iff, !N.leb_le in *. lia.
  - rewrite orb_false_r in H.
    assert (Hr : 97 <= c <= 122).
    { unfold isLower, between in H.
      rewrite andb_true_iff, !N.leb_le in H. exact H. }
    replace (c =? 8490) with false by (symmetry; apply N.eqb_neq; lia).
    replace (c =? 304) with false by (symmetry; apply N.eqb_neq; lia).
    split; [discriminate|]. cbn [forallb]. rewrite H. reflexivity.
Qed.

Lemma getExtension_spec (url : jsstring) :
  getExtension url <> [] /\ forallb isLower (getExtension url) = true.
Proof.
  unfold getExtension. destruct (extensionMatch url) as [m|] eqn:E.
  - destruct (extensionMatch_spec _ E) as [Hne Hall].
    unfold toLowerCase. split.
    + destruct m as [|c m]; [contradiction|]. cbn [flat_map forallb] in *.
      apply andb_true_iff in Hall. destruct Hall as [Hc _].
      destruct (lower_of_letter c Hc) as [Hn _].
      destruct (lowerUnit c); [contradiction | discriminate].
    + clear Hne E. induction m as [|c m IH]; [reflexivity|].
      cbn [flat_map forallb] in *. apply andb_true_iff in Hall.
      destruct Hall as [Hc Hm]. rewrite forallb_app.
      destruct (lower_of_letter c Hc) as [_ ->]. exact (IH Hm).
  - split; [discriminate | reflexivity].
Qed.

Lemma safeId_spec (id : jsstring) :
  forallb isSafeChar (safeId id) = true /\ (length (safeId id) <= 100)%nat.
Proof.
  unfold safeId. split; [|apply firstn_le_length].
  apply forallb_forall. intros x Hx. apply In_firstn in Hx.
  apply in_map_iff in Hx. destruct Hx as (c & <- & _).
  destruct (isSafeChar c) eqn:E; [exact E | reflexivity].
Qed.

Lemma includes_unit_false (x : N) (s : jsstring) :
  forallb (fun c => negb (x =? c)) s = true -> includes s [x] = false.
Proof.
  induction s as [|c s IH]; [reflexivity|].
  cbn [forallb includes]. rewrite andb_true_iff, negb_true_iff.
  intros [Hc Hs]. rewrite (IH Hs), orb_false_r.
  cbn [startsWith]. rewrite Hc. reflexivity.
Qed.

Lemma forallb_impl (f g : N -> bool) (s : jsstring) :
  (forall c, f c = true -> g c = true) ->
  forallb f s = true -> forallb g s = true.
Proof.
  intros H Hs. rewrite forallb_forall in *. intros x Hx. apply H, Hs, Hx.
Qed.

(** X19.  Whatever the diagram id and the image URL, the file name of an
    image is a stem of at most 100 characters of [a-zA-Z0-9_-], a dot, and
    a non-empty extension of lower case letters; it contains no slash, so
    the file lies in the images directory itself. *)
Theorem image_filename_is_safe :
  forall id image_url : jsstring,
    forallb isSafeChar (safeId id) = true /\
    (length (safeId id) <= 100)%nat /\
    getExtension image_url <> [] /\
    forallb isLower (getExtension image_url) = true /\
    filename id image_url = safeId id ++ lit "." ++ getExtension image_url /\
    includes (filename id image_url) (lit "/") = false /\
    includes (filename id image_url) (lit "..") = false.
Proof.
  intros id image_url.
  destruct (safeId_spec id) as [H1 H2].
  destruct (getExtension_spec image_url) as [H3 H4].
  split; [exact H1|]. split; [exact H2|]. split; [exact H3|].
  split; [exact H4|]. split; [reflexivity|].
  set (stem := safeId id) in *. set (ext := getExtension image_url) in *.
  assert (Hs : forallb (fun c => negb (47 =? c) && negb (46 =? c)) stem
               = true).
  { apply (forallb_impl isSafeChar); [|exact H1].
    intros c Hc. unfold isSafeChar, isLower, isUpper, isDigit, between in Hc.
    destruct (N.eqb_spec 47 c) as [<-|_]; [discriminate|].
    destruct (N.eqb_spec 46 c) as [<-|_]; [discriminate|]. reflexivity. }
  assert (He : forallb (fun c => negb (47 =? c) && negb (46 =? c)) ext
               = true).
  { apply (forallb_impl isLower); [|exact H4].
    intros c Hc. unfold isLower, between in Hc.
    destruct (N.eqb_spec 47 c) as [<-|_]; [discriminate|].
    destruct (N.eqb_spec 46 c) as [<-|_]; [discriminate|]. reflexivity. }
  split.
  - change (lit "/") with [47]. apply includes_unit_false.
    unfold filename. fold stem ext. rewrite !forallb_app.
    apply andb_true_iff. split; [|apply andb_true_iff; split].
    + apply (forallb_impl _ _ stem
               (fun c H => proj1 (proj1 (andb_true_iff _ _) H)) Hs).
    + reflexivity.
    + apply (forallb_impl _ _ ext
               (fun c H => proj1 (proj1 (andb_true_iff _ _) H)) He).
  - unfold filename. fold stem ext. change (lit "..") with [46; 46].
    change (lit ".") with [46].
    assert (Hnone : forall l,
               forallb (fun c => negb (47 =? c) && negb (46 =? c)) l = true ->
               count_occ N.eq_dec l 46 = 0%nat).
    { intros l Hl. apply count_occ_not_In. intro Hin.
      rewrite forallb_forall in Hl. specialize (Hl 46 Hin).
      discriminate. }
    destruct (includes (stem ++ [46] ++ ext) [46; 46]) eqn:E;
      [|reflexivity].
    exfalso. apply UtilsExtra.includes_iff in E.
    destruct E as (pre & post & E).
    apply (f_equal (fun l => count_occ N.eq_dec l 46)) in E.
    rewrite !count_occ_app, (Hnone stem Hs), (Hnone ext He) in E.
    change (count_occ N.eq_dec [46] 46) with 1%nat in E.
    change (count_occ N.eq_dec [46; 46] 46) with 2%nat in E.
    lia.
Qed.

End ImagesFacts.

(* ================================================================== *)
(** ** The retries of the repair script *)

Module ScriptFacts.
Import Js Script.

Lemma fetchLoop_spec (responses : nat -> HttpResponse) (left : nat) :
  forall (attempt : nat) (waited : list Z),
    let run := fetchLoop responses left attempt waited in
    exists n,
      n <= left /\
      waits run = waited ++ map delay (seq attempt n) /\
      (forall j, attempt <= j < attempt + n ->
                 status (responses j) = 429%Z) /\
      (outcome run = RetriesExhausted /\ n = left /\
       requests run = attempt + left \/
       n < left /\ requests run = attempt + n + 1 /\
       (outcome run = Text (body (responses (attempt + n))) /\
        ok (responses (attempt + n)) = true \/
        outcome run = Failed (status (responses (attempt + n))) /\
        ok (responses (attempt + n)) = false /\
        status (responses (attempt + n)) <> 429%Z)).
Proof.
  induction left as [|left IH]; intros attempt waited run; subst run.
  - exists 0. cbn [fetchLoop outcome requests waits seq map].
    rewrite app_nil_r, Nat.add_0_r.
    split; [lia|]. split; [reflexivity|]. split; [intros j Hj; lia|].
    left. auto.
  - cbn [fetchLoop].
    destruct (ok (responses attempt)) eqn:Eok.
    + exists 0. cbn [outcome requests waits seq map].
      rewrite app_nil_r, !Nat.add_0_r.
      split; [lia|]. split; [reflexivity|]. split; [intros j Hj; lia|].
      right. split; [lia|]. split; [lia|]. left. auto.
    + destruct (Z.eqb (status (responses attempt)) 429) eqn:E429.
      * destruct (IH (S attempt) (waited ++ [delay attempt]))
          as (n & Hn & Hw & Hall & Hout).
        exists (S n). split; [lia|]. split.
        { rewrite Hw, <- app_assoc. reflexivity. }
        split.
        { intros j Hj. destruct (Nat.eq_dec j attempt) as [->|Hne].
          - apply Z.eqb_eq. exact E429.
          - apply Hall. lia. }
        replace (attempt + S n) with (S attempt + n) by lia.
        destruct Hout as [(H1 & H2 & H3)|(H1 & H2 & H3)].
        { left. split; [exact H1|]. split; [lia|]. rewrite H3. lia. }
        { right. split; [lia|]. split; [rewrite H2; lia | exact H3]. }
      * exists 0. cbn [outcome requests waits seq map].
        rewrite app_nil_r, !Nat.add_0_r.
        split; [lia|]. split; [reflexivity|]. split; [intros j Hj; lia|].
        right. split; [lia|]. split; [lia|]. right.
        split; [reflexivity|]. split; [exact Eok|].
        apply Z.eqb_neq. exact E429.
Qed.

(** X20.  fetchPage makes at most [retries] requests.  It goes on only
    after an answer 429, waiting 10 s, 20 s, 40 s, ... after the first,
    second, third such answer, also after the last one before it gives
    up; the first answer that is not 429 decides: its text is returned
    when it is ok, otherwise the call fails at once, without a retry. *)
Theorem fetchPage_retries_only_on_429 :
  forall (responses : nat -> HttpResponse) (retries : nat),
    let run := fetchPage responses retries in
    requests run <= retries /\
    exists n,
      waits run = map delay (seq 0 n) /\
      (forall j, j < n -> status (responses j) = 429%Z) /\
      (outcome run = RetriesExhausted /\ n = retries /\
       requests run = retries \/
       n < retries /\ requests run = n + 1 /\
       (outcome run = Text (body (responses n)) /\
        ok (responses n) = true \/
        outcome run = Failed (status (responses n)) /\
        ok (responses n) = false /\
        status (responses n) <> 429%Z)).
Proof.
  intros responses retries run. subst run. unfold fetchPage.
  destruct (fetchLoop_spec responses retries 0 [])
    as (n & Hn & Hw & Hall & Hout).
  cbn [app Nat.add] in *.
  split.
  - destruct Hout as [(_ & _ & ->)|(H1 & -> & _)]; lia.
  - exists n. split; [exact Hw|]. split; [intros j Hj; apply Hall; lia|].
    destruct Hout as [H|(H1 & H2 & H3)]; [left; exact H|].
    right. split; [exact H1|]. split; [lia | exact H3].
Qed.

Example fetchPage_busy_site :
  fetchPage busySite 3
  = {| outcome := Text (lit "<html></html>"); requests := 3;
       waits := [10000%Z; 20000%Z] |} /\
  waits (fetchPage (fun _ => {| status := 429; body := [] |}) 3)
  = [10000%Z; 20000%Z; 40000%Z].
Proof. split; vm_compute; reflexivity. Qed.

End ScriptFacts.

(* ================================================================== *)
(** ** Cleaned descriptions *)

Module DescriptionFacts.
Import Js Utils Text JsFacts.
Local Open Scope N_scope.

Local Abbreviation visible := (fun c : N => negb (isSpace c)).

(** The first character, if any, is not white space. *)
Local Abbreviation headVisible := (fun s : jsstring =>
  match s with c :: _ => isSpace c = false | [] => True end).

Lemma pairwise_cons (R : N -> N -> bool) (a b : N) (s : jsstring) :
  pairwise R (a :: b :: s) = R a b && pairwise R (b :: s).
Proof. reflexivity. Qed.

Lemma pairwise_tail (R : N -> N -> bool) (a : N) (s : jsstring) :
  pairwise R (a :: s) = true -> pairwise R s = true.
Proof.
  destruct s as [|b s]; [reflexivity|]. rewrite pairwise_cons.
  intro H. apply andb_true_iff in H. tauto.
Qed.

Lemma pairwise_suffix (R : N -> N -> bool) (pre s : jsstring) :
  pairwise R (pre ++ s) = true -> pairwise R s = true.
Proof.
  induction pre as [|a pre IH]; [auto|]. intro H. apply IH.
  exact (pairwise_tail _ _ _ H).
Qed.

Lemma pairwise_prefix (R : N -> N -> bool) (s post : jsstring) :
  pairwise R (s ++ post) = true -> pairwise R s = true.
Proof.
  induction s as [|a s IH]; [reflexivity|].
  destruct s as [|b s]; [reflexivity|].
  cbn [app]. rewrite !pairwise_cons, !andb_true_iff.
  intros [H1 H2]. split; [exact H1|]. apply IH. exact H2.
Qed.

(** *** commaSpace *)

Lemma commaSpace_head (c : N) (s : jsstring) :
  exists rest, commaSpace (c :: s) = c :: rest.
Proof.
  cbn [commaSpace]. destruct (c =? 44); [|eauto].
  destruct s as [|x s']; [eauto|]. destruct (isSpace x); eauto.
Qed.

Lemma commaSpace_spaced (s : jsstring) :
  pairwise commaSpaced (commaSpace s) = true.
Proof.
  induction s as [|c s IH]; [reflexivity|].
  cbn [commaSpace]. destruct (c =? 44) eqn:Ec.
  - destruct s as [|x s'].
    { rewrite pairwise_cons. unfold commaSpaced.
      replace (isSpace 32) with true by reflexivity.
      rewrite orb_true_r. reflexivity. }
    destruct (commaSpace_head x s') as (rest & Hr).
    destruct (isSpace x) eqn:Ex.
    + rewrite Hr in *. rewrite pairwise_cons, IH.
      unfold commaSpaced. rewrite Ex, orb_true_r. reflexivity.
    + rewrite Hr in *. rewrite !pairwise_cons, IH.
      unfold commaSpaced. rewrite Ec. reflexivity.
  - destruct s as [|x s']; [reflexivity|].
    destruct (commaSpace_head x s') as (rest & Hr).
    rewrite Hr in *. rewrite pairwise_cons, IH.
    unfold commaSpaced. rewrite Ec. reflexivity.
Qed.

Lemma commaSpace_visible (s : jsstring) :
  filter visible (commaSpace s) = filter visible s.
Proof.
  induction s as [|c s IH]; [reflexivity|].
  cbn [commaSpace]. destruct (c =? 44).
  - destruct s as [|x s']; [reflexivity|].
    destruct (isSpace x); cbn [filter]; rewrite IH; reflexivity.
  - cbn [filter]. rewrite IH. reflexivity.
Qed.

(** *** collapseSpaces *)

Local Abbreviation runOk := (fun run : option (N * bool) =>
  match run with Some (c, _) => isSpace c = true | None => True end).

Lemma flushRun_space (run : option (N * bool)) :
  runOk run -> forallb isSpace (flushRun run) = true.
Proof.
  destruct run as [[c [|]]|]; simpl; intro H; [reflexivity | | reflexivity].
  rewrite H. reflexivity.
Qed.

(** After a pending run the output starts with one white space. *)
Lemma collapse_pending (s : jsstring) :
  forall c b, isSpace c = true ->
    exists w rest,
      collapseSpaces (Some (c, b)) s = w :: rest /\
      isSpace w = true /\ headVisible rest /\
      (rest = [] \/ exists s', rest = collapseSpaces None s').
Proof.
  induction s as [|x s IH]; intros c b Hc.
  - cbn [collapseSpaces flushRun]. destruct b.
    + exists 32, []. repeat split; auto.
    + exists c, []. repeat split; auto.
  - cbn [collapseSpaces]. destruct (isSpace x) eqn:Ex.
    + apply IH. exact Hc.
    + destruct b; cbn [flushRun app].
      * exists 32, (x :: collapseSpaces None s).
        repeat split; [exact Ex|]. right.
        exists (x :: s). cbn [collapseSpaces]. rewrite Ex. reflexivity.
      * exists c, (x :: collapseSpaces None s).
        repeat split; [exact Hc | exact Ex|]. right.
        exists (x :: s). cbn [collapseSpaces]. rewrite Ex. reflexivity.
Qed.

Lemma collapse_single (s : jsstring) :
  forall run, runOk run ->
              pairwise singleSpaced (collapseSpaces run s) = true.
Proof.
  induction s as [|x s IH]; intros run Hrun.
  - destruct run as [[c [|]]|]; reflexivity.
  - cbn [collapseSpaces]. destruct (isSpace x) eqn:Ex.
    + apply IH. destruct run as [[c0 b]|]; [exact Hrun | exact Ex].
    + assert (Hx : pairwise singleSpaced (x :: collapseSpaces None s) = true).
      { pose proof (IH None I) as H.
        destruct (collapseSpaces None s) as [|y l]; [reflexivity|].
        rewrite pairwise_cons, H. unfold singleSpaced. rewrite Ex.
        reflexivity. }
      destruct run as [[c [|]]|]; cbn [flushRun app]; [| |exact Hx].
      * rewrite pairwise_cons, Hx. unfold singleSpaced. rewrite Ex.
        rewrite andb_false_r. reflexivity.
      * rewrite pairwise_cons, Hx. unfold singleSpaced. rewrite Ex.
        rewrite andb_false_r. reflexivity.
Qed.

Lemma space_not_comma (w : N) : isSpace w = true -> (w =? 44) = false.
Proof.
  intro H. apply N.eqb_neq. intros ->. discriminate.
Qed.

Lemma collapse_commas (s : jsstring) :
  forall run, runOk run ->
              pairwise commaSpaced s = true ->
              pairwise commaSpaced (collapseSpaces run s) = true.
Proof.
  induction s as [|x s IH]; intros run Hrun Hs.
  - destruct run as [[c [|]]|]; reflexivity.
  - cbn [collapseSpaces]. destruct (isSpace x) eqn:Ex.
    + apply IH; [|exact (pairwise_tail _ _ _ Hs)].
      destruct run as [[c0 b]|]; [exact Hrun | exact Ex].
    + assert (Hx : pairwise commaSpaced (x :: collapseSpaces None s) = true).
      { pose proof (IH None I (pairwise_tail _ _ _ Hs)) as H.
        destruct s as [|y s']; [reflexivity|].
        rewrite pairwise_cons in Hs. apply andb_true_iff in Hs.
        destruct Hs as [Hxy _]. unfold commaSpaced in Hxy.
        cbn [collapseSpaces] in *. destruct (isSpace y) eqn:Ey.
        - destruct (collapse_pending s' y false Ey) as (w & rest & Hw & Hsp & _).
          rewrite Hw in *. rewrite pairwise_cons, H.
          unfold commaSpaced. rewrite Hsp. rewrite orb_true_r. reflexivity.
        - cbn [flushRun app] in *. rewrite pairwise_cons, H.
          unfold commaSpaced. rewrite orb_false_r in Hxy. rewrite Hxy.
          reflexivity. }
      destruct run as [[c [|]]|]; cbn [flushRun app]; [| |exact Hx].
      * rewrite pairwise_cons, Hx. reflexivity.
      * rewrite pairwise_cons, Hx. unfold commaSpaced.
        rewrite (space_not_comma c Hrun). reflexivity.
Qed.

Lemma filter_spaces (l : jsstring) :
  forallb isSpace l = true -> filter visible l = [].
Proof.
  induction l as [|c l IH]; [reflexivity|]. cbn [forallb filter].
  intro H. apply andb_true_iff in H. destruct H as [-> H]. exact (IH H).
Qed.

Lemma collapse_visible (s : jsstring) :
  forall run, runOk run ->
              filter visible (collapseSpaces run s) = filter visible s.
Proof.
  induction s as [|x s IH]; intros run Hrun.
  - cbn [collapseSpaces]. apply filter_spaces, flushRun_space, Hrun.
  - cbn [collapseSpaces filter]. destruct (isSpace x) eqn:Ex; cbn [negb].
    + apply IH. destruct run as [[c0 b]|]; [exact Hrun | exact Ex].
    + rewrite filter_app, (filter_spaces _ (flushRun_space run Hrun)).
      cbn [app filter]. rewrite Ex. cbn [negb]. rewrite (IH None I).
      reflexivity.
Qed.

(** *** trim *)

Lemma trimStart_suffix (s : jsstring) : exists pre, s = pre ++ trimStart s.
Proof.
  induction s as [|c s IH]; [exists []; reflexivity|].
  cbn [trimStart]. destruct (isSpace c).
  - destruct IH as (pre & IH). exists (c :: pre). cbn [app]. f_equal.
    exact IH.
  - exists []. reflexivity.
Qed.

Lemma trimStart_head (s : jsstring) : headVisible (trimStart s).
Proof.
  induction s as [|c s IH]; [exact I|].
  cbn [trimStart]. destruct (isSpace c) eqn:E; [exact IH | exact E].
Qed.

Lemma trimStart_fixed (s : jsstring) : headVisible s -> trimStart s = s.
Proof. destruct s as [|c s]; [reflexivity|]. cbn. intros ->. reflexivity. Qed.

Lemma trimStart_visible (s : jsstring) :
  filter visible (trimStart s) = filter visible s.
Proof.
  induction s as [|c s IH]; [reflexivity|].
  cbn [trimStart filter]. destruct (isSpace c) eqn:E; cbn [negb];
    [exact IH|]. cbn [filter]. rewrite E. reflexivity.
Qed.

Lemma filter_rev (f : N -> bool) (s : jsstring) :
  filter f (rev s) = rev (filter f s).
Proof.
  induction s as [|c s IH]; [reflexivity|].
  cbn [rev filter]. rewrite filter_app, IH. cbn [filter].
  destruct (f c); [reflexivity | apply app_nil_r].
Qed.

Lemma trimEnd_prefix (s : jsstring) : exists post, s = trimEnd s ++ post.
Proof.
  unfold trimEnd. destruct (trimStart_suffix (rev s)) as (pre & H).
  exists (rev pre). rewrite <- rev_app_distr, <- H, rev_involutive.
  reflexivity.
Qed.

Lemma trim_visible (s : jsstring) : filter visible (trim s) = filter visible s.
Proof.
  unfold trim, trimEnd.
  rewrite filter_rev, trimStart_visible, filter_rev, rev_involutive.
  apply trimStart_visible.
Qed.

Lemma trim_ends (s : jsstring) :
  headVisible (trim s) /\ headVisible (rev (trim s)).
Proof.
  unfold trim. split.
  - destruct (trimEnd_prefix (trimStart s)) as (post & H).
    pose proof (trimStart_head s) as Hh. rewrite H in Hh.
    destruct (trimEnd (trimStart s)); [exact I | exact Hh].
  - unfold trimEnd. rewrite rev_involutive. apply trimStart_head.
Qed.

Lemma trim_fixed (s : jsstring) :
  headVisible s -> headVisible (rev s) -> trim s = s.
Proof.
  intros H1 H2. unfold trim, trimEnd.
  rewrite (trimStart_fixed s H1), (trimStart_fixed (rev s) H2).
  apply rev_involutive.
Qed.

Lemma trim_pairwise (R : N -> N -> bool) (s : jsstring) :
  pairwise R s = true -> pairwise R (trim s) = true.
Proof.
  intro H. unfold trim.
  destruct (trimStart_suffix s) as (pre & Hs).
  destruct (trimEnd_prefix (trimStart s)) as (post & He).
  apply (@pairwise_prefix R _ post). rewrite <- He.
  apply (@pairwise_suffix R pre). rewrite <- Hs. exact H.
Qed.

(** X21.  A cleaned description is never empty; trimming it changes
    nothing; it has no two white space characters in a row; every comma
    in it is followed by white space or is its last character; and it has
    the characters of the description that are not white space, in the
    same order: cleaning only adds, removes or replaces white space. *)
Theorem cleanDescription_normal_form :
  forall d v : jsstring,
    cleanDescription (Some d) = Some v ->
    v <> [] /\
    trim v = v /\
    pairwise singleSpaced v = true /\
    pairwise commaSpaced v = true /\
    filter (fun c => negb (isSpace c)) v
    = filter (fun c => negb (isSpace c)) d.
Proof.
  intros d v. unfold cleanDescription.
  destruct (truthy d); cbn [negb]; [|discriminate].
  set (t := trim (collapseSpaces None (commaSpace d))).
  intro H. unfold orNull in H. destruct (truthy t) eqn:Et; [|discriminate].
  injection H as <-.
  split; [intros E; rewrite E in Et; discriminate|].
  destruct (trim_ends (collapseSpaces None (commaSpace d))) as [H1 H2].
  split; [apply trim_fixed; assumption|].
  split; [apply trim_pairwise, collapse_single; exact I|].
  split.
  - apply trim_pairwise, collapse_commas; [exact I|].
    apply commaSpace_spaced.
  - unfold t. rewrite trim_visible, (collapse_visible _ None I).
    apply commaSpace_visible.
Qed.

Lemma cleanDescription_normal_form_witness :
  lit "Bolt, Flange (M8)" <> [] /\
  trim (lit "Bolt, Flange (M8)") = lit "Bolt, Flange (M8)" /\
  filter (fun c => negb (isSpace c)) (lit "Bolt, Flange (M8)")
  = filter (fun c => negb (isSpace c)) (lit "  Bolt,Flange   (M8) ").
Proof.
  destruct (@cleanDescription_normal_form (lit "  Bolt,Flange   (M8) ")
              (lit "Bolt, Flange (M8)")) as (H1 & H2 & _ & _ & H5).
  - vm_compute. reflexivity.
  - split; [exact H1|]. split; [exact H2 | exact H5].
Defined.

(** *** Cleaning a cleaned description *)

Lemma cleaned_facts (d v : jsstring) :
  cleanDescription (Some d) = Some v ->
  v <> [] /\ headVisible v /\ headVisible (rev v) /\
  pairwise singleSpaced v = true /\ pairwise commaSpaced v = true.
Proof.
  unfold cleanDescription.
  destruct (truthy d); cbn [negb]; [|discriminate].
  set (t := trim (collapseSpaces None (commaSpace d))).
  intro H. unfold orNull in H. destruct (truthy t) eqn:Et; [|discriminate].
  injection H as <-.
  split; [intros E; rewrite E in Et; discriminate|].
  destruct (trim_ends (collapseSpaces None (commaSpace d))) as [H1 H2].
  split; [exact H1|]. split; [exact H2|].
  split; [apply trim_pairwise, collapse_single; exact I|].
  apply trim_pairwise, collapse_commas; [exact I | apply commaSpace_spaced].
Qed.

Lemma last_cons (c x : N) (s : jsstring) :
  last (c :: x :: s) 0 = last (x :: s) 0.
Proof. reflexivity. Qed.

Lemma commaSpace_fixed (s : jsstring) :
  pairwise commaSpaced s = true ->
  commaSpace s = s ++ (if last s 0 =? 44 then [32] else []).
Proof.
  induction s as [|c s IH]; [reflexivity|]. intro H.
  pose proof (IH (pairwise_tail _ _ _ H)) as IH'.
  cbn [commaSpace]. destruct s as [|x s'].
  - cbn [last app]. destruct (c =? 44); reflexivity.
  - rewrite last_cons. rewrite pairwise_cons in H.
    apply andb_true_iff in H. destruct H as [Hcx _].
    unfold commaSpaced in Hcx. destruct (c =? 44).
    + cbn [negb orb] in Hcx. rewrite Hcx, IH'. reflexivity.
    + rewrite IH'. reflexivity.
Qed.

Lemma collapse_fixed (s : jsstring) :
  pairwise singleSpaced s = true ->
  collapseSpaces None s = s /\
  forall c, isSpace c = true -> headVisible s ->
            collapseSpaces (Some (c, false)) s = c :: s.
Proof.
  induction s as [|x s IH]; intro H.
  - split; [reflexivity|]. intros c _ _. reflexivity.
  - destruct (IH (pairwise_tail _ _ _ H)) as [IH1 IH2].
    cbn [collapseSpaces]. split.
    + destruct (isSpace x) eqn:Ex.
      * apply IH2; [exact Ex|]. destruct s as [|y s']; [exact I|].
        rewrite pairwise_cons in H. apply andb_true_iff in H.
        destruct H as [Hxy _]. unfold singleSpaced in Hxy.
        rewrite Ex in Hxy. cbn [andb] in Hxy.
        apply negb_true_iff in Hxy. exact Hxy.
      * cbn [flushRun app]. rewrite IH1. reflexivity.
    + intros c Hc Hx. cbn in Hx. rewrite Hx. cbn [flushRun app].
      rewrite IH1. reflexivity.
Qed.

Lemma pairwise_snoc (R : N -> N -> bool) (s : jsstring) (b : N) :
  pairwise R s = true ->
  R (last s 0) b = true ->
  pairwise R (s ++ [b]) = true.
Proof.
  induction s as [|a s IH]; intros H Hb; [reflexivity|].
  destruct s as [|a' s].
  - cbn [app]. rewrite pairwise_cons. cbn [pairwise last] in *.
    rewrite Hb. reflexivity.
  - cbn [app]. rewrite pairwise_cons in *. apply andb_true_iff in H.
    destruct H as [H1 H2]. rewrite H1. cbn [andb].
    rewrite last_cons in Hb. apply IH; assumption.
Qed.

(** X22.  cleanDescription is idempotent: cleaning a cleaned description
    returns it unchanged, and cleaning null returns null. *)
Theorem cleanDescription_idempotent :
  forall d : option jsstring,
    cleanDescription (cleanDescription d) = cleanDescription d.
Proof.
  intros [d|]; [|reflexivity].
  destruct (cleanDescription (Some d)) as [v|] eqn:E; [|reflexivity].
  destruct (cleaned_facts _ E) as (Hne & Hh & Hl & Hd & Hc).
  unfold cleanDescription.
  assert (Ht : truthy v = true) by (destruct v; [contradiction|reflexivity]).
  rewrite Ht. cbn [negb]. rewrite (commaSpace_fixed v Hc).
  destruct (last v 0 =? 44) eqn:E44.
  - apply N.eqb_eq in E44.
    assert (Hd' : pairwise singleSpaced (v ++ [32]) = true)
      by (apply pairwise_snoc; [exact Hd | rewrite E44; reflexivity]).
    destruct (collapse_fixed (v ++ [32]) Hd') as [-> _].
    assert (Hh' : headVisible (v ++ [32]))
      by (destruct v; [contradiction | exact Hh]).
    unfold trim, trimEnd. rewrite (trimStart_fixed _ Hh').
    rewrite rev_app_distr. cbn [rev app trimStart].
    replace (isSpace 32) with true by reflexivity.
    rewrite (trimStart_fixed _ Hl), rev_involutive.
    unfold orNull. rewrite Ht. reflexivity.
  - rewrite app_nil_r. destruct (collapse_fixed v Hd) as [-> _].
    rewrite (trim_fixed v Hh Hl). unfold orNull. rewrite Ht. reflexivity.
Qed.

End DescriptionFacts.

(* ================================================================== *)
(** ** The categories of the index page *)

Module IndexPageFacts.
Import Js IndexPage JsFacts.
Local Open Scope N_scope.

Lemma codeMatch_digits (fullText code : jsstring) :
  codeMatch fullText = Some code ->
  length code = 2%nat /\ forallb isDigit code = true.
Proof.
  unfold codeMatch.
  destruct (match_items false codePattern fullText) as [n|] eqn:E;
    [|discriminate].
  intro H.
  assert (Hc : code = firstn 2 fullText)
    by (injection H as <-; reflexivity).
  rewrite Hc. clear H Hc.
  destruct (match_items_sound _ _ _ E) as (Hle & _ & Hsegs).
  pose proof (@ParserExtra.segs_head _ _ _ 2 Hsegs (Nat.le_refl 2)) as Hd.
  pose proof (segs_minLen Hsegs) as Hlen. cbn in Hlen.
  rewrite length_firstn in Hlen.
  rewrite firstn_firstn in Hd.
  replace (Nat.min 2 n) with 2%nat in Hd by lia.
  split; [rewrite length_firstn; lia | exact Hd].
Qed.

Section WithUrl.

Variable urlOf : jsstring -> jsstring -> option (list jsstring * jsstring).
Variable baseUrl : jsstring.

(** What holds of every category pushed. *)
Local Abbreviation wellRead := (fun (lis : list IndexLi)
  (group : Scheduler.ParsedGroup) =>
  exists li href code pathParts,
    In li lis /\
    IndexPage.href li = Some href /\
    urlOf href baseUrl = Some (pathParts, Scheduler.groupUrl group) /\
    nth_error pathParts 3 = Some (Scheduler.id group) /\
    Scheduler.id group <> [] /\
    Scheduler.name group = code ++ lit " - " ++ trim (aText li) /\
    trim (aText li) <> [] /\
    length code = 2%nat /\ forallb isDigit code = true /\
    code = firstn 2 (trim (liText li))).

Lemma liStep_spec (categories categories' : list Scheduler.ParsedGroup)
  (li : IndexLi) :
  liStep urlOf baseUrl categories li = Some categories' ->
  NoDup (map Scheduler.id categories) ->
  NoDup (map Scheduler.id categories') /\
  (categories' = categories \/
   exists group, categories' = categories ++ [group] /\
                 wellRead [li] group).
Proof.
  unfold liStep. intros H Hnd.
  destruct (IndexPage.href li) as [h|] eqn:Eh; cbn [orNull] in H;
    [|injection H as <-; auto].
  destruct (truthy h) eqn:Eth; [|injection H as <-; auto].
  destruct (truthy (trim (aText li))) eqn:Et; cbn [negb] in H;
    [|injection H as <-; auto].
  destruct (codeMatch (trim (liText li))) as [code|] eqn:Ec;
    [|injection H as <-; auto].
  destruct (urlOf h baseUrl) as [[pathParts absoluteUrl]|] eqn:Eu;
    [|discriminate].
  destruct (nth_error pathParts 3) as [slug|] eqn:En; cbn [orNull] in H;
    [|injection H as <-; auto].
  destruct (truthy slug) eqn:Es; [|injection H as <-; auto].
  destruct (existsb (eqb slug) (map Scheduler.id categories)) eqn:Ex;
    injection H as <-; [auto|].
  split.
  - rewrite map_app. apply NoDup_app; [exact Hnd | |].
    + repeat constructor. intros [].
    + intros y Hy [<-|[]].
      assert (Ht : existsb (eqb slug) (map Scheduler.id categories) = true).
      { apply existsb_exists. exists slug. split; [exact Hy|].
        apply eqb_refl. }
      congruence.
  - right. eexists. split; [reflexivity|].
    destruct (codeMatch_digits _ Ec) as [Hc1 Hc2].
    exists li, h, code, pathParts. cbn [Scheduler.id Scheduler.name
                                         Scheduler.groupUrl].
    split; [left; reflexivity|]. split; [exact Eh|].
    split; [exact Eu|]. split; [exact En|].
    split; [intros ->; discriminate|]. split; [reflexivity|].
    split; [intros E; rewrite E in Et; discriminate|].
    split; [exact Hc1|]. split; [exact Hc2|].
    unfold codeMatch in Ec.
    destruct (match_items false codePattern (trim (liText li)));
      [injection Ec as <-; reflexivity | discriminate].
Qed.

Lemma liLoop_spec (lis : list IndexLi) :
  forall categories result,
    liLoop urlOf baseUrl lis categories = Some result ->
    NoDup (map Scheduler.id categories) ->
    NoDup (map Scheduler.id result) /\
    exists pushed,
      result = categories ++ pushed /\
      forall group, In group pushed -> wellRead lis group.
Proof.
  induction lis as [|li lis IH]; intros categories result H Hnd.
  - cbn in H. injection H as <-. split; [exact Hnd|].
    exists []. rewrite app_nil_r. split; [reflexivity | intros g []].
  - cbn [liLoop] in H.
    destruct (liStep urlOf baseUrl categories li) as [c'|] eqn:E;
      [|discriminate].
    destruct (liStep_spec _ _ E Hnd) as [Hnd' Hc'].
    destruct (IH _ _ H Hnd') as (Hnd'' & pushed & -> & Hp).
    split; [exact Hnd''|].
    assert (Hweak : forall group, In group pushed ->
                                  wellRead (li :: lis) group).
    { intros g Hg.
      destruct (Hp g Hg) as (l & h & c & pp & Hin & Hr).
      exists l, h, c, pp. split; [right; exact Hin | exact Hr]. }
    destruct Hc' as [->|(g & -> & Hg)].
    + exists pushed. split; [reflexivity | exact Hweak].
    + exists (g :: pushed). rewrite <- app_assoc. split; [reflexivity|].
      intros g' [<-|Hg']; [|exact (Hweak g' Hg')].
      destruct Hg as (l & h & c & pp & [<-|[]] & Hr).
      exists li, h, c, pp. split; [left; reflexivity | exact Hr].
Qed.

(** X23.  The categories that parseIndexPage returns have pairwise
    distinct ids.  Each comes from one #partnames li with a link: its id
    is the non-empty fourth segment of the path of the link's URL, its url
    is that URL, and its name is the two digits that start the text of
    the li, then " - ", then the non-empty trimmed text of the link. *)
Theorem parseIndexPage_categories :
  forall (lis : list IndexLi) (categories : list Scheduler.ParsedGroup),
    parseIndexPage urlOf lis baseUrl = Some categories ->
    NoDup (map Scheduler.id categories) /\
    forall group,
      In group categories ->
      exists li href code pathParts,
        In li lis /\
        IndexPage.href li = Some href /\
        urlOf href baseUrl = Some (pathParts, Scheduler.groupUrl group) /\
        nth_error pathParts 3 = Some (Scheduler.id group) /\
        Scheduler.id group <> [] /\
        Scheduler.name group = code ++ lit " - " ++ trim (aText li) /\
        trim (aText li) <> [] /\
        length code = 2%nat /\ forallb isDigit code = true /\
        code = firstn 2 (trim (liText li)).
Proof.
  intros lis categories H.
  destruct (liLoop_spec lis [] H (NoDup_nil _)) as (Hnd & pushed & -> & Hp).
  split; [exact Hnd | exact Hp].
Qed.

End WithUrl.

Lemma parseIndexPage_categories_witness :
  NoDup (map Scheduler.id [exampleGroup]) /\
  exists li href code pathParts,
    In li exampleLis /\
    IndexPage.href li = Some href /\
    exampleUrlOf href (lit "https://epc/")
    = Some (pathParts, Scheduler.groupUrl exampleGroup) /\
    nth_error pathParts 3 = Some (Scheduler.id exampleGroup) /\
    Scheduler.id exampleGroup <> [] /\
    Scheduler.name exampleGroup = code ++ lit " - " ++ trim (aText li) /\
    trim (aText li) <> [] /\
    length code = 2%nat /\ forallb isDigit code = true /\
    code = firstn 2 (trim (liText li)).
Proof.
  destruct (@parseIndexPage_categories exampleUrlOf (lit "https://epc/")
              exampleLis [exampleGroup]) as [H1 H2].
  - vm_compute. reflexivity.
  - split; [exact H1|]. apply H2. left. reflexivity.
Defined.

End IndexPageFacts.

(* ================================================================== *)
(** ** A crawl of a finite site ends *)

Module ProgressFacts.
Import Js Scheduler Progress JsFacts SchedulerFacts.

Lemma filter_le (A : Type) (p q : A -> bool) (l : list A) :
  (forall x, q x = true -> p x = true) ->
  length (filter q l) <= length (filter p l).
Proof.
  intro H. induction l as [|x l IH]; simpl; [lia|].
  destruct (q x) eqn:Eq.
  - rewrite (H x Eq). simpl. lia.
  - destruct (p x); simpl; lia.
Qed.

Lemma filter_flip (p q : jsstring -> bool) (u : jsstring)
  (l : list jsstring) :
  NoDup l -> In u l -> p u = true -> q u = false ->
  (forall x, x <> u -> q x = p x) ->
  length (filter q l) + 1 = length (filter p l).
Proof.
  intros Hnd Hin Hp Hq Hother.
  induction l as [|x l IH]; [destruct Hin|].
  inversion Hnd as [|x' l' Hx Hnd']; subst.
  destruct (list_eq_dec N.eq_dec x u) as [->|Hne].
  - simpl. rewrite Hp, Hq. simpl.
    rewrite (filter_ext_in q p l); [lia|].
    intros a Ha. apply Hother. intros ->. contradiction.
  - destruct Hin as [Hin|Hin]; [contradiction|].
    simpl. rewrite (Hother x Hne). destruct (p x); simpl;
      rewrite <- (IH Hnd' Hin); lia.
Qed.

Lemma hasRow_In (d : ProgressTable) (u : jsstring) :
  hasRow d u = true <-> In u (map url d).
Proof.
  unfold hasRow, getUrlStatus. induction d as [|r d IH]; simpl.
  - split; [discriminate | intros []].
  - destruct (eqb (url r) u) eqn:E.
    + apply eqb_eq in E. split; auto.
    + rewrite IH. split; [auto|]. intros [H|H]; [|exact H].
      rewrite H, eqb_refl in E. discriminate.
Qed.

Lemma urls_pending (d : ProgressTable) (u : jsstring) :
  map url (markUrlPending d u)
  = map url d ++ (if hasRow d u then [] else [u]).
Proof.
  unfold markUrlPending, hasRow.
  destruct (getUrlStatus d u); [symmetry; apply app_nil_r|].
  rewrite map_app. reflexivity.
Qed.

Lemma urls_status (d : ProgressTable) (u : jsstring) (st : Status)
  (err : option jsstring) :
  map url (setStatus d u st err)
  = map url d ++ (if hasRow d u then [] else [u]).
Proof.
  unfold setStatus, hasRow.
  destruct (getUrlStatus d u).
  - rewrite app_nil_r, map_map. apply map_ext. intro r.
    destruct (eqb (url r) u) eqn:E; [|reflexivity].
    apply eqb_eq in E. simpl. auto.
  - rewrite map_app. reflexivity.
Qed.

(** A table whose URLs are those of [d] and, if it is new, [u]. *)
Local Abbreviation adds := (fun (d d' : ProgressTable) (u : jsstring) =>
  map url d' = map url d ++ (if hasRow d u then [] else [u])).

Lemma hasRow_adds (d d' : ProgressTable) (u v : jsstring) :
  adds d d' u -> (hasRow d' v = true <-> hasRow d v = true \/ v = u).
Proof.
  intro H. rewrite !hasRow_In, H, in_app_iff.
  destruct (hasRow d u) eqn:E.
  - split; [intros [H1|[]]; auto|].
    intros [H1| ->]; [auto|]. left. apply hasRow_In. exact E.
  - simpl. split; [intros [H1|[H1|[]]]; auto|]. intros [H1| ->]; auto.
Qed.

Lemma unseen_le (site : list jsstring) (d d' : ProgressTable)
  (u : jsstring) :
  adds d d' u -> length (unseen site d') <= length (unseen site d).
Proof.
  intro H. unfold unseen. apply filter_le. intros x Hx.
  apply negb_true_iff in Hx. apply negb_true_iff.
  destruct (hasRow d x) eqn:E; [|reflexivity].
  assert (Ht : hasRow d' x = true)
    by (apply (hasRow_adds x H); left; exact E).
  congruence.
Qed.

Lemma unseen_new (site : list jsstring) (d d' : ProgressTable)
  (u : jsstring) :
  adds d d' u -> hasRow d u = false -> In u site ->
  length (unseen site d') + 1 = length (unseen site d).
Proof.
  intros H Hu Hin. unfold unseen.
  apply (@filter_flip _ _ u).
  - apply NoDup_nodup.
  - apply nodup_In. exact Hin.
  - rewrite Hu. reflexivity.
  - apply negb_false_iff. apply (hasRow_adds u H). right. reflexivity.
  - intros x Hne. f_equal.
    destruct (hasRow d x) eqn:E.
    + apply (hasRow_adds x H). left. exact E.
    + destruct (hasRow d' x) eqn:E'; [|reflexivity].
      apply (hasRow_adds x H) in E'. destruct E' as [E'|E'];
        [congruence | contradiction].
Qed.

Section Crawl.

Variable Html : Type.
Variable Catalog : Type.
Variable fetch : nat -> jsstring -> Html + jsstring.
Variable getUrlWithFrame : jsstring -> jsstring.
Variable parseIndexPage : Html -> jsstring -> option (list ParsedGroup).
Variable parseCategoryPage : Html -> jsstring -> list jsstring.
Variable insertGroup : Catalog -> ParsedGroup -> Catalog.
Variable persistRecords : jsstring -> Html -> Catalog -> Catalog * bool.
Variable baseUrl : jsstring.

Variable site : list jsstring.

Local Abbreviation Scraper := (Scraper Catalog).
Local Abbreviation queueLink := (queueLink (Catalog := Catalog)
                                   getUrlWithFrame).
Local Abbreviation processPage :=
  (processPage getUrlWithFrame parseCategoryPage persistRecords).
Local Abbreviation processQueue :=
  (processQueue fetch getUrlWithFrame parseCategoryPage persistRecords).
Local Abbreviation run :=
  (run fetch getUrlWithFrame parseIndexPage parseCategoryPage insertGroup
       persistRecords baseUrl).
Local Abbreviation work := (workLeft (Catalog := Catalog) site).

Lemma work_queueLink (s : Scraper) (link : jsstring) :
  In (getUrlWithFrame link) site ->
  work (queueLink s link) = work s.
Proof.
  intro Hin. unfold Scheduler.queueLink.
  destruct (getUrlStatus (db s) (getUrlWithFrame link)) eqn:E;
    [reflexivity|].
  unfold workLeft. cbn [db urlQueue withDb withQueue].
  rewrite length_app. cbn [length].
  assert (Hu : hasRow (db s) (getUrlWithFrame link) = false)
    by (unfold hasRow; rewrite E; reflexivity).
  pose proof (@unseen_new site (db s)
                (markUrlPending (db s) (getUrlWithFrame link))
                (getUrlWithFrame link) (urls_pending _ _) Hu Hin).
  lia.
Qed.

Lemma work_links (links : list jsstring) :
  (forall link, In link links -> In (getUrlWithFrame link) site) ->
  forall s : Scraper, work (fold_left queueLink links s) = work s.
Proof.
  induction links as [|link links IH]; intros H s; [reflexivity|].
  cbn [fold_left]. rewrite IH.
  - apply work_queueLink. apply H. left. reflexivity.
  - intros l Hl. apply H. right. exact Hl.
Qed.

Lemma work_settle (s : Scraper) (u : jsstring) (st : Status)
  (err : option jsstring) (e : Event) :
  work (withDb s (setStatus (db s) u st err) e) <= work s.
Proof.
  unfold workLeft. cbn [db urlQueue withDb].
  pose proof (@unseen_le site (db s) (setStatus (db s) u st err) u
                (urls_status _ _ _ _)).
  lia.
Qed.

Hypothesis finite : forall html u link,
    In link (parseCategoryPage html u) -> In (getUrlWithFrame link) site.

Lemma work_processPage (s : Scraper) (u : jsstring) (html : Html) :
  work (fst (processPage s u html)) = work s.
Proof.
  unfold Scheduler.processPage.
  destruct (persistRecords u html (catalog s)) as [c [|]]; cbn [fst];
    [|reflexivity].
  rewrite work_links; [reflexivity|]. intros link Hl.
  apply (finite html u). exact Hl.
Qed.

Lemma processQueue_ends (fuel : nat) :
  forall s : Scraper,
    work s < fuel -> snd (processQueue fuel s) <> OutOfFuel.
Proof.
  induction fuel as [|fuel IH]; intros s Hw; [lia|].
  cbn [Scheduler.processQueue].
  destruct (urlQueue s) as [|u rest] eqn:Eq; [discriminate|].
  assert (Hpop : work (withQueue s rest) + 1 = work s).
  { unfold workLeft. cbn [db urlQueue withQueue]. rewrite Eq.
    cbn [length]. lia. }
  cbn [db urlQueue withQueue catalog processedCount requests trace].
  destruct (match statusOf (db s) u with
            | Some st => isCompleted st
            | None => false
            end).
  - apply IH. lia.
  - unfold doFetch.
    cbn [db urlQueue catalog processedCount requests trace].
    destruct (fetch (requests s) u) as [html|err].
    + match goal with |- context [processPage ?s0 u html] =>
        pose proof (work_processPage s0 u html) as Hp;
        assert (H0 : work s0 = work (withQueue s rest)) by reflexivity;
        destruct (processPage s0 u html) as [s1 [|]] end;
        cbn [fst snd] in *; [|discriminate].
      apply IH. unfold markUrlCompleted.
      pose proof (work_settle (logged s1 (EvProcessed u)) u completed None
                    (EvCompleted u)) as Hs.
      assert (Hl : work (logged s1 (EvProcessed u)) = work s1)
        by reflexivity.
      lia.
    + apply IH.
      apply Nat.le_lt_trans with (m := work (withQueue s rest)); [|lia].
      match goal with |- context [withDb ?s0 _ (EvFailed u)] =>
        exact (work_settle s0 u failed (Some err) (EvFailed u)) end.
Qed.

Lemma processQueue_no_throw (fuel : nat) :
  (forall u html c, snd (persistRecords u html c) = true) ->
  forall s : Scraper, snd (processQueue fuel s) <> Thrown.
Proof.
  intro Hok. induction fuel as [|fuel IH]; intro s; [discriminate|].
  cbn [Scheduler.processQueue].
  destruct (urlQueue s) as [|u rest]; [discriminate|].
  destruct (match statusOf (db (withQueue s rest)) u with
            | Some st => isCompleted st
            | None => false
            end); [apply IH|].
  unfold doFetch.
  cbn [db urlQueue catalog processedCount requests trace].
  destruct (fetch (requests (withQueue s rest)) u) as [html|err];
    [|apply IH].
  unfold Scheduler.processPage.
  cbn [catalog].
  pose proof (Hok u html (catalog (withQueue s rest))) as H.
  destruct (persistRecords u html (catalog (withQueue s rest)))
    as [c ok]. cbn [snd] in H. subst ok. apply IH.
Qed.

Lemma processQueue_finished (fuel : nat) :
  forall s : Scraper,
    snd (processQueue fuel s) = Finished ->
    urlQueue (fst (processQueue fuel s)) = [].
Proof.
  induction fuel as [|fuel IH]; intro s; [discriminate|].
  cbn [Scheduler.processQueue].
  destruct (urlQueue s) as [|u rest] eqn:Eq; [intros _; exact Eq|].
  destruct (match statusOf (db (withQueue s rest)) u with
            | Some st => isCompleted st
            | None => false
            end); [apply IH|].
  unfold doFetch.
  cbn [db urlQueue catalog processedCount requests trace].
  destruct (fetch (requests (withQueue s rest)) u) as [html|err];
    [|apply IH].
  match goal with |- context [processPage ?s0 u html] =>
    destruct (processPage s0 u html) as [s1 [|]] end;
    [apply IH | discriminate].
Qed.

Lemma startRun_no_throw (s : Scraper) :
  (forall html u, parseIndexPage html u <> None) ->
  snd (startRun fetch getUrlWithFrame parseIndexPage insertGroup baseUrl s)
  = true.
Proof.
  intro Hok. unfold startRun.
  destruct (getPendingUrls (db s)); [|reflexivity].
  unfold scrapeIndex.
  destruct (match statusOf (db s) (indexUrl getUrlWithFrame baseUrl) with
            | Some st => isCompleted st
            | None => false
            end); [reflexivity|].
  unfold doFetch.
  cbn [db urlQueue catalog processedCount requests trace withDb].
  destruct (fetch (requests s) (indexUrl getUrlWithFrame baseUrl))
    as [html|err]; [|reflexivity].
  pose proof (Hok html (indexUrl getUrlWithFrame baseUrl)) as H.
  destruct (parseIndexPage html (indexUrl getUrlWithFrame baseUrl));
    [reflexivity | contradiction].
Qed.

(** X24.  On a finite site the run ends.  When every link of every page
    is, with its frame number, among the URLs of a list [site], there is
    a number of iterations of processQueue within which every run from
    the given table stops: with an empty queue, or by a throw of
    parseIndexPage or of processPage.  It stops with an empty queue when
    parseIndexPage does not throw and the records of every page can be
    written. *)
Theorem run_ends_on_finite_site :
  forall (db0 : ProgressTable) (catalog0 : Catalog),
    exists bound,
      forall fuel,
        bound <= fuel ->
        let result := run fuel (newScraper db0 catalog0) in
        snd result <> OutOfFuel /\
        (snd result = Finished -> urlQueue (fst result) = []) /\
        ((forall html u, parseIndexPage html u <> None) ->
         (forall u html c, snd (persistRecords u html c) = true) ->
         snd result = Finished).
Proof.
  intros db0 catalog0.
  exists (S (work (fst (startRun fetch getUrlWithFrame parseIndexPage
                          insertGroup baseUrl (newScraper db0 catalog0))))).
  intros fuel Hfuel result. subst result. unfold Scheduler.run.
  pose proof (@startRun_no_throw (newScraper db0 catalog0)) as Hstart.
  destruct (startRun fetch getUrlWithFrame parseIndexPage insertGroup
              baseUrl (newScraper db0 catalog0)) as [s1 ok].
  cbn [fst snd] in Hfuel, Hstart. destruct ok.
  - assert (Hends : snd (processQueue fuel s1) <> OutOfFuel)
      by (apply processQueue_ends; lia).
    split; [exact Hends|]. split; [apply processQueue_finished|].
    intros _ Hok.
    pose proof (processQueue_no_throw fuel Hok s1) as Hn.
    destruct (snd (processQueue fuel s1));
      [reflexivity | contradiction | contradiction].
  - cbn [fst snd]. split; [discriminate|]. split; [discriminate|].
    intros Hidx _. specialize (Hstart Hidx). discriminate.
Qed.

End Crawl.

Lemma run_ends_on_finite_site_witness :
  exists bound,
    forall fuel, bound <= fuel -> snd (exampleRun fuel) = Finished.
Proof.
  destruct (@run_ends_on_finite_site
              unit nat (fun _ _ => inl tt) (fun u => u) (fun _ _ => Some [])
              (fun _ _ => [exampleEngine; exampleDetail])
              (fun c _ => c) (fun _ _ c => (S c, true))
              exampleIndex [exampleEngine; exampleDetail]
              (fun _ _ link H => H) exampleDb 0) as (bound & H).
  exists bound. intros fuel Hf. destruct (H fuel Hf) as (_ & _ & H2).
  apply H2; [discriminate | reflexivity].
Defined.

End ProgressFacts.
